(** * Smart-city transportation network: routing, allocation and spanning trees

    A shallow embedding of the algorithmic core of the repository:

    - [src/algorithms/greedy/dijkstra.py]: [get_edge_weight],
      [dijkstra_with_traffic];
    - [src/algorithms/dynamic_programming/dp_solutions.py]:
      [allocate_road_maintenance_resources], [memoized_path_planning];
    - [src/src/utils/graph_utils.py]: [create_graph];
    - [src/algorithms/mst/modified_mst.py]: the three spanning-tree builders.

    Conventions of the embedding.
    - Python floats are exact rationals ([Q], compared with [==]);
      [float('inf')] is the constructor [Inf] of [ext].  Where the code
      truncates a float to an integer, or picks the greatest of values
      that are equal as rationals, rounding decides the outcome: there the
      computation is carried out on binary64 numbers ([PrimFloat.float]),
      operation by operation as the source writes it.
    - Python dictionaries are [gmap]s; a failed subscript is [Raise KeyError].
    - A [while] loop takes a fuel argument and yields [OutOfFuel] when the
      fuel does not suffice; results are always stated for enough fuel.
    - Node identifiers are the strings the source obtains after
      [str(...).strip()]. *)

From Stdlib Require Import QArith Qminmax Qround Lqa Lia.
From Stdlib Require Floats.
From stdpp Require Import gmap strings list fin_maps.

Local Open Scope Q_scope.

(** ** Results of Python code: a value, an exception, or a loop out of fuel *)

Inductive exn := KeyError | ValueError | StopIteration | ZeroDivisionError.

Inductive Res (A : Type) :=
  | Ok (a : A)
  | Raise (e : exn)
  | OutOfFuel.
Arguments Ok {A} a.
Arguments Raise {A} e.
Arguments OutOfFuel {A}.

#[global] Instance Res_ret : MRet Res := @Ok.

#[global] Instance Res_bind : MBind Res := fun A B (k : A -> Res B) (r : Res A) =>
  match r with
  | Ok a => k a
  | Raise e => Raise e
  | OutOfFuel => OutOfFuel
  end.

Definition of_option {A : Type} (o : option A) (e : exn) : Res A :=
  match o with Some a => Ok a | None => Raise e end.

(** [float] extended with [float('inf')]. *)
Inductive ext := Fin (q : Q) | Inf.

(** [a < b] on extended numbers. *)
Definition ext_ltb (a b : ext) : bool :=
  match a, b with
  | Fin x, Fin y => if Qlt_le_dec x y then true else false
  | Fin _, Inf => true
  | Inf, _ => false
  end.

(** ** Strings *)

(** [str.lower()] on ASCII letters. *)
Definition lower_ascii (c : Ascii.ascii) : Ascii.ascii :=
  let n := Ascii.nat_of_ascii c in
  if ((65 <=? n)%nat && (n <=? 90)%nat)%bool then Ascii.ascii_of_nat (n + 32) else c.

Fixpoint lower (s : string) : string :=
  match s with
  | EmptyString => EmptyString
  | String c s' => String (lower_ascii c) (lower s')
  end.

(** Python truthiness of a value that is [None] or a string. *)
Definition truthy (o : option string) : bool :=
  match o with
  | Some s => negb (String.eqb s EmptyString)
  | None => false
  end.

(** ** The network graph (a networkx [MultiGraph]) *)

Inductive RoadType :=
  | existing | potential | bus | metro | virtual_connection | virtual_link.

#[global] Instance RoadType_eq_dec : EqDecision RoadType.
Proof. solve_decision. Defined.

Inductive Mode := car | bus_mode | metro_mode | emergency.

#[global] Instance Mode_eq_dec : EqDecision Mode.
Proof. solve_decision. Defined.

(** The attribute dictionary of an edge; an absent attribute is [None]. *)
Record EdgeData := mkEdgeData {
  distance : option Q;
  capacity : option Q;
  condition : option Q;
  road_type : option RoadType;
  cost : option Q;
  route_id : option string;
  buses_assigned : option Q;
  line_id : option string
}.

(** The attribute dictionary of a node. *)
Record NodeData := mkNodeData {
  name : option string;
  population : option Q;
  type : option string;
  pos : option (Q * Q)
}.

Record Edge := mkEdge {
  e_u : string;
  e_v : string;
  e_key : nat;
  e_data : EdgeData
}.

(** Nodes and edges in insertion order, as the dictionaries of networkx
    keep them. *)
Record Graph := mkGraph {
  g_nodes : list (string * NodeData);
  g_edges : list Edge
}.

Definition node_ids (G : Graph) : list string := (g_nodes G).*1.

Definition has_node (G : Graph) (n : string) : bool := bool_decide (n ∈ node_ids G).

(** The end of [e] opposite to [u], when [e] is incident to [u]. *)
Definition other_end (u : string) (e : Edge) : option string :=
  if decide (e_u e = u) then Some (e_v e)
  else if decide (e_v e = u) then Some (e_u e)
  else None.

Definition joins (u v : string) (e : Edge) : bool :=
  bool_decide ((e_u e = u ∧ e_v e = v) ∨ (e_u e = v ∧ e_v e = u)).

(** [G[u][v]]: the key dictionary of the edges between [u] and [v]. *)
Definition edges_between (G : Graph) (u v : string) : list (nat * EdgeData) :=
  (fun e => (e_key e, e_data e)) <$> filter (fun e => joins u v e = true) (g_edges G).

(** The elements of [l] in order of first occurrence. *)
Fixpoint first_occurrences (seen l : list string) : list string :=
  match l with
  | [] => []
  | x :: l' =>
      if bool_decide (x ∈ seen) then first_occurrences seen l'
      else x :: first_occurrences (x :: seen) l'
  end.

(** The neighbours of [u] in the order of [G[u]]. *)
Definition neighbors (G : Graph) (u : string) : list string :=
  first_occurrences [] (omap (other_end u) (g_edges G)).

(** [G[u].items()], with [G[u]] raising [KeyError] for an unknown node. *)
Definition adj_items (G : Graph) (u : string)
  : Res (list (string * list (nat * EdgeData))) :=
  if has_node G u then Ok ((fun v => (v, edges_between G u v)) <$> neighbors G u)
  else Raise KeyError.

(** [G[u][v][key]]. *)
Definition edge_data (G : Graph) (u v : string) (key : nat) : Res EdgeData :=
  if has_node G u then
    match edges_between G u v with
    | [] => Raise KeyError
    | kd => of_option (snd <$> List.find (fun p => Nat.eqb (fst p) key) kd) KeyError
    end
  else Raise KeyError.

(** ** The traffic table *)

(** [traffic_data]: time period, then ordered node pair, to vehicle flow. *)
Abbreviation TrafficData := (gmap string (gmap (string * string) Q)).

(** [traffic_data.get(period.lower(), {}).get((str(u), str(v)), capacity)] *)
Definition flow_lookup (traffic_data : TrafficData) (period : string)
    (u v : string) (capacity : Q) : Q :=
  default capacity (default ∅ (traffic_data !! lower period) !! (u, v)).

(** ** [get_edge_weight] (dijkstra.py) *)

Definition allowed_road_types (m : Mode) : list RoadType :=
  match m with
  | car => [existing; potential; bus; virtual_connection; virtual_link]
  | bus_mode => [bus]
  | metro_mode => [metro]
  | emergency => [existing; potential; virtual_connection; virtual_link]
  end.

Definition allowed (m : Mode) (rt : option RoadType) : bool :=
  match rt with
  | Some t => bool_decide (t ∈ allowed_road_types m)
  | None => false
  end.

Definition base_speeds (m : Mode) : Q :=
  match m with
  | car => 120
  | bus_mode => 100
  | metro_mode => 90
  | emergency => 100
  end.

(** The flow looked up for the edge, [None] when neither period is given. *)
Definition traffic_flow_of (traffic_data : TrafficData)
    (time_period emergency_time_period : option string)
    (u v : string) (capacity : Q) : option Q :=
  if truthy time_period then
    Some (flow_lookup traffic_data (default EmptyString time_period) u v capacity)
  else if truthy emergency_time_period then
    Some (flow_lookup traffic_data (default EmptyString emergency_time_period) u v capacity)
  else None.

(** [traffic_flow / capacity if capacity > 0 else 1.0], then the cap
    [max(0.5, min(traffic_factor, 1.5))]. *)
Definition traffic_factor (traffic_flow capacity : Q) : Q :=
  let f := if Qlt_le_dec 0 capacity then traffic_flow / capacity else 1 in
  Qmax (1 # 2) (Qmin f (3 # 2)).

Definition uses_traffic (m : Mode) : bool :=
  match m with
  | car | bus_mode | emergency => true
  | metro_mode => false
  end.

Definition effective_speed (m : Mode) (traffic_flow : option Q) (capacity : Q) : Q :=
  match uses_traffic m, traffic_flow with
  | true, Some flow => base_speeds m / traffic_factor flow capacity
  | _, _ => base_speeds m
  end.

Definition get_edge_weight (G : Graph) (traffic_data : TrafficData)
    (u v : string) (key : nat)
    (time_period emergency_time_period : option string)
    (base_distance : Q) (transport_mode : Mode) : Res ext :=
  data ← edge_data G u v key;
  if negb (allowed transport_mode (road_type data)) then Ok Inf
  else
    let capacity := default 2000 (capacity data) in
    let traffic_flow :=
      traffic_flow_of traffic_data time_period emergency_time_period u v capacity in
    let speed := effective_speed transport_mode traffic_flow capacity in
    let distance_km := base_distance / 1000 in
    let time_minutes := (distance_km / speed) * 60 in
    Ok (Fin time_minutes).

(** ** [dijkstra_with_traffic] (dijkstra.py) *)

Definition ext_add (a b : ext) : ext :=
  match a, b with
  | Fin x, Fin y => Fin (x + y)
  | _, _ => Inf
  end.

Definition ext_eqb (a b : ext) : bool :=
  match a, b with
  | Fin x, Fin y => Qeq_bool x y
  | Inf, Inf => true
  | _, _ => false
  end.

(** Tuple comparison [(d1, n1) < (d2, n2)] of heap entries. *)
Definition entry_ltb (a b : ext * string) : bool :=
  ext_ltb a.1 b.1 || (ext_eqb a.1 b.1 && String.ltb a.2 b.2).

(** [heapq.heappop]: the least entry and the remaining entries; the heap is
    kept as the list of its entries. *)
Fixpoint heappop (pq : list (ext * string)) : option ((ext * string) * list (ext * string)) :=
  match pq with
  | [] => None
  | x :: rest =>
      match heappop rest with
      | None => Some (x, [])
      | Some (m, rest') =>
          if entry_ltb m x then Some (m, x :: rest') else Some (x, rest)
      end
  end.

Definition heappush (pq : list (ext * string)) (x : ext * string) : list (ext * string) :=
  x :: pq.

(** [{node: v for node in nodes}] *)
Definition dict_of_nodes {V : Type} (nodes : list string) (v : V) : gmap string V :=
  foldr (fun n m => <[n := v]> m) ∅ nodes.

(** [d[k]] with its [KeyError]. *)
Definition subscript {K V : Type} `{Countable K} (d : gmap K V) (k : K) : Res V :=
  of_option (d !! k) KeyError.

Lemma subscript_Some {K V : Type} `{Countable K} (d : gmap K V) (k : K) (v : V) :
  d !! k = Some v -> subscript d k = Ok v.
Proof. intros E. unfold subscript. rewrite E. reflexivity. Qed.

Record DState := mkDState {
  distances : gmap string ext;
  previous : gmap string (option string);
  edge_keys : gmap string (gmap string nat);
  pq : list (ext * string)
}.

Fixpoint foldM {A S : Type} (f : A -> S -> Res S) (l : list A) (s : S) : Res S :=
  match l with
  | [] => Ok s
  | a :: l' => s' ← f a s; foldM f l' s'
  end.

Lemma foldM_cons {A S : Type} (f : A -> S -> Res S) (a : A) (l : list A) (s : S) :
  foldM f (a :: l) s = (s' ← f a s; foldM f l s').
Proof. reflexivity. Qed.

Lemma bind_Ok {A B : Type} (a : A) (k : A -> Res B) : (Ok a ≫= k) = k a.
Proof. reflexivity. Qed.

Section Dijkstra.
Variable G : Graph.
Variable traffic_data : TrafficData.
Variables start end_ : string.
Variables time_period emergency_time_period : option string.
Variable transport_mode : Mode.

(** The body of the innermost [for key, data in edges.items()] loop. *)
Definition relax (current_node neighbor : string) (kd : nat * EdgeData)
    (st : DState) : Res DState :=
  let '(key, data) := kd in
  let base_distance := default 1000 (distance data) in
  weight ← get_edge_weight G traffic_data current_node neighbor key
             time_period emergency_time_period base_distance transport_mode;
  match weight with
  | Inf => Ok st
  | Fin _ =>
      dcur ← subscript (distances st) current_node;
      let distance := ext_add dcur weight in
      dnb ← subscript (distances st) neighbor;
      if ext_ltb distance dnb then
        ek ← subscript (edge_keys st) neighbor;
        Ok {| distances := <[neighbor := distance]> (distances st);
              previous := <[neighbor := Some current_node]> (previous st);
              edge_keys := <[neighbor := <[current_node := key]> ek]> (edge_keys st);
              pq := heappush (pq st) (distance, neighbor) |}
      else Ok st
  end.

(** [for neighbor, edges in G[current_node].items(): for key, data in ...] *)
Definition expand (current_node : string) (st : DState) : Res DState :=
  items ← adj_items G current_node;
  foldM (fun '(neighbor, edges) st => foldM (relax current_node neighbor) edges st)
        items st.

(** The [while pq:] loop. *)
Fixpoint search (fuel : nat) (st : DState) : Res DState :=
  match fuel with
  | O => OutOfFuel
  | S fuel' =>
      match heappop (pq st) with
      | None => Ok st
      | Some ((current_distance, current_node), pq') =>
          let st := {| distances := distances st; previous := previous st;
                       edge_keys := edge_keys st; pq := pq' |} in
          if decide (current_node = end_) then Ok st
          else
            dcur ← subscript (distances st) current_node;
            if ext_ltb dcur current_distance then search fuel' st
            else st' ← expand current_node st; search fuel' st'
      end
  end.

(** The [while current:] loop of the path reconstruction. *)
Fixpoint walk_back (fuel : nat) (st : DState) (current : option string)
    (path : list string) (total_distance : Q) (total_travel_time : ext)
    : Res (list string * Q * ext) :=
  match fuel with
  | O => OutOfFuel
  | S fuel' =>
      if truthy current then
        let cur := default EmptyString current in
        let path := path ++ [cur] in
        next_node ← subscript (previous st) cur;
        if truthy next_node then
          let nxt := default EmptyString next_node in
          ek ← subscript (edge_keys st) cur;
          key ← subscript ek nxt;
          data ← edge_data G cur nxt key;
          let base_distance := default 1000 (distance data) in
          weight ← get_edge_weight G traffic_data cur nxt key
                     time_period emergency_time_period base_distance transport_mode;
          walk_back fuel' st next_node path
                    (total_distance + base_distance) (ext_add total_travel_time weight)
        else walk_back fuel' st next_node path total_distance total_travel_time
      else Ok (path, total_distance, total_travel_time)
  end.

Record DijkstraResult := mkDijkstraResult {
  path : list string;
  total_distance : Q;
  total_travel_time : ext;
  used_edge_keys : gmap string (gmap string nat)
}.

Definition initial_state : DState :=
  {| distances := <[start := Fin 0]> (dict_of_nodes (node_ids G) Inf);
     previous := dict_of_nodes (node_ids G) None;
     edge_keys := dict_of_nodes (node_ids G) ∅;
     pq := [(Fin 0, start)] |}.

(** The function returns the path, its length in meters, its travel time
    in minutes and the edge keys; the measured execution time is not
    modelled. *)
Definition dijkstra_with_traffic (fuel : nat) : Res DijkstraResult :=
  st ← search fuel initial_state;
  prev_end ← subscript (previous st) end_;
  if truthy prev_end || bool_decide (end_ = start) then
    '(p, d, t) ← walk_back fuel st (Some end_) [] 0 (Fin 0);
    Ok {| path := reverse p; total_distance := d; total_travel_time := t;
          used_edge_keys := edge_keys st |}
  else
    Ok {| path := []; total_distance := 0; total_travel_time := Fin 0;
          used_edge_keys := edge_keys st |}.

End Dijkstra.

(** ** Properties of [get_edge_weight] *)

Lemma Qdiv_pos (a b : Q) : 0 < a -> 0 < b -> 0 < a / b.
Proof.
  intros Ha Hb. unfold Qdiv. apply Qmult_lt_0_compat; [exact Ha|].
  apply Qinv_lt_0_compat. exact Hb.
Qed.

Lemma Qdiv_nonneg (a b : Q) : 0 <= a -> 0 < b -> 0 <= a / b.
Proof.
  intros Ha Hb. unfold Qdiv. apply Qmult_le_0_compat; [exact Ha|].
  apply Qlt_le_weak, Qinv_lt_0_compat. exact Hb.
Qed.

(** The cap [max(0.5, min(x, 1.5))] by cases on [x]. *)
Lemma cap_cases (x : Q) :
  (x <= 1 # 2 /\ Qmax (1 # 2) (Qmin x (3 # 2)) == 1 # 2) \/
  ((1 # 2) <= x <= (3 # 2) /\ Qmax (1 # 2) (Qmin x (3 # 2)) == x) \/
  ((3 # 2) <= x /\ Qmax (1 # 2) (Qmin x (3 # 2)) == 3 # 2).
Proof.
  unfold Qmax, Qmin, GenericMinMax.gmax, GenericMinMax.gmin.
  destruct (Qcompare_spec x (3 # 2)) as [He|Hl|Hg];
    [ destruct (Qcompare_spec (1 # 2) x) as [He'|Hl'|Hg']
    | destruct (Qcompare_spec (1 # 2) x) as [He'|Hl'|Hg']
    | destruct (Qcompare_spec (1 # 2) (3 # 2)) as [He'|Hl'|Hg'] ];
    first [ left; repeat split; lra
          | right; left; repeat split; lra
          | right; right; repeat split; lra ].
Qed.

Lemma traffic_factor_bounds (flow capacity : Q) :
  (1 # 2) <= traffic_factor flow capacity <= (3 # 2).
Proof.
  unfold traffic_factor.
  destruct (cap_cases (if Qlt_le_dec 0 capacity then flow / capacity else 1))
    as [[? ->]|[[? ->]|[? ->]]]; lra.
Qed.

Lemma effective_speed_pos (m : Mode) (flow : option Q) (capacity : Q) :
  0 < effective_speed m flow capacity.
Proof.
  unfold effective_speed.
  assert (Hb : 0 < base_speeds m) by (destruct m; reflexivity).
  destruct (uses_traffic m), flow as [f|]; try exact Hb.
  apply Qdiv_pos; [exact Hb|].
  pose proof (traffic_factor_bounds f capacity). lra.
Qed.

(** On an allowed edge the weight is the travel time at the effective
    speed. *)
Lemma get_edge_weight_allowed G traffic_data u v key tp etp d m data :
  edge_data G u v key = Ok data ->
  allowed m (road_type data) = true ->
  get_edge_weight G traffic_data u v key tp etp d m =
    Ok (Fin (d / 1000 /
             effective_speed m
               (traffic_flow_of traffic_data tp etp u v (default 2000 (capacity data)))
               (default 2000 (capacity data)) * 60)).
Proof.
  intros He Ha. unfold get_edge_weight. rewrite He. simpl. rewrite Ha. reflexivity.
Qed.

Lemma get_edge_weight_forbidden G traffic_data u v key tp etp d m data :
  edge_data G u v key = Ok data ->
  allowed m (road_type data) = false ->
  get_edge_weight G traffic_data u v key tp etp d m = Ok Inf.
Proof.
  intros He Ha. unfold get_edge_weight. rewrite He. simpl. rewrite Ha. reflexivity.
Qed.

(** C8: on an edge with positive capacity, in car, bus and emergency mode,
    the traffic factor applied to a looked-up flow is [flow / capacity]
    capped to the interval from 0.5 to 1.5, and the weight returned is the
    travel time at the speed [base_speed / factor]. *)
Theorem traffic_factor_clamped G traffic_data u v key tp etp d m data flow :
  edge_data G u v key = Ok data ->
  allowed m (road_type data) = true ->
  uses_traffic m = true ->
  0 < default 2000 (capacity data) ->
  traffic_flow_of traffic_data tp etp u v (default 2000 (capacity data)) = Some flow ->
  exists factor : Q,
    (1 # 2) <= factor <= (3 # 2) /\
    factor == traffic_factor flow (default 2000 (capacity data)) /\
    (flow / default 2000 (capacity data) <= 1 # 2 -> factor == 1 # 2) /\
    ((1 # 2) <= flow / default 2000 (capacity data) <= (3 # 2) ->
       factor == flow / default 2000 (capacity data)) /\
    ((3 # 2) <= flow / default 2000 (capacity data) -> factor == 3 # 2) /\
    effective_speed m (Some flow) (default 2000 (capacity data)) == base_speeds m / factor /\
    get_edge_weight G traffic_data u v key tp etp d m =
      Ok (Fin (d / 1000 / effective_speed m (Some flow) (default 2000 (capacity data)) * 60)).
Proof.
  intros He Ha Hm Hc Hf.
  set (c := default 2000 (capacity data)) in *.
  exists (traffic_factor flow c).
  assert (Hcases := cap_cases (flow / c)).
  assert (Htf : traffic_factor flow c == Qmax (1 # 2) (Qmin (flow / c) (3 # 2))).
  { unfold traffic_factor. destruct (Qlt_le_dec 0 c); [reflexivity | lra]. }
  split; [apply traffic_factor_bounds|].
  split; [reflexivity|].
  split; [|split; [|split; [|split]]].
  - intros H. rewrite Htf. destruct Hcases as [[? E]|[[? E]|[? E]]]; rewrite E; lra.
  - intros H. rewrite Htf. destruct Hcases as [[? E]|[[? E]|[? E]]]; rewrite E; lra.
  - intros H. rewrite Htf. destruct Hcases as [[? E]|[[? E]|[? E]]]; rewrite E; lra.
  - unfold effective_speed. rewrite Hm. reflexivity.
  - rewrite (get_edge_weight_allowed _ _ _ _ _ _ _ _ _ _ He Ha). fold c. rewrite Hf.
    reflexivity.
Qed.

(** C9: on an edge of an allowed road type with a positive distance,
    [get_edge_weight] raises nothing and returns a finite, positive number
    of minutes; when the capacity is not positive the factor is 1 (the
    speed is the base speed), and an absent capacity is read as 2000. *)
Theorem get_edge_weight_total G traffic_data u v key tp etp d m data :
  edge_data G u v key = Ok data ->
  allowed m (road_type data) = true ->
  0 < d ->
  exists w : Q,
    get_edge_weight G traffic_data u v key tp etp d m = Ok (Fin w) /\
    0 < w /\
    (forall c, capacity data = Some c -> c <= 0 ->
       (forall flow, traffic_factor flow c == 1) /\
       w == d / 1000 / base_speeds m * 60) /\
    (capacity data = None ->
       w == d / 1000 /
            effective_speed m (traffic_flow_of traffic_data tp etp u v 2000) 2000 * 60).
Proof.
  intros He Ha Hd.
  eexists. split; [apply (get_edge_weight_allowed _ _ _ _ _ _ _ _ _ _ He Ha)|].
  set (c := default 2000 (capacity data)).
  pose proof (effective_speed_pos m (traffic_flow_of traffic_data tp etp u v c) c) as Hs.
  split; [|split].
  - apply Qmult_lt_0_compat; [|reflexivity].
    apply Qdiv_pos; [|exact Hs]. apply Qdiv_pos; [exact Hd | reflexivity].
  - intros c' Hc' Hle.
    assert (Hone : forall flow, traffic_factor flow c' == 1).
    { intros flow. unfold traffic_factor.
      destruct (Qlt_le_dec 0 c') as [Hlt|_]; [lra|]. reflexivity. }
    split; [exact Hone|].
    subst c. rewrite Hc'. simpl.
    assert (Hsp : effective_speed m (traffic_flow_of traffic_data tp etp u v c') c'
                  == base_speeds m).
    { unfold effective_speed.
      destruct (uses_traffic m), (traffic_flow_of traffic_data tp etp u v c');
        try reflexivity.
      rewrite Hone. field. }
    rewrite Hsp. reflexivity.
  - intros Hnone. subst c. rewrite Hnone. reflexivity.
Qed.

(** ** Example networks *)

Definition plain_node : NodeData :=
  {| name := None; population := None; type := None; pos := None |}.

Definition road (rt : RoadType) (d c : Q) : EdgeData :=
  {| distance := Some d; capacity := Some c; condition := Some 7;
     road_type := Some rt; cost := Some 0; route_id := None; buses_assigned := None;
     line_id := None |}.

(** Two places joined by one road of the given type. *)
Definition two_places (rt : RoadType) (d c : Q) : Graph :=
  {| g_nodes := [("a"%string, plain_node); ("b"%string, plain_node)];
     g_edges := [ {| e_u := "a"; e_v := "b"; e_key := 0; e_data := road rt d c |} ] |}.

(** A morning flow of 1500 vehicles per hour recorded for the road "a-b". *)
Definition morning_rush : TrafficData :=
  {[ "morning"%string := {[ ("a"%string, "b"%string) := 1500 ]} ]}.

Lemma traffic_factor_clamped_witness :
  exists factor : Q,
    (1 # 2) <= factor <= (3 # 2) /\ factor == 3 # 2 /\
    get_edge_weight (two_places existing 1000 1000) morning_rush "a" "b" 0
      (Some "morning"%string) None 1000 car =
    Ok (Fin (1000 / 1000 /
             effective_speed car (Some 1500) (default 2000 (Some 1000)) * 60)).
Proof.
  destruct (traffic_factor_clamped (two_places existing 1000 1000) morning_rush
              "a" "b" 0 (Some "morning"%string) None 1000 car
              (road existing 1000 1000) 1500)
    as (f & Hb & _ & _ & _ & Hhi & _ & Hw); try reflexivity.
  exists f. split; [exact Hb|]. split; [|exact Hw].
  apply Hhi. vm_compute. discriminate.
Defined.

Lemma get_edge_weight_total_witness :
  exists w : Q,
    get_edge_weight (two_places existing 1000 0) morning_rush "a" "b" 0
      (Some "morning"%string) None 1000 car = Ok (Fin w) /\ 0 < w.
Proof.
  destruct (get_edge_weight_total (two_places existing 1000 0) morning_rush
              "a" "b" 0 (Some "morning"%string) None 1000 car
              (road existing 1000 0))
    as (w & Hw & Hpos & _); try reflexivity.
  exists w. split; assumption.
Defined.

(** ** Reachability in the network *)

(** Networkx keeps both ends of every edge among the nodes. *)
Definition wf_graph (G : Graph) : Prop :=
  forall e, e ∈ g_edges G -> e_u e ∈ node_ids G /\ e_v e ∈ node_ids G.

(** One edge of a road type allowed for the mode joins [u] and [v]. *)
Definition allowed_step (G : Graph) (m : Mode) (u v : string) : Prop :=
  exists e, e ∈ g_edges G /\ joins u v e = true /\ allowed m (road_type (e_data e)) = true.

(** [v] can be reached from [u] over edges allowed for the mode. *)
Definition reachable (G : Graph) (m : Mode) : string -> string -> Prop :=
  rtc (allowed_step G m).

(** No edge has a negative length (the default of 1000 m applies to an
    edge without the attribute). *)
Definition nonneg_distances (G : Graph) : Prop :=
  forall e, e ∈ g_edges G -> 0 <= default 1000 (distance (e_data e)).

(** ** Dictionaries and the heap *)

Lemma dict_of_nodes_lookup {V : Type} (nodes : list string) (v : V) (n : string) :
  dict_of_nodes nodes v !! n = if bool_decide (n ∈ nodes) then Some v else None.
Proof.
  induction nodes as [|x nodes IH]; simpl.
  - rewrite lookup_empty. reflexivity.
  - destruct (decide (x = n)) as [->|Hne].
    + rewrite lookup_insert_eq. rewrite bool_decide_eq_true_2; [reflexivity|].
      apply list_elem_of_here.
    + rewrite lookup_insert_ne by exact Hne. rewrite IH.
      destruct (bool_decide (n ∈ nodes)) eqn:E.
      * apply bool_decide_eq_true_1 in E.
        rewrite bool_decide_eq_true_2; [reflexivity|]. apply list_elem_of_further, E.
      * apply bool_decide_eq_false_1 in E.
        rewrite bool_decide_eq_false_2; [reflexivity|].
        intros [?|?]%elem_of_cons; congruence.
Qed.

Lemma ext_ltb_Fin (x y : Q) : ext_ltb (Fin x) (Fin y) = true <-> x < y.
Proof.
  simpl. destruct (Qlt_le_dec x y); split; intros; try reflexivity;
    try assumption; try discriminate. lra.
Qed.

Lemma ext_ltb_Fin_false (x y : Q) : ext_ltb (Fin x) (Fin y) = false <-> y <= x.
Proof.
  simpl. destruct (Qlt_le_dec x y); split; intros; try reflexivity;
    try assumption; try discriminate. lra.
Qed.

(** [a] is not above [b]. *)
Definition ext_le (a b : ext) : Prop := ext_ltb b a = false.

Lemma ext_le_trans_Fin (a b c : ext) :
  ext_le a b -> ext_le b c -> ext_le a c.
Proof.
  unfold ext_le. destruct a as [x|], b as [y|], c as [z|]; simpl; try congruence;
    try (intros; reflexivity).
  destruct (Qlt_le_dec y x), (Qlt_le_dec z y), (Qlt_le_dec z x);
    intros; try reflexivity; try discriminate. lra.
Qed.

Lemma entry_ltb_false_le (a b : ext * string) : entry_ltb a b = false -> ext_le b.1 a.1.
Proof.
  unfold entry_ltb, ext_le. intros H. apply orb_false_iff in H. apply H.
Qed.

Lemma entry_ltb_true_le (a b : ext * string) : entry_ltb a b = true -> ext_le a.1 b.1.
Proof.
  unfold entry_ltb, ext_le. destruct a as [[x|] n], b as [[y|] n']; simpl;
    intros H; try reflexivity; try discriminate.
  destruct (Qlt_le_dec y x) as [Hlt|]; [|reflexivity].
  destruct (Qlt_le_dec x y) as [Hlt'|]; [lra|]. simpl in H.
  apply andb_true_iff in H as [H _]. apply Qeq_bool_iff in H. lra.
Qed.

(** [heappop] removes one entry, and that entry has the least key. *)
Lemma heappop_spec (pq0 : list (ext * string)) x rest :
  heappop pq0 = Some (x, rest) ->
  (forall y, y ∈ pq0 <-> y = x \/ y ∈ rest) /\
  length pq0 = S (length rest) /\
  (forall y, y ∈ rest -> ext_le x.1 y.1).
Proof.
  revert x rest. induction pq0 as [|a pq0 IH]; intros x rest H; [discriminate|].
  simpl in H. destruct (heappop pq0) as [[m rest']|] eqn:E.
  - destruct (IH m rest' eq_refl) as (Hiff & Hlen & Hmin).
    destruct (entry_ltb m a) eqn:Elt; inversion H; subst; clear H.
    + split; [|split].
      * intros y. rewrite !elem_of_cons, Hiff. tauto.
      * simpl. rewrite Hlen. reflexivity.
      * intros y [->|Hy]%elem_of_cons;
          [apply entry_ltb_true_le, Elt | apply Hmin, Hy].
    + split; [|split].
      * intros y. rewrite elem_of_cons. tauto.
      * reflexivity.
      * intros y Hy.
        assert (Hxm : ext_le x.1 m.1) by apply entry_ltb_false_le, Elt.
        apply Hiff in Hy as [->|Hy]; [exact Hxm|].
        eapply ext_le_trans_Fin; [exact Hxm | apply Hmin, Hy].
  - inversion H; subst; clear H.
    destruct pq0; [|simpl in E; destruct (heappop pq0) as [[? ?]|];
                     [destruct (entry_ltb _ _)|]; discriminate].
    split; [|split].
    + intros y. rewrite elem_of_cons. tauto.
    + reflexivity.
    + intros y Hy. inversion Hy.
Qed.

Lemma heappop_None (pq0 : list (ext * string)) : heappop pq0 = None -> pq0 = [].
Proof.
  destruct pq0; [reflexivity|]. simpl.
  destruct (heappop pq0) as [[? ?]|]; [destruct (entry_ltb _ _)|]; discriminate.
Qed.

Arguments ext_ltb : simpl never.

(** ** The adjacency structure *)

Lemma elem_of_edges_between G u v k d :
  (k, d) ∈ edges_between G u v <->
  exists e, e ∈ g_edges G /\ joins u v e = true /\ e_key e = k /\ e_data e = d.
Proof.
  unfold edges_between. rewrite list_elem_of_fmap. split.
  - intros (e & Heq & He). apply list_elem_of_filter in He as [Hj He].
    inversion Heq; subst. exists e. auto.
  - intros (e & He & Hj & <- & <-). exists e. split; [reflexivity|].
    apply list_elem_of_filter. auto.
Qed.

Lemma first_occurrences_complete (seen l : list string) (x : string) :
  x ∈ l -> x ∈ seen \/ x ∈ first_occurrences seen l.
Proof.
  revert seen. induction l as [|a l IH]; intros seen Hx; [inversion Hx|].
  simpl. apply elem_of_cons in Hx as [->|Hx].
  - destruct (bool_decide (a ∈ seen)) eqn:E.
    + left. apply bool_decide_eq_true_1 in E. exact E.
    + right. apply list_elem_of_here.
  - destruct (bool_decide (a ∈ seen)) eqn:E.
    + apply IH, Hx.
    + destruct (IH (a :: seen) Hx) as [[->|H]%elem_of_cons|H].
      * right. apply list_elem_of_here.
      * left. exact H.
      * right. apply list_elem_of_further, H.
Qed.

Lemma joins_other_end (u v : string) (e : Edge) :
  joins u v e = true -> other_end u e = Some v.
Proof.
  unfold joins, other_end. intros H. apply bool_decide_eq_true_1 in H.
  destruct (decide (e_u e = u)) as [Hu|Hu].
  - destruct H as [[_ Hv]|[Hv Hu']]; congruence.
  - destruct (decide (e_v e = u)) as [Hv|Hv].
    + destruct H as [[Hu' _]|[Hv' _]]; congruence.
    + destruct H as [[Hu' _]|[_ Hv']]; congruence.
Qed.

Lemma joins_sym (u v : string) (e : Edge) : joins u v e = joins v u e.
Proof.
  unfold joins.
  destruct (bool_decide ((e_u e = u ∧ e_v e = v) ∨ (e_u e = v ∧ e_v e = u))) eqn:E1,
           (bool_decide ((e_u e = v ∧ e_v e = u) ∨ (e_u e = u ∧ e_v e = v))) eqn:E2;
    try reflexivity.
  - apply bool_decide_eq_true_1 in E1. apply bool_decide_eq_false_1 in E2. tauto.
  - apply bool_decide_eq_true_1 in E2. apply bool_decide_eq_false_1 in E1. tauto.
Qed.

Lemma edges_between_neighbor G u v k d :
  (k, d) ∈ edges_between G u v -> v ∈ neighbors G u.
Proof.
  intros (e & He & Hj & _)%elem_of_edges_between. unfold neighbors.
  destruct (first_occurrences_complete [] (omap (other_end u) (g_edges G)) v)
    as [H|H]; [|inversion H|exact H].
  apply list_elem_of_omap. exists e. split; [exact He | apply joins_other_end, Hj].
Qed.

Lemma joins_in_nodes G u v e :
  wf_graph G -> e ∈ g_edges G -> joins u v e = true -> v ∈ node_ids G.
Proof.
  intros Hwf He Hj. destruct (Hwf e He) as [Hu Hv].
  apply bool_decide_eq_true_1 in Hj. destruct Hj as [[_ <-]|[<- _]]; assumption.
Qed.

(** [G[u][v][key]] succeeds for a key listed in [G[u][v]]. *)
Lemma edge_data_listed G u v k d :
  u ∈ node_ids G -> (k, d) ∈ edges_between G u v ->
  exists d', edge_data G u v k = Ok d' /\ (k, d') ∈ edges_between G u v.
Proof.
  intros Hu Hkd. unfold edge_data, has_node.
  rewrite bool_decide_eq_true_2 by exact Hu.
  destruct (edges_between G u v) as [|p kds] eqn:E; [inversion Hkd|].
  destruct (List.find (fun p0 => Nat.eqb p0.1 k) (p :: kds)) as [[k' d']|] eqn:F.
  - apply List.find_some in F as [Hin Hk]. simpl in Hk. apply Nat.eqb_eq in Hk. subst k'.
    exists d'. split; [reflexivity|]. apply list_elem_of_In. exact Hin.
  - exfalso. apply list_elem_of_In in Hkd.
    pose proof (List.find_none _ _ F _ Hkd) as Hk. simpl in Hk.
    rewrite Nat.eqb_refl in Hk. discriminate.
Qed.

(** ** Invariants of the search loop *)

Section DijkstraInvariant.
Variable G : Graph.
Variable traffic_data : TrafficData.
Variables start end_ : string.
Variables time_period emergency_time_period : option string.
Variable transport_mode : Mode.
Hypothesis Hwf : wf_graph G.
Hypothesis Hnn : nonneg_distances G.

(** The weight the search computes for the edge [(key, data)] of
    [G[x][v]]. *)
Definition edge_weight (x v : string) (key : nat) (data : EdgeData) : Res ext :=
  get_edge_weight G traffic_data x v key time_period emergency_time_period
    (default 1000 (distance data)) transport_mode.

Lemma edge_weight_cases x v k d :
  x ∈ node_ids G -> (k, d) ∈ edges_between G x v ->
  edge_weight x v k d = Ok Inf \/
  exists w, edge_weight x v k d = Ok (Fin w) /\ 0 <= w /\
            allowed_step G transport_mode x v.
Proof using Hnn.
  intros Hx Hkd.
  destruct (edge_data_listed G x v k d Hx Hkd) as (d' & Hd' & Hkd').
  apply elem_of_edges_between in Hkd as (e & He & _ & _ & <-).
  apply elem_of_edges_between in Hkd' as (e' & He' & Hj' & _ & <-).
  unfold edge_weight.
  destruct (allowed transport_mode (road_type (e_data e'))) eqn:Ha.
  - right. eexists. split; [apply (get_edge_weight_allowed _ _ _ _ _ _ _ _ _ _ Hd' Ha)|].
    split; [|exists e'; auto].
    apply Qmult_le_0_compat; [|discriminate].
    apply Qdiv_nonneg; [|apply effective_speed_pos].
    apply Qdiv_nonneg; [apply Hnn, He | reflexivity].
  - left. apply (get_edge_weight_forbidden _ _ _ _ _ _ _ _ _ _ Hd' Ha).
Qed.

Lemma relax_Inf st x v k d :
  edge_weight x v k d = Ok Inf ->
  relax G traffic_data time_period emergency_time_period transport_mode
        x v (k, d) st = Ok st.
Proof. intros Hw. unfold relax. fold (edge_weight x v k d). rewrite Hw. reflexivity. Qed.

Lemma relax_Fin st x v k d w dcur dnb ek :
  edge_weight x v k d = Ok (Fin w) ->
  distances st !! x = Some dcur ->
  distances st !! v = Some dnb ->
  edge_keys st !! v = Some ek ->
  relax G traffic_data time_period emergency_time_period transport_mode
        x v (k, d) st =
  if ext_ltb (ext_add dcur (Fin w)) dnb then
    Ok {| distances := <[v := ext_add dcur (Fin w)]> (distances st);
          previous := <[v := Some x]> (previous st);
          edge_keys := <[v := <[x := k]> ek]> (edge_keys st);
          pq := heappush (pq st) (ext_add dcur (Fin w), v) |}
  else Ok st.
Proof.
  intros Hw Hx Hv Hek. unfold relax. fold (edge_weight x v k d). rewrite Hw, bind_Ok.
  rewrite (subscript_Some _ _ _ Hx), bind_Ok, (subscript_Some _ _ _ Hv), bind_Ok.
  destruct (ext_ltb (ext_add dcur (Fin w)) dnb); [|reflexivity].
  rewrite (subscript_Some _ _ _ Hek), bind_Ok. reflexivity.
Qed.

(** Every edge out of [x] has been relaxed at the distance [q] of [x]. *)
Definition closed (st : DState) (x : string) (q : Q) : Prop :=
  forall v k d w, (k, d) ∈ edges_between G x v ->
    edge_weight x v k d = Ok (Fin w) ->
    exists q', distances st !! v = Some (Fin q') /\ q' <= q + w.

(** [X] holds the nodes expanded so far and [L] is a lower bound of the
    keys still in the queue. *)
Record Inv (X : list string) (L : Q) (st : DState) : Prop := {
  inv_dist : forall n, n ∈ node_ids G -> is_Some (distances st !! n);
  inv_prev : forall n, n ∈ node_ids G -> is_Some (previous st !! n);
  inv_keys : forall n, n ∈ node_ids G -> is_Some (edge_keys st !! n);
  inv_pq : forall d n, (d, n) ∈ pq st ->
    n ∈ node_ids G /\ reachable G transport_mode start n /\
    exists q q', d = Fin q /\ L <= q /\ distances st !! n = Some (Fin q') /\ q' <= q;
  inv_reach : forall n p, previous st !! n = Some (Some p) ->
    reachable G transport_mode start n;
  inv_X : forall x, x ∈ X ->
    x ∈ node_ids G /\
    exists q, distances st !! x = Some (Fin q) /\ q <= L /\ closed st x q
}.

(** Distances only decrease. *)
Definition mono (st st' : DState) : Prop :=
  forall n q0, distances st !! n = Some (Fin q0) ->
    exists q1, distances st' !! n = Some (Fin q1) /\ q1 <= q0.

Lemma mono_refl st : mono st st.
Proof. intros n q0 H. exists q0. split; [exact H | lra]. Qed.

Lemma mono_trans st1 st2 st3 : mono st1 st2 -> mono st2 st3 -> mono st1 st3.
Proof.
  intros H12 H23 n q0 H. destruct (H12 n q0 H) as (q1 & H1 & Hle1).
  destruct (H23 n q1 H1) as (q2 & H2 & Hle2). exists q2. split; [exact H2 | lra].
Qed.

Lemma closed_mono st st' x q : mono st st' -> closed st x q -> closed st' x q.
Proof.
  intros Hm Hc v k d w Hkd Hw. destruct (Hc v k d w Hkd Hw) as (q' & Hq' & Hle).
  destruct (Hm v q' Hq') as (q1 & Hq1 & Hle1). exists q1. split; [exact Hq1 | lra].
Qed.

(** Relaxing an edge out of a node whose edges are all relaxed changes
    nothing. *)
Lemma relax_closed st x v k d q :
  x ∈ node_ids G -> distances st !! x = Some (Fin q) -> closed st x q ->
  (k, d) ∈ edges_between G x v ->
  relax G traffic_data time_period emergency_time_period transport_mode
        x v (k, d) st = Ok st.
Proof using Hnn.
  intros Hx Hdx Hc Hkd. unfold relax. fold (edge_weight x v k d).
  destruct (edge_weight_cases x v k d Hx Hkd) as [Hw|(w & Hw & _ & _)];
    rewrite Hw; simpl; [reflexivity|].
  destruct (Hc v k d w Hkd Hw) as (q' & Hq' & Hle).
  unfold subscript. rewrite Hdx, Hq'. simpl.
  unfold ext_ltb. destruct (Qlt_le_dec (q + w) q'); [lra | reflexivity].
Qed.

Lemma relax_ok X L st x v k d q :
  Inv X L st -> x ∈ node_ids G -> reachable G transport_mode start x ->
  distances st !! x = Some (Fin q) -> L <= q ->
  (k, d) ∈ edges_between G x v ->
  exists st',
    relax G traffic_data time_period emergency_time_period transport_mode
          x v (k, d) st = Ok st' /\
    Inv X L st' /\ distances st' !! x = Some (Fin q) /\ mono st st' /\
    (forall w, edge_weight x v k d = Ok (Fin w) ->
       exists q', distances st' !! v = Some (Fin q') /\ q' <= q + w).
Proof using Hwf Hnn.
  intros HI Hx Hrx Hdx HLq Hkd. unfold relax. fold (edge_weight x v k d).
  assert (Hv : v ∈ node_ids G).
  { apply elem_of_edges_between in Hkd as (e & He & Hj & _).
    eapply joins_in_nodes; eauto. }
  destruct (edge_weight_cases x v k d Hx Hkd) as [Hw|(w & Hw & Hw0 & Hstep)];
    rewrite Hw; simpl.
  { exists st. split; [reflexivity|]. split; [exact HI|]. split; [exact Hdx|].
    split; [apply mono_refl|]. intros w' Hw'. discriminate. }
  unfold subscript. rewrite Hdx. simpl.
  destruct (inv_dist _ _ _ HI v Hv) as [dv Hdv]. rewrite Hdv. simpl.
  destruct (ext_ltb (Fin (q + w)) dv) eqn:Elt.
  - destruct (inv_keys _ _ _ HI v Hv) as [ek Hek]. rewrite Hek. simpl.
    assert (Hvx : v <> x).
    { intros ->. rewrite Hdx in Hdv. inversion Hdv; subst.
      apply ext_ltb_Fin in Elt. lra. }
    assert (Hlow : forall q0, dv = Fin q0 -> q + w < q0).
    { intros q0 ->. apply ext_ltb_Fin in Elt. exact Elt. }
    eexists. split; [reflexivity|].
    assert (Hmono : mono st
      {| distances := <[v:=Fin (q + w)]> (distances st);
         previous := <[v:=Some x]> (previous st);
         edge_keys := <[v:=<[x:=k]> ek]> (edge_keys st);
         pq := heappush (pq st) (Fin (q + w), v) |}).
    { intros n q0 Hn. simpl. destruct (decide (v = n)) as [->|Hne].
      - rewrite lookup_insert_eq. exists (q + w). split; [reflexivity|].
        rewrite Hdv in Hn. inversion Hn; subst.
        specialize (Hlow q0 eq_refl). lra.
      - rewrite lookup_insert_ne by exact Hne. exists q0. split; [exact Hn | lra]. }
    split; [|split; [|split; [exact Hmono|]]].
    + constructor; simpl.
      * intros n Hn. destruct (decide (v = n)) as [->|Hne];
          [rewrite lookup_insert_eq; eauto
          | rewrite lookup_insert_ne by exact Hne; apply (inv_dist _ _ _ HI n Hn)].
      * intros n Hn. destruct (decide (v = n)) as [->|Hne];
          [rewrite lookup_insert_eq; eauto
          | rewrite lookup_insert_ne by exact Hne; apply (inv_prev _ _ _ HI n Hn)].
      * intros n Hn. destruct (decide (v = n)) as [->|Hne];
          [rewrite lookup_insert_eq; eauto
          | rewrite lookup_insert_ne by exact Hne; apply (inv_keys _ _ _ HI n Hn)].
      * intros d0 n Hin. unfold heappush in Hin.
        apply elem_of_cons in Hin as [Heq|Hin].
        -- inversion Heq; subst. split; [exact Hv|].
           split; [eapply rtc_r; [exact Hrx | exact Hstep]|].
           exists (q + w), (q + w). rewrite lookup_insert_eq.
           repeat split; try reflexivity; lra.
        -- destruct (inv_pq _ _ _ HI d0 n Hin) as (Hn & Hrn & q1 & q2 & -> & HL & Hq2 & Hle).
           split; [exact Hn|]. split; [exact Hrn|].
           destruct (Hmono n q2 Hq2) as (q3 & Hq3 & Hle3). simpl in Hq3.
           exists q1, q3. repeat split; try assumption; try reflexivity. lra.
      * intros n p Hn. destruct (decide (v = n)) as [->|Hne].
        -- eapply rtc_r; [exact Hrx | exact Hstep].
        -- rewrite lookup_insert_ne in Hn by exact Hne. apply (inv_reach _ _ _ HI n p Hn).
      * intros y Hy. destruct (inv_X _ _ _ HI y Hy) as (Hyn & qy & Hqy & HqL & Hcl).
        split; [exact Hyn|]. exists qy.
        assert (Hvy : v <> y).
        { intros ->. rewrite Hqy in Hdv. inversion Hdv; subst.
          specialize (Hlow qy eq_refl). lra. }
        rewrite lookup_insert_ne by exact Hvy.
        split; [exact Hqy|]. split; [exact HqL|].
        eapply closed_mono; [exact Hmono | exact Hcl].
    + simpl. rewrite lookup_insert_ne by exact Hvx. exact Hdx.
    + intros w' Hw'. inversion Hw'; subst. simpl.
      rewrite lookup_insert_eq. exists (q + w'). split; [reflexivity | lra].
  - exists st. split; [reflexivity|]. split; [exact HI|]. split; [exact Hdx|].
    split; [apply mono_refl|].
    intros w' Hw'. inversion Hw'; subst.
    destruct dv as [q'|]; [|discriminate].
    apply ext_ltb_Fin_false in Elt. exists q'. split; [exact Hdv | exact Elt].
Qed.

Lemma relax_edges_ok X L x v q kds : forall st,
  Inv X L st -> x ∈ node_ids G -> reachable G transport_mode start x ->
  distances st !! x = Some (Fin q) -> L <= q ->
  (forall kd, kd ∈ kds -> kd ∈ edges_between G x v) ->
  exists st',
    foldM (relax G traffic_data time_period emergency_time_period transport_mode x v)
          kds st = Ok st' /\
    Inv X L st' /\ distances st' !! x = Some (Fin q) /\ mono st st' /\
    (forall k d w, (k, d) ∈ kds -> edge_weight x v k d = Ok (Fin w) ->
       exists q', distances st' !! v = Some (Fin q') /\ q' <= q + w).
Proof using Hwf Hnn.
  induction kds as [|[k d] kds IH]; intros st HI Hx Hrx Hdx HLq Hsub.
  - exists st. split; [reflexivity|]. split; [exact HI|]. split; [exact Hdx|].
    split; [apply mono_refl|]. intros k d w Hin. inversion Hin.
  - destruct (relax_ok X L st x v k d q HI Hx Hrx Hdx HLq)
      as (st1 & Hr & HI1 & Hdx1 & Hm1 & Hv1); [apply Hsub, list_elem_of_here|].
    destruct (IH st1 HI1 Hx Hrx Hdx1 HLq) as (st' & Hf & HI' & Hdx' & Hm' & Hv');
      [intros kd Hkd; apply Hsub, list_elem_of_further, Hkd|].
    exists st'. rewrite foldM_cons, Hr, bind_Ok.
    split; [exact Hf|]. split; [exact HI'|]. split; [exact Hdx'|].
    split; [eapply mono_trans; eauto|].
    intros k0 d0 w Hin Hw. apply elem_of_cons in Hin as [Heq|Hin].
    + inversion Heq; subst. destruct (Hv1 w Hw) as (q1 & Hq1 & Hle1).
      destruct (Hm' v q1 Hq1) as (q2 & Hq2 & Hle2). exists q2. split; [exact Hq2 | lra].
    + apply (Hv' k0 d0 w Hin Hw).
Qed.

Lemma expand_items_ok X L x q vs : forall st,
  Inv X L st -> x ∈ node_ids G -> reachable G transport_mode start x ->
  distances st !! x = Some (Fin q) -> L <= q ->
  exists st',
    foldM (fun '(neighbor, edges) st =>
             foldM (relax G traffic_data time_period emergency_time_period
                          transport_mode x neighbor) edges st)
          ((fun v => (v, edges_between G x v)) <$> vs) st = Ok st' /\
    Inv X L st' /\ distances st' !! x = Some (Fin q) /\ mono st st' /\
    (forall v k d w, v ∈ vs -> (k, d) ∈ edges_between G x v ->
       edge_weight x v k d = Ok (Fin w) ->
       exists q', distances st' !! v = Some (Fin q') /\ q' <= q + w).
Proof using Hwf Hnn.
  induction vs as [|v vs IH]; intros st HI Hx Hrx Hdx HLq.
  - exists st. split; [reflexivity|]. split; [exact HI|]. split; [exact Hdx|].
    split; [apply mono_refl|]. intros v k d w Hin. inversion Hin.
  - destruct (relax_edges_ok X L x v q (edges_between G x v) st HI Hx Hrx Hdx HLq)
      as (st1 & Hr & HI1 & Hdx1 & Hm1 & Hv1); [auto|].
    destruct (IH st1 HI1 Hx Hrx Hdx1 HLq) as (st' & Hf & HI' & Hdx' & Hm' & Hv').
    exists st'. rewrite fmap_cons, foldM_cons, Hr, bind_Ok.
    split; [exact Hf|]. split; [exact HI'|]. split; [exact Hdx'|].
    split; [eapply mono_trans; eauto|].
    intros v0 k d w Hin Hkd Hw. apply elem_of_cons in Hin as [->|Hin].
    + destruct (Hv1 k d w Hkd Hw) as (q1 & Hq1 & Hle1).
      destruct (Hm' v q1 Hq1) as (q2 & Hq2 & Hle2). exists q2. split; [exact Hq2 | lra].
    + apply (Hv' v0 k d w Hin Hkd Hw).
Qed.

(** Expanding [x] at its distance [q], a lower bound of the queue, keeps
    the invariant and closes [x]. *)
Lemma expand_ok X st x q :
  Inv X q st -> x ∈ node_ids G -> reachable G transport_mode start x ->
  distances st !! x = Some (Fin q) ->
  exists st',
    expand G traffic_data time_period emergency_time_period transport_mode x st = Ok st' /\
    Inv (x :: X) q st'.
Proof using Hwf Hnn.
  intros HI Hx Hrx Hdx. unfold expand, adj_items, has_node.
  rewrite bool_decide_eq_true_2 by exact Hx. simpl.
  destruct (expand_items_ok X q x q (neighbors G x) st HI Hx Hrx Hdx)
    as (st' & Hf & HI' & Hdx' & Hm & Hv); [lra|].
  exists st'. split; [exact Hf|].
  destruct HI' as [H1 H2 H3 H4 H5 H6]. constructor; try assumption.
  intros y [->|Hy]%elem_of_cons; [|apply H6, Hy].
  split; [exact Hx|]. exists q. split; [exact Hdx'|]. split; [lra|].
  intros v k d w Hkd Hw. apply (Hv v k d w); [|exact Hkd|exact Hw].
  eapply edges_between_neighbor, Hkd.
Qed.

Lemma relax_edges_closed st x v q kds :
  x ∈ node_ids G -> distances st !! x = Some (Fin q) -> closed st x q ->
  (forall kd, kd ∈ kds -> kd ∈ edges_between G x v) ->
  foldM (relax G traffic_data time_period emergency_time_period transport_mode x v)
        kds st = Ok st.
Proof using Hnn.
  intros Hx Hdx Hc. induction kds as [|[k d] kds IH]; intros Hsub; [reflexivity|].
  rewrite foldM_cons, (relax_closed st x v k d q Hx Hdx Hc), bind_Ok
    by apply Hsub, list_elem_of_here.
  apply IH. intros kd Hkd. apply Hsub, list_elem_of_further, Hkd.
Qed.

(** Expanding a node a second time changes nothing. *)
Lemma expand_closed st x q :
  x ∈ node_ids G -> distances st !! x = Some (Fin q) -> closed st x q ->
  expand G traffic_data time_period emergency_time_period transport_mode x st = Ok st.
Proof using Hnn.
  intros Hx Hdx Hc. unfold expand, adj_items, has_node.
  rewrite bool_decide_eq_true_2 by exact Hx. simpl.
  induction (neighbors G x) as [|v vs IH]; [reflexivity|].
  rewrite fmap_cons, foldM_cons, (relax_edges_closed st x v q), bind_Ok by auto.
  exact IH.
Qed.

(** The number of nodes not yet expanded. *)
Definition unexpanded (X : list string) : nat :=
  length (filter (fun n => n ∉ X) (node_ids G)).

Lemma unexpanded_cons x X :
  x ∈ node_ids G -> x ∉ X -> (unexpanded (x :: X) < unexpanded X)%nat.
Proof.
  unfold unexpanded. intros Hx HX.
  induction (node_ids G) as [|n l IH]; [inversion Hx|].
  assert (Hle : forall l', (length (filter (fun n => n ∉ x :: X) l')
                            <= length (filter (fun n => n ∉ X) l'))%nat).
  { induction l' as [|n' l' IH']; [reflexivity|].
    rewrite !filter_cons.
    destruct (decide (n' ∉ x :: X)) as [H1|H1], (decide (n' ∉ X)) as [H2|H2];
      simpl; try lia.
    exfalso. apply H2. intros H. apply H1. apply list_elem_of_further, H. }
  rewrite !filter_cons. apply elem_of_cons in Hx as [->|Hx].
  - destruct (decide (n ∉ n :: X)) as [H1|H1]; [exfalso; apply H1, list_elem_of_here|].
    destruct (decide (n ∉ X)) as [H2|H2]; [|contradiction].
    simpl. specialize (Hle l). lia.
  - specialize (IH Hx).
    destruct (decide (n ∉ x :: X)) as [H1|H1], (decide (n ∉ X)) as [H2|H2];
      simpl; try lia.
    exfalso. apply H2. intros H. apply H1. apply list_elem_of_further, H.
Qed.

Lemma inv_raise X L L' st :
  Inv X L st -> L <= L' ->
  (forall d n, (d, n) ∈ pq st -> exists q, d = Fin q /\ L' <= q) ->
  Inv X L' st.
Proof.
  intros [H1 H2 H3 H4 H5 H6] HL Hpq. constructor; try assumption.
  - intros d n Hin. destruct (H4 d n Hin) as (Hn & Hr & q & q' & -> & _ & Hq' & Hle).
    split; [exact Hn|]. split; [exact Hr|].
    destruct (Hpq _ _ Hin) as (q0 & Heq & Hq0). inversion Heq; subst.
    exists q0, q'. auto.
  - intros x Hx. destruct (H6 x Hx) as (Hn & q & Hq & Hle & Hc).
    split; [exact Hn|]. exists q. split; [exact Hq|]. split; [lra | exact Hc].
Qed.

(** The state after [heappop]. *)
Definition popped (st : DState) (pq' : list (ext * string)) : DState :=
  {| distances := distances st; previous := previous st;
     edge_keys := edge_keys st; pq := pq' |}.

Lemma pop_inv X L st d n pq' :
  Inv X L st -> heappop (pq st) = Some ((d, n), pq') ->
  exists k q',
    d = Fin k /\ L <= k /\ distances st !! n = Some (Fin q') /\ q' <= k /\
    n ∈ node_ids G /\ reachable G transport_mode start n /\
    Inv X L (popped st pq') /\
    (forall d' n', (d', n') ∈ pq' -> exists q, d' = Fin q /\ k <= q).
Proof.
  intros HI Hpop. destruct (heappop_spec _ _ _ Hpop) as (Hiff & _ & Hmin).
  destruct (inv_pq _ _ _ HI d n) as (Hn & Hr & k & q' & -> & HL & Hq' & Hle);
    [apply Hiff; left; reflexivity|].
  exists k, q'. repeat (split; [assumption || reflexivity|]).
  split.
  - destruct HI as [H1 H2 H3 H4 H5 H6]. constructor; try assumption.
    intros d0 n0 Hin. apply H4. apply Hiff. right. exact Hin.
  - intros d' n' Hin.
    destruct (inv_pq _ _ _ HI d' n') as (_ & _ & q & _ & -> & _); [apply Hiff; auto|].
    exists q. split; [reflexivity|].
    specialize (Hmin _ Hin). unfold ext_le in Hmin. simpl in Hmin.
    apply ext_ltb_Fin_false in Hmin. exact Hmin.
Qed.

Lemma search_step fuel st :
  search G traffic_data end_ time_period emergency_time_period transport_mode
         (S fuel) st =
  match heappop (pq st) with
  | None => Ok st
  | Some ((current_distance, current_node), pq') =>
      if decide (current_node = end_) then Ok (popped st pq')
      else
        dcur ← subscript (distances st) current_node;
        if ext_ltb dcur current_distance then
          search G traffic_data end_ time_period emergency_time_period transport_mode
                 fuel (popped st pq')
        else
          st' ← expand G traffic_data time_period emergency_time_period
                       transport_mode current_node (popped st pq');
          search G traffic_data end_ time_period emergency_time_period transport_mode
                 fuel st'
  end.
Proof. reflexivity. Qed.

(** With non-negative edge lengths the search loop ends, raising nothing,
    in a state that satisfies the invariant. *)
Lemma search_terminates : forall a len X L st,
  Inv X L st -> (unexpanded X <= a)%nat -> (length (pq st) <= len)%nat ->
  exists n st',
    (forall fuel, (n <= fuel)%nat ->
       search G traffic_data end_ time_period emergency_time_period transport_mode
              fuel st = Ok st') /\
    exists X' L', Inv X' L' st'.
Proof using Hwf Hnn.
  induction a as [a IHa] using lt_wf_ind.
  induction len as [|len IHlen]; intros X L st HI Ha Hlen.
  - exists 1%nat, st. split; [|eauto].
    intros [|fuel] Hf; [lia|]. rewrite search_step.
    destruct (pq st); [reflexivity | simpl in Hlen; lia].
  - destruct (heappop (pq st)) as [[[d n] pq']|] eqn:Hpop.
    + destruct (pop_inv X L st d n pq' HI Hpop)
        as (k & q' & -> & HLk & Hq' & Hle & Hn & Hr & HI0 & Hmin).
      destruct (heappop_spec _ _ _ Hpop) as (_ & Hlen' & _).
      destruct (decide (n = end_)) as [Heq|Hne].
      { exists 1%nat, (popped st pq'). split; [|eauto].
        intros [|fuel] Hf; [lia|]. rewrite search_step, Hpop.
        rewrite decide_True by exact Heq. reflexivity. }
      destruct (ext_ltb (Fin q') (Fin k)) eqn:Elt.
      { destruct (IHlen X L (popped st pq') HI0 Ha) as (n1 & st' & Hs & HI');
          [simpl; lia|].
        exists (S n1), st'. split; [|exact HI'].
        intros [|fuel] Hf; [lia|]. rewrite search_step, Hpop.
        rewrite decide_False by exact Hne. rewrite (subscript_Some _ _ _ Hq'), bind_Ok, Elt.
        apply Hs. lia. }
      apply ext_ltb_Fin_false in Elt.
      assert (HIq : Inv X q' (popped st pq')).
      { apply (inv_raise X L); [exact HI0 | lra |].
        intros d' n' Hin. destruct (Hmin d' n' Hin) as (q & -> & Hq).
        exists q. split; [reflexivity | lra]. }
      destruct (decide (n ∈ X)) as [HnX|HnX].
      { destruct (inv_X _ _ _ HI0 n HnX) as (_ & qn & Hqn & _ & Hcl).
        simpl in Hqn.
        destruct (IHlen X L (popped st pq') HI0 Ha) as (n1 & st' & Hs & HI');
          [simpl; lia|].
        exists (S n1), st'. split; [|exact HI'].
        intros [|fuel] Hf; [lia|]. rewrite search_step, Hpop.
        rewrite decide_False by exact Hne. rewrite (subscript_Some _ _ _ Hq'), bind_Ok.
        replace (ext_ltb (Fin q') (Fin k)) with false
          by (symmetry; apply ext_ltb_Fin_false; exact Elt).
        rewrite (expand_closed (popped st pq') n qn Hn Hqn Hcl), bind_Ok.
        apply Hs. lia. }
      destruct (expand_ok X (popped st pq') n q' HIq Hn Hr Hq') as (st1 & He & HI1).
      destruct (IHa (unexpanded (n :: X))) with (len := length (pq st1))
                 (X := n :: X) (L := q') (st := st1) as (n1 & st' & Hs & HI');
        [pose proof (unexpanded_cons n X Hn HnX); lia | exact HI1 | lia | lia |].
      exists (S n1), st'. split; [|exact HI'].
      intros [|fuel] Hf; [lia|]. rewrite search_step, Hpop.
      rewrite decide_False by exact Hne. rewrite (subscript_Some _ _ _ Hq'), bind_Ok.
      replace (ext_ltb (Fin q') (Fin k)) with false
        by (symmetry; apply ext_ltb_Fin_false; exact Elt).
      rewrite He, bind_Ok. apply Hs. lia.
    + exists 1%nat, st. split; [|eauto].
      intros [|fuel] Hf; [lia|]. rewrite search_step, Hpop. reflexivity.
Qed.

End DijkstraInvariant.

Lemma initial_state_inv G traffic_data start tp etp m :
  start ∈ node_ids G -> Inv G traffic_data start tp etp m [] 0 (initial_state G start).
Proof.
  intros Hs. constructor; simpl.
  - intros n Hn. destruct (decide (start = n)) as [->|Hne].
    + rewrite lookup_insert_eq. eauto.
    + rewrite lookup_insert_ne by exact Hne. rewrite dict_of_nodes_lookup.
      rewrite bool_decide_eq_true_2 by exact Hn. eauto.
  - intros n Hn. rewrite dict_of_nodes_lookup.
    rewrite bool_decide_eq_true_2 by exact Hn. eauto.
  - intros n Hn. rewrite dict_of_nodes_lookup.
    rewrite bool_decide_eq_true_2 by exact Hn. eauto.
  - intros d n Hin. apply list_elem_of_singleton in Hin. inversion Hin; subst.
    split; [exact Hs|]. split; [apply rtc_refl|].
    exists 0, 0. rewrite lookup_insert_eq. repeat split; try reflexivity; lra.
  - intros n p Hp. rewrite dict_of_nodes_lookup in Hp.
    destruct (bool_decide (n ∈ node_ids G)); discriminate.
  - intros x Hx. inversion Hx.
Qed.



(** ** A road of negative length *)







(** ** Two places joined by a single bus edge *)

Section BusEdge.
Variables a b : string.
Variables node_a node_b : NodeData.
Variable key : nat.
Variable data : EdgeData.
Variable traffic_data : TrafficData.
Variables time_period emergency_time_period : option string.
Hypothesis Hab : a <> b.
Hypothesis Ha : a <> EmptyString.
Hypothesis Hb : b <> EmptyString.

(** The graph with the nodes [a] and [b] and one edge between them. *)
Definition single_edge : Graph :=
  {| g_nodes := [(a, node_a); (b, node_b)];
     g_edges := [ {| e_u := a; e_v := b; e_key := key; e_data := data |} ] |}.

Lemma single_edge_adj : adj_items single_edge a = Ok [(b, [(key, data)])].
Proof using Hab.
  unfold adj_items, has_node, neighbors, edges_between, joins, other_end. simpl.
  rewrite bool_decide_eq_true_2 by apply list_elem_of_here.
  rewrite decide_True by reflexivity. simpl.
  rewrite filter_cons. rewrite decide_True; [reflexivity|].
  apply bool_decide_eq_true_2. left. auto.
Qed.

Lemma single_edge_data_ab : edge_data single_edge a b key = Ok data.
Proof using Hab.
  unfold edge_data, has_node, edges_between, joins. simpl.
  rewrite bool_decide_eq_true_2 by apply list_elem_of_here.
  rewrite filter_cons. rewrite decide_True by (apply bool_decide_eq_true_2; left; auto).
  simpl. rewrite Nat.eqb_refl. reflexivity.
Qed.

Lemma single_edge_data_ba : edge_data single_edge b a key = Ok data.
Proof using Hab.
  unfold edge_data, has_node, edges_between, joins. simpl.
  rewrite bool_decide_eq_true_2 by apply list_elem_of_further, list_elem_of_here.
  rewrite filter_cons. rewrite decide_True by (apply bool_decide_eq_true_2; right; auto).
  simpl. rewrite Nat.eqb_refl. reflexivity.
Qed.

Lemma single_edge_distances_a :
  distances (initial_state single_edge a) !! a = Some (Fin 0).
Proof. apply lookup_insert_eq. Qed.

Lemma single_edge_distances_b :
  distances (initial_state single_edge a) !! b = Some Inf.
Proof using Hab.
  simpl. rewrite !lookup_insert_ne by exact Hab. apply lookup_insert_eq.
Qed.

Lemma single_edge_keys_b :
  edge_keys (initial_state single_edge a) !! b = Some ∅.
Proof using Hab.
  simpl. rewrite lookup_insert_ne by exact Hab. apply lookup_insert_eq.
Qed.

Lemma single_edge_previous_a :
  previous (initial_state single_edge a) !! a = Some None.
Proof. apply lookup_insert_eq. Qed.

Lemma single_edge_previous_b :
  previous (initial_state single_edge a) !! b = Some None.
Proof using Hab.
  simpl. rewrite lookup_insert_ne by exact Hab. apply lookup_insert_eq.
Qed.

(** The state in which the search over the single edge ends when the edge
    may be used. *)
Definition single_edge_found (w : Q) : DState :=
  {| distances := <[b := Fin (0 + w)]> (distances (initial_state single_edge a));
     previous := <[b := Some a]> (previous (initial_state single_edge a));
     edge_keys := <[b := <[a := key]> ∅]> (edge_keys (initial_state single_edge a));
     pq := [] |}.

Lemma single_edge_search_found m w fuel :
  edge_weight single_edge traffic_data time_period emergency_time_period m
    a b key data = Ok (Fin w) ->
  search single_edge traffic_data b time_period emergency_time_period m
    (S (S fuel)) (initial_state single_edge a) = Ok (single_edge_found w).
Proof using Hab.
  intros Hw. rewrite search_step.
  change (heappop (pq (initial_state single_edge a)))
    with (Some ((Fin 0, a), @nil (ext * string))).
  cbv beta iota. rewrite decide_False by exact Hab.
  rewrite (subscript_Some _ _ _ single_edge_distances_a), bind_Ok.
  replace (ext_ltb (Fin 0) (Fin 0)) with false by reflexivity.
  unfold expand. rewrite single_edge_adj, bind_Ok.
  rewrite foldM_cons. cbv beta iota. rewrite foldM_cons.
  rewrite (relax_Fin single_edge traffic_data time_period emergency_time_period m
             (popped (initial_state single_edge a) []) a b key data w (Fin 0) Inf ∅ Hw
             single_edge_distances_a single_edge_distances_b single_edge_keys_b).
  change (ext_ltb (ext_add (Fin 0) (Fin w)) Inf) with true.
  cbv iota. rewrite !bind_Ok. cbn [foldM]. rewrite bind_Ok. cbn [foldM].
  rewrite bind_Ok. rewrite search_step.
  cbn [pq heappush popped heappop]. cbv beta iota.
  rewrite decide_True by reflexivity. reflexivity.
Qed.

Lemma single_edge_search_blocked m fuel :
  edge_weight single_edge traffic_data time_period emergency_time_period m
    a b key data = Ok Inf ->
  search single_edge traffic_data b time_period emergency_time_period m
    (S (S fuel)) (initial_state single_edge a) =
  Ok (popped (initial_state single_edge a) []).
Proof using Hab.
  intros Hw. rewrite search_step.
  change (heappop (pq (initial_state single_edge a)))
    with (Some ((Fin 0, a), @nil (ext * string))).
  cbv beta iota. rewrite decide_False by exact Hab.
  rewrite (subscript_Some _ _ _ single_edge_distances_a), bind_Ok.
  replace (ext_ltb (Fin 0) (Fin 0)) with false by reflexivity.
  unfold expand. rewrite single_edge_adj, bind_Ok.
  rewrite foldM_cons. cbv beta iota. rewrite foldM_cons.
  rewrite (relax_Inf single_edge traffic_data time_period emergency_time_period m
             (popped (initial_state single_edge a) []) a b key data Hw).
  rewrite !bind_Ok. cbn [foldM]. rewrite bind_Ok. cbn [foldM]. rewrite bind_Ok.
  rewrite search_step. reflexivity.
Qed.

Lemma truthy_Some (s : string) : s <> EmptyString -> truthy (Some s) = true.
Proof.
  intros Hs. simpl. destruct (String.eqb_spec s EmptyString); [contradiction | reflexivity].
Qed.

Lemma walk_back_step G T tp etp m fuel st current path0 d t :
  walk_back G T tp etp m (S fuel) st current path0 d t =
  if truthy current then
    let cur := default EmptyString current in
    next_node ← subscript (previous st) cur;
    if truthy next_node then
      let nxt := default EmptyString next_node in
      ek ← subscript (edge_keys st) cur;
      key ← subscript ek nxt;
      data ← edge_data G cur nxt key;
      weight ← get_edge_weight G T cur nxt key tp etp
                 (default 1000 (distance data)) m;
      walk_back G T tp etp m fuel st next_node (path0 ++ [cur])
                (d + default 1000 (distance data)) (ext_add t weight)
    else walk_back G T tp etp m fuel st next_node (path0 ++ [cur]) d t
  else Ok (path0, d, t).
Proof. reflexivity. Qed.

(** When the mode may use the edge, the query from [a] to [b] returns the
    path over it. *)
Lemma single_edge_path m fuel :
  allowed m (road_type data) = true -> (3 <= fuel)%nat ->
  exists r,
    dijkstra_with_traffic single_edge traffic_data a b
      time_period emergency_time_period m fuel = Ok r /\
    path r = [a; b] /\
    total_distance r == default 1000 (distance data).
Proof using Hab Ha Hb.
  intros Hal Hfuel. destruct fuel as [|[|[|fuel]]]; try lia.
  pose proof (get_edge_weight_allowed single_edge traffic_data a b key
                time_period emergency_time_period (default 1000 (distance data)) m data
                single_edge_data_ab Hal) as Hw.
  pose proof (get_edge_weight_allowed single_edge traffic_data b a key
                time_period emergency_time_period (default 1000 (distance data)) m data
                single_edge_data_ba Hal) as Hw'.
  unfold dijkstra_with_traffic.
  rewrite (single_edge_search_found m _ (S fuel) Hw), bind_Ok.
  rewrite (subscript_Some _ _ (Some a)) by (simpl; apply lookup_insert_eq).
  rewrite bind_Ok, (truthy_Some a Ha). cbn [orb].
  rewrite walk_back_step, (truthy_Some b Hb). cbv zeta. cbn [from_option id].
  rewrite (subscript_Some _ _ (Some a)) by (simpl; apply lookup_insert_eq).
  rewrite bind_Ok, (truthy_Some a Ha). cbv zeta. cbn [from_option id].
  rewrite (subscript_Some _ _ (<[a := key]> ∅)) by (simpl; apply lookup_insert_eq).
  rewrite bind_Ok, (subscript_Some _ _ key) by apply lookup_insert_eq.
  rewrite bind_Ok, single_edge_data_ba, bind_Ok, Hw', bind_Ok.
  rewrite walk_back_step, (truthy_Some a Ha). cbv zeta. cbn [from_option id].
  rewrite (subscript_Some _ _ None)
    by (simpl; rewrite lookup_insert_ne by (intros E; apply Hab; symmetry; exact E);
        apply lookup_insert_eq).
  rewrite bind_Ok. cbn [truthy]. rewrite walk_back_step. cbn [truthy].
  rewrite bind_Ok. eexists. split; [reflexivity|]. simpl. split; [reflexivity|]. ring.
Qed.

(** When the mode may not use the edge, the query returns the empty path. *)
Lemma single_edge_no_path m fuel :
  allowed m (road_type data) = false -> (2 <= fuel)%nat ->
  exists r,
    dijkstra_with_traffic single_edge traffic_data a b
      time_period emergency_time_period m fuel = Ok r /\
    path r = [] /\ total_distance r = 0 /\ total_travel_time r = Fin 0.
Proof using Hab.
  intros Hal Hfuel. destruct fuel as [|[|fuel]]; try lia.
  pose proof (get_edge_weight_forbidden single_edge traffic_data a b key
                time_period emergency_time_period (default 1000 (distance data)) m data
                single_edge_data_ab Hal) as Hw.
  unfold dijkstra_with_traffic.
  rewrite (single_edge_search_blocked m fuel Hw), bind_Ok.
  rewrite (subscript_Some (previous (popped (initial_state single_edge a) [])) b None
             single_edge_previous_b), bind_Ok.
  cbn [truthy orb]. rewrite bool_decide_eq_false_2
    by (intros E; apply Hab; symmetry; exact E).
  eexists. split; [reflexivity|]. simpl. auto.
Qed.

End BusEdge.

(** C6 (as amended): when two distinct places are joined by a single edge
    of road type bus, a bus-mode query between them returns the path over
    that edge, and so does a car-mode query (bus edges are among the road
    types allowed for cars); a metro-mode or an emergency-mode query
    returns the empty path. *)
Theorem bus_edge_queries (a b : string) (node_a node_b : NodeData) (key : nat)
    (data : EdgeData) (traffic_data : TrafficData) (tp etp : option string)
    (fuel : nat) :
  a <> b -> a <> EmptyString -> b <> EmptyString ->
  road_type data = Some bus -> (3 <= fuel)%nat ->
  (exists r, dijkstra_with_traffic (single_edge a b node_a node_b key data)
               traffic_data a b tp etp car fuel = Ok r /\ path r = [a; b]) /\
  (exists r, dijkstra_with_traffic (single_edge a b node_a node_b key data)
               traffic_data a b tp etp bus_mode fuel = Ok r /\ path r = [a; b]) /\
  (exists r, dijkstra_with_traffic (single_edge a b node_a node_b key data)
               traffic_data a b tp etp metro_mode fuel = Ok r /\ path r = []) /\
  (exists r, dijkstra_with_traffic (single_edge a b node_a node_b key data)
               traffic_data a b tp etp emergency fuel = Ok r /\ path r = []).
Proof.
  intros Hab Ha Hb Hrt Hfuel.
  split; [|split; [|split]].
  - destruct (single_edge_path a b node_a node_b key data traffic_data tp etp
                Hab Ha Hb car fuel) as (r & Hr & Hp & _);
      [rewrite Hrt; reflexivity | exact Hfuel | eauto].
  - destruct (single_edge_path a b node_a node_b key data traffic_data tp etp
                Hab Ha Hb bus_mode fuel) as (r & Hr & Hp & _);
      [rewrite Hrt; reflexivity | exact Hfuel | eauto].
  - destruct (single_edge_no_path a b node_a node_b key data traffic_data tp etp
                Hab metro_mode fuel) as (r & Hr & Hp & _);
      [rewrite Hrt; reflexivity | lia | eauto].
  - destruct (single_edge_no_path a b node_a node_b key data traffic_data tp etp
                Hab emergency fuel) as (r & Hr & Hp & _);
      [rewrite Hrt; reflexivity | lia | eauto].
Qed.

Lemma bus_edge_queries_witness :
  (exists r, dijkstra_with_traffic (two_places bus 1000 1000) morning_rush "a" "b"
               (Some "morning"%string) None car 3 = Ok r /\ path r = ["a"; "b"]%string) /\
  (exists r, dijkstra_with_traffic (two_places bus 1000 1000) morning_rush "a" "b"
               (Some "morning"%string) None bus_mode 3 = Ok r /\
             path r = ["a"; "b"]%string) /\
  (exists r, dijkstra_with_traffic (two_places bus 1000 1000) morning_rush "a" "b"
               (Some "morning"%string) None metro_mode 3 = Ok r /\ path r = []) /\
  (exists r, dijkstra_with_traffic (two_places bus 1000 1000) morning_rush "a" "b"
               (Some "morning"%string) None emergency 3 = Ok r /\ path r = []).
Proof.
  apply (bus_edge_queries "a" "b" plain_node plain_node 0 (road bus 1000 1000)
           morning_rush (Some "morning"%string) None 3);
    [discriminate | discriminate | discriminate | reflexivity | lia].
Defined.

(** C6, as stated, fails: the car-mode query over a lone bus edge returns
    the two-node path, not the empty path. *)
Lemma car_query_over_bus_edge :
  exists r, dijkstra_with_traffic (two_places bus 1000 1000) morning_rush "a" "b"
              (Some "morning"%string) None car 3 = Ok r /\
            path r = ["a"; "b"]%string /\ path r <> [].
Proof.
  destruct (single_edge_path "a" "b" plain_node plain_node 0 (road bus 1000 1000)
              morning_rush (Some "morning"%string) None
              ltac:(discriminate) ltac:(discriminate) ltac:(discriminate)
              car 3%nat eq_refl ltac:(lia))
    as (r & Hr & Hp & _).
  exists r. split; [exact Hr|]. split; [exact Hp|]. rewrite Hp. discriminate.
Qed.

(** ** The reported travel time against the time along the path *)

(** The travel time along [p] from its first to its last node: the sum of
    [get_edge_weight] over the consecutive edges of [p], each taken in the
    direction of travel, over the edge recorded in [keys]. *)
Fixpoint path_time (G : Graph) (traffic_data : TrafficData)
    (tp etp : option string) (m : Mode)
    (keys : gmap string (gmap string nat)) (p : list string) : Res ext :=
  match p with
  | u :: (v :: _) as rest =>
      ek ← subscript keys v;
      key ← subscript ek u;
      data ← edge_data G u v key;
      w ← get_edge_weight G traffic_data u v key tp etp
            (default 1000 (distance data)) m;
      t ← path_time G traffic_data tp etp m keys rest;
      Ok (ext_add w t)
  | _ => Ok (Fin 0)
  end.

(** C5 fails on the code: with a morning flow recorded for "a-b" only, the
    query from "a" to "b" searches with the weight of the direction a to b
    (0.75 minutes) but reports the weight of the direction b to a (0.5
    minutes), which the reconstruction loop computes. *)
Lemma reported_time_is_reverse_direction :
  exists r t w,
    dijkstra_with_traffic (two_places existing 1000 1000) morning_rush "a" "b"
      (Some "morning"%string) None car 3 = Ok r /\
    path r = ["a"; "b"]%string /\
    total_travel_time r = Fin t /\ t == 1 # 2 /\
    path_time (two_places existing 1000 1000) morning_rush (Some "morning"%string) None
      car (used_edge_keys r) (path r) = Ok (Fin w) /\ w == 3 # 4 /\
    ~ t == w.
Proof.
  eexists. eexists. eexists.
  split; [vm_compute; reflexivity|].
  split; [reflexivity|].
  split; [reflexivity|].
  split; [reflexivity|].
  split; [vm_compute; reflexivity|].
  split; [reflexivity|]. intros H. discriminate H.
Qed.

(** ** [memoized_path_planning] (dp_solutions.py) *)

(** The values the local variable [key] takes: the memo key
    [(start, end, time_period)], or the key of an edge once a loop
    [for key, data in edges.items()] has run. *)
Inductive MemoKey :=
  | TupleKey (start end_ time_period : string)
  | EdgeKey (k : nat).

#[global] Instance MemoKey_eq_dec : EqDecision MemoKey.
Proof. solve_decision. Defined.

#[global] Instance MemoKey_countable : Countable MemoKey.
Proof.
  refine (inj_countable'
            (fun k => match k with
                      | TupleKey s e t => inl (s, e, t)
                      | EdgeKey n => inr n
                      end)
            (fun x => match x with
                      | inl (s, e, t) => TupleKey s e t
                      | inr n => EdgeKey n
                      end) _).
  intros [? ? ?|?]; reflexivity.
Defined.

Abbreviation Memo := (gmap MemoKey (list string * Q)).

(** The road types the planner lets a car use. *)
Definition planner_road_types : list RoadType :=
  [existing; potential; virtual_connection; virtual_link].

(** The weight the planner computes in line for an edge travelled from
    [u] to [v]. *)
Definition planner_weight (traffic_data : TrafficData) (time_period : string)
    (u v : string) (data : EdgeData) : Q :=
  let base_distance := default 1000 (distance data) in
  let capacity := default 2000 (capacity data) in
  let traffic_flow := flow_lookup traffic_data time_period u v capacity in
  let base_speed := 120 in
  let speed := base_speed / traffic_factor traffic_flow capacity in
  let distance_km := base_distance / 1000 in
  (distance_km / speed) * 60.

Section Planner.
Variable G : Graph.
Variable traffic_data : TrafficData.
Variables start end_ : string.
Variable time_period : string.

(** The body of [for key, data in edges.items()]: the loop variable [key]
    is the function's local [key]. *)
Definition planner_relax (current_node neighbor : string) (kd : nat * EdgeData)
    (s : DState * MemoKey) : Res (DState * MemoKey) :=
  let '(st, _) := s in
  let '(k, data) := kd in
  let key := EdgeKey k in
  let base_distance := default 1000 (distance data) in
  let road_type := default existing (road_type data) in
  if negb (bool_decide (road_type ∈ planner_road_types)) then Ok (st, key)
  else
    let weight := planner_weight traffic_data time_period current_node neighbor data in
    if Qlt_le_dec 50000 base_distance then Ok (st, key)
    else
      dcur ← subscript (distances st) current_node;
      let distance := ext_add dcur (Fin weight) in
      dnb ← subscript (distances st) neighbor;
      if ext_ltb distance dnb then
        ek ← subscript (edge_keys st) neighbor;
        Ok ({| distances := <[neighbor := distance]> (distances st);
               previous := <[neighbor := Some current_node]> (previous st);
               edge_keys := <[neighbor := <[current_node := k]> ek]> (edge_keys st);
               pq := heappush (pq st) (distance, neighbor) |}, key)
      else Ok (st, key).

Definition planner_expand (current_node : string) (s : DState * MemoKey)
    : Res (DState * MemoKey) :=
  items ← adj_items G current_node;
  foldM (fun '(neighbor, edges) s =>
           foldM (planner_relax current_node neighbor) edges s)
        items s.

Fixpoint planner_search (fuel : nat) (s : DState * MemoKey) : Res (DState * MemoKey) :=
  match fuel with
  | O => OutOfFuel
  | S fuel' =>
      let '(st, key) := s in
      match heappop (pq st) with
      | None => Ok s
      | Some ((current_distance, current_node), pq') =>
          let st := {| distances := distances st; previous := previous st;
                       edge_keys := edge_keys st; pq := pq' |} in
          if decide (current_node = end_) then Ok (st, key)
          else
            dcur ← subscript (distances st) current_node;
            if ext_ltb dcur current_distance then planner_search fuel' (st, key)
            else s' ← planner_expand current_node (st, key); planner_search fuel' s'
      end
  end.

(** The [while current:] loop; it assigns [key] for every edge walked. *)
Fixpoint planner_walk_back (fuel : nat) (st : DState) (current : option string)
    (path : list string) (total_weight : Q) (key : MemoKey)
    : Res (list string * Q * MemoKey) :=
  match fuel with
  | O => OutOfFuel
  | S fuel' =>
      if truthy current then
        let cur := default EmptyString current in
        let path := path ++ [cur] in
        next_node ← subscript (previous st) cur;
        if truthy next_node then
          let nxt := default EmptyString next_node in
          ek ← subscript (edge_keys st) cur;
          k ← subscript ek nxt;
          data ← edge_data G cur nxt k;
          let weight := planner_weight traffic_data time_period cur nxt data in
          planner_walk_back fuel' st next_node path (total_weight + weight) (EdgeKey k)
        else planner_walk_back fuel' st next_node path total_weight key
      else Ok (path, total_weight, key)
  end.

(** The computation on a miss: search, reconstruction, and the store
    [memo[key] = (path, total_weight)] under the current value of [key]. *)
Definition planner_compute (fuel : nat) (key : MemoKey) (memo : Memo)
    : Res (list string * Q * Memo) :=
  '(st, key) ← planner_search fuel (initial_state G start, key);
  prev_end ← subscript (previous st) end_;
  '(path, total_weight, key) ←
    (if truthy prev_end || bool_decide (end_ = start) then
       '(p, w, key) ← planner_walk_back fuel st (Some end_) [] 0 key;
       Ok (reverse p, w, key)
     else Ok ([], 0, key));
  Ok (path, total_weight, <[key := (path, total_weight)]> memo).

(** The function returns the path, its weight and the memo dictionary; the
    measured execution time is not modelled. *)
Definition memoized_path_planning (fuel : nat) (memo : option Memo)
    : Res (list string * Q * Memo) :=
  let memo := default ∅ memo in
  let key := TupleKey start end_ time_period in
  match memo !! key with
  | Some (path, weight) => Ok (path, weight, memo)
  | None => planner_compute fuel key memo
  end.

End Planner.

(** C1 fails on the code: the loops over the edges rebind the local [key],
    so the result of the query from "a" to "b" is stored under the edge key
    0 and not under [("a", "b", "morning")]; the same query on the returned
    memo misses and runs the search again. *)
Lemma memo_stored_under_edge_key :
  exists p w memo1,
    memoized_path_planning (two_places existing 1000 1000) morning_rush
      "a" "b" "morning" 3 None = Ok (p, w, memo1) /\
    p = ["a"; "b"]%string /\
    memo1 !! TupleKey "a" "b" "morning" = None /\
    memo1 !! EdgeKey 0 = Some (p, w) /\
    memoized_path_planning (two_places existing 1000 1000) morning_rush
      "a" "b" "morning" 3 (Some memo1) =
    planner_compute (two_places existing 1000 1000) morning_rush
      "a" "b" "morning" 3 (TupleKey "a" "b" "morning") memo1.
Proof.
  eexists. eexists. eexists.
  split; [vm_compute; reflexivity|].
  split; [reflexivity|].
  split; [vm_compute; reflexivity|].
  split; [vm_compute; reflexivity|].
  vm_compute. reflexivity.
Qed.

(** ** [allocate_road_maintenance_resources] (dp_solutions.py) *)

(** A row of the existing-roads table. *)
Record RoadRow := mkRoadRow {
  FromID : string;
  ToID : string;
  Distance_km : Q;
  Current_Capacity : Q;
  Condition : Q
}.

(** A row of the neighborhoods table. *)
Record NeighborhoodRow := mkNeighborhoodRow {
  nb_ID : string;
  nb_Name : string;
  nb_Population : Q;
  nb_Type : string;
  nb_X : Q;
  nb_Y : Q
}.

(** The dictionary built for a road; the two population entries are added
    by the second loop. *)
Record Road := mkRoad {
  road_id : string;
  from_id : string;
  to_id : string;
  distance_km : Q;
  current_condition : Q;
  maintenance_priority : Q;
  maintenance_cost : Q;
  benefit : Q;
  affected_population : Q;
  population_adjusted_benefit : Q
}.

(** [int(x)]: truncation towards zero. *)
Definition py_int (x : Q) : Z := Z.quot (Qnum x) (Z.pos (Qden x)).

(** *** Binary64 numbers

    The binary64 number of an integer and of a table value: a rational
    stands for the binary64 number nearest to it, which the correctly
    rounded division of its numerator by its denominator gives (both are
    far below 2^53 for the values of a table). *)
Definition float_of_Z (z : Z) : PrimFloat.float :=
  FloatOps.SF2Prim (SpecFloat.binary_normalize FloatOps.prec FloatOps.emax z 0 false).

Definition float_of_Q (q : Q) : PrimFloat.float :=
  PrimFloat.div (float_of_Z (Qnum q)) (float_of_Z (Z.pos (Qden q))).

(** [int(x)] of a finite binary64 number: truncation towards zero.  Python
    raises for an infinite or undefined number, which finite table values
    of any realistic size do not produce; the model gives 0 there. *)
Definition int_of_float (x : PrimFloat.float) : Z :=
  match FloatOps.Prim2SF x with
  | SpecFloat.S754_finite s m e =>
      let n := if (0 <=? e)%Z then (Z.pos m * 2 ^ e)%Z else Z.shiftr (Z.pos m) (- e) in
      if s then (- n)%Z else n
  | _ => 0%Z
  end.

(** The dictionary of the first loop, before the population is known. *)
Definition road_of_row (row : RoadRow) : Road :=
  let condition_improvement := Qmax 0 (9 - Condition row) in
  {| road_id := FromID row ++ "-" ++ ToID row;
     from_id := FromID row;
     to_id := ToID row;
     distance_km := Distance_km row;
     current_condition := Condition row;
     maintenance_priority := (10 - Condition row) * Distance_km row;
     maintenance_cost := Distance_km row * (11 - Condition row) / 10;
     benefit := condition_improvement * Distance_km row;
     affected_population := 0;
     population_adjusted_benefit := 0 |}.

(** [roads.sort(key=maintenance_priority, reverse=True)]: a stable sort in
    descending order, by insertion. *)
Fixpoint insert_by_priority (x : Road) (l : list Road) : list Road :=
  match l with
  | [] => [x]
  | y :: l' =>
      if Qlt_le_dec (maintenance_priority x) (maintenance_priority y)
      then y :: insert_by_priority x l'
      else x :: l
  end.

Definition sort_by_priority (l : list Road) : list Road :=
  foldr insert_by_priority [] l.

Definition population_of (neighborhoods : list NeighborhoodRow) : gmap string Q :=
  foldl (fun m row => <[nb_ID row := nb_Population row]> m) ∅ neighborhoods.

(** The second loop: the affected population and the adjusted benefit. *)
Definition with_population (population_by_id : gmap string Q) (r : Road) : Road :=
  let from_pop := default 0 (population_by_id !! from_id r) in
  let to_pop := default 0 (population_by_id !! to_id r) in
  {| road_id := road_id r; from_id := from_id r; to_id := to_id r;
     distance_km := distance_km r; current_condition := current_condition r;
     maintenance_priority := maintenance_priority r;
     maintenance_cost := maintenance_cost r; benefit := benefit r;
     affected_population := from_pop + to_pop;
     population_adjusted_benefit := benefit r * ((from_pop + to_pop) / 100000) |}.

(** The list [roads] the dynamic program runs over. *)
Definition prepare_roads (rows : list RoadRow) (neighborhoods : list NeighborhoodRow)
    : list Road :=
  with_population (population_of neighborhoods)
    <$> sort_by_priority (road_of_row <$> rows).

(** [road["maintenance_cost"]] as the binary64 number the first loop
    computes: [distance_km * (11 - condition) / 10]. *)
Definition maintenance_cost_binary64 (r : Road) : PrimFloat.float :=
  PrimFloat.div
    (PrimFloat.mul (float_of_Q (distance_km r))
                   (PrimFloat.sub (float_of_Z 11) (float_of_Q (current_condition r))))
    (float_of_Z 10).

(** [int(road["maintenance_cost"] * 10)]: the product is rounded to
    binary64 before it is truncated, so that a cost of 12.3 may count as
    122 units. *)
Definition cost_units (r : Road) : Z :=
  int_of_float (PrimFloat.mul (maintenance_cost_binary64 r) (float_of_Z 10)).

(** [dp[i]] and [selected_roads[i]] for an index within the tables. *)
Definition dp_at (dp : list Q) (i : nat) : Q := default 0 (dp !! i).
Definition selected_at (sel : list (list string)) (i : nat) : list string :=
  default [] (sel !! i).

(** The body of [for b in range(budget_units, cost_units - 1, -1)]. *)
Definition knapsack_cell (c : nat) (r : Road) (s : list Q * list (list string))
    (b : nat) : list Q * list (list string) :=
  let '(dp, sel) := s in
  let new_benefit := dp_at dp (b - c) + population_adjusted_benefit r in
  if Qlt_le_dec (dp_at dp b) new_benefit then
    (<[b := new_benefit]> dp, <[b := selected_at sel (b - c) ++ [road_id r]]> sel)
  else (dp, sel).

(** [range(budget_units, cost_units - 1, -1)] for [cost_units = c > 0]
    and [budget_units = B]. *)
Definition budgets_down (B c : nat) : list nat := rev (seq c (S B - c)).

(** The body of [for road in roads]. *)
Definition knapsack_road (budget_units : Z) (s : list Q * list (list string))
    (r : Road) : list Q * list (list string) :=
  if Z_le_gt_dec (cost_units r) 0 then s
  else foldl (knapsack_cell (Z.to_nat (cost_units r)) r) s
             (budgets_down (Z.to_nat budget_units) (Z.to_nat (cost_units r))).

(** [max(range(len(dp)), key=lambda b: dp[b])]: the first index of a
    greatest entry; [ValueError] on an empty range. *)
Fixpoint argmax_from (best : nat) (best_value : Q) (i : nat) (l : list Q) : nat :=
  match l with
  | [] => best
  | v :: l' =>
      if Qlt_le_dec best_value v then argmax_from i v (S i) l'
      else argmax_from best best_value (S i) l'
  end.

Definition argmax (dp : list Q) : Res nat :=
  match dp with
  | [] => Raise ValueError
  | v :: l => Ok (argmax_from 0 v 1 l)
  end.

(** An entry of [maintenance_plan["roads_to_maintain"]]. *)
Record PlanEntry := mkPlanEntry {
  pe_road_id : string;
  pe_from_id : string;
  pe_to_id : string;
  pe_distance_km : Q;
  pe_current_condition : Q;
  pe_maintenance_cost : Q;
  pe_benefit : Q;
  pe_affected_population : Q
}.

Record MaintenancePlan := mkMaintenancePlan {
  total_budget : Q;
  used_budget : Q;
  total_benefit : Q;
  roads_to_maintain : list PlanEntry
}.

Definition entry_of (r : Road) : PlanEntry :=
  {| pe_road_id := road_id r; pe_from_id := from_id r; pe_to_id := to_id r;
     pe_distance_km := distance_km r; pe_current_condition := current_condition r;
     pe_maintenance_cost := maintenance_cost r; pe_benefit := benefit r;
     pe_affected_population := affected_population r |}.

(** [next(road for road in roads if road["road_id"] == road_id)] *)
Definition road_info (roads : list Road) (id : string) : Res Road :=
  of_option (List.find (fun r => String.eqb (road_id r) id) roads) StopIteration.

Fixpoint mapM {A B : Type} (f : A -> Res B) (l : list A) : Res (list B) :=
  match l with
  | [] => Ok []
  | a :: l' => b ← f a; bs ← mapM f l'; Ok (b :: bs)
  end.

(** The tables after the loop over the roads. *)
Definition knapsack_tables (roads : list Road) (budget_units : Z)
    : list Q * list (list string) :=
  foldl (knapsack_road budget_units)
        (replicate (Z.to_nat (budget_units + 1)) 0,
         replicate (Z.to_nat (budget_units + 1)) [])
        roads.

(** The function returns the plan; the measured execution time is not
    modelled. *)
Definition allocate_road_maintenance_resources (existing_roads : list RoadRow)
    (neighborhoods : list NeighborhoodRow) (budget : Q) : Res MaintenancePlan :=
  let roads := prepare_roads existing_roads neighborhoods in
  let budget_units := py_int (budget * 10) in
  let '(dp, selected_roads) := knapsack_tables roads budget_units in
  optimal_budget_units ← argmax dp;
  let optimal_roads := selected_at selected_roads optimal_budget_units in
  entries ← mapM (fun id => r ← road_info roads id; Ok (entry_of r)) optimal_roads;
  Ok {| total_budget := budget;
        used_budget := inject_Z (Z.of_nat optimal_budget_units) / 10;
        total_benefit := dp_at dp optimal_budget_units;
        roads_to_maintain := entries |}.

(** ** Correctness of the knapsack tables *)


(** Cost in budget units and benefit of a set of roads. *)
Fixpoint total_cost (chosen : list Road) : nat :=
  match chosen with
  | [] => 0
  | r :: rest => (Z.to_nat (cost_units r) + total_cost rest)%nat
  end.




















(** The tables keep their length. *)
Lemma knapsack_cell_length (c : nat) (r : Road) s b :
  length (knapsack_cell c r s b).1 = length s.1 /\
  length (knapsack_cell c r s b).2 = length s.2.
Proof.
  destruct s as [dp sel]. unfold knapsack_cell.
  destruct (Qlt_le_dec _ _); simpl; rewrite ?length_insert; auto.
Qed.

Lemma knapsack_tables_length (roads : list Road) (budget_units : Z) :
  length (knapsack_tables roads budget_units).1 = Z.to_nat (budget_units + 1).
Proof.
  unfold knapsack_tables.
  set (s0 := (replicate (Z.to_nat (budget_units + 1)) 0,
              replicate (Z.to_nat (budget_units + 1)) ([] : list string))).
  assert (H0 : length s0.1 = Z.to_nat (budget_units + 1)) by apply length_replicate.
  revert H0. generalize s0. clear s0.
  induction roads as [|r roads IH]; intros s Hs; [exact Hs|].
  simpl. apply IH. unfold knapsack_road.
  destruct (Z_le_gt_dec (cost_units r) 0); [exact Hs|].
  revert s Hs. induction (budgets_down _ _) as [|b bs IHb]; intros s Hs; [exact Hs|].
  simpl. apply IHb. rewrite (proj1 (knapsack_cell_length _ r s b)). exact Hs.
Qed.


(** ** The sorted road list and the plan entries *)







(** ** The plan returned by the allocator *)






(** Three roads of 1 km: costs of 3, 5 and 7 budget units and benefits of
    10, 12 and 18; a budget of 1.0, that is 10 units. *)
Definition three_roads : list RoadRow :=
  [ {| FromID := "1"; ToID := "2"; Distance_km := 1; Current_Capacity := 1000;
       Condition := 8 |};
    {| FromID := "3"; ToID := "4"; Distance_km := 1; Current_Capacity := 1000;
       Condition := 6 |};
    {| FromID := "5"; ToID := "6"; Distance_km := 1; Current_Capacity := 1000;
       Condition := 4 |} ].

Definition three_neighborhoods : list NeighborhoodRow :=
  [ {| nb_ID := "1"; nb_Name := "north"; nb_Population := 1000000;
       nb_Type := "residential"; nb_X := 0; nb_Y := 0 |};
    {| nb_ID := "3"; nb_Name := "east"; nb_Population := 400000;
       nb_Type := "residential"; nb_X := 1; nb_Y := 0 |};
    {| nb_ID := "5"; nb_Name := "south"; nb_Population := 360000;
       nb_Type := "residential"; nb_X := 0; nb_Y := 1 |} ].

Lemma three_roads_costs :
  (fun r => (road_id r, cost_units r, Qred (population_adjusted_benefit r)))
    <$> prepare_roads three_roads three_neighborhoods
  = [("5-6"%string, 7%Z, 18); ("3-4"%string, 5%Z, 12); ("1-2"%string, 3%Z, 10)].
Proof. vm_compute. reflexivity. Qed.




(** A road of 50 m in condition 5 costs 0.03, that is 0 budget units, and
    has a positive benefit. *)
Definition short_and_long : list RoadRow :=
  [ {| FromID := "1"; ToID := "2"; Distance_km := 1; Current_Capacity := 1000;
       Condition := 8 |};
    {| FromID := "7"; ToID := "8"; Distance_km := 1 # 20; Current_Capacity := 1000;
       Condition := 5 |} ].

Definition two_neighborhoods : list NeighborhoodRow :=
  [ {| nb_ID := "1"; nb_Name := "north"; nb_Population := 1000000;
       nb_Type := "residential"; nb_X := 0; nb_Y := 0 |};
    {| nb_ID := "7"; nb_Name := "west"; nb_Population := 500000;
       nb_Type := "residential"; nb_X := 1; nb_Y := 0 |} ].

Lemma short_road_is_free_and_useful :
  (fun r => (road_id r, cost_units r, Qred (population_adjusted_benefit r)))
    <$> prepare_roads short_and_long two_neighborhoods
  = [("1-2"%string, 3%Z, 10); ("7-8"%string, 0%Z, 1)].
Proof. vm_compute. reflexivity. Qed.



(** A road of 16.4 km in condition 3.5: its cost of 12.3 million is held as
    a binary64 number a little below, whose tenfold truncates to 122
    units, so that a budget of 12.2 million pays for the road. *)
Definition a_long_road : list RoadRow :=
  [ {| FromID := "x"; ToID := "y"; Distance_km := 164 # 10; Current_Capacity := 1000;
       Condition := 35 # 10 |} ].

Definition its_neighborhood : list NeighborhoodRow :=
  [ {| nb_ID := "x"; nb_Name := "centre"; nb_Population := 100000;
       nb_Type := "residential"; nb_X := 0; nb_Y := 0 |} ].

Lemma rounded_cost_fits_budget :
  cost_units <$> prepare_roads a_long_road its_neighborhood = [122%Z] /\
  exists plan,
    allocate_road_maintenance_resources a_long_road its_neighborhood (122 # 10) = Ok plan /\
    pe_road_id <$> roads_to_maintain plan = ["x-y"%string] /\
    used_budget plan == 122 # 10.
Proof.
  split; [vm_compute; reflexivity|].
  destruct (allocate_road_maintenance_resources a_long_road its_neighborhood (122 # 10))
    as [plan| |] eqn:E; [|vm_compute in E; discriminate..].
  exists plan. split; [reflexivity|].
  assert (H : (p ← allocate_road_maintenance_resources a_long_road its_neighborhood
                     (122 # 10);
               Ok (pe_road_id <$> roads_to_maintain p, Qred (used_budget p)))
              = Ok (["x-y"%string], 61 # 5)) by (vm_compute; reflexivity).
  rewrite E, bind_Ok in H. injection H as Hids Hused.
  split; [exact Hids|].
  rewrite <- (Qred_correct (used_budget plan)), Hused. reflexivity.
Qed.




(** ** [create_graph] (graph_utils.py) *)

(** The remaining input tables.  Identifiers are taken after
    [str(...).strip()] and the removal of quotes, stop lists after the split
    at commas, and
    numbers after [float(...)]. *)
Record FacilityRow := mkFacilityRow {
  fc_ID : string;
  fc_Name : string;
  fc_Type : string;
  fc_X : option Q;
  fc_Y : option Q
}.

Record BusRouteRow := mkBusRouteRow {
  RouteID : string;
  Stops : list string;
  Buses_Assigned : Q;
  bus_Daily_Passengers : Q
}.

Record MetroLineRow := mkMetroLineRow {
  LineID : string;
  Stations : list string;
  metro_Daily_Passengers : Q
}.

Record PotentialRoadRow := mkPotentialRoadRow {
  pr_FromID : string;
  pr_ToID : string;
  pr_Distance_km : Q;
  Estimated_Capacity : Q;
  Construction_Cost : Q
}.

Record Data := mkData {
  neighborhoods : list NeighborhoodRow;
  facilities : list FacilityRow;
  existing_roads : list RoadRow;
  bus_routes : list BusRouteRow;
  metro_lines : list MetroLineRow;
  potential_roads : list PotentialRoadRow;
  traffic : TrafficData
}.

(** A line printed by the function. *)
Inductive Warning :=
  | UnrealisticDistance (from_id to_id : string) (distance_m : Q).

Definition no_node_data : NodeData :=
  {| name := None; population := None; type := None; pos := None |}.

(** [dict.update]: the new attributes override the old ones. *)
Definition update_node_data (old new : NodeData) : NodeData :=
  {| name := match name new with Some x => Some x | None => name old end;
     population :=
       match population new with Some x => Some x | None => population old end;
     type := match type new with Some x => Some x | None => type old end;
     pos := match pos new with Some x => Some x | None => pos old end |}.

Fixpoint update_node (nodes : list (string * NodeData)) (n : string) (attrs : NodeData)
    : list (string * NodeData) :=
  match nodes with
  | [] => []
  | (m, d) :: rest =>
      if decide (m = n) then (m, update_node_data d attrs) :: rest
      else (m, d) :: update_node rest n attrs
  end.

(** [G.add_node(n, **attrs)] *)
Definition add_node (G : Graph) (n : string) (attrs : NodeData) : Graph :=
  if has_node G n then
    {| g_nodes := update_node (g_nodes G) n attrs; g_edges := g_edges G |}
  else {| g_nodes := g_nodes G ++ [(n, attrs)]; g_edges := g_edges G |}.

(** [G.add_edge(u, v, **data)]: both ends become nodes, and the new edge
    gets the least key not used between [u] and [v], the number of edges
    already there. *)
Definition add_edge (G : Graph) (u v : string) (data : EdgeData) : Graph :=
  let G1 := if has_node G u then G else add_node G u no_node_data in
  let G2 := if has_node G1 v then G1 else add_node G1 v no_node_data in
  {| g_nodes := g_nodes G2;
     g_edges := g_edges G2 ++
       [ {| e_u := u; e_v := v; e_key := length (edges_between G2 u v);
            e_data := data |} ] |}.

(** The graph under construction together with the lines printed. *)
Record Build := mkBuild {
  graph : Graph;
  warnings : list Warning
}.

Definition existing_edge_data (row : RoadRow) : EdgeData :=
  {| distance := Some (Distance_km row * 1000);
     capacity := Some (Current_Capacity row);
     condition := Some (Condition row);
     road_type := Some existing;
     cost := Some 0;
     route_id := None; buses_assigned := None; line_id := None |}.

(** The body of the loop over the existing roads. *)
Definition add_existing_road (b : Build) (row : RoadRow) : Build :=
  let distance_m := Distance_km row * 1000 in
  if Qlt_le_dec 100000 distance_m then
    {| graph := graph b;
       warnings := warnings b ++ [UnrealisticDistance (FromID row) (ToID row) distance_m] |}
  else
    {| graph := add_edge (graph b) (FromID row) (ToID row) (existing_edge_data row);
       warnings := warnings b |}.

Definition potential_edge_data (row : PotentialRoadRow) : EdgeData :=
  {| distance := Some (pr_Distance_km row * 1000);
     capacity := Some (Estimated_Capacity row);
     condition := Some 10;
     road_type := Some potential;
     cost := Some (Construction_Cost row);
     route_id := None; buses_assigned := None; line_id := None |}.

(** The body of the loop over the potential roads. *)
Definition add_potential_road (b : Build) (row : PotentialRoadRow) : Build :=
  let distance_m := pr_Distance_km row * 1000 in
  if Qlt_le_dec 100000 distance_m then
    {| graph := graph b;
       warnings := warnings b ++
         [UnrealisticDistance (pr_FromID row) (pr_ToID row) distance_m] |}
  else
    {| graph := add_edge (graph b) (pr_FromID row) (pr_ToID row) (potential_edge_data row);
       warnings := warnings b |}.

(** The distance of a stop pair: that of the first existing-road row
    between the two stops, in either direction, else the mean of the
    table, else the given default. *)
Definition sum_Q (l : list Q) : Q := foldl Qplus 0 l.

Definition stop_distance (roads : list RoadRow) (from_stop to_stop : string)
    (fallback : Q) : Q :=
  match List.find (fun row =>
          (String.eqb (FromID row) from_stop && String.eqb (ToID row) to_stop)
          || (String.eqb (FromID row) to_stop && String.eqb (ToID row) from_stop)) roads with
  | Some row => Distance_km row * 1000
  | None =>
      match roads with
      | [] => fallback
      | _ => sum_Q (Distance_km <$> roads) / inject_Z (Z.of_nat (length roads)) * 1000
      end
  end.

(** The pairs of consecutive stops. *)
Fixpoint consecutive (stops : list string) : list (string * string) :=
  match stops with
  | a :: (b :: _) as rest => (a, b) :: consecutive rest
  | _ => []
  end.

Definition stop_node (G : Graph) (stop kind : string) : Graph :=
  if has_node G stop then G
  else add_node G stop
         {| name := Some stop; population := None; type := Some kind; pos := None |}.

Definition add_bus_hop (roads : list RoadRow) (route : BusRouteRow)
    (s : Graph * gset string) (hop : string * string) : Graph * gset string :=
  let '(G, bus_stops) := s in
  let '(from_stop, to_stop) := hop in
  let G := stop_node G from_stop "bus_stop" in
  let G := stop_node G to_stop "bus_stop" in
  let edge_data :=
    {| distance := Some (stop_distance roads from_stop to_stop 1500);
       capacity := Some (bus_Daily_Passengers route / 24);
       condition := Some 7;
       road_type := Some bus;
       cost := Some 0;
       route_id := Some (RouteID route);
       buses_assigned := Some (Buses_Assigned route);
       line_id := None |} in
  (add_edge G from_stop to_stop edge_data, {[from_stop]} ∪ ({[to_stop]} ∪ bus_stops)).

Definition add_bus_route (roads : list RoadRow) (s : Graph * gset string)
    (route : BusRouteRow) : Graph * gset string :=
  foldl (add_bus_hop roads route) s (consecutive (Stops route)).

Definition add_metro_hop (roads : list RoadRow) (line : MetroLineRow)
    (s : Graph * gset string) (hop : string * string) : Graph * gset string :=
  let '(G, metro_stations) := s in
  let '(from_station, to_station) := hop in
  let G := stop_node G from_station "metro_station" in
  let G := stop_node G to_station "metro_station" in
  let edge_data :=
    {| distance := Some (stop_distance roads from_station to_station 2000);
       capacity := Some (metro_Daily_Passengers line / 24);
       condition := Some 8;
       road_type := Some metro;
       cost := Some 0;
       route_id := None;
       buses_assigned := None;
       line_id := Some (LineID line) |} in
  (add_edge G from_station to_station edge_data,
   {[from_station]} ∪ ({[to_station]} ∪ metro_stations)).

Definition add_metro_line (roads : list RoadRow) (s : Graph * gset string)
    (line : MetroLineRow) : Graph * gset string :=
  foldl (add_metro_hop roads line) s (consecutive (Stations line)).

(** An insertion-ordered dictionary with string keys, for [all_coords]. *)
Fixpoint dict_set {V : Type} (d : list (string * V)) (k : string) (v : V)
    : list (string * V) :=
  match d with
  | [] => [(k, v)]
  | (k', v') :: rest =>
      if decide (k' = k) then (k', v) :: rest else (k', v') :: dict_set rest k v
  end.

Definition dict_get {V : Type} (d : list (string * V)) (k : string) : option V :=
  snd <$> List.find (fun p => String.eqb (fst p) k) d.

Definition all_coords_of (data : Data) : list (string * (Q * Q)) :=
  let from_neighborhoods :=
    foldl (fun d row => dict_set d (nb_ID row) (nb_X row, nb_Y row)) [] (neighborhoods data) in
  foldl (fun d row =>
           match fc_X row, fc_Y row with
           | Some x, Some y => dict_set d (fc_ID row) (x, y)
           | _, _ => d
           end) from_neighborhoods (facilities data).

(** [G.nodes[node]["pos"] = p] *)
Definition set_pos (G : Graph) (node : string) (p : Q * Q) : Graph :=
  {| g_nodes := update_node (g_nodes G) node
                  {| name := None; population := None; type := None; pos := Some p |};
     g_edges := g_edges G |}.

Definition node_pos (G : Graph) (node : string) : option (Q * Q) :=
  match List.find (fun p => String.eqb (fst p) node) (g_nodes G) with
  | Some (_, d) => pos d
  | None => None
  end.

(** The search for the nearest entry of [all_coords] other than [node]:
    [None] stands for [nearest = None, min_dist = inf]. *)
Definition nearest_by (dist : Q * Q -> Q) (all_coords : list (string * (Q * Q)))
    (node : string) : option (string * Q) :=
  foldl (fun best '(other_node, p) =>
           if decide (other_node = node) then best
           else
             let d := dist p in
             match best with
             | None => Some (other_node, d)
             | Some (_, min_dist) =>
                 if Qlt_le_dec d min_dist then Some (other_node, d) else best
             end)
        None all_coords.

Section CreateGraph.
(** [distance_calc] takes a cosine and a square root, and
    [nx.shortest_path] with [nx.path_weight] is library code: both are
    parameters of the model.  [shortest_path_weight G u v] is [None] when
    networkx raises [NetworkXNoPath] or [NodeNotFound]. *)
Variable distance_calc : Q -> Q -> Q -> Q -> Q.
Variable shortest_path_weight : Graph -> string -> string -> option Q.

Definition virtual_edge_data (rt : RoadType) (d cond : Q) : EdgeData :=
  {| distance := Some d; capacity := None; condition := Some cond;
     road_type := Some rt; cost := Some 0;
     route_id := None; buses_assigned := None; line_id := None |}.

(** The body of the loop that gives every node a position. *)
Definition place_node (positions : list string) (all_coords : list (string * (Q * Q)))
    (G : Graph) (node : string) : Graph :=
  if bool_decide (node ∈ positions) then G
  else
    match dict_get all_coords node with
    | Some c => set_pos G node c
    | None =>
        let nearest :=
          fst <$> nearest_by (fun p => distance_calc (fst p) (snd p) (fst p) (snd p))
                             all_coords node in
        if truthy nearest then
          let nearest := default EmptyString nearest in
          let '(x, y) := default (0, 0) (dict_get all_coords nearest) in
          let G := set_pos G node (x + (1 # 100), y + (1 # 100)) in
          let calculated_distance := default 1000 (shortest_path_weight G node nearest) in
          add_edge G node nearest (virtual_edge_data virtual_link calculated_distance 10)
        else set_pos G node (0, 0)
    end.

(** [nx.isolates(G)]: the nodes without an incident edge. *)
Definition isolates (G : Graph) : list string :=
  filter (fun n => omap (other_end n) (g_edges G) = []) (node_ids G).

(** The body of the loop over the isolated nodes; every node has a
    position by then. *)
Definition connect_isolated (all_coords : list (string * (Q * Q)))
    (G : Graph) (node : string) : Graph :=
  let '(x1, y1) := default (0, 0) (node_pos G node) in
  match nearest_by (fun p => distance_calc x1 y1 (fst p) (snd p)) all_coords node with
  | Some (nearest_node, min_dist) =>
      if truthy (Some nearest_node) then
        let calculated_distance :=
          default min_dist (shortest_path_weight G node nearest_node) in
        add_edge G node nearest_node
                 (virtual_edge_data virtual_connection calculated_distance 8)
      else G
  | None => G
  end.

Definition neighborhood_node (row : NeighborhoodRow) : NodeData :=
  {| name := Some (nb_Name row); population := Some (nb_Population row);
     type := Some (lower (nb_Type row)); pos := Some (nb_X row, nb_Y row) |}.

Definition facility_node (row : FacilityRow) : NodeData :=
  {| name := Some (fc_Name row); population := None;
     type := Some (lower (fc_Type row));
     pos := match fc_X row, fc_Y row with
            | Some x, Some y => Some (x, y)
            | _, _ => None
            end |}.

Record Created := mkCreated {
  created_graph : Graph;
  bus_stops : gset string;
  metro_stations : gset string;
  traffic_out : TrafficData;
  printed : list Warning
}.

Definition empty_graph : Graph := {| g_nodes := []; g_edges := [] |}.

(** The graph after the loops over the nodes and the existing roads. *)
Definition with_existing_roads (data : Data) : Build :=
  let G := foldl (fun G row => add_node G (nb_ID row) (neighborhood_node row))
                 empty_graph (neighborhoods data) in
  let G := foldl (fun G row => add_node G (fc_ID row) (facility_node row))
                 G (facilities data) in
  foldl add_existing_road {| graph := G; warnings := [] |} (existing_roads data).

Definition create_graph (data : Data) : Created :=
  let b := with_existing_roads data in
  let '(G, stops) :=
    foldl (add_bus_route (existing_roads data)) (graph b, ∅) (bus_routes data) in
  let '(G, stations) :=
    foldl (add_metro_line (existing_roads data)) (G, ∅) (metro_lines data) in
  let b := foldl add_potential_road {| graph := G; warnings := warnings b |}
                 (potential_roads data) in
  let all_coords := all_coords_of data in
  let positions :=
    (filter (fun nd => is_Some (pos (snd nd))) (g_nodes (graph b))).*1 in
  let G := foldl (place_node positions all_coords) (graph b) (node_ids (graph b)) in
  let G := foldl (connect_isolated all_coords) G (isolates G) in
  {| created_graph := G; bus_stops := stops; metro_stations := stations;
     traffic_out := traffic data; printed := warnings b |}.

End CreateGraph.

(** ** The distance cap of [create_graph] *)





Lemma add_node_edges G n attrs : g_edges (add_node G n attrs) = g_edges G.
Proof. unfold add_node. destruct (has_node G n); reflexivity. Qed.

Lemma add_edge_edges G u v data :
  exists k, g_edges (add_edge G u v data) =
            g_edges G ++ [ {| e_u := u; e_v := v; e_key := k; e_data := data |} ].
Proof.
  unfold add_edge.
  set (G1 := if has_node G u then G else add_node G u no_node_data).
  set (G2 := if has_node G1 v then G1 else add_node G1 v no_node_data).
  assert (E1 : g_edges G1 = g_edges G).
  { subst G1. destruct (has_node G u); [reflexivity | apply add_node_edges]. }
  assert (E2 : g_edges G2 = g_edges G).
  { subst G2. destruct (has_node G1 v); [exact E1|]. rewrite add_node_edges. exact E1. }
  exists (length (edges_between G2 u v)). simpl. rewrite E2. reflexivity.
Qed.


Lemma stop_node_edges G stop kind : g_edges (stop_node G stop kind) = g_edges G.
Proof. unfold stop_node. destruct (has_node G stop); [reflexivity | apply add_node_edges]. Qed.

















(** Three places, a road of length zero from "A" to "B", a road of 150 km
    from "A" to "C", and a bus route over the stops "A" and "C". *)
Definition cap_example : Data :=
  {| neighborhoods :=
       [ {| nb_ID := "A"; nb_Name := "north"; nb_Population := 1000;
            nb_Type := "residential"; nb_X := 0; nb_Y := 0 |};
         {| nb_ID := "B"; nb_Name := "east"; nb_Population := 1000;
            nb_Type := "residential"; nb_X := 1; nb_Y := 0 |};
         {| nb_ID := "C"; nb_Name := "south"; nb_Population := 1000;
            nb_Type := "residential"; nb_X := 0; nb_Y := 1 |} ];
     facilities := [];
     existing_roads :=
       [ {| FromID := "A"; ToID := "B"; Distance_km := 0; Current_Capacity := 100;
            Condition := 5 |};
         {| FromID := "A"; ToID := "C"; Distance_km := 150; Current_Capacity := 100;
            Condition := 5 |} ];
     bus_routes :=
       [ {| RouteID := "R1"; Stops := ["A"; "C"]%string; Buses_Assigned := 3;
            bus_Daily_Passengers := 2400 |} ];
     metro_lines := [];
     potential_roads := [];
     traffic := ∅ |}.


(** ** Connectivity, cycles and components of an edge set *)

(** An edge set is the list of the end pairs of its edges. *)
Definition adjacent (es : list (string * string)) (x y : string) : Prop :=
  (x, y) ∈ es \/ (y, x) ∈ es.

Definition connected (es : list (string * string)) : string -> string -> Prop :=
  rtc (adjacent es).

Lemma connected_refl es x : connected es x x.
Proof. apply rtc_refl. Qed.

Lemma connected_trans es x y z : connected es x y -> connected es y z -> connected es x z.
Proof. intros H1 H2. eapply rtc_trans; eauto. Qed.

Lemma connected_sym es x y : connected es x y -> connected es y x.
Proof.
  induction 1 as [x|x y z Hxy _ IH]; [apply rtc_refl|].
  eapply rtc_r; [exact IH|]. destruct Hxy; [right | left]; assumption.
Qed.

Lemma connected_edge es u v : (u, v) ∈ es -> connected es u v.
Proof. intros H. apply rtc_once. left. exact H. Qed.

Lemma connected_mono es es' x y :
  (forall p, p ∈ es -> p ∈ es') -> connected es x y -> connected es' x y.
Proof.
  intros Hsub. induction 1 as [x|x y z Hxy _ IH]; [apply rtc_refl|].
  eapply rtc_l; [|exact IH]. destruct Hxy; [left | right]; auto.
Qed.

(** A path that may use the edge [(u, v)] either avoids it or crosses
    it. *)
Lemma connected_add es u v a b :
  connected ((u, v) :: es) a b ->
  connected es a b \/
  (connected es a u /\ connected es v b) \/
  (connected es a v /\ connected es u b).
Proof.
  induction 1 as [a|a c b Hac _ IH]; [left; apply rtc_refl|].
  assert (Hcases : adjacent es a c \/ (a = u /\ c = v) \/ (a = v /\ c = u)).
  { destruct Hac as [H|H]; apply elem_of_cons in H as [H|H].
    - injection H as -> ->. auto.
    - left. left. exact H.
    - injection H as -> ->. auto.
    - left. right. exact H. }
  destruct Hcases as [Had|[[-> ->]|[-> ->]]].
  - destruct IH as [IH|[[IH1 IH2]|[IH1 IH2]]].
    + left. eapply rtc_l; eauto.
    + right. left. split; [eapply rtc_l; eauto | exact IH2].
    + right. right. split; [eapply rtc_l; eauto | exact IH2].
  - destruct IH as [IH|[[IH1 IH2]|[IH1 IH2]]].
    + right. left. split; [apply rtc_refl | exact IH].
    + right. left. split; [apply rtc_refl | exact IH2].
    + left. exact IH2.
  - destruct IH as [IH|[[IH1 IH2]|[IH1 IH2]]].
    + right. right. split; [apply rtc_refl | exact IH].
    + left. exact IH2.
    + right. right. split; [apply rtc_refl | exact IH2].
Qed.

Lemma connected_snoc_inv es u v a b :
  connected (es ++ [(u, v)]) a b ->
  connected es a b \/
  (connected es a u /\ connected es v b) \/
  (connected es a v /\ connected es u b).
Proof.
  intros H. apply connected_add. eapply connected_mono; [|exact H].
  intros p [Hp|Hp%list_elem_of_singleton]%elem_of_app.
  - apply list_elem_of_further, Hp.
  - subst p. apply list_elem_of_here.
Qed.

Lemma connected_snoc es u v a b : connected es a b -> connected (es ++ [(u, v)]) a b.
Proof. apply connected_mono. intros p Hp. apply elem_of_app. left. exact Hp. Qed.

Lemma connected_snoc_new es u v : connected (es ++ [(u, v)]) u v.
Proof. apply connected_edge, elem_of_app. right. apply list_elem_of_here. Qed.

(** No cycle: no edge joins two nodes that the other edges already
    connect.  A loop at a node and a second edge between two nodes are
    cycles. *)
Definition acyclic (es : list (string * string)) : Prop :=
  forall l1 u v l2, es = l1 ++ (u, v) :: l2 -> ~ connected (l1 ++ l2) u v.

Lemma acyclic_nil : acyclic [].
Proof. intros l1 u v l2 E. destruct l1; discriminate. Qed.

Lemma acyclic_snoc es u v : acyclic es -> ~ connected es u v -> acyclic (es ++ [(u, v)]).
Proof.
  intros Hac Hnc l1 a b l2 E.
  destruct l2 as [|x l2 _] using rev_ind.
  - apply app_inj_tail in E as [-> E]. injection E as -> ->.
    rewrite app_nil_r. exact Hnc.
  - rewrite app_comm_cons, app_assoc in E. apply app_inj_tail in E as [-> <-].
    rewrite app_assoc. intros Hc.
    assert (Hsub : forall p, p ∈ l1 ++ l2 -> p ∈ l1 ++ (a, b) :: l2).
    { intros p [Hp|Hp]%elem_of_app; apply elem_of_app;
        [left | right; apply list_elem_of_further]; exact Hp. }
    assert (Hab : connected (l1 ++ (a, b) :: l2) a b).
    { apply connected_edge, elem_of_app. right. apply list_elem_of_here. }
    apply connected_snoc_inv in Hc as [Hc|[[H1 H2]|[H1 H2]]].
    + exact (Hac l1 a b l2 eq_refl Hc).
    + apply Hnc. eapply connected_trans;
        [apply connected_sym, (connected_mono _ _ _ _ Hsub H1)|].
      eapply connected_trans; [exact Hab|].
      apply connected_sym, (connected_mono _ _ _ _ Hsub H2).
    + apply Hnc. apply connected_sym. eapply connected_trans;
        [apply connected_sym, (connected_mono _ _ _ _ Hsub H1)|].
      eapply connected_trans; [exact Hab|].
      apply connected_sym, (connected_mono _ _ _ _ Hsub H2).
Qed.

Lemma acyclic_snoc_inv es u v :
  acyclic (es ++ [(u, v)]) -> acyclic es /\ ~ connected es u v.
Proof.
  intros Hac. split.
  - intros l1 a b l2 -> Hc.
    apply (Hac l1 a b (l2 ++ [(u, v)])).
    + rewrite <- app_assoc. reflexivity.
    + rewrite app_assoc. apply connected_snoc, Hc.
  - intros Hc. apply (Hac es u v []); [reflexivity|]. rewrite app_nil_r. exact Hc.
Qed.

(** A labelling of the nodes by connected component: the edge [(u, v)]
    gives the label of [v] to all nodes that carry the label of [u]. *)
Definition relabel (label : string -> string) (u v : string) : string -> string :=
  fun n => if decide (label n = label u) then label v else label n.

Definition labels (es : list (string * string)) : string -> string :=
  foldl (fun label '(u, v) => relabel label u v) id es.

Lemma relabel_connected (P : string -> Prop) es (label : string -> string) u v :
  (forall a b, P a -> P b -> (label a = label b <-> connected es a b)) ->
  P u -> P v ->
  forall a b, P a -> P b ->
    (relabel label u v a = relabel label u v b <-> connected (es ++ [(u, v)]) a b).
Proof.
  intros HL Hu Hv a b Ha Hb. unfold relabel. split.
  - intros E.
    destruct (decide (label a = label u)) as [Hau|Hau],
             (decide (label b = label u)) as [Hbu|Hbu].
    + apply connected_snoc, HL; auto. congruence.
    + eapply connected_trans; [apply connected_snoc, HL; [| |exact Hau]; auto|].
      eapply connected_trans; [apply connected_snoc_new|].
      apply connected_snoc, HL; auto.
    + apply connected_sym.
      eapply connected_trans; [apply connected_snoc, HL; [| |exact Hbu]; auto|].
      eapply connected_trans; [apply connected_snoc_new|].
      apply connected_snoc, HL; auto.
    + apply connected_snoc, HL; auto.
  - intros Hc. apply connected_snoc_inv in Hc as [Hc|[[H1 H2]|[H1 H2]]].
    + apply HL in Hc; auto. rewrite Hc.
      destruct (decide (label b = label u)); reflexivity.
    + apply HL in H1, H2; auto. rewrite decide_True by exact H1.
      destruct (decide (label b = label u)); congruence.
    + apply HL in H1, H2; auto. rewrite (decide_True _ _ (eq_sym H2)).
      destruct (decide (label a = label u)); congruence.
Qed.

Lemma labels_snoc es u v : labels (es ++ [(u, v)]) = relabel (labels es) u v.
Proof. unfold labels. rewrite foldl_snoc. reflexivity. Qed.

Lemma labels_spec es a b : labels es a = labels es b <-> connected es a b.
Proof.
  revert a b. induction es as [|[u v] es IH] using rev_ind; intros a b.
  - unfold labels, id. simpl. split; [intros ->; apply rtc_refl|].
    intros H. apply rtc_inv in H as [H|(c & [Hc|Hc] & _)]; [exact H| |]; inversion Hc.
  - rewrite labels_snoc.
    apply (relabel_connected (fun _ => True)); auto.
Qed.

(** [nx.has_path(mst, u, v)] for two nodes of [mst].  The function
    belongs to networkx and is taken by what it decides: whether a path
    joins the two nodes, read here from the component labels. *)
Definition has_path (es : list (string * string)) (u v : string) : bool :=
  bool_decide (labels es u = labels es v).

Lemma has_path_spec es u v : has_path es u v = true <-> connected es u v.
Proof.
  unfold has_path. rewrite <- labels_spec. split.
  - apply bool_decide_eq_true_1.
  - apply bool_decide_eq_true_2.
Qed.

(** The number of connected components among [nodes]. *)
Definition component_count (nodes : list string) (es : list (string * string)) : nat :=
  size (list_to_set (labels es <$> nodes) : gset string).

Lemma component_count_nil (nodes : list string) :
  NoDup nodes -> component_count nodes [] = length nodes.
Proof.
  intros Hnd. unfold component_count, labels. simpl. rewrite list_fmap_id.
  apply size_list_to_set, Hnd.
Qed.

(** An edge between two components merges them. *)
Lemma component_count_snoc (nodes : list string) es u v :
  u ∈ nodes -> v ∈ nodes -> ~ connected es u v ->
  S (component_count nodes (es ++ [(u, v)])) = component_count nodes es.
Proof.
  intros Hu Hv Hnc. unfold component_count. rewrite labels_snoc.
  set (L := labels es).
  assert (Hne : L u <> L v) by (intros E; apply Hnc, labels_spec, E).
  assert (Hset : (list_to_set (relabel L u v <$> nodes) : gset string)
                 = list_to_set (L <$> nodes) ∖ {[L u]}).
  { apply set_eq. intros x.
    rewrite elem_of_difference, !elem_of_list_to_set, !list_elem_of_fmap,
      elem_of_singleton.
    unfold relabel. split.
    - intros (n & -> & Hn). destruct (decide (L n = L u)) as [E|E].
      + split; [exists v; auto | congruence].
      + split; [exists n; auto | exact E].
    - intros [(n & -> & Hn) Hx]. exists n. split; [|exact Hn].
      rewrite decide_False by exact Hx. reflexivity. }
  rewrite Hset, size_difference.
  - rewrite size_singleton.
    assert (Hpos : size (list_to_set (L <$> nodes) : gset string) <> 0%nat).
    { apply size_non_empty_iff. intros E.
      assert (Hin : L u ∈ (list_to_set (L <$> nodes) : gset string))
        by apply elem_of_list_to_set, list_elem_of_fmap_2, Hu.
      rewrite E in Hin. apply not_elem_of_empty in Hin. exact Hin. }
    lia.
  - intros x Hx%elem_of_singleton. subst x.
    apply elem_of_list_to_set, list_elem_of_fmap_2, Hu.
Qed.

(** A set of edges without a cycle has as many edges as there are nodes
    less components. *)
Lemma acyclic_count (nodes : list string) es :
  NoDup nodes ->
  (forall u v, (u, v) ∈ es -> u ∈ nodes /\ v ∈ nodes) ->
  acyclic es ->
  (length es + component_count nodes es = length nodes)%nat.
Proof.
  intros Hnd. induction es as [|[u v] es IH] using rev_ind; intros Hin Hac.
  - simpl. apply component_count_nil, Hnd.
  - apply acyclic_snoc_inv in Hac as [Hac Hnc].
    destruct (Hin u v) as [Hu Hv]; [apply elem_of_app; right; apply list_elem_of_here|].
    pose proof (component_count_snoc nodes es u v Hu Hv Hnc) as Hc.
    rewrite length_app. simpl.
    specialize (IH ltac:(intros a b H; apply Hin, elem_of_app; left; exact H) Hac).
    lia.
Qed.

(** ** [population_weighted_mst] (modified_mst.py) *)

(** The closures [find] and [union] over the dictionaries [parent] and
    [rank]; the recursion of [find] takes fuel. *)
Module UnionFind.

Record UF := mkUF {
  parent : gmap string string;
  rank : gmap string nat
}.

(** [{node: node for node in nodes}] and [{node: 0 for node in nodes}] *)
Definition init (nodes : list string) : UF :=
  {| parent := foldr (fun n m => <[n := n]> m) ∅ nodes;
     rank := dict_of_nodes nodes 0%nat |}.

(** [find(node)], with path compression: the updated [parent] and the
    root. *)
Fixpoint find (fuel : nat) (parent : gmap string string) (node : string)
    : Res (gmap string string * string) :=
  match fuel with
  | O => OutOfFuel
  | S fuel' =>
      p ← subscript parent node;
      if decide (p = node) then Ok (parent, p)
      else
        '(parent, root) ← find fuel' parent p;
        Ok (<[node := root]> parent, root)
  end.

Definition union (fuel : nat) (uf : UF) (node1 node2 : string) : Res UF :=
  '(parent, root1) ← find fuel (parent uf) node1;
  '(parent, root2) ← find fuel parent node2;
  if decide (root1 = root2) then Ok {| parent := parent; rank := rank uf |}
  else
    rank1 ← subscript (rank uf) root1;
    rank2 ← subscript (rank uf) root2;
    if (rank1 <? rank2)%nat then
      Ok {| parent := <[root1 := root2]> parent; rank := rank uf |}
    else if (rank2 <? rank1)%nat then
      Ok {| parent := <[root2 := root1]> parent; rank := rank uf |}
    else
      Ok {| parent := <[root2 := root1]> parent;
            rank := <[root1 := S rank1]> (rank uf) |}.

End UnionFind.

(** [keyword in text] *)
Fixpoint contains (keyword text : string) : bool :=
  String.prefix keyword text ||
  match text with
  | EmptyString => false
  | String _ rest => contains keyword rest
  end.

Definition critical_keywords : list string :=
  ["hospital"; "medical"; "government"; "airport"; "police"; "fire"]%string.

(** The identifiers of the critical facilities, in table order. *)
Definition critical_facilities_of (facilities : list FacilityRow) : list string :=
  fc_ID <$>
    filter (fun row =>
              existsb (fun keyword => contains keyword (lower (fc_Type row)))
                      critical_keywords = true)
           facilities.

(** [G.edges(keys=True, data=True)] of a multigraph: every node in turn,
    then its neighbours not seen as a node before, then the keys. *)
Fixpoint edges_view_from (G : Graph) (seen nodes : list string)
    : list (string * string * nat * EdgeData) :=
  match nodes with
  | [] => []
  | n :: rest =>
      flat_map (fun v =>
                  if bool_decide (v ∈ seen) then []
                  else (fun kd => (n, v, fst kd, snd kd)) <$> edges_between G n v)
               (neighbors G n)
      ++ edges_view_from G (n :: seen) rest
  end.

Definition edges_view (G : Graph) : list (string * string * nat * EdgeData) :=
  edges_view_from G [] (node_ids G).

(** An entry of the list [edges]. *)
Record Candidate := mkCandidate {
  c_u : string;
  c_v : string;
  c_distance : Q;
  c_modified_weight : Q;
  c_original_data : EdgeData
}.

Definition candidate (population_by_id : gmap string Q) (critical : list string)
    (alpha beta : Q) (e : string * string * nat * EdgeData) : option Candidate :=
  let '(u, v, _, data) := e in
  match distance data with
  | None => None
  | Some d =>
      if Qlt_le_dec 100000 d then None
      else
        let u_pop := default 0 (population_by_id !! u) in
        let v_pop := default 0 (population_by_id !! v) in
        let total_pop := u_pop + v_pop in
        let pop_factor :=
          if Qlt_le_dec 0 total_pop then 1 - Qmin 1 (total_pop / 1000000) else 1 in
        let facility_factor :=
          if bool_decide (u ∈ critical) || bool_decide (v ∈ critical)
          then 1 # 2 else 1 in
        Some {| c_u := u; c_v := v; c_distance := d;
                c_modified_weight := d * (alpha * pop_factor + beta * facility_factor);
                c_original_data := data |}
  end.

(** [edges.sort(key=modified_weight)]: a stable ascending sort. *)
Fixpoint insert_by_weight (x : Candidate) (l : list Candidate) : list Candidate :=
  match l with
  | [] => [x]
  | y :: l' =>
      if Qlt_le_dec (c_modified_weight y) (c_modified_weight x)
      then y :: insert_by_weight x l'
      else x :: l
  end.

Definition sort_by_weight (l : list Candidate) : list Candidate :=
  foldr insert_by_weight [] l.

(** The end pairs of a list of selected edges. *)
Definition ends (selected : list Candidate) : list (string * string) :=
  (fun c => (c_u c, c_v c)) <$> selected.

(** The body of the Kruskal loop: [if find(u) != find(v): union(u, v)]
    and the edge is appended. *)
Definition kruskal_step (fuel : nat) (c : Candidate)
    (s : UnionFind.UF * list Candidate) : Res (UnionFind.UF * list Candidate) :=
  let '(uf, mst_edges) := s in
  '(parent, root_u) ← UnionFind.find fuel (UnionFind.parent uf) (c_u c);
  '(parent, root_v) ← UnionFind.find fuel parent (c_v c);
  let uf := {| UnionFind.parent := parent; UnionFind.rank := UnionFind.rank uf |} in
  if decide (root_u = root_v) then Ok (uf, mst_edges)
  else
    uf ← UnionFind.union fuel uf (c_u c) (c_v c);
    Ok (uf, mst_edges ++ [c]).

(** The neighbours of [x] in the simple graph [mst]. *)
Definition mst_neighbors (mst_edges : list Candidate) (x : string) : list string :=
  first_occurrences []
    (omap (fun c => if decide (c_u c = x) then Some (c_v c)
                    else if decide (c_v c = x) then Some (c_u c) else None) mst_edges).

(** [mst.degree(x)]: a loop counts twice. *)
Definition mst_degree (mst_edges : list Candidate) (x : string) : nat :=
  (length (mst_neighbors mst_edges x)
   + if bool_decide (x ∈ mst_neighbors mst_edges x) then 1 else 0)%nat.

(** The nodes of [mst]: the ends of its edges, then the other nodes of
    [G]. *)
Definition mst_nodes (G : Graph) (mst_edges : list Candidate) : list string :=
  first_occurrences []
    (flat_map (fun c => [c_u c; c_v c]) mst_edges ++ node_ids G).

(** The search for [best_edge] in the repair pass; [find] runs only for
    the edges at the facility. *)
Definition best_edge_step (fuel : nat) (facility : string) (c : Candidate)
    (s : UnionFind.UF * option Candidate) : Res (UnionFind.UF * option Candidate) :=
  let '(uf, best) := s in
  if bool_decide (c_u c = facility) || bool_decide (c_v c = facility) then
    '(parent, root_u) ← UnionFind.find fuel (UnionFind.parent uf) (c_u c);
    '(parent, root_v) ← UnionFind.find fuel parent (c_v c);
    let uf := {| UnionFind.parent := parent; UnionFind.rank := UnionFind.rank uf |} in
    if decide (root_u = root_v) then Ok (uf, best)
    else
      match best with
      | None => Ok (uf, Some c)
      | Some b =>
          if Qlt_le_dec (c_modified_weight c) (c_modified_weight b)
          then Ok (uf, Some c) else Ok (uf, best)
      end
  else Ok s.

(** The body of the loop over the critical facilities. *)
Definition repair_step (fuel : nat) (G : Graph) (edges : list Candidate)
    (facility : string) (s : UnionFind.UF * list Candidate)
    : Res (UnionFind.UF * list Candidate) :=
  let '(uf, mst_edges) := s in
  if bool_decide (facility ∈ mst_nodes G mst_edges)
     && (mst_degree mst_edges facility <? 2)%nat then
    '(uf, best) ← foldM (best_edge_step fuel facility) edges (uf, None);
    match best with
    | Some c =>
        uf ← UnionFind.union fuel uf (c_u c) (c_v c);
        Ok (uf, mst_edges ++ [c])
    | None => Ok (uf, mst_edges)
    end
  else Ok s.

Record Analysis := mkAnalysis {
  an_total_distance : Q;
  an_total_distance_km : Q;
  node_count : nat;
  edge_count : nat;
  covered_population : Q;
  population_coverage_percent : Q;
  critical_facilities_count : nat;
  covered_facilities : nat;
  facility_coverage_percent : Q;
  average_node_degree : Q
}.

(** The edges of the simple graph [mst]: adding an edge between two
    joined nodes replaces its attributes. *)
Fixpoint simple_add (edges : list Candidate) (c : Candidate) : list Candidate :=
  match edges with
  | [] => [c]
  | e :: rest =>
      if bool_decide ((c_u e = c_u c /\ c_v e = c_v c) \/ (c_u e = c_v c /\ c_v e = c_u c))
      then {| c_u := c_u e; c_v := c_v e; c_distance := c_distance c;
              c_modified_weight := c_modified_weight c;
              c_original_data := c_original_data c |} :: rest
      else e :: simple_add rest c
  end.

Definition simple_edges (mst_edges : list Candidate) : list Candidate :=
  foldl simple_add [] mst_edges.

Definition nat_Q (n : nat) : Q := inject_Z (Z.of_nat n).

Definition analyse (G : Graph) (population_by_id : gmap string Q)
    (critical : list string) (mst_edges : list Candidate) : Res Analysis :=
  let nodes := mst_nodes G mst_edges in
  let total_distance := sum_Q (c_distance <$> simple_edges mst_edges) in
  let covered := sum_Q (omap (fun n => population_by_id !! n) nodes) in
  let covered_facilities :=
    length (filter (fun f => f ∈ nodes) critical) in
  avg_degree ←
    (if decide (length nodes = 0%nat) then Raise ZeroDivisionError
     else Ok (nat_Q (foldr Nat.add 0%nat (mst_degree mst_edges <$> nodes))
              / nat_Q (length nodes)));
  let total_population := sum_Q (snd <$> map_to_list population_by_id) in
  coverage ←
    (if decide (population_by_id = ∅) then Ok 0
     else if Qeq_bool total_population 0 then Raise ZeroDivisionError
     else Ok (covered / total_population * 100));
  Ok {| an_total_distance := total_distance;
        an_total_distance_km := total_distance / 1000;
        node_count := length nodes;
        edge_count := length (simple_edges mst_edges);
        covered_population := covered;
        population_coverage_percent := coverage;
        critical_facilities_count := length critical;
        covered_facilities := covered_facilities;
        facility_coverage_percent :=
          match critical with
          | [] => 0
          | _ => nat_Q covered_facilities / nat_Q (length critical) * 100
          end;
        average_node_degree := avg_degree |}.

(** The function returns the selected edges and the analysis; the
    measured execution time is not modelled.  [fuel] bounds the depth of
    the recursion of [find]. *)
Definition population_weighted_mst (fuel : nat) (G : Graph)
    (neighborhoods : list NeighborhoodRow) (facilities : list FacilityRow)
    (alpha beta : Q) : Res (list (string * string * EdgeData) * Analysis) :=
  let population_by_id := population_of neighborhoods in
  let critical_facilities := critical_facilities_of facilities in
  let edges :=
    sort_by_weight (omap (candidate population_by_id critical_facilities alpha beta)
                         (edges_view G)) in
  '(uf, mst_edges) ←
    foldM (kruskal_step fuel) edges (UnionFind.init (node_ids G), []);
  '(uf, mst_edges) ←
    foldM (repair_step fuel G edges) critical_facilities (uf, mst_edges);
  analysis ← analyse G population_by_id critical_facilities mst_edges;
  Ok ((fun c => (c_u c, c_v c, c_original_data c)) <$> mst_edges, analysis).

(** ** The union-find structure and the components of the selection *)

Lemma connected_swap es u v a b :
  connected (es ++ [(u, v)]) a b -> connected (es ++ [(v, u)]) a b.
Proof.
  induction 1 as [a|a c b Hac _ IH]; [apply rtc_refl|].
  eapply rtc_l; [|exact IH].
  destruct Hac as [H|H]; apply elem_of_app in H as [H|H%list_elem_of_singleton].
  - left. apply elem_of_app. auto.
  - injection H as -> ->. right. apply elem_of_app. right. apply list_elem_of_here.
  - right. apply elem_of_app. auto.
  - injection H as -> ->. left. apply elem_of_app. right. apply list_elem_of_here.
Qed.

(** [rep] names the component of every node: parents stay within the
    component, a node that is its own parent names its component, and two
    nodes have the same name exactly when the selected edges connect
    them. *)
Record UFInv (nodes : list string) (es : list (string * string))
    (parent : gmap string string) (rep : string -> string) : Prop := {
  uf_dom : forall n, is_Some (parent !! n) -> n ∈ nodes;
  uf_parent : forall n p, parent !! n = Some p -> p ∈ nodes /\ rep p = rep n;
  uf_root : forall n, parent !! n = Some n -> rep n = n;
  uf_conn : forall a b, a ∈ nodes -> b ∈ nodes ->
    (rep a = rep b <-> connected es a b)
}.

Lemma identity_dict_lookup (nodes : list string) (n : string) :
  UnionFind.parent (UnionFind.init nodes) !! n =
  if bool_decide (n ∈ nodes) then Some n else None.
Proof.
  unfold UnionFind.init. cbn [UnionFind.parent].
  induction nodes as [|x nodes IH]; simpl.
  - rewrite lookup_empty. reflexivity.
  - destruct (decide (x = n)) as [->|Hne].
    + rewrite lookup_insert_eq, bool_decide_eq_true_2 by apply list_elem_of_here.
      reflexivity.
    + rewrite lookup_insert_ne, IH by exact Hne.
      destruct (bool_decide (n ∈ nodes)) eqn:E.
      * apply bool_decide_eq_true_1 in E.
        rewrite bool_decide_eq_true_2 by (apply list_elem_of_further; exact E).
        reflexivity.
      * apply bool_decide_eq_false_1 in E.
        rewrite bool_decide_eq_false_2; [reflexivity|].
        intros [?|?]%elem_of_cons; congruence.
Qed.

Lemma UFInv_init (nodes : list string) :
  UFInv nodes [] (UnionFind.parent (UnionFind.init nodes)) id.
Proof.
  constructor.
  - intros n [p Hp]. rewrite identity_dict_lookup in Hp.
    destruct (bool_decide (n ∈ nodes)) eqn:E; [|discriminate].
    apply bool_decide_eq_true_1 in E. exact E.
  - intros n p Hp. rewrite identity_dict_lookup in Hp.
    destruct (bool_decide (n ∈ nodes)) eqn:E; [|discriminate].
    apply bool_decide_eq_true_1 in E. injection Hp as <-. auto.
  - reflexivity.
  - intros a b _ _. apply (labels_spec [] a b).
Qed.

(** [find] returns the name of the component and keeps the invariant. *)
Lemma find_spec nodes es rep : forall fuel parent n parent' r,
  UFInv nodes es parent rep ->
  UnionFind.find fuel parent n = Ok (parent', r) ->
  n ∈ nodes /\ r = rep n /\ parent' !! r = Some r /\ UFInv nodes es parent' rep.
Proof.
  induction fuel as [|fuel IH]; intros parent n parent' r HI Hfind; [discriminate|].
  simpl in Hfind. unfold subscript in Hfind.
  destruct (parent !! n) as [p|] eqn:Hp; [|discriminate].
  cbn [of_option] in Hfind. rewrite bind_Ok in Hfind.
  assert (Hn : n ∈ nodes) by (apply (uf_dom _ _ _ _ HI); eauto).
  destruct (decide (p = n)) as [->|Hne].
  - injection Hfind as <- <-.
    split; [exact Hn|]. split; [symmetry; apply (uf_root _ _ _ _ HI), Hp|]. auto.
  - destruct (UnionFind.find fuel parent p) as [[parent1 root]| |] eqn:Hrec;
      try discriminate.
    rewrite bind_Ok in Hfind. injection Hfind as <- <-.
    destruct (IH parent p parent1 root HI Hrec) as (Hpn & Hroot & Hself & HI1).
    destruct (uf_parent _ _ _ _ HI n p Hp) as [_ Hrep].
    assert (Hrr : rep root = root) by apply (uf_root _ _ _ _ HI1), Hself.
    split; [exact Hn|]. split; [congruence|].
    split.
    { destruct (decide (n = root)) as [->|Hnr];
        [apply lookup_insert_eq | rewrite lookup_insert_ne by exact Hnr; exact Hself]. }
    constructor.
    + intros m Hm. destruct (decide (n = m)) as [<-|Hnm]; [exact Hn|].
      rewrite lookup_insert_ne in Hm by exact Hnm. apply (uf_dom _ _ _ _ HI1), Hm.
    + intros m q Hq. destruct (decide (n = m)) as [<-|Hnm].
      * rewrite lookup_insert_eq in Hq. injection Hq as <-.
        split; [apply (uf_dom _ _ _ _ HI1); eauto | congruence].
      * rewrite lookup_insert_ne in Hq by exact Hnm. apply (uf_parent _ _ _ _ HI1), Hq.
    + intros m Hm. destruct (decide (n = m)) as [<-|Hnm].
      * rewrite lookup_insert_eq in Hm. injection Hm as Hm. congruence.
      * rewrite lookup_insert_ne in Hm by exact Hnm. apply (uf_root _ _ _ _ HI1), Hm.
    + apply (uf_conn _ _ _ _ HI1).
Qed.

(** Making the root of [u] a child of the root of [v] merges the two
    components. *)
Lemma link_spec nodes es rep parent u v :
  UFInv nodes es parent rep -> u ∈ nodes -> v ∈ nodes ->
  rep u ∈ nodes -> rep v ∈ nodes ->
  rep (rep u) = rep u -> rep (rep v) = rep v ->
  rep u <> rep v ->
  UFInv nodes (es ++ [(u, v)]) (<[rep u := rep v]> parent) (relabel rep u v).
Proof.
  intros HI Hu Hv Hun Hvn Hruu Hrvv Hne.
  constructor.
  - intros m Hm. destruct (decide (rep u = m)) as [<-|Hnm]; [exact Hun|].
    rewrite lookup_insert_ne in Hm by exact Hnm. apply (uf_dom _ _ _ _ HI), Hm.
  - intros m q Hq. unfold relabel. destruct (decide (rep u = m)) as [<-|Hnm].
    + rewrite lookup_insert_eq in Hq. injection Hq as <-.
      split; [exact Hvn|].
      rewrite Hrvv, Hruu, decide_False, decide_True by congruence. reflexivity.
    + rewrite lookup_insert_ne in Hq by exact Hnm.
      destruct (uf_parent _ _ _ _ HI m q Hq) as [Hqn Hqm]. split; [exact Hqn|].
      rewrite Hqm. reflexivity.
  - intros m Hm. unfold relabel. destruct (decide (rep u = m)) as [<-|Hnm].
    + rewrite lookup_insert_eq in Hm. injection Hm as Hm. congruence.
    + rewrite lookup_insert_ne in Hm by exact Hnm.
      pose proof (uf_root _ _ _ _ HI m Hm) as Hmm.
      rewrite Hmm, decide_False by congruence. reflexivity.
  - apply (relabel_connected (fun n => n ∈ nodes)); auto. apply (uf_conn _ _ _ _ HI).
Qed.

Lemma UFInv_swap nodes es u v parent rep :
  UFInv nodes (es ++ [(v, u)]) parent rep -> UFInv nodes (es ++ [(u, v)]) parent rep.
Proof.
  intros [H1 H2 H3 H4]. constructor; auto.
  intros a b Ha Hb. rewrite (H4 a b Ha Hb). split; apply connected_swap.
Qed.

(** [union] leaves connected nodes alone and merges the components of
    nodes that are not connected. *)
Lemma union_spec nodes es rep fuel uf u v uf' :
  UFInv nodes es (UnionFind.parent uf) rep ->
  UnionFind.union fuel uf u v = Ok uf' ->
  u ∈ nodes /\ v ∈ nodes /\
  ((connected es u v /\ UFInv nodes es (UnionFind.parent uf') rep) \/
   (~ connected es u v /\
    exists rep', UFInv nodes (es ++ [(u, v)]) (UnionFind.parent uf') rep')).
Proof.
  intros HI Hun. unfold UnionFind.union in Hun.
  destruct (UnionFind.find fuel (UnionFind.parent uf) u) as [[parent1 root1]| |] eqn:H1;
    try discriminate.
  rewrite bind_Ok in Hun.
  destruct (UnionFind.find fuel parent1 v) as [[parent2 root2]| |] eqn:H2;
    try discriminate.
  rewrite bind_Ok in Hun.
  destruct (find_spec _ _ _ _ _ _ _ _ HI H1) as (Hu & -> & Hself1 & HI1).
  destruct (find_spec _ _ _ _ _ _ _ _ HI1 H2) as (Hv & -> & Hself2 & HI2).
  split; [exact Hu|]. split; [exact Hv|].
  destruct (decide (rep u = rep v)) as [Heq|Hne].
  - injection Hun as <-. left. split; [apply (uf_conn _ _ _ _ HI); auto | exact HI2].
  - right. split; [intros Hc; apply Hne, (uf_conn _ _ _ _ HI); auto|].
    assert (Hruu : rep (rep u) = rep u) by apply (uf_root _ _ _ _ HI1), Hself1.
    assert (Hrvv : rep (rep v) = rep v) by apply (uf_root _ _ _ _ HI2), Hself2.
    assert (Hun' : rep u ∈ nodes) by (apply (uf_dom _ _ _ _ HI1); eauto).
    assert (Hvn' : rep v ∈ nodes) by (apply (uf_dom _ _ _ _ HI2); eauto).
    destruct (subscript (UnionFind.rank uf) (rep u)) as [rank1| |]; try discriminate.
    rewrite bind_Ok in Hun.
    destruct (subscript (UnionFind.rank uf) (rep v)) as [rank2| |]; try discriminate.
    rewrite bind_Ok in Hun.
    destruct (rank1 <? rank2)%nat; [|destruct (rank2 <? rank1)%nat];
      injection Hun as <-; cbn [UnionFind.parent].
    + exists (relabel rep u v). apply link_spec; auto.
    + exists (relabel rep v u). apply UFInv_swap. apply link_spec; auto.
    + exists (relabel rep v u). apply UFInv_swap. apply link_spec; auto.
Qed.

(** The invariant of the Kruskal loop and of the repair pass. *)
Definition KInv (nodes : list string) (s : UnionFind.UF * list Candidate) : Prop :=
  (exists rep, UFInv nodes (ends s.2) (UnionFind.parent s.1) rep) /\
  acyclic (ends s.2) /\
  (forall u v, (u, v) ∈ ends s.2 -> u ∈ nodes /\ v ∈ nodes).

Lemma ends_snoc (selected : list Candidate) (c : Candidate) :
  ends (selected ++ [c]) = ends selected ++ [(c_u c, c_v c)].
Proof. unfold ends. rewrite fmap_app. reflexivity. Qed.

Lemma KInv_add nodes uf uf' mst_edges c rep fuel :
  UFInv nodes (ends mst_edges) (UnionFind.parent uf) rep ->
  acyclic (ends mst_edges) ->
  (forall u v, (u, v) ∈ ends mst_edges -> u ∈ nodes /\ v ∈ nodes) ->
  rep (c_u c) <> rep (c_v c) ->
  UnionFind.union fuel uf (c_u c) (c_v c) = Ok uf' ->
  KInv nodes (uf', mst_edges ++ [c]).
Proof.
  intros HI Hac Hin Hne Hun.
  destruct (union_spec _ _ _ _ _ _ _ _ HI Hun) as (Hu & Hv & [[Hc _]|[Hnc [rep' HI']]]).
  { exfalso. apply Hne, (uf_conn _ _ _ _ HI); auto. }
  unfold KInv. cbn [fst snd]. rewrite ends_snoc.
  split; [exists rep'; exact HI'|]. split; [apply acyclic_snoc; assumption|].
  intros a b [Hab|Hab%list_elem_of_singleton]%elem_of_app; [apply Hin, Hab|].
  injection Hab as -> ->. auto.
Qed.

Lemma kruskal_step_spec nodes fuel c s s' :
  KInv nodes s -> kruskal_step fuel c s = Ok s' -> KInv nodes s'.
Proof.
  destruct s as [uf mst_edges]. intros ([rep HI] & Hac & Hin) Hstep.
  cbn [fst snd] in *. unfold kruskal_step in Hstep.
  destruct (UnionFind.find fuel (UnionFind.parent uf) (c_u c))
    as [[parent1 root_u]| |] eqn:H1; try discriminate.
  rewrite bind_Ok in Hstep.
  destruct (UnionFind.find fuel parent1 (c_v c)) as [[parent2 root_v]| |] eqn:H2;
    try discriminate.
  rewrite bind_Ok in Hstep.
  destruct (find_spec _ _ _ _ _ _ _ _ HI H1) as (Hu & -> & _ & HI1).
  destruct (find_spec _ _ _ _ _ _ _ _ HI1 H2) as (Hv & -> & _ & HI2).
  destruct (decide (rep (c_u c) = rep (c_v c))) as [Heq|Hne].
  - injection Hstep as <-. split; [exists rep; exact HI2 | auto].
  - destruct (UnionFind.union fuel _ (c_u c) (c_v c)) as [uf'| |] eqn:Hun;
      try discriminate.
    rewrite bind_Ok in Hstep. injection Hstep as <-.
    eapply KInv_add; [| | | exact Hne | exact Hun]; auto.
Qed.

Lemma foldM_invariant {A S : Type} (I : S -> Prop) (f : A -> S -> Res S) (l : list A) :
  (forall a s s', I s -> f a s = Ok s' -> I s') ->
  forall s s', I s -> foldM f l s = Ok s' -> I s'.
Proof.
  intros Hf. induction l as [|a l IH]; intros s s' Hs Hfold.
  - injection Hfold as <-. exact Hs.
  - rewrite foldM_cons in Hfold. destruct (f a s) as [s1| |] eqn:E; try discriminate.
    rewrite bind_Ok in Hfold. eapply IH; [|exact Hfold]. eapply Hf; eauto.
Qed.

(** The search for the best edge only runs [find]; the edge it keeps joins
    two components. *)
Lemma best_edge_step_spec nodes es rep fuel facility c s s' :
  UFInv nodes es (UnionFind.parent s.1) rep /\
    (forall b, s.2 = Some b -> rep (c_u b) <> rep (c_v b)) ->
  best_edge_step fuel facility c s = Ok s' ->
  UFInv nodes es (UnionFind.parent s'.1) rep /\
    (forall b, s'.2 = Some b -> rep (c_u b) <> rep (c_v b)).
Proof.
  destruct s as [uf best]. intros [HI Hbest] Hstep. cbn [fst snd] in *.
  unfold best_edge_step in Hstep.
  destruct (bool_decide (c_u c = facility) || bool_decide (c_v c = facility));
    [|injection Hstep as <-; auto].
  destruct (UnionFind.find fuel (UnionFind.parent uf) (c_u c))
    as [[parent1 root_u]| |] eqn:H1; try discriminate.
  rewrite bind_Ok in Hstep.
  destruct (UnionFind.find fuel parent1 (c_v c)) as [[parent2 root_v]| |] eqn:H2;
    try discriminate.
  rewrite bind_Ok in Hstep.
  destruct (find_spec _ _ _ _ _ _ _ _ HI H1) as (Hu & -> & _ & HI1).
  destruct (find_spec _ _ _ _ _ _ _ _ HI1 H2) as (Hv & -> & _ & HI2).
  destruct (decide (rep (c_u c) = rep (c_v c))) as [Heq|Hne].
  - injection Hstep as <-. auto.
  - destruct best as [b|].
    + destruct (Qlt_le_dec (c_modified_weight c) (c_modified_weight b));
        injection Hstep as <-; cbn [fst snd]; split; auto.
      intros b' Hb'. injection Hb' as <-. exact Hne.
    + injection Hstep as <-. cbn [fst snd]. split; [exact HI2|].
      intros b' Hb'. injection Hb' as <-. exact Hne.
Qed.

Lemma repair_step_spec fuel G edges facility s s' :
  KInv (node_ids G) s -> repair_step fuel G edges facility s = Ok s' ->
  KInv (node_ids G) s'.
Proof.
  destruct s as [uf mst_edges]. intros ([rep HI] & Hac & Hin) Hstep.
  cbn [fst snd] in *. unfold repair_step in Hstep.
  destruct (bool_decide (facility ∈ mst_nodes G mst_edges)
            && (mst_degree mst_edges facility <? 2)%nat);
    [|injection Hstep as <-; split; [exists rep; exact HI | auto]].
  destruct (foldM (best_edge_step fuel facility) edges (uf, None))
    as [[uf1 best]| |] eqn:Hsearch; try discriminate.
  rewrite bind_Ok in Hstep.
  assert (Hres : UFInv (node_ids G) (ends mst_edges) (UnionFind.parent (uf1, best).1) rep /\
                 (forall b, (uf1, best).2 = Some b -> rep (c_u b) <> rep (c_v b))).
  { refine (foldM_invariant
              (fun s => UFInv (node_ids G) (ends mst_edges) (UnionFind.parent s.1) rep /\
                        (forall b, s.2 = Some b -> rep (c_u b) <> rep (c_v b)))
              _ _ _ (uf, None) _ _ Hsearch).
    - intros c s s1 Hs Hc. eapply best_edge_step_spec; eauto.
    - split; [exact HI | discriminate]. }
  cbn [fst snd] in Hres. destruct Hres as [HI1 Hbest].
  destruct best as [c|].
  - destruct (UnionFind.union fuel uf1 (c_u c) (c_v c)) as [uf'| |] eqn:Hun;
      try discriminate.
    rewrite bind_Ok in Hstep. injection Hstep as <-.
    eapply KInv_add; [exact HI1 | exact Hac | exact Hin | apply Hbest; reflexivity
                     | exact Hun].
  - injection Hstep as <-. split; [exists rep; exact HI1 | auto].
Qed.

(** The selection of [population_weighted_mst] has no cycle and joins
    nodes of the graph. *)
Lemma population_weighted_forest fuel G neighborhoods facilities alpha beta
    mst_edges analysis :
  population_weighted_mst fuel G neighborhoods facilities alpha beta
    = Ok (mst_edges, analysis) ->
  acyclic ((fun e => (e.1.1, e.1.2)) <$> mst_edges) /\
  (forall u v, (u, v) ∈ (fun e => (e.1.1, e.1.2)) <$> mst_edges ->
     u ∈ node_ids G /\ v ∈ node_ids G).
Proof.
  unfold population_weighted_mst. intros H.
  set (edges := sort_by_weight _) in H.
  destruct (foldM (kruskal_step fuel) edges (UnionFind.init (node_ids G), []))
    as [[uf1 sel1]| |] eqn:Hk; try discriminate.
  rewrite bind_Ok in H.
  destruct (foldM (repair_step fuel G edges) _ (uf1, sel1)) as [[uf2 sel2]| |] eqn:Hr;
    try discriminate.
  rewrite bind_Ok in H.
  destruct (analyse _ _ _ sel2) as [an| |]; try discriminate.
  rewrite bind_Ok in H. injection H as <- _.
  assert (H1 : KInv (node_ids G) (uf1, sel1)).
  { eapply (foldM_invariant (KInv (node_ids G))); [| |exact Hk].
    - intros c s s'. apply kruskal_step_spec.
    - split; [exists id; apply UFInv_init|]. split; [apply acyclic_nil|].
      intros u v Huv. inversion Huv. }
  assert (H2 : KInv (node_ids G) (uf2, sel2)).
  { eapply (foldM_invariant (KInv (node_ids G))); [|exact H1|exact Hr].
    intros c s s'. apply repair_step_spec. }
  destruct H2 as (_ & Hac & Hin). cbn [snd] in Hac, Hin.
  assert (E : (fun e : string * string * EdgeData => (e.1.1, e.1.2)) <$>
              ((fun c => (c_u c, c_v c, c_original_data c)) <$> sel2) = ends sel2).
  { unfold ends. rewrite <- list_fmap_compose. reflexivity. }
  rewrite E. auto.
Qed.

(** ** The recursion depth of [find] *)

(** [depth parent n k]: the root of [n] is [k] parent links away. *)
Inductive depth (parent : gmap string string) : string -> nat -> Prop :=
  | depth_root n : parent !! n = Some n -> depth parent n 0
  | depth_step n p k :
      parent !! n = Some p -> p <> n -> depth parent p k -> depth parent n (S k).

(** Every key of [parent] is at most [B] links away from its root. *)
Definition bounded (B : nat) (parent : gmap string string) : Prop :=
  forall n p, parent !! n = Some p -> exists k, (k <= B)%nat /\ depth parent n k.

(** A result that is a value satisfying [P], or an exception, but not the
    end of the fuel. *)
Definition runs {A : Type} (P : A -> Prop) (r : Res A) : Prop :=
  match r with
  | Ok a => P a
  | Raise _ => True
  | OutOfFuel => False
  end.

Lemma runs_bind {A B : Type} (P : A -> Prop) (Q : B -> Prop) (r : Res A) (k : A -> Res B) :
  runs P r -> (forall a, P a -> runs Q (k a)) -> runs Q (r ≫= k).
Proof. destruct r as [a| |]; simpl; auto. Qed.

Lemma runs_foldM {A S : Type} (I : S -> Prop) (f : A -> S -> Res S) (l : list A) :
  (forall a s, I s -> runs I (f a s)) -> forall s, I s -> runs I (foldM f l s).
Proof.
  intros Hf. induction l as [|a l IH]; intros s Hs; [exact Hs|].
  rewrite foldM_cons. eapply runs_bind; [apply Hf, Hs|]. intros s' Hs'. apply IH, Hs'.
Qed.

Lemma runs_weaken {A : Type} (P Q : A -> Prop) (r : Res A) :
  (forall a, P a -> Q a) -> runs P r -> runs Q r.
Proof. destruct r; simpl; auto. Qed.

Lemma compress_depth parent n r :
  parent !! r = Some r -> r <> n ->
  (exists q, parent !! n = Some q /\ q <> n) ->
  forall m j, depth parent m j ->
    exists j', (j' <= j)%nat /\ depth (<[n := r]> parent) m j'.
Proof.
  intros Hr Hrn (q & Hq & Hqn) m j Hd. induction Hd as [m Hm|m p k Hm Hpm Hd (j' & Hj' & IH)].
  - exists 0%nat. split; [lia|]. apply depth_root.
    rewrite lookup_insert_ne; [exact Hm|]. intros ->. congruence.
  - destruct (decide (m = n)) as [->|Hmn].
    + exists 1%nat. split; [lia|]. eapply depth_step.
      * apply lookup_insert_eq.
      * exact Hrn.
      * apply depth_root. rewrite lookup_insert_ne; [exact Hr|]. congruence.
    + exists (S j'). split; [lia|]. eapply depth_step; [|exact Hpm|exact IH].
      rewrite lookup_insert_ne; [exact Hm|]. congruence.
Qed.

Lemma find_depth parent n k :
  depth parent n k -> forall fuel, (k < fuel)%nat ->
  exists parent' r, UnionFind.find fuel parent n = Ok (parent', r) /\
    parent !! r = Some r /\
    (forall m, parent !! m = Some m -> parent' !! m = Some m) /\
    (forall m q, parent !! m = Some q -> q <> m ->
       exists q', parent' !! m = Some q' /\ q' <> m) /\
    (forall m q, parent' !! m = Some q -> is_Some (parent !! m)) /\
    (forall m j, depth parent m j -> exists j', (j' <= j)%nat /\ depth parent' m j').
Proof.
  induction 1 as [n Hn|n p k Hn Hpn Hd IH]; intros fuel Hfuel.
  - destruct fuel as [|fuel]; [lia|]. exists parent, n. cbn [UnionFind.find].
    rewrite (subscript_Some _ _ _ Hn), bind_Ok. rewrite decide_True by reflexivity.
    repeat split; eauto.
  - destruct fuel as [|fuel]; [lia|].
    destruct (IH fuel ltac:(lia)) as (parent1 & r & Hfind & Hr & Hroots & Hnon & Hdom & Hdep).
    exists (<[n := r]> parent1), r. cbn [UnionFind.find].
    rewrite (subscript_Some _ _ _ Hn), bind_Ok. rewrite decide_False by exact Hpn.
    rewrite Hfind, bind_Ok.
    assert (Hrn : r <> n) by congruence.
    split; [reflexivity|]. split; [exact Hr|]. split; [|split; [|split]].
    + intros m Hm. rewrite lookup_insert_ne; [apply Hroots, Hm|]. congruence.
    + intros m q Hm Hqm. destruct (decide (m = n)) as [->|Hmn].
      * exists r. rewrite lookup_insert_eq. auto.
      * rewrite lookup_insert_ne by congruence. eapply Hnon; eauto.
    + intros m q. destruct (decide (m = n)) as [->|Hmn].
      * intros _. eauto.
      * rewrite lookup_insert_ne by congruence. apply Hdom.
    + intros m j Hm. destruct (Hdep m j Hm) as (j1 & Hj1 & Hd1).
      destruct (compress_depth parent1 n r (Hroots _ Hr) Hrn (Hnon _ _ Hn Hpn) m j1 Hd1)
        as (j' & Hj' & Hd').
      exists j'. split; [lia|exact Hd'].
Qed.

(** With more fuel than the bound, [find] does not run out of fuel. *)
Lemma find_runs B fuel parent n :
  bounded B parent -> (B < fuel)%nat ->
  runs (fun '(parent', r) =>
          bounded B parent' /\ parent' !! r = Some r /\
          (forall m, parent !! m = Some m -> parent' !! m = Some m))
       (UnionFind.find fuel parent n).
Proof.
  intros HB Hfuel. destruct (parent !! n) as [p|] eqn:Hn.
  - destruct (HB n p Hn) as (k & Hk & Hd).
    destruct (find_depth parent n k Hd fuel ltac:(lia))
      as (parent' & r & -> & Hr & Hroots & _ & Hdom & Hdep).
    cbn [runs]. split; [|split; [apply Hroots, Hr|exact Hroots]].
    intros m q Hm. destruct (Hdom m q Hm) as [q0 Hq0].
    destruct (HB m q0 Hq0) as (j & Hj & Hdj). destruct (Hdep m j Hdj) as (j' & Hj' & Hd').
    exists j'. split; [lia|exact Hd'].
  - destruct fuel as [|fuel]; [lia|]. cbn [UnionFind.find]. unfold subscript.
    rewrite Hn. exact I.
Qed.

Lemma link_depth parent r1 r2 :
  parent !! r1 = Some r1 -> parent !! r2 = Some r2 -> r1 <> r2 ->
  forall m j, depth parent m j ->
    exists j', (j' <= S j)%nat /\ depth (<[r1 := r2]> parent) m j'.
Proof.
  intros H1 H2 Hne m j Hd. induction Hd as [m Hm|m p k Hm Hpm Hd (j' & Hj' & IH)].
  - destruct (decide (m = r1)) as [->|Hm1].
    + exists 1%nat. split; [lia|]. eapply depth_step.
      * apply lookup_insert_eq.
      * congruence.
      * apply depth_root. rewrite lookup_insert_ne; [exact H2|]. congruence.
    + exists 0%nat. split; [lia|]. apply depth_root.
      rewrite lookup_insert_ne; [exact Hm|]. congruence.
  - exists (S j'). split; [lia|]. eapply depth_step; [|exact Hpm|exact IH].
    rewrite lookup_insert_ne; [exact Hm|]. congruence.
Qed.

Lemma link_bounded B parent r1 r2 :
  bounded B parent ->
  parent !! r1 = Some r1 -> parent !! r2 = Some r2 -> r1 <> r2 ->
  bounded (S B) (<[r1 := r2]> parent).
Proof.
  intros HB H1 H2 Hne n p Hn.
  assert (Hdom : exists q, parent !! n = Some q).
  { destruct (decide (n = r1)) as [->|Hn1]; [eauto|].
    rewrite lookup_insert_ne in Hn by congruence. eauto. }
  destruct Hdom as [q Hq]. destruct (HB n q Hq) as (k & Hk & Hd).
  destruct (link_depth parent r1 r2 H1 H2 Hne n k Hd) as (j' & Hj' & Hd').
  exists j'. split; [lia|exact Hd'].
Qed.

Lemma union_runs B fuel uf u v :
  bounded B (UnionFind.parent uf) -> (B < fuel)%nat ->
  runs (fun uf' => bounded (S B) (UnionFind.parent uf')) (UnionFind.union fuel uf u v).
Proof.
  intros HB Hfuel. unfold UnionFind.union.
  eapply runs_bind; [apply (find_runs B); eassumption|].
  intros [parent1 root1] (HB1 & Hr1 & _).
  eapply runs_bind; [apply (find_runs B); eassumption|].
  intros [parent2 root2] (HB2 & Hr2 & Hroots).
  assert (Hr1' : parent2 !! root1 = Some root1) by apply Hroots, Hr1.
  assert (Hmono : bounded (S B) parent2).
  { intros n p Hn. destruct (HB2 n p Hn) as (k & Hk & Hd). exists k. split; [lia|exact Hd]. }
  destruct (decide (root1 = root2)) as [Heq|Hne]; [exact Hmono|].
  unfold subscript.
  destruct (UnionFind.rank uf !! root1) as [rank1|]; [|exact I]. cbn [of_option].
  rewrite bind_Ok.
  destruct (UnionFind.rank uf !! root2) as [rank2|]; [|exact I]. cbn [of_option].
  rewrite bind_Ok.
  destruct (rank1 <? rank2)%nat; [|destruct (rank2 <? rank1)%nat]; cbn [runs UnionFind.parent];
    apply link_bounded; auto.
Qed.

Lemma runs_and {A : Type} (P Q : A -> Prop) (r : Res A) :
  runs P r -> (forall a, r = Ok a -> Q a) -> runs (fun a => P a /\ Q a) r.
Proof. destruct r; simpl; auto. Qed.

Lemma runs_not_out_of_fuel {A : Type} (P : A -> Prop) (r : Res A) :
  runs P r -> r <> OutOfFuel.
Proof. intros H ->. exact H. Qed.

Lemma bounded_init (nodes : list string) :
  bounded 0 (UnionFind.parent (UnionFind.init nodes)).
Proof.
  intros n p Hn. exists 0%nat. split; [lia|]. apply depth_root.
  rewrite identity_dict_lookup in Hn |- *.
  destruct (bool_decide (n ∈ nodes)); [reflexivity|discriminate].
Qed.

Lemma KInv_length nodes s :
  NoDup nodes -> KInv nodes s -> (length s.2 <= length nodes)%nat.
Proof.
  intros Hnd (_ & Hac & Hin). pose proof (acyclic_count nodes (ends s.2) Hnd Hin Hac) as E.
  unfold ends in E. rewrite length_fmap in E. lia.
Qed.

(** The loops of [population_weighted_mst] with their bound on the
    recursion depth: every appended edge follows one [union]. *)
Definition KRun (nodes : list string) (s : UnionFind.UF * list Candidate) : Prop :=
  bounded (length s.2) (UnionFind.parent s.1) /\ KInv nodes s.

Lemma kruskal_step_runs nodes fuel c s :
  NoDup nodes -> (length nodes < fuel)%nat ->
  KRun nodes s -> runs (KRun nodes) (kruskal_step fuel c s).
Proof.
  intros Hnd Hfuel [HB HK]. apply runs_and; [|intros s'; apply kruskal_step_spec, HK].
  pose proof (KInv_length _ _ Hnd HK) as Hlen.
  destruct s as [uf mst_edges]. cbn [fst snd] in *. unfold kruskal_step.
  eapply runs_bind; [apply (find_runs (length mst_edges)); [exact HB|lia]|].
  intros [parent1 root_u] (HB1 & _ & _).
  eapply runs_bind; [apply (find_runs (length mst_edges)); [exact HB1|lia]|].
  intros [parent2 root_v] (HB2 & _ & _).
  destruct (decide (root_u = root_v)); [exact HB2|].
  eapply runs_bind; [apply (union_runs (length mst_edges)); [exact HB2|lia]|].
  intros uf' HB'. cbn [runs fst snd]. rewrite length_app, Nat.add_1_r. exact HB'.
Qed.

Lemma best_edge_step_runs B fuel facility c s :
  (B < fuel)%nat -> bounded B (UnionFind.parent s.1) ->
  runs (fun s' => bounded B (UnionFind.parent s'.1)) (best_edge_step fuel facility c s).
Proof.
  intros Hfuel HB. destruct s as [uf best]. cbn [fst] in HB. unfold best_edge_step.
  destruct (bool_decide (c_u c = facility) || bool_decide (c_v c = facility));
    [|exact HB].
  eapply runs_bind; [apply (find_runs B); [exact HB|lia]|].
  intros [parent1 root_u] (HB1 & _ & _).
  eapply runs_bind; [apply (find_runs B); [exact HB1|lia]|].
  intros [parent2 root_v] (HB2 & _ & _).
  destruct (decide (root_u = root_v)); [exact HB2|].
  destruct best as [b|]; [|exact HB2].
  destruct (Qlt_le_dec (c_modified_weight c) (c_modified_weight b)); exact HB2.
Qed.

Lemma repair_step_runs fuel G edges facility s :
  NoDup (node_ids G) -> (length (node_ids G) < fuel)%nat ->
  KRun (node_ids G) s -> runs (KRun (node_ids G)) (repair_step fuel G edges facility s).
Proof.
  intros Hnd Hfuel [HB HK]. apply runs_and; [|intros s'; apply repair_step_spec, HK].
  pose proof (KInv_length _ _ Hnd HK) as Hlen.
  destruct s as [uf mst_edges]. cbn [fst snd] in *. unfold repair_step.
  destruct (bool_decide (facility ∈ mst_nodes G mst_edges)
            && (mst_degree mst_edges facility <? 2)%nat); [|exact HB].
  eapply runs_bind.
  { apply (runs_foldM (fun s => bounded (length mst_edges) (UnionFind.parent s.1)));
      [|exact HB].
    intros c s Hs. apply best_edge_step_runs; [lia|exact Hs]. }
  intros [uf1 best] HB1. cbn [fst] in HB1.
  destruct best as [c|]; [|exact HB1].
  eapply runs_bind; [apply (union_runs (length mst_edges)); [exact HB1|lia]|].
  intros uf' HB'. cbn [runs fst snd]. rewrite length_app, Nat.add_1_r. exact HB'.
Qed.

Lemma analyse_runs G population_by_id critical mst_edges :
  runs (fun _ => True) (analyse G population_by_id critical mst_edges).
Proof.
  unfold analyse.
  destruct (decide (length (mst_nodes G mst_edges) = 0%nat)); [exact I|].
  rewrite bind_Ok.
  destruct (decide (population_by_id = ∅)); [exact I|].
  destruct (Qeq_bool _ 0); exact I.
Qed.

(** With more fuel than the graph has nodes, [population_weighted_mst]
    never stops for lack of fuel. *)
Lemma population_weighted_mst_runs fuel G neighborhoods facilities alpha beta :
  NoDup (node_ids G) -> (length (node_ids G) < fuel)%nat ->
  population_weighted_mst fuel G neighborhoods facilities alpha beta <> OutOfFuel.
Proof.
  intros Hnd Hfuel. apply (runs_not_out_of_fuel (fun _ => True)).
  unfold population_weighted_mst.
  eapply runs_bind.
  { apply (runs_foldM (KRun (node_ids G))).
    - intros c s. apply kruskal_step_runs; assumption.
    - split; [apply bounded_init|].
      split; [exists id; apply UFInv_init|]. split; [apply acyclic_nil|].
      intros u v Huv. inversion Huv. }
  intros [uf1 sel1] H1.
  eapply runs_bind.
  { apply (runs_foldM (KRun (node_ids G))); [|exact H1].
    intros c s. apply repair_step_runs; assumption. }
  intros [uf2 sel2] H2.
  eapply runs_bind; [apply analyse_runs|]. intros an _. exact I.
Qed.

(** ** [budget_constrained_mst] and [connectivity_based_mst] (modified_mst.py) *)

(** [G[u][v].items()], with the [KeyError] of [G[u][v]] when no edge
    joins the two nodes. *)
Definition between_items (G : Graph) (u v : string) : Res (list (nat * EdgeData)) :=
  if has_node G u then
    match edges_between G u v with
    | [] => Raise KeyError
    | items => Ok items
    end
  else Raise KeyError.

(** The search for [best_key]: among the edges of the wanted road type,
    the first key with the smallest attribute; an edge without the
    attribute counts as infinite and is never chosen. *)
Definition best_key_step (rt : RoadType) (attr : EdgeData -> option Q)
    (s : ext * option nat) (item : nat * EdgeData) : ext * option nat :=
  let value := from_option Fin Inf (attr item.2) in
  if bool_decide (road_type item.2 = Some rt) && ext_ltb value s.1
  then (value, Some item.1) else s.

Definition best_key (rt : RoadType) (attr : EdgeData -> option Q)
    (items : list (nat * EdgeData)) : option nat :=
  (foldl (best_key_step rt attr) (Inf, None) items).2.

Definition best_existing_key : list (nat * EdgeData) -> option nat :=
  best_key existing distance.

Definition best_potential_key : list (nat * EdgeData) -> option nat :=
  best_key potential cost.

(** The end pairs of the returned triples [(u, v, data)]. *)
Definition pairs (mst_edges : list (string * string * EdgeData))
    : list (string * string) :=
  (fun e => (e.1.1, e.1.2)) <$> mst_edges.

(** The body of the loop over [existing_edges]: the road is appended
    whenever an edge of type existing joins its ends. *)
Definition select_existing (G : Graph) (row : RoadRow)
    (mst_edges : list (string * string * EdgeData))
    : Res (list (string * string * EdgeData)) :=
  let u := FromID row in
  let v := ToID row in
  if has_node G u && has_node G v then
    items ← between_items G u v;
    match best_existing_key items with
    | Some key =>
        data ← edge_data G u v key;
        Ok (mst_edges ++ [(u, v, data)])
    | None => Ok mst_edges
    end
  else Ok mst_edges.

Definition existing_selection (G : Graph) (existing_roads : list RoadRow)
    : Res (list (string * string * EdgeData)) :=
  foldM (select_existing G) existing_roads [].

(** The body of the loop over [potential_edges].  The graph [mst] has
    the nodes of [G] and the end pairs of [mst_edges] as its edges. *)
Definition add_potential (G : Graph) (edge : string * string * Q)
    (s : list (string * string * EdgeData) * Q)
    : Res (list (string * string * EdgeData) * Q) :=
  let '(u, v, cost) := edge in
  let '(mst_edges, remaining_budget) := s in
  if has_node G u && has_node G v && negb (has_path (pairs mst_edges) u v)
     && Qle_bool cost remaining_budget then
    items ← between_items G u v;
    match best_potential_key items with
    | Some key =>
        data ← edge_data G u v key;
        Ok (mst_edges ++ [(u, v, data)], remaining_budget - cost)
    | None => Ok s
    end
  else Ok s.

Definition potential_edges_of (potential_roads : list PotentialRoadRow)
    : list (string * string * Q) :=
  (fun row => (pr_FromID row, pr_ToID row, Construction_Cost row)) <$> potential_roads.

(** [list.sort(key=...)]: a stable ascending sort, [lt] comparing the
    keys. *)
Fixpoint insert_by_key {A : Type} (lt : A -> A -> bool) (x : A) (l : list A) : list A :=
  match l with
  | [] => [x]
  | y :: l' => if lt y x then y :: insert_by_key lt x l' else x :: l
  end.

Definition sort_by_key {A : Type} (lt : A -> A -> bool) (l : list A) : list A :=
  foldr (insert_by_key lt) [] l.

Definition Qltb (a b : Q) : bool := if Qlt_le_dec a b then true else false.

(** [key=lambda x: x[2]] *)
Definition cost_lt (a b : string * string * Q) : bool := Qltb a.2 b.2.

(** The function returns the selected edges and the total cost; the
    measured execution time is not modelled. *)
Definition budget_constrained_mst (G : Graph) (budget : Q)
    (existing_roads : list RoadRow) (potential_roads : list PotentialRoadRow)
    : Res (list (string * string * EdgeData) * Q) :=
  let potential_edges := sort_by_key cost_lt (potential_edges_of potential_roads) in
  mst_edges ← existing_selection G existing_roads;
  '(mst_edges, remaining_budget) ←
    foldM (add_potential G) potential_edges (mst_edges, budget);
  Ok (mst_edges, budget - remaining_budget).

Definition important_types : list string :=
  ["hospital"; "school"; "government"; "police"; "fire"]%string.

Definition important_nodes_of (important_facilities : list FacilityRow) : list string :=
  fc_ID <$> filter (fun row => lower (fc_Type row) ∈ important_types) important_facilities.

(** [edge_priority]: the pair [(level, cost)]. *)
Definition edge_priority (important_nodes : list string) (edge : string * string * Q)
    : nat * Q :=
  let '(u, v, cost) := edge in
  if bool_decide (u ∈ important_nodes) && bool_decide (v ∈ important_nodes)
  then (0%nat, cost)
  else if bool_decide (u ∈ important_nodes) || bool_decide (v ∈ important_nodes)
  then (1%nat, cost)
  else (2%nat, cost).

(** The order of Python on pairs. *)
Definition priority_lt (important_nodes : list string)
    (a b : string * string * Q) : bool :=
  let ka := edge_priority important_nodes a in
  let kb := edge_priority important_nodes b in
  (ka.1 <? kb.1)%nat || ((ka.1 =? kb.1)%nat && Qltb ka.2 kb.2).

Definition connectivity_based_mst (G : Graph) (budget : Q)
    (existing_roads : list RoadRow) (potential_roads : list PotentialRoadRow)
    (important_facilities : list FacilityRow)
    : Res (list (string * string * EdgeData) * Q) :=
  let important_nodes := important_nodes_of important_facilities in
  mst_edges ← existing_selection G existing_roads;
  let potential_edges :=
    sort_by_key (priority_lt important_nodes) (potential_edges_of potential_roads) in
  '(mst_edges, remaining_budget) ←
    foldM (add_potential G) potential_edges (mst_edges, budget);
  Ok (mst_edges, budget - remaining_budget).

(** ** The selections of the three functions *)

Lemma pairs_snoc mst_edges u v (data : EdgeData) :
  pairs (mst_edges ++ [(u, v, data)]) = pairs mst_edges ++ [(u, v)].
Proof. unfold pairs. rewrite fmap_app. reflexivity. Qed.

Lemma acyclic_app_l es added : acyclic (es ++ added) -> acyclic es.
Proof.
  induction added as [|[u v] added IH] using rev_ind.
  - rewrite app_nil_r. auto.
  - rewrite app_assoc. intros H. apply IH. apply (acyclic_snoc_inv _ u v), H.
Qed.

Lemma has_node_true G n : has_node G n = true -> n ∈ node_ids G.
Proof. unfold has_node. intros H. apply bool_decide_eq_true_1 in H. exact H. Qed.

Definition in_graph (G : Graph) (es : list (string * string)) : Prop :=
  forall u v, (u, v) ∈ es -> u ∈ node_ids G /\ v ∈ node_ids G.

Lemma in_graph_snoc G es u v :
  in_graph G es -> u ∈ node_ids G -> v ∈ node_ids G -> in_graph G (es ++ [(u, v)]).
Proof.
  intros Hin Hu Hv a b [Hab|Hab%list_elem_of_singleton]%elem_of_app; [apply Hin, Hab|].
  injection Hab as -> ->. auto.
Qed.

Lemma select_existing_spec G row mst_edges mst_edges' :
  in_graph G (pairs mst_edges) ->
  select_existing G row mst_edges = Ok mst_edges' ->
  in_graph G (pairs mst_edges').
Proof.
  intros Hin H. unfold select_existing in H.
  destruct (has_node G (FromID row)) eqn:Hu; [|injection H as <-; exact Hin].
  destruct (has_node G (ToID row)) eqn:Hv; [|injection H as <-; exact Hin].
  cbn [andb] in H.
  destruct (between_items G (FromID row) (ToID row)) as [items| |]; try discriminate.
  rewrite bind_Ok in H.
  destruct (best_existing_key items) as [key|]; [|injection H as <-; exact Hin].
  destruct (edge_data G (FromID row) (ToID row) key) as [data| |]; try discriminate.
  rewrite bind_Ok in H. injection H as <-. rewrite pairs_snoc.
  apply in_graph_snoc; auto using has_node_true.
Qed.

Lemma existing_selection_spec G existing_roads sel :
  existing_selection G existing_roads = Ok sel -> in_graph G (pairs sel).
Proof.
  intros H.
  refine (foldM_invariant (fun s => in_graph G (pairs s)) _ _ _ [] _ _ H).
  - intros row s s' Hs. apply select_existing_spec, Hs.
  - intros u v Huv. inversion Huv.
Qed.

(** What the loop over the potential roads keeps: the existing selection
    stays at the front, no added road closes a cycle, and all ends are
    nodes of the graph. *)
Definition PInv (G : Graph) (sel : list (string * string * EdgeData))
    (s : list (string * string * EdgeData) * Q) : Prop :=
  (exists added, s.1 = sel ++ added) /\
  (acyclic (pairs sel) -> acyclic (pairs s.1)) /\
  in_graph G (pairs s.1).

Lemma add_potential_spec G sel edge s s' :
  PInv G sel s -> add_potential G edge s = Ok s' -> PInv G sel s'.
Proof.
  destruct edge as [[u v] c]. destruct s as [mst_edges remaining_budget].
  intros HI H. unfold add_potential in H.
  destruct (has_node G u) eqn:Hu; [|injection H as <-; exact HI].
  destruct (has_node G v) eqn:Hv; [|injection H as <-; exact HI].
  destruct (has_path (pairs mst_edges) u v) eqn:Hp; [injection H as <-; exact HI|].
  destruct (Qle_bool c remaining_budget); [|injection H as <-; exact HI].
  cbn [andb negb] in H.
  destruct (between_items G u v) as [items| |]; try discriminate.
  rewrite bind_Ok in H.
  destruct (best_potential_key items) as [key|]; [|injection H as <-; exact HI].
  destruct (edge_data G u v key) as [data| |]; try discriminate.
  rewrite bind_Ok in H. injection H as <-.
  destruct HI as ([added Hadd] & Hac & Hin). cbn [fst] in *. subst mst_edges.
  split; [exists (added ++ [(u, v, data)]); cbn [fst]; symmetry; apply app_assoc|].
  cbn [fst].
  rewrite pairs_snoc. split.
  - intros Hsel. apply acyclic_snoc; [apply Hac, Hsel|].
    intros Hc. apply has_path_spec in Hc. congruence.
  - apply in_graph_snoc; auto using has_node_true.
Qed.

Definition forest (nodes : list string) (es : list (string * string)) : Prop :=
  acyclic es /\ (length es + component_count nodes es = length nodes)%nat.

Lemma potential_loop_spec G sel potential_edges budget mst_edges remaining_budget :
  NoDup (node_ids G) ->
  in_graph G (pairs sel) ->
  foldM (add_potential G) potential_edges (sel, budget) = Ok (mst_edges, remaining_budget) ->
  (exists added, mst_edges = sel ++ added) /\
  (acyclic (pairs sel) <-> forest (node_ids G) (pairs mst_edges)).
Proof.
  intros Hnd Hsel H.
  assert (HI : PInv G sel (mst_edges, remaining_budget)).
  { refine (foldM_invariant (PInv G sel) _ _ _ (sel, budget) _ _ H).
    - intros e s s'. apply add_potential_spec.
    - split; [exists []; symmetry; apply app_nil_r|]. split; [auto|exact Hsel]. }
  destruct HI as ([added Hadd] & Hac & Hin). cbn [fst] in *. subst mst_edges.
  split; [eauto|]. split.
  - intros Hs. split; [apply Hac, Hs|]. apply acyclic_count; auto.
  - intros [Hm _]. unfold pairs in Hm. rewrite fmap_app in Hm.
    apply acyclic_app_l in Hm. exact Hm.
Qed.

Lemma budget_constrained_spec G budget existing_roads potential_roads mst_edges total_cost :
  NoDup (node_ids G) ->
  budget_constrained_mst G budget existing_roads potential_roads
    = Ok (mst_edges, total_cost) ->
  exists sel added,
    existing_selection G existing_roads = Ok sel /\ mst_edges = sel ++ added /\
    (acyclic (pairs sel) <-> forest (node_ids G) (pairs mst_edges)).
Proof.
  intros Hnd H. unfold budget_constrained_mst in H.
  destruct (existing_selection G existing_roads) as [sel| |] eqn:Hsel; try discriminate.
  rewrite bind_Ok in H.
  destruct (foldM (add_potential G) _ (sel, budget)) as [[edges remaining]| |] eqn:Hloop;
    try discriminate.
  rewrite bind_Ok in H. injection H as <- _.
  destruct (potential_loop_spec _ _ _ _ _ _ Hnd (existing_selection_spec _ _ _ Hsel) Hloop)
    as ([added ->] & Hiff).
  exists sel, added. auto.
Qed.

Lemma connectivity_based_spec G budget existing_roads potential_roads important_facilities
    mst_edges total_cost :
  NoDup (node_ids G) ->
  connectivity_based_mst G budget existing_roads potential_roads important_facilities
    = Ok (mst_edges, total_cost) ->
  exists sel added,
    existing_selection G existing_roads = Ok sel /\ mst_edges = sel ++ added /\
    (acyclic (pairs sel) <-> forest (node_ids G) (pairs mst_edges)).
Proof.
  intros Hnd H. unfold connectivity_based_mst in H.
  destruct (existing_selection G existing_roads) as [sel| |] eqn:Hsel; try discriminate.
  rewrite bind_Ok in H.
  destruct (foldM (add_potential G) _ (sel, budget)) as [[edges remaining]| |] eqn:Hloop;
    try discriminate.
  rewrite bind_Ok in H. injection H as <- _.
  destruct (potential_loop_spec _ _ _ _ _ _ Hnd (existing_selection_spec _ _ _ Hsel) Hloop)
    as ([added ->] & Hiff).
  exists sel, added. auto.
Qed.

Lemma acyclic_snoc_check es u v :
  acyclic es -> has_path es u v = false -> acyclic (es ++ [(u, v)]).
Proof.
  intros Hac Hp. apply acyclic_snoc; [exact Hac|].
  intros Hc. apply has_path_spec in Hc. congruence.
Qed.

(** C2 (as amended): in a graph whose node identifiers are distinct, the
    edges returned by [population_weighted_mst] contain no cycle and
    number node_count - component_count, and with more fuel than nodes the
    recursion of [find] is never cut short; the edges returned by
    [budget_constrained_mst] and by [connectivity_based_mst] begin with
    the whole selection of existing roads, and they form such a forest
    exactly when that selection contains no cycle. *)
Theorem mst_selections (G : Graph) (Hnodes : NoDup (node_ids G)) :
  (forall fuel neighborhoods facilities alpha beta,
     ((length (node_ids G) < fuel)%nat ->
      population_weighted_mst fuel G neighborhoods facilities alpha beta <> OutOfFuel) /\
     (forall mst_edges analysis,
        population_weighted_mst fuel G neighborhoods facilities alpha beta
          = Ok (mst_edges, analysis) ->
        forest (node_ids G) (pairs mst_edges))) /\
  (forall budget existing_roads potential_roads mst_edges total_cost,
     budget_constrained_mst G budget existing_roads potential_roads
       = Ok (mst_edges, total_cost) ->
     exists sel added,
       existing_selection G existing_roads = Ok sel /\ mst_edges = sel ++ added /\
       (acyclic (pairs sel) <-> forest (node_ids G) (pairs mst_edges))) /\
  (forall budget existing_roads potential_roads important_facilities mst_edges total_cost,
     connectivity_based_mst G budget existing_roads potential_roads important_facilities
       = Ok (mst_edges, total_cost) ->
     exists sel added,
       existing_selection G existing_roads = Ok sel /\ mst_edges = sel ++ added /\
       (acyclic (pairs sel) <-> forest (node_ids G) (pairs mst_edges))).
Proof.
  split; [|split].
  - intros fuel neighborhoods facilities alpha beta. split.
    + intros Hfuel. apply population_weighted_mst_runs; assumption.
    + intros mst_edges analysis H.
      destruct (population_weighted_forest _ _ _ _ _ _ _ _ H) as [Hac Hin].
      split; [exact Hac|]. apply acyclic_count; assumption.
  - intros budget existing_roads potential_roads mst_edges total_cost.
    apply budget_constrained_spec, Hnodes.
  - intros budget existing_roads potential_roads important_facilities mst_edges total_cost.
    apply connectivity_based_spec, Hnodes.
Qed.

(** Four places: one existing road, and three potential roads of which
    one would close a cycle and one is too expensive. *)
Definition planned (d c : Q) : EdgeData :=
  {| distance := Some d; capacity := Some 2000; condition := None;
     road_type := Some potential; cost := Some c; route_id := None;
     buses_assigned := None; line_id := None |}.

Definition four_places : Graph :=
  {| g_nodes := [("a"%string, plain_node); ("b"%string, plain_node);
                 ("c"%string, plain_node); ("d"%string, plain_node)];
     g_edges :=
       [ {| e_u := "a"; e_v := "b"; e_key := 0; e_data := road existing 1000 2000 |};
         {| e_u := "b"; e_v := "c"; e_key := 0; e_data := planned 2000 5 |};
         {| e_u := "a"; e_v := "c"; e_key := 0; e_data := planned 2500 8 |};
         {| e_u := "c"; e_v := "d"; e_key := 0; e_data := planned 3000 20 |} ] |}.

Definition one_existing_road : list RoadRow :=
  [ {| FromID := "a"; ToID := "b"; Distance_km := 1; Current_Capacity := 2000;
       Condition := 7 |} ].

Definition three_potential_roads : list PotentialRoadRow :=
  [ {| pr_FromID := "a"; pr_ToID := "c"; pr_Distance_km := 5 # 2;
       Estimated_Capacity := 2000; Construction_Cost := 8 |};
    {| pr_FromID := "c"; pr_ToID := "d"; pr_Distance_km := 3;
       Estimated_Capacity := 2000; Construction_Cost := 20 |};
    {| pr_FromID := "b"; pr_ToID := "c"; pr_Distance_km := 2;
       Estimated_Capacity := 2000; Construction_Cost := 5 |} ].

Definition a_hospital : list FacilityRow :=
  [ {| fc_ID := "d"; fc_Name := "General Hospital"; fc_Type := "Hospital";
       fc_X := None; fc_Y := None |} ].

Lemma mst_selections_witness :
  NoDup (node_ids four_places) /\
  population_weighted_mst 5 four_places [] a_hospital (7 # 10) (3 # 10) <> OutOfFuel /\
  forest (node_ids four_places) [("a", "b"); ("b", "c"); ("c", "d")]%string /\
  forest (node_ids four_places) [("a", "b"); ("b", "c")]%string /\
  forest (node_ids four_places) [("a", "b"); ("c", "d"); ("b", "c")]%string.
Proof.
  assert (Hnodes : NoDup (node_ids four_places))
    by (apply (bool_decide_unpack _); vm_compute; exact I).
  destruct (mst_selections four_places Hnodes) as (Hpopulation & Hbudget & Hconnectivity).
  destruct (Hpopulation 5%nat [] a_hospital (7 # 10) (3 # 10)) as [Hruns Hforest].
  split; [exact Hnodes|]. split; [apply Hruns; vm_compute; lia|].
  assert (Hone : acyclic [("a", "b")]%string)
    by (apply (acyclic_snoc_check [] "a" "b"); [apply acyclic_nil | reflexivity]).
  split; [|split].
  - destruct (population_weighted_mst 5 four_places [] a_hospital (7 # 10) (3 # 10))
      as [[mst_edges analysis]| |] eqn:E; [|vm_compute in E; discriminate..].
    pose proof (Hforest mst_edges analysis eq_refl) as H.
    vm_compute in E. injection E as <- _. exact H.
  - destruct (budget_constrained_mst four_places 10 one_existing_road three_potential_roads)
      as [[mst_edges total_cost]| |] eqn:E; [|vm_compute in E; discriminate..].
    destruct (Hbudget _ _ _ _ _ E) as (sel & added & Hsel & _ & Hiff).
    vm_compute in Hsel. injection Hsel as <-.
    vm_compute in E. injection E as <- _. apply Hiff, Hone.
  - destruct (connectivity_based_mst four_places 30 one_existing_road
                three_potential_roads a_hospital)
      as [[mst_edges total_cost]| |] eqn:E; [|vm_compute in E; discriminate..].
    destruct (Hconnectivity _ _ _ _ _ _ E) as (sel & added & Hsel & _ & Hiff).
    vm_compute in Hsel. injection Hsel as <-.
    vm_compute in E. injection E as <- _. apply Hiff, Hone.
Defined.

(** Three places joined in a ring by existing roads. *)
Definition ring : Graph :=
  {| g_nodes := [("a"%string, plain_node); ("b"%string, plain_node);
                 ("c"%string, plain_node)];
     g_edges :=
       [ {| e_u := "a"; e_v := "b"; e_key := 0; e_data := road existing 1000 2000 |};
         {| e_u := "b"; e_v := "c"; e_key := 0; e_data := road existing 1000 2000 |};
         {| e_u := "c"; e_v := "a"; e_key := 0; e_data := road existing 1000 2000 |} ] |}.

Definition ring_roads : list RoadRow :=
  [ {| FromID := "a"; ToID := "b"; Distance_km := 1; Current_Capacity := 2000;
       Condition := 7 |};
    {| FromID := "b"; ToID := "c"; Distance_km := 1; Current_Capacity := 2000;
       Condition := 7 |};
    {| FromID := "c"; ToID := "a"; Distance_km := 1; Current_Capacity := 2000;
       Condition := 7 |} ].

Definition ring_selection : list (string * string * EdgeData) :=
  [ ("a", "b", road existing 1000 2000); ("b", "c", road existing 1000 2000);
    ("c", "a", road existing 1000 2000) ]%string.

(** Both budget functions return the whole ring: three edges on three
    nodes in one component, the third edge closing a cycle. *)
Lemma existing_ring_is_returned :
  budget_constrained_mst ring 0 ring_roads [] = Ok (ring_selection, 0) /\
  connectivity_based_mst ring 0 ring_roads [] [] = Ok (ring_selection, 0) /\
  ~ acyclic (pairs ring_selection) /\
  component_count (node_ids ring) (pairs ring_selection) = 1%nat /\
  length ring_selection
    <> (length (node_ids ring)
        - component_count (node_ids ring) (pairs ring_selection))%nat.
Proof.
  split; [vm_compute; reflexivity|]. split; [vm_compute; reflexivity|].
  split; [|split; [vm_compute; reflexivity | vm_compute; discriminate]].
  intros Hac.
  apply (Hac [("a", "b"); ("b", "c")] "c" "a" [])%string; [reflexivity|].
  apply connected_sym. eapply connected_trans; apply connected_edge.
  - apply list_elem_of_here.
  - apply list_elem_of_further, list_elem_of_here.
Qed.

(** ** What [population_weighted_mst] selects *)

(** The sorted list [edges] of [population_weighted_mst]. *)
Definition candidates (G : Graph) (neighborhoods : list NeighborhoodRow)
    (facilities : list FacilityRow) (alpha beta : Q) : list Candidate :=
  sort_by_weight
    (omap (candidate (population_of neighborhoods) (critical_facilities_of facilities)
                     alpha beta)
          (edges_view G)).

(** The end pairs of the edges of [G] that carry a distance of at most
    100 km. *)
Definition capped (e : Edge) : bool :=
  match distance (e_data e) with
  | Some d => if Qlt_le_dec 100000 d then false else true
  | None => false
  end.

Definition capped_pairs (G : Graph) : list (string * string) :=
  (fun e => (e_u e, e_v e)) <$> filter (fun e => capped e = true) (g_edges G).

Lemma foldM_invariant_in {A S : Type} (I : S -> Prop) (f : A -> S -> Res S) (l : list A) :
  (forall a s s', a ∈ l -> I s -> f a s = Ok s' -> I s') ->
  forall s s', I s -> foldM f l s = Ok s' -> I s'.
Proof.
  induction l as [|a l IH]; intros Hf s s' Hs Hfold.
  - injection Hfold as <-. exact Hs.
  - rewrite foldM_cons in Hfold. destruct (f a s) as [s1| |] eqn:E; try discriminate.
    rewrite bind_Ok in Hfold. eapply IH; [| |exact Hfold].
    + intros b t t' Hb. apply Hf. apply list_elem_of_further, Hb.
    + eapply Hf; [apply list_elem_of_here|exact Hs|exact E].
Qed.

Lemma connected_sub es es' :
  (forall u v, (u, v) ∈ es -> connected es' u v) ->
  forall a b, connected es a b -> connected es' a b.
Proof.
  intros Hsub a b H. induction H as [x|x y z [Hxy|Hyx] _ IH].
  - apply connected_refl.
  - eapply connected_trans; [apply Hsub, Hxy|exact IH].
  - eapply connected_trans; [apply connected_sym, Hsub, Hyx|exact IH].
Qed.

Lemma insert_by_weight_elem (x c : Candidate) (l : list Candidate) :
  c ∈ insert_by_weight x l <-> c = x \/ c ∈ l.
Proof.
  induction l as [|y l IH]; simpl.
  - rewrite list_elem_of_singleton. split; [auto|]. intros [H|H]; [exact H|inversion H].
  - destruct (Qlt_le_dec (c_modified_weight y) (c_modified_weight x)).
    + rewrite !elem_of_cons, IH. tauto.
    + rewrite !elem_of_cons. tauto.
Qed.

Lemma sort_by_weight_elem (c : Candidate) (l : list Candidate) :
  c ∈ sort_by_weight l <-> c ∈ l.
Proof.
  unfold sort_by_weight. induction l as [|x l IH]; simpl; [reflexivity|].
  rewrite insert_by_weight_elem, IH, elem_of_cons. reflexivity.
Qed.

(** [G.edges(keys=True, data=True)] lists edges of the graph, each from
    one of its ends. *)
Lemma edges_view_from_sound G seen nodes u v k d :
  (u, v, k, d) ∈ edges_view_from G seen nodes -> (k, d) ∈ edges_between G u v.
Proof.
  revert seen. induction nodes as [|n rest IH]; intros seen H; [inversion H|].
  simpl in H. apply elem_of_app in H as [H|H]; [|eapply IH, H].
  apply list_elem_of_In, in_flat_map in H as (w & _ & H).
  destruct (bool_decide (w ∈ seen)); [inversion H|].
  apply list_elem_of_In, list_elem_of_fmap in H as ([k' d'] & Heq & Hkd).
  injection Heq as -> -> -> ->. exact Hkd.
Qed.

Lemma edges_view_from_complete G seen nodes a b k d :
  (k, d) ∈ edges_between G a b -> a ∈ nodes -> a ∉ seen -> b ∉ seen ->
  (a, b, k, d) ∈ edges_view_from G seen nodes \/
  (b, a, k, d) ∈ edges_view_from G seen nodes.
Proof.
  intros Hkd. revert seen. induction nodes as [|n rest IH]; intros seen Ha Has Hbs;
    [inversion Ha|].
  assert (Hemit : forall x y, (k, d) ∈ edges_between G x y -> y ∉ seen ->
            (x, y, k, d) ∈ edges_view_from G seen (x :: rest)).
  { intros x y Hxy Hy. simpl. apply elem_of_app. left.
    apply list_elem_of_In, in_flat_map. exists y.
    split; [apply list_elem_of_In, (edges_between_neighbor _ _ _ _ _ Hxy)|].
    rewrite bool_decide_eq_false_2 by exact Hy.
    apply list_elem_of_In, list_elem_of_fmap. exists (k, d). auto. }
  destruct (decide (n = a)) as [->|Hna]; [left; apply Hemit; assumption|].
  destruct (decide (n = b)) as [->|Hnb].
  { right. apply Hemit; [|exact Has].
    apply elem_of_edges_between in Hkd as (e & He & Hj & Hk & Hd).
    apply elem_of_edges_between. exists e. rewrite <- joins_sym. auto. }
  apply elem_of_cons in Ha as [->|Ha]; [congruence|].
  destruct (IH (n :: seen) Ha) as [H|H].
  - intros [?|?]%elem_of_cons; congruence.
  - intros [?|?]%elem_of_cons; congruence.
  - left. simpl. apply elem_of_app. right. exact H.
  - right. simpl. apply elem_of_app. right. exact H.
Qed.

Lemma candidate_Some population_by_id critical alpha beta u v k data c :
  candidate population_by_id critical alpha beta (u, v, k, data) = Some c ->
  c_u c = u /\ c_v c = v /\ c_original_data c = data /\
  exists d, distance data = Some d /\ d <= 100000.
Proof.
  unfold candidate. destruct (distance data) as [d|]; [|discriminate].
  destruct (Qlt_le_dec 100000 d) as [|Hd]; [discriminate|].
  intros H. injection H as <-. cbn.
  split; [reflexivity|]. split; [reflexivity|]. split; [reflexivity|].
  exists d. split; [reflexivity|exact Hd].
Qed.

Lemma candidate_capped population_by_id critical alpha beta u v k data d :
  distance data = Some d -> d <= 100000 ->
  exists c, candidate population_by_id critical alpha beta (u, v, k, data) = Some c /\
            c_u c = u /\ c_v c = v.
Proof.
  intros Hd Hle. unfold candidate. rewrite Hd.
  destruct (Qlt_le_dec 100000 d) as [Hlt|_]; [lra|]. eexists. split; [reflexivity|]. auto.
Qed.

(** A candidate joins two nodes that [G] joins by an edge of at most
    100 km. *)
Lemma candidates_in_graph G neighborhoods facilities alpha beta c :
  c ∈ candidates G neighborhoods facilities alpha beta ->
  exists e, e ∈ g_edges G /\ capped e = true /\ joins (c_u c) (c_v c) e = true /\
            e_data e = c_original_data c.
Proof.
  unfold candidates. rewrite sort_by_weight_elem, list_elem_of_omap.
  intros ([[[u v] k] data] & Hin & Hc).
  apply candidate_Some in Hc as (-> & -> & -> & d & Hd & Hle).
  apply edges_view_from_sound, elem_of_edges_between in Hin as (e & He & Hj & _ & <-).
  exists e. split; [exact He|]. split; [|auto].
  unfold capped. rewrite Hd. destruct (Qlt_le_dec 100000 d); [lra|reflexivity].
Qed.

Lemma capped_edge_candidate G neighborhoods facilities alpha beta e :
  wf_graph G -> e ∈ g_edges G -> capped e = true ->
  exists c, c ∈ candidates G neighborhoods facilities alpha beta /\
            ((c_u c = e_u e /\ c_v c = e_v e) \/ (c_u c = e_v e /\ c_v c = e_u e)).
Proof.
  intros Hwf He Hcap. unfold capped in Hcap.
  destruct (distance (e_data e)) as [d|] eqn:Hd; [|discriminate].
  destruct (Qlt_le_dec 100000 d) as [|Hle]; [discriminate|].
  assert (Hkd : (e_key e, e_data e) ∈ edges_between G (e_u e) (e_v e)).
  { apply elem_of_edges_between. exists e. split; [exact He|]. split; [|auto].
    apply bool_decide_eq_true_2. auto. }
  destruct (edges_view_from_complete G [] (node_ids G) _ _ _ _ Hkd) as [H|H].
  - apply (Hwf e He).
  - intros Hx; inversion Hx.
  - intros Hx; inversion Hx.
  - destruct (candidate_capped (population_of neighborhoods)
                (critical_facilities_of facilities) alpha beta
                (e_u e) (e_v e) (e_key e) (e_data e) d Hd Hle) as (c & Hc & Hu & Hv).
    exists c. split; [|auto]. unfold candidates.
    apply sort_by_weight_elem, list_elem_of_omap. eexists. split; [exact H|exact Hc].
  - destruct (candidate_capped (population_of neighborhoods)
                (critical_facilities_of facilities) alpha beta
                (e_v e) (e_u e) (e_key e) (e_data e) d Hd Hle) as (c & Hc & Hu & Hv).
    exists c. split; [|auto]. unfold candidates.
    apply sort_by_weight_elem, list_elem_of_omap. eexists. split; [exact H|exact Hc].
Qed.

(** The Kruskal loop only appends, and it leaves the ends of every edge it
    has seen connected. *)
Lemma kruskal_step_covers nodes fuel c s s' :
  KInv nodes s -> kruskal_step fuel c s = Ok s' ->
  (exists added, s'.2 = s.2 ++ added /\ (added = [] \/ added = [c])) /\
  connected (ends s'.2) (c_u c) (c_v c).
Proof.
  destruct s as [uf mst_edges]. intros ([rep HI] & Hac & Hin) Hstep.
  cbn [fst snd] in *. unfold kruskal_step in Hstep.
  destruct (UnionFind.find fuel (UnionFind.parent uf) (c_u c))
    as [[parent1 root_u]| |] eqn:H1; try discriminate.
  rewrite bind_Ok in Hstep.
  destruct (UnionFind.find fuel parent1 (c_v c)) as [[parent2 root_v]| |] eqn:H2;
    try discriminate.
  rewrite bind_Ok in Hstep.
  destruct (find_spec _ _ _ _ _ _ _ _ HI H1) as (Hu & -> & _ & HI1).
  destruct (find_spec _ _ _ _ _ _ _ _ HI1 H2) as (Hv & -> & _ & HI2).
  destruct (decide (rep (c_u c) = rep (c_v c))) as [Heq|Hne].
  - injection Hstep as <-. cbn [snd]. split.
    + exists []. rewrite app_nil_r. auto.
    + apply (uf_conn _ _ _ _ HI); auto.
  - destruct (UnionFind.union fuel _ (c_u c) (c_v c)) as [uf'| |]; try discriminate.
    rewrite bind_Ok in Hstep. injection Hstep as <-. cbn [snd]. split; [eauto|].
    rewrite ends_snoc. apply connected_snoc_new.
Qed.

Lemma ends_app (l1 l2 : list Candidate) : ends (l1 ++ l2) = ends l1 ++ ends l2.
Proof. unfold ends. apply fmap_app. Qed.

Lemma connected_app_l es added a b : connected es a b -> connected (es ++ added) a b.
Proof. apply connected_mono. intros p Hp. apply elem_of_app. auto. Qed.

Lemma kruskal_covers nodes fuel l : forall s s',
  KInv nodes s -> foldM (kruskal_step fuel) l s = Ok s' ->
  KInv nodes s' /\
  (exists added, s'.2 = s.2 ++ added /\ forall c, c ∈ added -> c ∈ l) /\
  (forall c, c ∈ l -> connected (ends s'.2) (c_u c) (c_v c)).
Proof.
  induction l as [|c l IH]; intros s s' HK Hfold.
  - injection Hfold as <-. split; [exact HK|]. split.
    + exists []. rewrite app_nil_r. split; [reflexivity|]. intros c Hc. inversion Hc.
    + intros c Hc. inversion Hc.
  - rewrite foldM_cons in Hfold.
    destruct (kruskal_step fuel c s) as [s1| |] eqn:E; try discriminate.
    rewrite bind_Ok in Hfold.
    destruct (kruskal_step_covers _ _ _ _ _ HK E) as ((add1 & Happ1 & Hadd1) & Hc1).
    pose proof (kruskal_step_spec _ _ _ _ _ HK E) as HK1.
    destruct (IH s1 s' HK1 Hfold) as (HK' & (add2 & Happ2 & Hadd2) & Hcov).
    split; [exact HK'|]. split.
    + exists (add1 ++ add2). rewrite Happ2, Happ1, app_assoc. split; [reflexivity|].
      intros x [Hx|Hx]%elem_of_app.
      * destruct Hadd1 as [->| ->]; [inversion Hx|].
        apply list_elem_of_singleton in Hx as ->. apply list_elem_of_here.
      * apply list_elem_of_further, Hadd2, Hx.
    + intros x [->|Hx]%elem_of_cons; [|apply Hcov, Hx].
      rewrite Happ2, ends_app. apply connected_app_l, Hc1.
Qed.

(** Once the Kruskal loop has run, the search of the repair pass finds no
    edge between two components. *)
Lemma best_edge_none nodes es rep fuel facility edges uf uf' best :
  UFInv nodes es (UnionFind.parent uf) rep ->
  (forall c, c ∈ edges -> connected es (c_u c) (c_v c)) ->
  foldM (best_edge_step fuel facility) edges (uf, None) = Ok (uf', best) ->
  UFInv nodes es (UnionFind.parent uf') rep /\ best = None.
Proof.
  intros HI Hcov Hfold.
  refine (foldM_invariant_in
            (fun s => UFInv nodes es (UnionFind.parent s.1) rep /\ s.2 = None)
            _ _ _ (uf, None) (uf', best) _ Hfold); [|auto].
  intros c [uf0 best0] s' Hc [HI0 Hb] Hstep. cbn [fst snd] in *. subst best0.
  unfold best_edge_step in Hstep.
  destruct (bool_decide (c_u c = facility) || bool_decide (c_v c = facility));
    [|injection Hstep as <-; auto].
  destruct (UnionFind.find fuel (UnionFind.parent uf0) (c_u c))
    as [[parent1 root_u]| |] eqn:H1; try discriminate.
  rewrite bind_Ok in Hstep.
  destruct (UnionFind.find fuel parent1 (c_v c)) as [[parent2 root_v]| |] eqn:H2;
    try discriminate.
  rewrite bind_Ok in Hstep.
  destruct (find_spec _ _ _ _ _ _ _ _ HI0 H1) as (Hu & -> & _ & HI1).
  destruct (find_spec _ _ _ _ _ _ _ _ HI1 H2) as (Hv & -> & _ & HI2).
  rewrite decide_True in Hstep by (apply (uf_conn _ _ _ _ HI0); auto).
  injection Hstep as <-. auto.
Qed.

Lemma repair_step_keeps fuel G edges facility s s' :
  KInv (node_ids G) s ->
  (forall c, c ∈ edges -> connected (ends s.2) (c_u c) (c_v c)) ->
  repair_step fuel G edges facility s = Ok s' ->
  KInv (node_ids G) s' /\ s'.2 = s.2.
Proof.
  intros HK Hcov Hstep. split; [eapply repair_step_spec; eauto|].
  destruct s as [uf mst_edges]. destruct HK as ([rep HI] & _). cbn [fst snd] in *.
  unfold repair_step in Hstep.
  destruct (bool_decide (facility ∈ mst_nodes G mst_edges)
            && (mst_degree mst_edges facility <? 2)%nat);
    [|injection Hstep as <-; reflexivity].
  destruct (foldM (best_edge_step fuel facility) edges (uf, None))
    as [[uf1 best]| |] eqn:Hsearch; try discriminate.
  rewrite bind_Ok in Hstep.
  destruct (best_edge_none _ _ _ _ _ _ _ _ _ HI Hcov Hsearch) as [_ ->].
  injection Hstep as <-. reflexivity.
Qed.

Lemma repair_keeps fuel G edges critical : forall s s',
  KInv (node_ids G) s ->
  (forall c, c ∈ edges -> connected (ends s.2) (c_u c) (c_v c)) ->
  foldM (repair_step fuel G edges) critical s = Ok s' ->
  s'.2 = s.2.
Proof.
  induction critical as [|facility critical IH]; intros s s' HK Hcov Hfold.
  - injection Hfold as <-. reflexivity.
  - rewrite foldM_cons in Hfold.
    destruct (repair_step fuel G edges facility s) as [s1| |] eqn:E; try discriminate.
    rewrite bind_Ok in Hfold.
    destruct (repair_step_keeps _ _ _ _ _ _ HK Hcov E) as [HK1 E1].
    rewrite <- E1. apply (IH s1 s' HK1); [rewrite E1; exact Hcov|exact Hfold].
Qed.

Lemma KInv_init (nodes : list string) : KInv nodes (UnionFind.init nodes, []).
Proof.
  split; [exists id; apply UFInv_init|]. split; [apply acyclic_nil|].
  intros u v Huv. inversion Huv.
Qed.

(** The parts of a run of [population_weighted_mst] that returns. *)
Lemma population_weighted_mst_Ok fuel G neighborhoods facilities alpha beta
    mst_edges analysis :
  population_weighted_mst fuel G neighborhoods facilities alpha beta
    = Ok (mst_edges, analysis) ->
  exists uf selected,
    foldM (kruskal_step fuel) (candidates G neighborhoods facilities alpha beta)
          (UnionFind.init (node_ids G), []) = Ok (uf, selected) /\
    mst_edges = (fun c => (c_u c, c_v c, c_original_data c)) <$> selected.
Proof.
  unfold population_weighted_mst. fold (candidates G neighborhoods facilities alpha beta).
  intros H.
  destruct (foldM (kruskal_step fuel) _ (UnionFind.init (node_ids G), []))
    as [[uf1 sel1]| |] eqn:Hk; try discriminate.
  rewrite bind_Ok in H.
  destruct (foldM (repair_step fuel G _) _ (uf1, sel1)) as [[uf2 sel2]| |] eqn:Hr;
    try discriminate.
  rewrite bind_Ok in H.
  destruct (analyse _ _ _ sel2) as [an| |]; try discriminate.
  rewrite bind_Ok in H. injection H as <- _.
  destruct (kruskal_covers _ _ _ _ _ (KInv_init (node_ids G)) Hk) as (HK1 & _ & Hcov).
  pose proof (repair_keeps _ _ _ _ _ _ HK1 Hcov Hr) as E. cbn [snd] in E. subst sel2.
  exists uf1, sel1. auto.
Qed.

(** A graph whose listed edges all end in listed nodes is well formed. *)
Lemma wf_graph_check (G : Graph) :
  forallb (fun e => bool_decide (e_u e ∈ node_ids G) && bool_decide (e_v e ∈ node_ids G))
          (g_edges G) = true ->
  wf_graph G.
Proof.
  intros H e He. rewrite forallb_forall in H.
  specialize (H e (proj1 (list_elem_of_In _ _) He)).
  apply andb_prop in H as [Hu Hv].
  split; [exact (bool_decide_eq_true_1 _ Hu) | exact (bool_decide_eq_true_1 _ Hv)].
Qed.

(** X1: the edges returned by [population_weighted_mst] are edges of the
    graph with a distance of at most 100 km, returned with their attribute
    dictionaries, and they span it: two nodes are joined by returned edges
    exactly when they are joined by edges of at most 100 km. *)
Theorem population_weighted_mst_spans fuel G neighborhoods facilities alpha beta
    mst_edges analysis :
  wf_graph G ->
  population_weighted_mst fuel G neighborhoods facilities alpha beta
    = Ok (mst_edges, analysis) ->
  (forall u v data, (u, v, data) ∈ mst_edges ->
     exists e, e ∈ g_edges G /\ capped e = true /\ joins u v e = true /\
               e_data e = data) /\
  (forall a b, connected (pairs mst_edges) a b <-> connected (capped_pairs G) a b).
Proof.
  intros Hwf H.
  destruct (population_weighted_mst_Ok _ _ _ _ _ _ _ _ H) as (uf & selected & Hk & ->).
  destruct (kruskal_covers _ _ _ _ _ (KInv_init (node_ids G)) Hk)
    as (_ & (added & Happ & Hadd) & Hcov).
  cbn [snd] in Happ, Hcov. rewrite app_nil_l in Happ. subst added.
  assert (Hedge : forall u v data,
            (u, v, data) ∈ (fun c => (c_u c, c_v c, c_original_data c)) <$> selected ->
            exists e, e ∈ g_edges G /\ capped e = true /\ joins u v e = true /\
                      e_data e = data).
  { intros u v data (c & Heq & Hc)%list_elem_of_fmap. injection Heq as -> -> ->.
    apply (candidates_in_graph G neighborhoods facilities alpha beta), Hadd, Hc. }
  split; [exact Hedge|].
  assert (Hends : pairs ((fun c => (c_u c, c_v c, c_original_data c)) <$> selected)
                  = ends selected).
  { unfold pairs, ends. rewrite <- list_fmap_compose. reflexivity. }
  rewrite Hends. intros a b. split.
  - apply connected_sub. intros u v (c & Heq & Hc)%list_elem_of_fmap.
    injection Heq as -> ->.
    destruct (candidates_in_graph G neighborhoods facilities alpha beta c (Hadd c Hc))
      as (e & He & Hcap & Hj & _).
    assert (Hin : (e_u e, e_v e) ∈ capped_pairs G).
    { apply list_elem_of_fmap. exists e. split; [reflexivity|].
      apply list_elem_of_filter. auto. }
    apply bool_decide_eq_true_1 in Hj. destruct Hj as [[Hu Hv]|[Hu Hv]]; rewrite <- Hu, <- Hv.
    + apply connected_edge, Hin.
    + apply connected_sym, connected_edge, Hin.
  - apply connected_sub. intros u v (e & Heq & He)%list_elem_of_fmap.
    injection Heq as -> ->. apply list_elem_of_filter in He as [Hcap He].
    destruct (capped_edge_candidate G neighborhoods facilities alpha beta e Hwf He Hcap)
      as (c & Hc & [[<- <-]|[<- <-]]).
    + apply Hcov, Hc.
    + apply connected_sym, Hcov, Hc.
Qed.

Lemma population_weighted_mst_spans_witness :
  exists mst_edges analysis,
    population_weighted_mst 5 four_places [] a_hospital (7 # 10) (3 # 10)
      = Ok (mst_edges, analysis) /\
    (connected (pairs mst_edges) "a" "d" <-> connected (capped_pairs four_places) "a" "d").
Proof.
  destruct (population_weighted_mst 5 four_places [] a_hospital (7 # 10) (3 # 10))
    as [[mst_edges analysis]| |] eqn:E; [|vm_compute in E; discriminate..].
  exists mst_edges, analysis. split; [reflexivity|].
  apply (population_weighted_mst_spans 5 four_places [] a_hospital (7 # 10) (3 # 10)
           mst_edges analysis); [|exact E].
  apply wf_graph_check. reflexivity.
Defined.

(** X2: the pass of [population_weighted_mst] that should give every
    critical facility a second connection never adds an edge: the returned
    edges are those of the Kruskal loop, in the order of selection. *)
Theorem repair_pass_adds_nothing fuel G neighborhoods facilities alpha beta
    mst_edges analysis :
  population_weighted_mst fuel G neighborhoods facilities alpha beta
    = Ok (mst_edges, analysis) ->
  exists uf selected,
    foldM (kruskal_step fuel) (candidates G neighborhoods facilities alpha beta)
          (UnionFind.init (node_ids G), []) = Ok (uf, selected) /\
    mst_edges = (fun c => (c_u c, c_v c, c_original_data c)) <$> selected.
Proof. apply population_weighted_mst_Ok. Qed.

(** A hospital at the end of a single road: it keeps its one connection. *)
Lemma repair_pass_adds_nothing_witness :
  exists uf selected,
    foldM (kruskal_step 5) (candidates four_places [] a_hospital (7 # 10) (3 # 10))
          (UnionFind.init (node_ids four_places), []) = Ok (uf, selected) /\
    ends selected = [("a", "b"); ("b", "c"); ("c", "d")]%string /\
    mst_degree selected "d" = 1%nat.
Proof.
  destruct (population_weighted_mst 5 four_places [] a_hospital (7 # 10) (3 # 10))
    as [[mst_edges analysis]| |] eqn:E; [|vm_compute in E; discriminate..].
  destruct (repair_pass_adds_nothing _ _ _ _ _ _ _ _ E) as (uf & selected & Hk & Hm).
  exists uf, selected. split; [exact Hk|].
  vm_compute in Hk. injection Hk as _ <-. split; reflexivity.
Defined.

(** ** The budget of [budget_constrained_mst] and [connectivity_based_mst] *)

Lemma insert_by_key_elem {A : Type} (lt : A -> A -> bool) (x a : A) (l : list A) :
  a ∈ insert_by_key lt x l <-> a = x \/ a ∈ l.
Proof.
  induction l as [|y l IH]; simpl.
  - rewrite list_elem_of_singleton. split; [auto|]. intros [H|H]; [exact H|inversion H].
  - destruct (lt y x).
    + rewrite !elem_of_cons, IH. tauto.
    + rewrite !elem_of_cons. tauto.
Qed.

Lemma sort_by_key_elem {A : Type} (lt : A -> A -> bool) (a : A) (l : list A) :
  a ∈ sort_by_key lt l <-> a ∈ l.
Proof.
  unfold sort_by_key. induction l as [|x l IH]; simpl; [reflexivity|].
  rewrite insert_by_key_elem, IH, elem_of_cons. reflexivity.
Qed.

Lemma sort_by_key_ext {A : Type} (lt lt' : A -> A -> bool) (l : list A) :
  (forall a b, lt a b = lt' a b) -> sort_by_key lt l = sort_by_key lt' l.
Proof.
  intros Hext. unfold sort_by_key. induction l as [|x l IH]; simpl; [reflexivity|].
  rewrite IH. generalize (foldr (insert_by_key lt') [] l). intros s.
  induction s as [|y s IHs]; simpl; [reflexivity|]. rewrite Hext, IHs. reflexivity.
Qed.

(** The loop over the potential roads spends what it has: either it adds
    nothing, or the remaining budget stays between zero and the budget. *)
Lemma potential_loop_budget G potential_edges sel budget mst_edges remaining_budget :
  (forall e, e ∈ potential_edges -> 0 <= e.2) ->
  foldM (add_potential G) potential_edges (sel, budget) = Ok (mst_edges, remaining_budget) ->
  (mst_edges = sel /\ remaining_budget = budget) \/
  (0 <= remaining_budget /\ remaining_budget <= budget).
Proof.
  intros Hcost Hfold.
  refine (foldM_invariant_in
            (fun s => (s.1 = sel /\ s.2 = budget) \/ (0 <= s.2 /\ s.2 <= budget))
            _ _ _ (sel, budget) (mst_edges, remaining_budget) _ Hfold); [|auto].
  intros [[u v] c] [edges remaining] s' He HI Hstep. cbn [fst snd] in *.
  specialize (Hcost _ He). cbn [snd] in Hcost.
  unfold add_potential in Hstep.
  destruct (has_node G u && has_node G v && negb (has_path (pairs edges) u v));
    [|injection Hstep as <-; exact HI].
  cbn [andb] in Hstep.
  destruct (Qle_bool c remaining) eqn:Hle; [|injection Hstep as <-; exact HI].
  apply Qle_bool_iff in Hle.
  destruct (between_items G u v) as [items| |]; try discriminate.
  rewrite bind_Ok in Hstep.
  destruct (best_potential_key items) as [key|]; [|injection Hstep as <-; exact HI].
  destruct (edge_data G u v key) as [data| |]; try discriminate.
  rewrite bind_Ok in Hstep. injection Hstep as <-. cbn [fst snd]. right.
  destruct HI as [[_ ->]|[H0 Hb]]; split; lra.
Qed.

Lemma potential_edges_cost (potential_roads : list PotentialRoadRow) e :
  (forall row, row ∈ potential_roads -> 0 <= Construction_Cost row) ->
  e ∈ potential_edges_of potential_roads -> 0 <= e.2.
Proof.
  intros Hcost (row & -> & Hrow)%list_elem_of_fmap. apply Hcost, Hrow.
Qed.

(** X3: with construction costs of at least zero, neither
    [budget_constrained_mst] nor [connectivity_based_mst] overspends: the
    total cost is at least zero, and it is at most the budget unless no
    potential road was added, in which case it is zero and the existing
    selection is returned. *)
Theorem budget_is_respected G budget existing_roads potential_roads important_facilities :
  (forall row, row ∈ potential_roads -> 0 <= Construction_Cost row) ->
  (forall mst_edges total_cost,
     budget_constrained_mst G budget existing_roads potential_roads
       = Ok (mst_edges, total_cost) ->
     0 <= total_cost /\
     (total_cost <= budget \/
      (total_cost == 0 /\ existing_selection G existing_roads = Ok mst_edges))) /\
  (forall mst_edges total_cost,
     connectivity_based_mst G budget existing_roads potential_roads important_facilities
       = Ok (mst_edges, total_cost) ->
     0 <= total_cost /\
     (total_cost <= budget \/
      (total_cost == 0 /\ existing_selection G existing_roads = Ok mst_edges))).
Proof.
  intros Hcost.
  assert (Hloop : forall potential_edges sel mst_edges remaining total_cost,
            (forall e, e ∈ potential_edges -> 0 <= e.2) ->
            existing_selection G existing_roads = Ok sel ->
            foldM (add_potential G) potential_edges (sel, budget)
              = Ok (mst_edges, remaining) ->
            total_cost = budget - remaining ->
            0 <= total_cost /\
            (total_cost <= budget \/
             (total_cost == 0 /\ existing_selection G existing_roads = Ok mst_edges))).
  { intros potential_edges sel mst_edges remaining total_cost Hc Hsel Hfold ->.
    destruct (potential_loop_budget _ _ _ _ _ _ Hc Hfold) as [[-> ->]|[H0 Hb]].
    - split; [lra|]. right. split; [lra|exact Hsel].
    - split; [lra|]. left. lra. }
  split.
  - intros mst_edges total_cost H. unfold budget_constrained_mst in H.
    destruct (existing_selection G existing_roads) as [sel| |] eqn:Hsel; try discriminate.
    rewrite bind_Ok in H.
    destruct (foldM (add_potential G) _ (sel, budget)) as [[edges remaining]| |] eqn:Hf;
      try discriminate.
    rewrite bind_Ok in H. injection H as <- <-.
    eapply Hloop; [|reflexivity|exact Hf|reflexivity].
    intros e He. apply sort_by_key_elem in He.
    apply (potential_edges_cost potential_roads); assumption.
  - intros mst_edges total_cost H. unfold connectivity_based_mst in H.
    destruct (existing_selection G existing_roads) as [sel| |] eqn:Hsel; try discriminate.
    rewrite bind_Ok in H.
    destruct (foldM (add_potential G) _ (sel, budget)) as [[edges remaining]| |] eqn:Hf;
      try discriminate.
    rewrite bind_Ok in H. injection H as <- <-.
    eapply Hloop; [|reflexivity|exact Hf|reflexivity].
    intros e He. apply sort_by_key_elem in He.
    apply (potential_edges_cost potential_roads); assumption.
Qed.

Lemma budget_is_respected_witness :
  budget_constrained_mst four_places 10 one_existing_road three_potential_roads
    = Ok ([("a", "b", road existing 1000 2000); ("b", "c", planned 2000 5)]%string, 5) /\
  0 <= 5 /\ (5 <= 10 \/ (5 == 0 /\
     existing_selection four_places one_existing_road
       = Ok [("a", "b", road existing 1000 2000); ("b", "c", planned 2000 5)]%string)).
Proof.
  assert (E : budget_constrained_mst four_places 10 one_existing_road three_potential_roads
    = Ok ([("a", "b", road existing 1000 2000); ("b", "c", planned 2000 5)]%string, 5))
    by (vm_compute; reflexivity).
  split; [exact E|].
  refine (proj1 (budget_is_respected four_places 10 one_existing_road
                   three_potential_roads [] _) _ _ E).
  intros row Hrow. repeat (apply elem_of_cons in Hrow as [->|Hrow]); try discriminate.
  inversion Hrow.
Defined.

Lemma priority_lt_nil (a b : string * string * Q) : priority_lt [] a b = cost_lt a b.
Proof. destruct a as [[u v] c], b as [[u' v'] c']. reflexivity. Qed.

(** X4: when no facility of the table has one of the important types,
    [connectivity_based_mst] returns what [budget_constrained_mst]
    returns. *)
Theorem connectivity_without_important_facilities G budget existing_roads potential_roads
    important_facilities :
  important_nodes_of important_facilities = [] ->
  connectivity_based_mst G budget existing_roads potential_roads important_facilities
  = budget_constrained_mst G budget existing_roads potential_roads.
Proof.
  intros Hnone. unfold connectivity_based_mst, budget_constrained_mst.
  rewrite Hnone. rewrite (sort_by_key_ext _ cost_lt _ priority_lt_nil). reflexivity.
Qed.

(** A park is not an important facility. *)
Definition a_park : list FacilityRow :=
  [ {| fc_ID := "d"; fc_Name := "Central Park"; fc_Type := "Park";
       fc_X := None; fc_Y := None |} ].

Lemma connectivity_without_important_facilities_witness :
  connectivity_based_mst four_places 30 one_existing_road three_potential_roads a_park
  = budget_constrained_mst four_places 30 one_existing_road three_potential_roads.
Proof.
  apply connectivity_without_important_facilities. reflexivity.
Defined.

(** ** The budget of the maintenance plan *)


Lemma py_int_neg (x : Q) : x <= -1 -> (py_int x < 0)%Z.
Proof.
  intros Hx. unfold py_int. unfold Qle in Hx. simpl in Hx.
  pose proof (Z.quot_opp_l (Qnum x) (Z.pos (Qden x)) ltac:(lia)) as E.
  pose proof (Z.quot_str_pos (- Qnum x) (Z.pos (Qden x)) ltac:(lia)). lia.
Qed.


(** One road of 1 km in condition 1.5: its cost of 0.95 million counts as
    nine units, so a budget of 0.9 million pays for it. *)
Definition a_worn_road : list RoadRow :=
  [ {| FromID := "a"; ToID := "b"; Distance_km := 1; Current_Capacity := 2000;
       Condition := 3 # 2 |} ].


(** X6: a budget of minus 0.1 million or less leaves the tables of the
    dynamic program empty, and the allocator raises [ValueError] (from
    [max] over an empty range) whatever the road table holds. *)
Theorem negative_budget_raises rows neighborhoods budget :
  budget <= - (1 # 10) ->
  allocate_road_maintenance_resources rows neighborhoods budget = Raise ValueError.
Proof.
  intros Hb. unfold allocate_road_maintenance_resources.
  pose proof (knapsack_tables_length (prepare_roads rows neighborhoods)
                (py_int (budget * 10))) as Hlen.
  pose proof (py_int_neg (budget * 10) ltac:(lra)) as Hneg.
  destruct (knapsack_tables _ _) as [dp sel]. cbv zeta. cbv iota beta.
  simpl in Hlen. destruct dp as [|v dp]; [reflexivity|]. simpl in Hlen. lia.
Qed.

Lemma negative_budget_raises_witness :
  allocate_road_maintenance_resources a_worn_road two_neighborhoods (- (1 # 10))
  = Raise ValueError.
Proof. apply negative_budget_raises. apply Qle_refl. Defined.

(** ** Queries from a node to itself and from an unknown node *)

(** X7: a query from a node of the graph to itself pops the start and
    stops: it returns the path of that one node with distance 0 and travel
    time 0, and no edge key is recorded (node identifiers are non-empty
    strings). *)
Theorem dijkstra_to_itself G traffic_data start tp etp m fuel :
  start ∈ node_ids G -> start <> EmptyString -> (2 <= fuel)%nat ->
  dijkstra_with_traffic G traffic_data start start tp etp m fuel =
  Ok {| path := [start]; total_distance := 0; total_travel_time := Fin 0;
        used_edge_keys := dict_of_nodes (node_ids G) ∅ |}.
Proof.
  intros Hs Hne Hfuel. destruct fuel as [|[|fuel]]; try lia.
  unfold dijkstra_with_traffic.
  assert (Hsearch : search G traffic_data start tp etp m (S (S fuel)) (initial_state G start)
                    = Ok {| distances := distances (initial_state G start);
                            previous := previous (initial_state G start);
                            edge_keys := edge_keys (initial_state G start);
                            pq := [] |}).
  { cbn [search initial_state pq heappop distances previous edge_keys].
    rewrite decide_True by reflexivity. reflexivity. }
  rewrite Hsearch, bind_Ok. cbn [previous edge_keys initial_state].
  assert (Hprev : dict_of_nodes (node_ids G) (None : option string) !! start = Some None).
  { rewrite dict_of_nodes_lookup, bool_decide_eq_true_2 by exact Hs. reflexivity. }
  rewrite (subscript_Some _ _ _ Hprev), bind_Ok.
  rewrite bool_decide_eq_true_2 by reflexivity. cbn [truthy orb].
  rewrite walk_back_step, (truthy_Some _ Hne). cbn [default from_option id previous].
  rewrite (subscript_Some _ _ _ Hprev), bind_Ok. cbn [truthy].
  rewrite walk_back_step. cbn [truthy]. rewrite bind_Ok. reflexivity.
Qed.

Lemma dijkstra_to_itself_witness :
  dijkstra_with_traffic (two_places existing 1000 1000) morning_rush "a" "a"
    (Some "morning"%string) None car 2 =
  Ok {| path := ["a"%string]; total_distance := 0; total_travel_time := Fin 0;
        used_edge_keys := dict_of_nodes (node_ids (two_places existing 1000 1000)) ∅ |}.
Proof.
  apply dijkstra_to_itself; [apply list_elem_of_here | discriminate | lia].
Defined.

(** X8: a query whose start is not a node of the graph raises
    [KeyError]: from [G[current_node]] when the destination differs, from
    [previous[current]] when it is the start itself. *)
Theorem dijkstra_unknown_start G traffic_data start end_ tp etp m fuel :
  start ∉ node_ids G -> (1 <= fuel)%nat ->
  dijkstra_with_traffic G traffic_data start end_ tp etp m fuel = Raise KeyError.
Proof.
  intros Hs Hfuel. destruct fuel as [|fuel]; [lia|].
  unfold dijkstra_with_traffic.
  cbn [search initial_state pq heappop distances previous edge_keys].
  destruct (decide (start = end_)) as [<-|Hne].
  - rewrite bind_Ok. cbn [previous]. unfold subscript at 1.
    rewrite dict_of_nodes_lookup, (bool_decide_eq_false_2 (start ∈ node_ids G)) by exact Hs.
    reflexivity.
  - rewrite (subscript_Some _ _ (Fin 0)) by apply lookup_insert_eq.
    rewrite bind_Ok.
    replace (ext_ltb (Fin 0) (Fin 0)) with false
      by (symmetry; apply ext_ltb_Fin_false; lra).
    unfold expand, adj_items, has_node.
    rewrite (bool_decide_eq_false_2 (start ∈ node_ids G)) by exact Hs. reflexivity.
Qed.

Lemma dijkstra_unknown_start_witness :
  dijkstra_with_traffic (two_places existing 1000 1000) morning_rush "z" "b"
    (Some "morning"%string) None car 1 = Raise KeyError.
Proof.
  apply dijkstra_unknown_start; [|lia].
  intros H. repeat (apply elem_of_cons in H as [H|H]; [discriminate|]). inversion H.
Defined.

(** ** The memo of the planner *)

(** X9: a query of [memoized_path_planning] from a node of the graph to
    itself runs no edge loop, so its result is stored under the key
    [(start, end, time_period)]; the same query on the returned memo is a
    hit, for any fuel, and leaves the memo as it is. *)
Theorem memo_round_trip G traffic_data start time_period fuel memo :
  start ∈ node_ids G -> start <> EmptyString -> (2 <= fuel)%nat ->
  default ∅ memo !! TupleKey start start time_period = None ->
  let memo1 := <[TupleKey start start time_period := ([start], 0)]> (default ∅ memo) in
  memoized_path_planning G traffic_data start start time_period fuel memo
    = Ok ([start], 0, memo1) /\
  forall fuel',
    memoized_path_planning G traffic_data start start time_period fuel' (Some memo1)
      = Ok ([start], 0, memo1).
Proof.
  intros Hs Hne Hfuel Hmiss memo1. split.
  - destruct fuel as [|[|fuel]]; try lia.
    unfold memoized_path_planning. rewrite Hmiss. unfold planner_compute.
    cbn [planner_search initial_state pq heappop distances previous edge_keys].
    rewrite decide_True by reflexivity. rewrite bind_Ok.
    cbn [previous].
    assert (Hprev : dict_of_nodes (node_ids G) (None : option string) !! start = Some None).
    { rewrite dict_of_nodes_lookup, bool_decide_eq_true_2 by exact Hs. reflexivity. }
    rewrite (subscript_Some _ _ _ Hprev), bind_Ok.
    rewrite (bool_decide_eq_true_2 (start = start)) by reflexivity. cbn [truthy orb].
    cbn [planner_walk_back]. rewrite (truthy_Some _ Hne).
    cbn [default from_option id previous].
    rewrite (subscript_Some _ _ _ Hprev), bind_Ok. cbn [truthy].
    rewrite !bind_Ok. reflexivity.
  - intros fuel'. unfold memoized_path_planning. cbn [default from_option id].
    unfold memo1. rewrite lookup_insert_eq. reflexivity.
Qed.

Lemma memo_round_trip_witness :
  let memo1 := <[TupleKey "a" "a" "morning" := (["a"%string], 0)]> (∅ : Memo) in
  memoized_path_planning (two_places existing 1000 1000) morning_rush
    "a" "a" "morning" 2 None = Ok (["a"%string], 0, memo1) /\
  forall fuel',
    memoized_path_planning (two_places existing 1000 1000) morning_rush
      "a" "a" "morning" fuel' (Some memo1) = Ok (["a"%string], 0, memo1).
Proof.
  apply (memo_round_trip (two_places existing 1000 1000) morning_rush "a" "morning" 2 None);
    [apply list_elem_of_here | discriminate | lia | reflexivity].
Defined.

(** ** Travel times against the free-flow time *)

(** The time over [base_distance] meters at the base speed of the mode, in
    minutes. *)
Definition free_flow_time (base_distance : Q) (m : Mode) : Q :=
  base_distance / 1000 / base_speeds m * 60.

Lemma base_speeds_pos (m : Mode) : 0 < base_speeds m.
Proof. destruct m; reflexivity. Qed.

Lemma time_at_factor (d : Q) (m : Mode) (f : Q) :
  0 < f -> d / 1000 / (base_speeds m / f) * 60 == free_flow_time d m * f.
Proof.
  intros Hf. pose proof (base_speeds_pos m). unfold free_flow_time. field. split; lra.
Qed.

(** X10: on an edge the mode may use, the weight is the free-flow time
    multiplied by the capped traffic factor: for a length of at least
    zero it lies between half and one and a half times the free-flow time,
    whatever the traffic table holds, and in metro mode it is the free-flow
    time. *)
Theorem travel_time_bounds G traffic_data u v key tp etp d m data :
  edge_data G u v key = Ok data ->
  allowed m (road_type data) = true ->
  0 <= d ->
  exists w : Q,
    get_edge_weight G traffic_data u v key tp etp d m = Ok (Fin w) /\
    (1 # 2) * free_flow_time d m <= w /\ w <= (3 # 2) * free_flow_time d m /\
    (m = metro_mode -> w == free_flow_time d m).
Proof.
  intros He Ha Hd.
  eexists. split; [apply (get_edge_weight_allowed _ _ _ _ _ _ _ _ _ _ He Ha)|].
  set (c := default 2000 (capacity data)).
  assert (Hfree : 0 <= free_flow_time d m).
  { unfold free_flow_time. apply Qmult_le_0_compat; [|discriminate].
    apply Qdiv_nonneg; [|apply base_speeds_pos]. apply Qdiv_nonneg; [exact Hd|reflexivity]. }
  unfold effective_speed.
  destruct (uses_traffic m) eqn:Hm, (traffic_flow_of traffic_data tp etp u v c) as [flow|].
  - pose proof (traffic_factor_bounds flow c) as [Hlo Hhi].
    rewrite time_at_factor by lra. rewrite (Qmult_comm (free_flow_time d m)).
    split; [apply Qmult_le_compat_r; assumption|].
    split; [apply Qmult_le_compat_r; assumption|].
    intros ->. discriminate.
  - fold (free_flow_time d m). split; [lra|]. split; [lra|]. reflexivity.
  - fold (free_flow_time d m). split; [lra|]. split; [lra|]. reflexivity.
  - fold (free_flow_time d m). split; [lra|]. split; [lra|]. reflexivity.
Qed.

Lemma travel_time_bounds_witness :
  exists w : Q,
    get_edge_weight (two_places existing 1000 1000) morning_rush "a" "b" 0
      (Some "morning"%string) None 1000 car = Ok (Fin w) /\
    (1 # 2) * free_flow_time 1000 car <= w /\ w <= (3 # 2) * free_flow_time 1000 car.
Proof.
  destruct (travel_time_bounds (two_places existing 1000 1000) morning_rush "a" "b" 0
              (Some "morning"%string) None 1000 car (road existing 1000 1000))
    as (w & Hw & Hlo & Hhi & _); [reflexivity | reflexivity | discriminate |].
  exists w. auto.
Defined.

(** A round trip of the cap: a flow equal to the capacity gives the
    factor 1. *)
Lemma traffic_factor_same (capacity : Q) : traffic_factor capacity capacity == 1.
Proof.
  unfold traffic_factor. destruct (Qlt_le_dec 0 capacity) as [Hc|Hc].
  - assert (E : capacity / capacity == 1) by (field; lra).
    destruct (cap_cases (capacity / capacity)) as [[? ->]|[[? ->]|[? ->]]]; lra.
  - destruct (cap_cases 1) as [[? ->]|[[? ->]|[? ->]]]; lra.
Qed.

(** X11: when the traffic table holds no record for the ordered pair
    [(u, v)] in any period, the flow defaults to the capacity of the edge
    and the weight is the free-flow time, for every mode and every
    capacity; a record of the opposite direction [(v, u)] is not
    consulted. *)
Theorem no_record_free_flow G traffic_data u v key tp etp d m data :
  edge_data G u v key = Ok data ->
  allowed m (road_type data) = true ->
  (forall period, default ∅ (traffic_data !! period) !! (u, v) = None) ->
  exists w : Q,
    get_edge_weight G traffic_data u v key tp etp d m = Ok (Fin w) /\
    w == free_flow_time d m.
Proof.
  intros He Ha Hnone.
  eexists. split; [apply (get_edge_weight_allowed _ _ _ _ _ _ _ _ _ _ He Ha)|].
  set (c := default 2000 (capacity data)).
  assert (Hflow : forall period, flow_lookup traffic_data period u v c = c).
  { intros period. unfold flow_lookup. rewrite Hnone. reflexivity. }
  unfold effective_speed, traffic_flow_of.
  destruct (uses_traffic m); [|reflexivity].
  destruct (truthy tp); [|destruct (truthy etp); [|reflexivity]];
    rewrite Hflow, time_at_factor, traffic_factor_same
      by (rewrite traffic_factor_same; reflexivity); lra.
Qed.

(** The morning record of the road from "a" to "b" does not slow the
    way back. *)
Lemma no_record_free_flow_witness :
  exists w : Q,
    get_edge_weight (two_places existing 1000 1000) morning_rush "b" "a" 0
      (Some "morning"%string) None 1000 car = Ok (Fin w) /\
    w == free_flow_time 1000 car.
Proof.
  apply (no_record_free_flow (two_places existing 1000 1000) morning_rush "b" "a" 0
           (Some "morning"%string) None 1000 car (road existing 1000 1000));
    [reflexivity | reflexivity |].
  intros period. unfold morning_rush.
  destruct (decide (period = "morning"%string)) as [->|Hne].
  - rewrite lookup_singleton_eq. reflexivity.
  - rewrite lookup_singleton_ne by congruence. reflexivity.
Defined.

(** ** [simulate_emergency_delay] (dijkstra.py) *)

(** [data.get('road_type') in ['existing', 'potential',
    'virtual_connection', 'virtual_link']] *)
Definition is_road (data : EdgeData) : bool :=
  match road_type data with
  | Some t => bool_decide (t ∈ [existing; potential; virtual_connection; virtual_link])
  | None => false
  end.

(** [car_edge == emergency_edge or car_edge == (emergency_edge[1],
    emergency_edge[0])] *)
Definition same_road (car_edge emergency_edge : string * string) : bool :=
  bool_decide (car_edge = emergency_edge)
  || bool_decide (car_edge = (emergency_edge.2, emergency_edge.1)).

(** The edges of the car path that the emergency path uses in one
    direction or the other, each once. *)
Definition common_edges (car_path emergency_path : list string)
    : list (string * string) :=
  filter (fun car_edge =>
            existsb (same_road car_edge) (consecutive emergency_path) = true)
         (consecutive car_path).

(** The body of [for u, v in common_edges]: the first edge between the
    nodes that is a road adds a fifth of its length. *)
Definition common_edge_delay (G : Graph) (edge : string * string) (delay : Q) : Res Q :=
  items ← between_items G edge.1 edge.2;
  match List.find (fun item => is_road item.2) items with
  | Some (_, data) => Ok (delay + default 1000 (distance data) * (2 # 10))
  | None => Ok delay
  end.

(** The body of the loop that measures the car path: the first edge
    between the nodes that carries a distance adds it. *)
Definition car_edge_distance (G : Graph) (edge : string * string)
    (total_car_distance : Q) : Res Q :=
  items ← between_items G edge.1 edge.2;
  match omap (fun item => distance item.2) items with
  | d :: _ => Ok (total_car_distance + d)
  | [] => Ok total_car_distance
  end.

(** The function returns the car path and the delay in meters; it does
    not use its traffic table and its two time periods. *)
Definition simulate_emergency_delay (G : Graph) (car_path emergency_path : list string)
    : Res (list string * Q) :=
  delay ← foldM (common_edge_delay G) (common_edges car_path emergency_path) 0;
  if Qeq_bool delay 0 then
    total_car_distance ← foldM (car_edge_distance G) (consecutive car_path) 0;
    Ok (car_path, total_car_distance * (3 # 100))
  else Ok (car_path, delay).

Lemma consecutive_elem (l : list string) (x y : string) :
  (x, y) ∈ consecutive l <-> exists l1 l2, l = l1 ++ x :: y :: l2.
Proof.
  induction l as [|a [|b rest] IH].
  - simpl. split; [intros H; inversion H|]. intros (l1 & l2 & E). destruct l1; discriminate.
  - simpl. split; [intros H; inversion H|]. intros (l1 & l2 & E).
    destruct l1 as [|? [|? ?]]; discriminate.
  - change (consecutive (a :: b :: rest)) with ((a, b) :: consecutive (b :: rest)).
    rewrite elem_of_cons, IH. split.
    + intros [E|(l1 & l2 & E)].
      * injection E as -> ->. exists [], rest. reflexivity.
      * exists (a :: l1), l2. rewrite E. reflexivity.
    + intros (l1 & l2 & E). destruct l1 as [|c l1].
      * injection E as -> -> _. left. reflexivity.
      * injection E as -> E. right. exists l1, l2. exact E.
Qed.

Lemma consecutive_reverse (l : list string) (x y : string) :
  (x, y) ∈ consecutive (reverse l) <-> (y, x) ∈ consecutive l.
Proof.
  rewrite !consecutive_elem. split; intros (l1 & l2 & E).
  - exists (reverse l2), (reverse l1). apply (f_equal reverse) in E.
    rewrite reverse_involutive in E. rewrite E, reverse_app, !reverse_cons.
    rewrite <- !app_assoc. reflexivity.
  - exists (reverse l2), (reverse l1). rewrite E, reverse_app, !reverse_cons.
    rewrite <- !app_assoc. reflexivity.
Qed.

Lemma same_road_swap (e : string * string) (x y : string) :
  same_road e (x, y) = same_road e (y, x).
Proof. unfold same_road. cbn [fst snd]. apply orb_comm. Qed.

Lemma existsb_same_road_reverse (e : string * string) (l : list string) :
  existsb (same_road e) (consecutive (reverse l)) = existsb (same_road e) (consecutive l).
Proof.
  apply eq_true_iff_eq. rewrite !existsb_exists. split.
  - intros ([x y] & Hin & Hs). exists (y, x). split; [|rewrite same_road_swap; exact Hs].
    apply list_elem_of_In, consecutive_reverse, list_elem_of_In, Hin.
  - intros ([x y] & Hin & Hs). exists (y, x). split; [|rewrite same_road_swap; exact Hs].
    apply list_elem_of_In, consecutive_reverse, list_elem_of_In, Hin.
Qed.

(** X12: the delay does not depend on the direction in which the
    emergency vehicle travels: the reversed emergency path gives the same
    result. *)
Theorem delay_ignores_emergency_direction G car_path emergency_path :
  simulate_emergency_delay G car_path (reverse emergency_path)
  = simulate_emergency_delay G car_path emergency_path.
Proof.
  unfold simulate_emergency_delay, common_edges.
  replace (filter (fun car_edge =>
                     existsb (same_road car_edge) (consecutive (reverse emergency_path)) = true)
                  (consecutive car_path))
    with (filter (fun car_edge =>
                    existsb (same_road car_edge) (consecutive emergency_path) = true)
                 (consecutive car_path)); [reflexivity|].
  apply list_filter_iff. intros e. rewrite existsb_same_road_reverse. reflexivity.
Qed.

Lemma between_items_elem G u v items item :
  between_items G u v = Ok items -> item ∈ items -> item ∈ edges_between G u v.
Proof.
  unfold between_items. destruct (has_node G u); [|discriminate].
  destruct (edges_between G u v); [discriminate|]. intros H. injection H as <-. auto.
Qed.

Lemma listed_distance_nonneg G u v item :
  nonneg_distances G -> item ∈ edges_between G u v -> 0 <= default 1000 (distance item.2).
Proof.
  intros Hnn Hin. destruct item as [k d].
  apply elem_of_edges_between in Hin as (e & He & _ & _ & <-). apply Hnn, He.
Qed.

(** X13: the car path is returned as it was given, and in a network
    without negative lengths the delay is at least zero. *)
Theorem delay_is_nonnegative G car_path emergency_path path delay :
  nonneg_distances G ->
  simulate_emergency_delay G car_path emergency_path = Ok (path, delay) ->
  path = car_path /\ 0 <= delay.
Proof.
  intros Hnn H. unfold simulate_emergency_delay in H.
  assert (Hfold : forall (f : string * string -> Q -> Res Q) l,
            (forall e s s', 0 <= s -> f e s = Ok s' -> 0 <= s') ->
            forall s', foldM f l 0 = Ok s' -> 0 <= s').
  { intros f l Hf s'. apply (foldM_invariant (fun s => 0 <= s)); [exact Hf|lra]. }
  destruct (foldM (common_edge_delay G) _ 0) as [d| |] eqn:Hd; try discriminate.
  rewrite bind_Ok in H.
  assert (Hd0 : 0 <= d).
  { apply (Hfold _ _) in Hd; [exact Hd|].
    intros e s s' Hs He. unfold common_edge_delay in He.
    destruct (between_items G e.1 e.2) as [items| |] eqn:Hitems; try discriminate.
    rewrite bind_Ok in He.
    destruct (List.find _ items) as [[k data]|] eqn:Hfind; injection He as <-; [|exact Hs].
    apply List.find_some in Hfind as [Hin _]. apply list_elem_of_In in Hin.
    pose proof (listed_distance_nonneg G _ _ _ Hnn (between_items_elem _ _ _ _ _ Hitems Hin)).
    cbn [snd] in *. lra. }
  destruct (Qeq_bool d 0); [|injection H as <- <-; auto].
  destruct (foldM (car_edge_distance G) _ 0) as [t| |] eqn:Ht; try discriminate.
  rewrite bind_Ok in H. injection H as <- <-. split; [reflexivity|].
  assert (Ht0 : 0 <= t); [|lra].
  apply (Hfold _ _) in Ht; [exact Ht|].
  intros e s s' Hs He. unfold car_edge_distance in He.
  destruct (between_items G e.1 e.2) as [items| |] eqn:Hitems; try discriminate.
  rewrite bind_Ok in He.
  destruct (omap _ items) as [|x rest] eqn:Hom; injection He as <-; [exact Hs|].
  assert (Hx : x ∈ omap (fun item : nat * EdgeData => distance item.2) items)
    by (rewrite Hom; apply list_elem_of_here).
  apply list_elem_of_omap in Hx as (item & Hin & Hdist).
  pose proof (listed_distance_nonneg G _ _ _ Hnn (between_items_elem _ _ _ _ _ Hitems Hin)) as Hnon.
  rewrite Hdist in Hnon. cbn in Hnon. lra.
Qed.

Lemma delay_is_nonnegative_witness :
  exists delay,
    simulate_emergency_delay (two_places existing 1000 1000) ["a"; "b"] ["b"; "a"]
      = Ok (["a"; "b"]%string, delay) /\ delay == 200 /\ 0 <= delay.
Proof.
  destruct (simulate_emergency_delay (two_places existing 1000 1000) ["a"; "b"] ["b"; "a"])
    as [[path delay]| |] eqn:E; [|vm_compute in E; discriminate..].
  assert (Hnn : nonneg_distances (two_places existing 1000 1000)).
  { intros e He. apply list_elem_of_singleton in He. subst e. discriminate. }
  destruct (delay_is_nonnegative _ _ _ _ _ Hnn E) as [-> H0].
  exists delay. split; [reflexivity|]. split; [|exact H0].
  vm_compute in E. injection E as <-. reflexivity.
Defined.

(** ** [get_available_places] (graph_utils.py) *)

(** [G.nodes[node]] *)
Definition node_data (G : Graph) (node : string) : option NodeData :=
  snd <$> List.find (fun p => String.eqb p.1 node) (g_nodes G).

(** [G.nodes[node]['name']], when the node carries a name. *)
Definition place_name (G : Graph) (node : string) : option string :=
  node_data G node ≫= name.

(** The loop [for node in nodes: if 'name' in G.nodes[node]:
    available_places[node] = G.nodes[node]['name']]. *)
Definition named_places (G : Graph) (nodes : list string) : gmap string string :=
  foldl (fun available_places node =>
           match place_name G node with
           | Some place => <[node := place]> available_places
           | None => available_places
           end) ∅ nodes.

(** The transport mode is the string the caller passes; a set is visited
    in some order of its elements, which the resulting dictionary does not
    depend on. *)
Definition get_available_places (G : Graph) (bus_stops metro_stations : gset string)
    (transport_mode : string) : gmap string string :=
  if bool_decide (transport_mode = "car"%string)
     || bool_decide (transport_mode = "emergency"%string)
  then named_places G (node_ids G)
  else if bool_decide (transport_mode = "bus"%string)
  then named_places G (filter (fun node => has_node G node = true) (elements bus_stops))
  else if bool_decide (transport_mode = "metro"%string)
  then named_places G (filter (fun node => has_node G node = true) (elements metro_stations))
  else ∅.

Lemma named_places_lookup (G : Graph) (nodes : list string) (node : string) :
  named_places G nodes !! node =
  if bool_decide (node ∈ nodes) then place_name G node else None.
Proof.
  unfold named_places. induction nodes as [|n nodes IH] using rev_ind.
  - simpl. rewrite lookup_empty. reflexivity.
  - rewrite foldl_snoc.
    destruct (decide (node = n)) as [->|Hne].
    + rewrite (bool_decide_eq_true_2 (n ∈ nodes ++ [n]))
        by (apply elem_of_app; right; apply list_elem_of_here).
      destruct (place_name G n) as [place|] eqn:Hp.
      * apply lookup_insert_eq.
      * rewrite IH. destruct (bool_decide (n ∈ nodes)); auto.
    + assert (E : bool_decide (node ∈ nodes ++ [n]) = bool_decide (node ∈ nodes)).
      { apply bool_decide_ext. rewrite elem_of_app, list_elem_of_singleton. tauto. }
      rewrite E. destruct (place_name G n); [rewrite lookup_insert_ne by congruence|];
        exact IH.
Qed.

(** X14: a place offered for a mode is a node of the graph, listed with
    its name; a place offered for bus (or metro) travel is one of the bus
    stops (or metro stations) and is offered to cars under the same name;
    the emergency mode sees what cars see, and an unknown mode sees
    nothing. *)
Theorem available_places_by_mode G bus_stops metro_stations :
  (forall transport_mode node place,
     get_available_places G bus_stops metro_stations transport_mode !! node = Some place ->
     node ∈ node_ids G /\ place_name G node = Some place /\
     get_available_places G bus_stops metro_stations "car" !! node = Some place) /\
  (forall node place,
     get_available_places G bus_stops metro_stations "bus" !! node = Some place ->
     node ∈ bus_stops) /\
  (forall node place,
     get_available_places G bus_stops metro_stations "metro" !! node = Some place ->
     node ∈ metro_stations) /\
  get_available_places G bus_stops metro_stations "emergency"
    = get_available_places G bus_stops metro_stations "car" /\
  (forall transport_mode,
     transport_mode ∉ ["car"; "emergency"; "bus"; "metro"]%string ->
     get_available_places G bus_stops metro_stations transport_mode = ∅).
Proof.
  assert (Hcar : forall node place,
            node ∈ node_ids G -> place_name G node = Some place ->
            get_available_places G bus_stops metro_stations "car" !! node = Some place).
  { intros node place Hn Hp. unfold get_available_places. cbn [bool_decide orb].
    rewrite (bool_decide_eq_true_2 ("car"%string = "car"%string)) by reflexivity.
    cbn [orb]. rewrite named_places_lookup, bool_decide_eq_true_2 by exact Hn. exact Hp. }
  assert (Hsub : forall (stops : gset string) node place,
            named_places G (filter (fun n => has_node G n = true) (elements stops)) !! node
              = Some place ->
            node ∈ stops /\ node ∈ node_ids G /\ place_name G node = Some place).
  { intros stops node place H. rewrite named_places_lookup in H.
    destruct (bool_decide (node ∈ _)) eqn:E; [|discriminate].
    apply bool_decide_eq_true_1, list_elem_of_filter in E as [Hn Hs].
    split; [apply elem_of_elements, Hs|]. split; [apply has_node_true, Hn|exact H]. }
  split; [|split; [|split; [|split]]].
  - intros transport_mode node place H. unfold get_available_places in H.
    destruct (bool_decide (transport_mode = "car"%string)
              || bool_decide (transport_mode = "emergency"%string)).
    + rewrite named_places_lookup in H.
      destruct (bool_decide (node ∈ node_ids G)) eqn:E; [|discriminate].
      apply bool_decide_eq_true_1 in E. auto.
    + destruct (bool_decide (transport_mode = "bus"%string));
        [|destruct (bool_decide (transport_mode = "metro"%string))].
      * apply Hsub in H as (_ & Hn & Hp). auto.
      * apply Hsub in H as (_ & Hn & Hp). auto.
      * rewrite lookup_empty in H. discriminate.
  - intros node place H. apply (Hsub bus_stops node place), H.
  - intros node place H. apply (Hsub metro_stations node place), H.
  - reflexivity.
  - intros transport_mode Hm. unfold get_available_places.
    rewrite !bool_decide_eq_false_2; [reflexivity|..];
      intros ->; apply Hm;
      repeat first [apply list_elem_of_here | apply list_elem_of_further].
Qed.

(** ** [optimize_public_transport_schedule] (dp_solutions.py) *)

Definition time_periods : list string :=
  ["morning"; "afternoon"; "evening"; "night"]%string.

(** [time_weights[period]] for the four periods. *)
Definition time_weights (period : string) : Q :=
  if String.eqb period "morning" then 35 # 100
  else if String.eqb period "afternoon" then 25 # 100
  else if String.eqb period "evening" then 30 # 100
  else 10 # 100.

(** The service quality computed for a number of vehicles per hour. *)
Definition service_quality (base_capacity period_demand : Q) (vehicles : nat) : Q :=
  let capacity := nat_Q vehicles * base_capacity in
  let waiting_time := 60 / nat_Q vehicles in
  if Qle_bool period_demand capacity then period_demand / waiting_time
  else capacity / waiting_time - (period_demand - capacity) * (1 # 2).

(** The service quality of a number of buses as the binary64 number the
    loop computes, operation by operation. *)
Definition service_quality_binary64 (base_capacity : Z)
    (period_demand : PrimFloat.float) (vehicles : nat) : PrimFloat.float :=
  let capacity := float_of_Z (Z.of_nat vehicles * base_capacity) in
  let waiting_time := PrimFloat.div (float_of_Z 60) (float_of_Z (Z.of_nat vehicles)) in
  if PrimFloat.leb period_demand capacity then PrimFloat.div period_demand waiting_time
  else PrimFloat.sub (PrimFloat.div capacity waiting_time)
         (PrimFloat.mul (PrimFloat.sub period_demand capacity) (float_of_Q (1 # 2))).

(** The quality of a number of buses: the service quality divided by the
    cost factor.  Above the assigned number the quotient is the same
    rational number for every count that covers the demand, so that
    rounding decides which count is the greatest: the quality is computed
    on binary64 numbers.  The rows of a table with text columns hold
    Python numbers, so the division by zero buses raises. *)
Definition bus_quality (current_buses : Q) (period_demand : PrimFloat.float)
    (buses : nat) : Res PrimFloat.float :=
  let service_quality := service_quality_binary64 80 period_demand buses in
  cost_factor ←
    (if Qlt_le_dec current_buses (nat_Q buses) then
       if Qeq_bool current_buses 0 then Raise ZeroDivisionError
       else Ok (PrimFloat.div (float_of_Z (Z.of_nat buses)) (float_of_Q current_buses))
     else Ok (float_of_Z 1));
  Ok (PrimFloat.div service_quality cost_factor).

(** [max(range(1, len(dp)), key=lambda b: dp[b])] on binary64 numbers. *)
Fixpoint argmax_from_binary64 (best : nat) (best_value : PrimFloat.float) (i : nat)
    (l : list PrimFloat.float) : nat :=
  match l with
  | [] => best
  | v :: l' =>
      if PrimFloat.ltb best_value v then argmax_from_binary64 i v (S i) l'
      else argmax_from_binary64 best best_value (S i) l'
  end.

Definition optimal_from_one_binary64 (dp : list PrimFloat.float) : Res nat :=
  match dp with
  | _ :: v :: l => Ok (argmax_from_binary64 1 v 2 l)
  | _ => Raise ValueError
  end.

(** [max(range(1, len(dp)), key=lambda t: dp[t])] *)
Definition optimal_from_one (dp : list Q) : Res nat :=
  match dp with
  | _ :: v :: l => Ok (argmax_from 1 v 2 l)
  | _ => Raise ValueError
  end.

(** An entry of the schedule of a line or route in a period. *)
Record PeriodSchedule := mkPeriodSchedule {
  per_hour : nat;
  headway_minutes : Q;
  offered_capacity : Q;
  expected_demand : Q
}.

Definition period_entry (base_capacity period_demand : Q) (optimal : nat)
    : PeriodSchedule :=
  {| per_hour := optimal;
     headway_minutes := 60 / nat_Q optimal;
     offered_capacity := nat_Q optimal * base_capacity;
     expected_demand := period_demand |}.

Definition metro_period (daily_passengers : Q) (period : string)
    : Res (string * PeriodSchedule) :=
  let period_demand := daily_passengers * time_weights period in
  let dp := 0 :: (service_quality 1000 period_demand <$> seq 1 20) in
  optimal_trains ← optimal_from_one dp;
  Ok (period, period_entry 1000 period_demand optimal_trains).

Definition bus_period (daily_passengers current_buses : Q) (period : string)
    : Res (string * PeriodSchedule) :=
  let period_demand := daily_passengers * time_weights period in
  let period_demand_binary64 :=
    PrimFloat.mul (float_of_Q daily_passengers) (float_of_Q (time_weights period)) in
  qualities ← mapM (bus_quality current_buses period_demand_binary64) (seq 1 30);
  optimal_buses ← optimal_from_one_binary64 (float_of_Z 0 :: qualities);
  Ok (period, period_entry 80 period_demand optimal_buses).

(** The dictionaries [metro_lines] and [bus_routes], keyed by the
    identifier of the line or route: a later row with the same identifier
    replaces the values of an earlier one. *)
Definition metro_lines_of (rows : list MetroLineRow) : list (string * Q) :=
  foldl (fun d row => dict_set d (LineID row) (metro_Daily_Passengers row)) [] rows.

Definition bus_routes_of (rows : list BusRouteRow) : list (string * (Q * Q)) :=
  foldl (fun d row => dict_set d (RouteID row) (bus_Daily_Passengers row, Buses_Assigned row))
        [] rows.

Definition Schedule : Type := list (string * list (string * PeriodSchedule)).

(** The function returns the schedules of the metro lines and of the bus
    routes.  The station and stop lists only give counts that are not
    used, the demand table is read into a dictionary that is not used,
    and the measured execution time is not modelled. *)
Definition optimize_public_transport_schedule (metro_lines_df : list MetroLineRow)
    (bus_routes_df : list BusRouteRow) : Res (Schedule * Schedule) :=
  metro_schedule ←
    mapM (fun '(line_id, daily_passengers) =>
            periods ← mapM (metro_period daily_passengers) time_periods;
            Ok (line_id, periods))
         (metro_lines_of metro_lines_df);
  bus_schedule ←
    mapM (fun '(route_id, (daily_passengers, current_buses)) =>
            periods ← mapM (bus_period daily_passengers current_buses) time_periods;
            Ok (route_id, periods))
         (bus_routes_of bus_routes_df);
  Ok (metro_schedule, bus_schedule).

(** ** The optimum of the schedule *)

(** A list whose entries increase strictly from [v] on. *)
Fixpoint rising (v : Q) (l : list Q) : Prop :=
  match l with
  | [] => True
  | w :: l' => v < w /\ rising w l'
  end.

Lemma argmax_from_flat (l : list Q) : forall best best_value i,
  (forall w, w ∈ l -> w <= best_value) -> argmax_from best best_value i l = best.
Proof.
  induction l as [|w l IH]; intros best best_value i Hle; [reflexivity|].
  simpl. destruct (Qlt_le_dec best_value w) as [Hlt|_].
  - pose proof (Hle w (list_elem_of_here _ _)). lra.
  - apply IH. intros x Hx. apply Hle, list_elem_of_further, Hx.
Qed.

(** The first greatest entry closes the rising part of the table. *)
Lemma argmax_from_rising (up : list Q) : forall flat best best_value i w,
  rising best_value (up ++ [w]) ->
  (forall x, x ∈ flat -> x <= w) ->
  argmax_from best best_value i (up ++ w :: flat) = (i + length up)%nat.
Proof.
  induction up as [|u up IH]; intros flat best best_value i w Hr Hflat.
  - simpl in *. destruct Hr as [Hlt _].
    destruct (Qlt_le_dec best_value w); [|lra].
    rewrite argmax_from_flat by exact Hflat. lia.
  - simpl in Hr. destruct Hr as [Hlt Hr]. cbn [app argmax_from].
    destruct (Qlt_le_dec best_value u); [|lra].
    rewrite (IH flat i u (S i) w Hr Hflat). simpl. lia.
Qed.

Lemma rising_fmap_seq (f : nat -> Q) (n a : nat) :
  (forall t, (a <= t < a + n)%nat -> f t < f (S t)) ->
  rising (f a) (f <$> seq (S a) n).
Proof.
  revert a. induction n as [|n IH]; intros a Hf; [exact I|].
  simpl. split; [apply Hf; lia|]. apply IH. intros t Ht. apply Hf. lia.
Qed.

Lemma nat_Q_S (n : nat) : nat_Q (S n) == nat_Q n + 1.
Proof.
  unfold nat_Q. rewrite Nat2Z.inj_succ. unfold Z.succ. rewrite inject_Z_plus. reflexivity.
Qed.

Lemma nat_Q_pos (n : nat) : (1 <= n)%nat -> 1 <= nat_Q n.
Proof.
  intros Hn. unfold nat_Q. change 1 with (inject_Z 1). rewrite <- Zle_Qle. lia.
Qed.

Lemma nat_Q_le (a b : nat) : (a <= b)%nat -> nat_Q a <= nat_Q b.
Proof. intros H. unfold nat_Q. rewrite <- Zle_Qle. lia. Qed.

Lemma nat_Q_lt (a b : nat) : (a < b)%nat -> nat_Q a < nat_Q b.
Proof. intros H. unfold nat_Q. rewrite <- Zlt_Qlt. lia. Qed.

Lemma per_waiting_time (x T : Q) : 0 < T -> x / (60 / T) == x * T * (1 # 60).
Proof. intros HT. field. lra. Qed.

(** For a demand above zero every further vehicle raises the service
    quality. *)
Lemma service_quality_rises (base_capacity period_demand : Q) (t : nat) :
  0 < base_capacity -> 0 < period_demand -> (1 <= t)%nat ->
  service_quality base_capacity period_demand t
  < service_quality base_capacity period_demand (S t).
Proof.
  intros Hc Hd Ht. unfold service_quality.
  pose proof (nat_Q_pos t Ht) as HT. pose proof (nat_Q_S t) as HS.
  destruct (Qle_bool period_demand (nat_Q t * base_capacity)) eqn:E1;
    destruct (Qle_bool period_demand (nat_Q (S t) * base_capacity)) eqn:E2.
  - rewrite !per_waiting_time by lra. rewrite HS.
    remember (nat_Q t) as T. nra.
  - apply Qle_bool_iff in E1.
    assert (H2 : ~ period_demand <= nat_Q (S t) * base_capacity)
      by (rewrite <- Qle_bool_iff; congruence).
    exfalso. apply H2. rewrite HS. remember (nat_Q t) as T. nra.
  - apply Qle_bool_iff in E2. rewrite HS in E2.
    assert (H1 : ~ period_demand <= nat_Q t * base_capacity)
      by (rewrite <- Qle_bool_iff; congruence).
    apply Qnot_le_lt in H1.
    rewrite !per_waiting_time by lra. rewrite HS.
    remember (nat_Q t) as T. nra.
  - assert (H1 : ~ period_demand <= nat_Q t * base_capacity)
      by (rewrite <- Qle_bool_iff; congruence).
    apply Qnot_le_lt in H1.
    rewrite !per_waiting_time by lra. rewrite HS.
    remember (nat_Q t) as T. nra.
Qed.

Lemma mapM_fmap {A B : Type} (f : A -> Res B) (g : A -> B) (l : list A) :
  (forall a, a ∈ l -> f a = Ok (g a)) -> mapM f l = Ok (g <$> l).
Proof.
  induction l as [|a l IH]; intros Hf; [reflexivity|].
  simpl. rewrite (Hf a (list_elem_of_here _ _)), bind_Ok.
  rewrite IH by (intros x Hx; apply Hf, list_elem_of_further, Hx). reflexivity.
Qed.

Lemma mapM_elem {A B : Type} (f : A -> Res B) (l : list A) (r : list B) (b : B) :
  mapM f l = Ok r -> b ∈ r -> exists a, a ∈ l /\ f a = Ok b.
Proof.
  revert r. induction l as [|a l IH]; intros r H Hb.
  - injection H as <-. inversion Hb.
  - simpl in H. destruct (f a) as [b0| |] eqn:E; try discriminate.
    rewrite bind_Ok in H. destruct (mapM f l) as [bs| |]; try discriminate.
    rewrite bind_Ok in H. injection H as <-.
    apply elem_of_cons in Hb as [->|Hb].
    + exists a. split; [apply list_elem_of_here|exact E].
    + destruct (IH bs eq_refl Hb) as (a' & Ha' & Hf). exists a'.
      split; [apply list_elem_of_further, Ha'|exact Hf].
Qed.

Lemma dict_set_elem {V : Type} (d : list (string * V)) (k k' : string) (v v' : V) :
  (k, v) ∈ dict_set d k' v' -> (k = k' /\ v = v') \/ (k, v) ∈ d.
Proof.
  induction d as [|[k0 v0] d IH]; simpl.
  - intros H%list_elem_of_singleton. injection H as -> ->. auto.
  - destruct (decide (k0 = k')) as [->|Hne].
    + intros [H|H]%elem_of_cons; [injection H as -> ->; auto|].
      right. apply list_elem_of_further, H.
    + intros [H|H]%elem_of_cons; [right; rewrite H; apply list_elem_of_here|].
      destruct (IH H) as [?|?]; [auto|]. right. apply list_elem_of_further. assumption.
Qed.

Lemma dict_of_rows_elem {R V : Type} (key : R -> string) (val : R -> V) (rows : list R) k v :
  (k, v) ∈ foldl (fun d row => dict_set d (key row) (val row)) [] rows ->
  exists row, row ∈ rows /\ key row = k /\ val row = v.
Proof.
  induction rows as [|row rows IH] using rev_ind; [intros H; inversion H|].
  rewrite foldl_snoc. intros [[-> ->]|H]%dict_set_elem.
  - exists row. split; [apply elem_of_app; right; apply list_elem_of_here|auto].
  - destruct (IH H) as (r & Hr & Hk). exists r. split; [apply elem_of_app; auto|exact Hk].
Qed.

Lemma time_weights_bounds (period : string) :
  0 < time_weights period /\ time_weights period <= 35 # 100.
Proof.
  unfold time_weights.
  destruct (String.eqb period "morning"); [split; [reflexivity|discriminate]|].
  destruct (String.eqb period "afternoon"); [split; [reflexivity|discriminate]|].
  destruct (String.eqb period "evening"); split; try reflexivity; discriminate.
Qed.

(** With passengers to carry, the best number of trains is the greatest
    one the table allows. *)
Lemma metro_period_optimum (daily_passengers : Q) (period : string) :
  0 < daily_passengers ->
  metro_period daily_passengers period =
  Ok (period, period_entry 1000 (daily_passengers * time_weights period) 20).
Proof.
  intros Hd. unfold metro_period.
  set (D := daily_passengers * time_weights period).
  assert (HD : 0 < D).
  { unfold D. apply Qmult_lt_0_compat; [exact Hd|apply time_weights_bounds]. }
  set (f := service_quality 1000 D).
  change (optimal_from_one (0 :: (f <$> seq 1 20)))
    with (Ok (argmax_from 1 (f 1%nat) 2 ((f <$> seq 2 18) ++ f 20%nat :: []))).
  rewrite bind_Ok.
  rewrite (argmax_from_rising (f <$> seq 2 18) [] 1 (f 1%nat) 2 (f 20%nat)).
  - reflexivity.
  - change ((f <$> seq 2 18) ++ [f 20%nat]) with (f <$> seq 2 19).
    apply rising_fmap_seq. intros t Ht.
    apply service_quality_rises; [reflexivity|exact HD|lia].
  - intros x Hx. inversion Hx.
Qed.

(** X15: the dynamic program of the metro schedule is degenerate: for
    every line with passengers it assigns the maximum of 20 trains per
    hour in every period, a headway of 3 minutes and a capacity of 20000
    passengers, however small the demand. *)
Theorem metro_runs_twenty_trains metro_lines_df bus_routes_df metro_schedule bus_schedule :
  (forall row, row ∈ metro_lines_df -> 0 < metro_Daily_Passengers row) ->
  optimize_public_transport_schedule metro_lines_df bus_routes_df
    = Ok (metro_schedule, bus_schedule) ->
  forall line_id periods period entry,
    (line_id, periods) ∈ metro_schedule -> (period, entry) ∈ periods ->
    per_hour entry = 20%nat /\ headway_minutes entry == 3 /\
    offered_capacity entry == 20000.
Proof.
  intros Hpos H line_id periods period entry Hline Hentry.
  unfold optimize_public_transport_schedule in H.
  destruct (mapM _ (metro_lines_of metro_lines_df)) as [ms| |] eqn:Hm; try discriminate.
  rewrite bind_Ok in H.
  destruct (mapM _ (bus_routes_of bus_routes_df)) as [bs| |]; try discriminate.
  rewrite bind_Ok in H. injection H as <- <-.
  destruct (mapM_elem _ _ _ _ Hm Hline) as ([id daily] & Hin & Hf).
  destruct (dict_of_rows_elem _ _ _ _ _ Hin) as (row & Hrow & _ & <-).
  rewrite (mapM_fmap _ (fun p => (p, period_entry 1000
                                       (metro_Daily_Passengers row * time_weights p) 20)))
    in Hf by (intros p _; apply metro_period_optimum, Hpos, Hrow).
  rewrite bind_Ok in Hf. injection Hf as _ <-.
  repeat (apply elem_of_cons in Hentry as [Hentry|Hentry];
          [injection Hentry as _ ->; cbn; split; [reflexivity|split; reflexivity]|]).
  inversion Hentry.
Qed.

Definition one_metro_line : list MetroLineRow :=
  [ {| LineID := "M1"; Stations := ["a"; "b"]%string; metro_Daily_Passengers := 100 |} ].

Lemma metro_runs_twenty_trains_witness :
  exists metro_schedule,
    optimize_public_transport_schedule one_metro_line [] = Ok (metro_schedule, []) /\
    forall line_id periods period entry,
      (line_id, periods) ∈ metro_schedule -> (period, entry) ∈ periods ->
      per_hour entry = 20%nat /\ headway_minutes entry == 3 /\
      offered_capacity entry == 20000.
Proof.
  destruct (optimize_public_transport_schedule one_metro_line [])
    as [[metro_schedule bus_schedule]| |] eqn:E; [|vm_compute in E; discriminate..].
  assert (Hb : bus_schedule = []) by (vm_compute in E; injection E as _ <-; reflexivity).
  subst bus_schedule. exists metro_schedule. split; [reflexivity|].
  apply (metro_runs_twenty_trains one_metro_line [] metro_schedule []); [|exact E].
  intros row Hrow. apply list_elem_of_singleton in Hrow. subst row. reflexivity.
Defined.

(** A route of five buses and 1000 passengers a day.  From five buses on
    every count has the same quality as a rational number; as binary64
    numbers the qualities differ in their last digits, and the schedule
    runs 7, 6, 23 and 5 buses an hour in the four periods. *)
Definition one_bus_route : list BusRouteRow :=
  [ {| RouteID := "B1"; Stops := ["a"; "b"]%string; Buses_Assigned := 5;
       bus_Daily_Passengers := 1000 |} ].

Lemma bus_counts_follow_rounding :
  exists bus_schedule,
    optimize_public_transport_schedule [] one_bus_route = Ok ([], bus_schedule) /\
    (fun route : string * list (string * PeriodSchedule) =>
       (route.1, (fun entry : string * PeriodSchedule => (entry.1, per_hour entry.2))
                   <$> route.2))
      <$> bus_schedule
    = [("B1"%string, [("morning"%string, 7%nat); ("afternoon"%string, 6%nat);
                      ("evening"%string, 23%nat); ("night"%string, 5%nat)])].
Proof.
  destruct (optimize_public_transport_schedule [] one_bus_route)
    as [[metro_schedule bus_schedule]| |] eqn:E; [|vm_compute in E; discriminate..].
  vm_compute in E. injection E as <- <-.
  eexists. split; [reflexivity|]. vm_compute. reflexivity.
Qed.

(** ** The traffic table of [load_data] (data_loader.py) *)

(** A row of the traffic-flow table. *)
Record TrafficRow := mkTrafficRow {
  RoadID : string;
  MorningPeak : Q;
  Afternoon : Q;
  EveningPeak : Q;
  Night : Q
}.

(** The character [-]. *)
Definition dash : Ascii.ascii :=
  Ascii.Ascii true false true true false true false false.

(** [road_id.split("-")] *)
Fixpoint split_dash (road_id : string) : list string :=
  match road_id with
  | EmptyString => [EmptyString]
  | String c rest =>
      if Ascii.eqb c dash then EmptyString :: split_dash rest
      else match split_dash rest with
           | part :: parts => String c part :: parts
           | [] => [String c EmptyString]
           end
  end.

(** [traffic_data.setdefault(period, {}).setdefault(pair, flow)]: a pair
    that has a flow in the period keeps it. *)
Definition setdefault_flow (period : string) (pair : string * string) (flow : Q)
    (traffic_data : TrafficData) : TrafficData :=
  let flows := default ∅ (traffic_data !! period) in
  <[period := match flows !! pair with
              | Some _ => flows
              | None => <[pair := flow]> flows
              end]> traffic_data.

(** The body of the loop over the rows; [None] stands for the exception
    that [load_data] raises from its handler when the identifier does not
    split into two parts. *)
Definition add_traffic_row (traffic_data : TrafficData) (row : TrafficRow)
    : option TrafficData :=
  if contains "-" (RoadID row) then
    match split_dash (RoadID row) with
    | [from_id; to_id] =>
        Some (setdefault_flow "night" (from_id, to_id) (Night row)
                (setdefault_flow "evening" (from_id, to_id) (EveningPeak row)
                   (setdefault_flow "afternoon" (from_id, to_id) (Afternoon row)
                      (setdefault_flow "morning" (from_id, to_id) (MorningPeak row)
                         traffic_data))))
    | _ => None
    end
  else Some traffic_data.

(** The dictionary [traffic_data] that [load_data] returns.  The tables
    themselves come from [pd.read_excel] and are passed on as read. *)
Definition organize_traffic_data (rows : list TrafficRow) : option TrafficData :=
  foldl (fun acc row => acc ≫= fun traffic_data => add_traffic_row traffic_data row)
        (Some ∅) rows.

(** The flow recorded for a pair in a period. *)
Definition recorded_flow (traffic_data : TrafficData) (period : string)
    (pair : string * string) : option Q :=
  default ∅ (traffic_data !! period) !! pair.

(** The flow a row gives for a period. *)
Definition row_flow (row : TrafficRow) (period : string) : option Q :=
  if String.eqb period "morning" then Some (MorningPeak row)
  else if String.eqb period "afternoon" then Some (Afternoon row)
  else if String.eqb period "evening" then Some (EveningPeak row)
  else if String.eqb period "night" then Some (Night row)
  else None.

Lemma setdefault_flow_lookup period pair flow T p k :
  recorded_flow (setdefault_flow period pair flow T) p k =
  match recorded_flow T p k with
  | Some x => Some x
  | None => if decide (p = period /\ k = pair) then Some flow else None
  end.
Proof.
  unfold recorded_flow, setdefault_flow.
  destruct (decide (p = period)) as [->|Hp].
  - rewrite lookup_insert_eq. cbn [default from_option id].
    destruct (default ∅ (T !! period) !! pair) as [x|] eqn:E.
    + destruct (default ∅ (T !! period) !! k) as [y|] eqn:Ek; [reflexivity|].
      rewrite decide_False; [reflexivity|]. intros [_ ->]. congruence.
    + destruct (decide (k = pair)) as [->|Hk].
      * rewrite lookup_insert_eq, E. rewrite decide_True by auto. reflexivity.
      * rewrite lookup_insert_ne by congruence.
        destruct (default ∅ (T !! period) !! k); [reflexivity|].
        rewrite decide_False by tauto. reflexivity.
  - rewrite lookup_insert_ne by congruence.
    destruct (default ∅ (T !! p) !! k); [reflexivity|].
    rewrite decide_False by tauto. reflexivity.
Qed.

Lemma add_traffic_row_lookup T row T' p k :
  add_traffic_row T row = Some T' ->
  recorded_flow T' p k =
  match recorded_flow T p k with
  | Some x => Some x
  | None => if decide (split_dash (RoadID row) = [k.1; k.2]) then row_flow row p else None
  end.
Proof.
  unfold add_traffic_row. destruct (contains "-" (RoadID row)) eqn:Hdash.
  - destruct (split_dash (RoadID row)) as [|from_id [|to_id [|? ?]]] eqn:Hs; try discriminate.
    intros H. injection H as <-. rewrite !setdefault_flow_lookup.
    destruct (recorded_flow T p k) as [x|]; [reflexivity|].
    destruct k as [k1 k2]. cbn [fst snd]. unfold row_flow.
    destruct (decide ([from_id; to_id] = [k1; k2])) as [E|Hne].
    + injection E as -> ->.
      destruct (String.eqb_spec p "morning") as [->|H1];
        [rewrite decide_True by auto; reflexivity|].
      rewrite (decide_False (P := p = "morning"%string /\ _)) by tauto.
      destruct (String.eqb_spec p "afternoon") as [->|H2];
        [rewrite decide_True by auto; reflexivity|].
      rewrite (decide_False (P := p = "afternoon"%string /\ _)) by tauto.
      destruct (String.eqb_spec p "evening") as [->|H3];
        [rewrite decide_True by auto; reflexivity|].
      rewrite (decide_False (P := p = "evening"%string /\ _)) by tauto.
      destruct (String.eqb_spec p "night") as [->|H4];
        [rewrite decide_True by auto; reflexivity|].
      rewrite (decide_False (P := p = "night"%string /\ _)) by tauto. reflexivity.
    + rewrite !decide_False; [reflexivity|..]; intros [_ E]; congruence.
  - intros H. injection H as <-.
    destruct (recorded_flow T p k); [reflexivity|].
    rewrite decide_False; [reflexivity|]. intros E.
    assert (Hc : forall s, contains "-" s = false -> length (split_dash s) = 1%nat).
    { clear. induction s as [|c s IH]; [reflexivity|]. simpl.
      destruct (Ascii.eqb c dash) eqn:Ec.
      - apply Ascii.eqb_eq in Ec. subst c. intros H. exfalso.
        destruct s; simpl in H;
          first [ discriminate H
                | destruct (Ascii.ascii_dec _ dash) as [_|Hn];
                  [discriminate H | apply Hn; reflexivity] ].
      - intros H. apply orb_false_elim in H as [_ H]. specialize (IH H).
        destruct (split_dash s) as [|part parts]; [reflexivity|]. exact IH. }
    apply Hc in Hdash. rewrite E in Hdash. discriminate.
Qed.

Lemma organize_from_None (rows : list TrafficRow) :
  foldl (fun acc row => acc ≫= fun traffic_data => add_traffic_row traffic_data row)
        None rows = None.
Proof. induction rows as [|row rows IH]; [reflexivity|exact IH]. Qed.

Lemma row_flow_None (row row' : TrafficRow) (period : string) :
  row_flow row period = None -> row_flow row' period = None.
Proof.
  unfold row_flow.
  destruct (String.eqb period "morning"); [discriminate|].
  destruct (String.eqb period "afternoon"); [discriminate|].
  destruct (String.eqb period "evening"); [discriminate|].
  destruct (String.eqb period "night"); [discriminate|]. reflexivity.
Qed.

(** The first row whose identifier names the pair. *)
Definition first_row (rows : list TrafficRow) (pair : string * string)
    : option TrafficRow :=
  List.find (fun row => bool_decide (split_dash (RoadID row) = [pair.1; pair.2])) rows.

Lemma organize_lookup (rows : list TrafficRow) : forall T0 T period pair,
  foldl (fun acc row => acc ≫= fun traffic_data => add_traffic_row traffic_data row)
        (Some T0) rows = Some T ->
  recorded_flow T period pair =
  match recorded_flow T0 period pair with
  | Some x => Some x
  | None => first_row rows pair ≫= fun row => row_flow row period
  end.
Proof.
  induction rows as [|row rows IH]; intros T0 T period pair H.
  - injection H as <-. simpl. destruct (recorded_flow T0 period pair); reflexivity.
  - simpl in H. destruct (add_traffic_row T0 row) as [T1|] eqn:E.
    + rewrite (IH T1 T period pair H), (add_traffic_row_lookup _ _ _ period pair E).
      destruct (recorded_flow T0 period pair) as [x|]; [reflexivity|].
      unfold first_row. cbn [List.find].
      destruct (decide (split_dash (RoadID row) = [pair.1; pair.2])) as [Hs|Hs].
      * rewrite (bool_decide_eq_true_2 _ Hs). cbn.
        destruct (row_flow row period) eqn:Hf; [reflexivity|].
        destruct (List.find _ rows) as [row'|]; [|reflexivity].
        cbn. apply (row_flow_None row row'), Hf.
      * rewrite (bool_decide_eq_false_2 _ Hs). reflexivity.
    + cbn in H. rewrite organize_from_None in H. discriminate.
Qed.

(** X17: the traffic table built by [load_data] records, for a pair of
    nodes and one of the four periods, the flow of the first row whose
    RoadID splits into that pair at its dash, and nothing for a pair that
    no row names, such as the opposite direction of a road; the lookup of
    [get_edge_weight] then falls back to the capacity. *)
Theorem traffic_table_lookup rows traffic_data :
  organize_traffic_data rows = Some traffic_data ->
  forall period u v capacity,
    recorded_flow traffic_data period (u, v)
      = (first_row rows (u, v) ≫= fun row => row_flow row period) /\
    flow_lookup traffic_data period u v capacity
      = default capacity (first_row rows (u, v) ≫= fun row => row_flow row (lower period)).
Proof.
  intros H period u v capacity.
  assert (E : forall p, recorded_flow traffic_data p (u, v)
                        = (first_row rows (u, v) ≫= fun row => row_flow row p)).
  { intros p. rewrite (organize_lookup rows ∅ traffic_data p (u, v) H).
    unfold recorded_flow. rewrite lookup_empty. cbn. rewrite lookup_empty. reflexivity. }
  split; [apply E|]. unfold flow_lookup. rewrite <- E. reflexivity.
Qed.

Definition one_traffic_row : list TrafficRow :=
  [ {| RoadID := "a-b"; MorningPeak := 1500; Afternoon := 900; EveningPeak := 1400;
       Night := 300 |} ].

Lemma traffic_table_lookup_witness :
  exists traffic_data,
    organize_traffic_data one_traffic_row = Some traffic_data /\
    flow_lookup traffic_data "Morning" "a" "b" 1000 = 1500 /\
    flow_lookup traffic_data "Morning" "b" "a" 1000 = 1000.
Proof.
  destruct (organize_traffic_data one_traffic_row) as [traffic_data|] eqn:E;
    [|vm_compute in E; discriminate].
  exists traffic_data. split; [reflexivity|].
  split.
  - rewrite (proj2 (traffic_table_lookup _ _ E "Morning" "a" "b" 1000)%string). reflexivity.
  - rewrite (proj2 (traffic_table_lookup _ _ E "Morning" "b" "a" 1000)%string). reflexivity.
Defined.

(** ** The graph built by [create_graph] is well formed *)

(** The ends of all edges are nodes, and no node is listed twice. *)
Definition tidy (G : Graph) : Prop := wf_graph G /\ NoDup (node_ids G).

(** [G'] keeps the nodes of [G], and is tidy when [G] is. *)
Definition grows (G G' : Graph) : Prop :=
  (tidy G -> tidy G') /\ (forall n, n ∈ node_ids G -> n ∈ node_ids G').

Lemma grows_refl G : grows G G.
Proof. split; auto. Qed.

Lemma grows_trans G1 G2 G3 : grows G1 G2 -> grows G2 G3 -> grows G1 G3.
Proof. intros [H1 N1] [H2 N2]. split; auto. Qed.

Lemma update_node_ids nodes n attrs : (update_node nodes n attrs).*1 = nodes.*1.
Proof.
  induction nodes as [|[m d] nodes IH]; [reflexivity|]. simpl update_node.
  destruct (decide (m = n)); rewrite !fmap_cons; [reflexivity|]. f_equal. exact IH.
Qed.

Lemma add_node_ids G n attrs :
  node_ids (add_node G n attrs) = if has_node G n then node_ids G else node_ids G ++ [n].
Proof.
  unfold add_node, node_ids. destruct (has_node G n); simpl.
  - apply update_node_ids.
  - rewrite fmap_app. reflexivity.
Qed.

Lemma add_node_grows G n attrs :
  grows G (add_node G n attrs) /\ n ∈ node_ids (add_node G n attrs).
Proof.
  rewrite add_node_ids. unfold grows, tidy, wf_graph. rewrite add_node_edges, add_node_ids.
  destruct (has_node G n) eqn:E.
  - apply has_node_true in E. auto.
  - split; [split|].
    + intros [Hwf Hnd]. split.
      * intros e He. destruct (Hwf e He). split; apply elem_of_app; auto.
      * apply NoDup_app. split; [exact Hnd|]. split; [|apply NoDup_singleton].
        intros x Hx Hx'. apply list_elem_of_singleton in Hx'. subst x.
        unfold has_node in E. apply bool_decide_eq_false_1 in E. contradiction.
    + intros x Hx. apply elem_of_app. auto.
    + apply elem_of_app. right. apply list_elem_of_here.
Qed.

Lemma add_edge_grows G u v data :
  grows G (add_edge G u v data) /\
  u ∈ node_ids (add_edge G u v data) /\ v ∈ node_ids (add_edge G u v data).
Proof.
  unfold add_edge.
  set (G1 := if has_node G u then G else add_node G u no_node_data).
  set (G2 := if has_node G1 v then G1 else add_node G1 v no_node_data).
  assert (H1 : grows G G1 /\ u ∈ node_ids G1).
  { subst G1. destruct (has_node G u) eqn:E; [|apply add_node_grows].
    split; [apply grows_refl|apply has_node_true, E]. }
  assert (H2 : grows G1 G2 /\ v ∈ node_ids G2).
  { subst G2. destruct (has_node G1 v) eqn:E; [|apply add_node_grows].
    split; [apply grows_refl|apply has_node_true, E]. }
  destruct H1 as [[T1 N1] Hu], H2 as [[T2 N2] Hv].
  unfold grows, tidy, wf_graph, node_ids in *. cbn [g_nodes g_edges].
  split; [split|auto].
  - intros HG. destruct (T2 (T1 HG)) as [Hwf Hnd]. split; [|exact Hnd].
    intros e [He|He%list_elem_of_singleton]%elem_of_app; [apply Hwf, He|].
    subst e. cbn. auto.
  - auto.
Qed.

Lemma set_pos_grows G node p : grows G (set_pos G node p).
Proof.
  unfold grows, tidy, wf_graph, set_pos, node_ids. cbn [g_nodes g_edges].
  rewrite update_node_ids. auto.
Qed.

Lemma stop_node_grows G stop kind :
  grows G (stop_node G stop kind) /\ stop ∈ node_ids (stop_node G stop kind).
Proof.
  unfold stop_node. destruct (has_node G stop) eqn:E; [|apply add_node_grows].
  split; [apply grows_refl|apply has_node_true, E].
Qed.

Lemma foldl_grows {A S : Type} (proj : S -> Graph) (step : S -> A -> S) (l : list A) :
  (forall s x, grows (proj s) (proj (step s x))) ->
  forall s, grows (proj s) (proj (foldl step s l)).
Proof.
  intros Hstep. induction l as [|x l IH]; intros s; [apply grows_refl|].
  simpl. eapply grows_trans; [apply Hstep | apply IH].
Qed.

(** A loop that adds nodes keeps the nodes it has added. *)
Lemma foldl_adds_nodes {A : Type} (step : Graph -> A -> Graph) (key : A -> string)
    (l : list A) :
  (forall G x, grows G (step G x) /\ key x ∈ node_ids (step G x)) ->
  forall G, grows G (foldl step G l) /\
            forall x, x ∈ l -> key x ∈ node_ids (foldl step G l).
Proof.
  intros Hstep. induction l as [|a l IH]; intros G.
  - split; [apply grows_refl|]. intros x Hx. inversion Hx.
  - simpl. destruct (Hstep G a) as [Hg Ha]. destruct (IH (step G a)) as [Hg' Hl].
    split; [eapply grows_trans; eassumption|].
    intros x [->|Hx]%elem_of_cons; [apply Hg', Ha|apply Hl, Hx].
Qed.

(** A graph with the set of its stops (or stations): the stops are
    nodes. *)
Definition stops_in (s : Graph * gset string) : Prop :=
  forall stop, stop ∈ s.2 -> stop ∈ node_ids s.1.

Lemma add_hop_grows (add_hop : Graph * gset string -> string * string -> Graph * gset string)
    kind (edge_data : string -> string -> EdgeData) :
  (forall G stops from_stop to_stop,
     add_hop (G, stops) (from_stop, to_stop) =
     (add_edge (stop_node (stop_node G from_stop kind) to_stop kind) from_stop to_stop
               (edge_data from_stop to_stop),
      {[from_stop]} ∪ ({[to_stop]} ∪ stops))) ->
  forall s hop, grows s.1 (add_hop s hop).1 /\ (stops_in s -> stops_in (add_hop s hop)).
Proof.
  intros Hdef [G stops] [from_stop to_stop]. rewrite Hdef. cbn [fst snd].
  destruct (stop_node_grows G from_stop kind) as [g1 _].
  destruct (stop_node_grows (stop_node G from_stop kind) to_stop kind) as [g2 _].
  destruct (add_edge_grows (stop_node (stop_node G from_stop kind) to_stop kind)
              from_stop to_stop (edge_data from_stop to_stop)) as (g3 & Hu & Hv).
  assert (Hg : grows G (add_edge (stop_node (stop_node G from_stop kind) to_stop kind)
                           from_stop to_stop (edge_data from_stop to_stop)))
    by (eapply grows_trans; [eapply grows_trans; eassumption|exact g3]).
  split; [exact Hg|].
  intros Hin stop. unfold stops_in in *. cbn [fst snd] in *.
  rewrite !elem_of_union, !elem_of_singleton.
  intros [->|[->|Hs]]; [exact Hu|exact Hv|]. apply Hg, Hin, Hs.
Qed.

Lemma foldl_stops {A : Type} (step : Graph * gset string -> A -> Graph * gset string)
    (l : list A) :
  (forall s x, grows s.1 (step s x).1 /\ (stops_in s -> stops_in (step s x))) ->
  forall s, grows s.1 (foldl step s l).1 /\ (stops_in s -> stops_in (foldl step s l)).
Proof.
  intros Hstep. induction l as [|x l IH]; intros s.
  - split; [apply grows_refl|auto].
  - simpl. destruct (Hstep s x) as [g1 h1]. destruct (IH (step s x)) as [g2 h2].
    split; [eapply grows_trans; eassumption|auto].
Qed.

Lemma bus_routes_grow roads routes s :
  grows s.1 (foldl (add_bus_route roads) s routes).1 /\
  (stops_in s -> stops_in (foldl (add_bus_route roads) s routes)).
Proof.
  revert s. apply foldl_stops. intros s route. unfold add_bus_route.
  revert s. apply foldl_stops. intros s hop.
  apply (add_hop_grows (add_bus_hop roads route) "bus_stop"
           (fun from_stop to_stop =>
              {| distance := Some (stop_distance roads from_stop to_stop 1500);
                 capacity := Some (bus_Daily_Passengers route / 24);
                 condition := Some 7; road_type := Some bus; cost := Some 0;
                 route_id := Some (RouteID route);
                 buses_assigned := Some (Buses_Assigned route);
                 line_id := None |})).
  reflexivity.
Qed.

Lemma metro_lines_grow roads lines s :
  grows s.1 (foldl (add_metro_line roads) s lines).1 /\
  (stops_in s -> stops_in (foldl (add_metro_line roads) s lines)).
Proof.
  revert s. apply foldl_stops. intros s line. unfold add_metro_line.
  revert s. apply foldl_stops. intros s hop.
  apply (add_hop_grows (add_metro_hop roads line) "metro_station"
           (fun from_station to_station =>
              {| distance := Some (stop_distance roads from_station to_station 2000);
                 capacity := Some (metro_Daily_Passengers line / 24);
                 condition := Some 8; road_type := Some metro; cost := Some 0;
                 route_id := None; buses_assigned := None;
                 line_id := Some (LineID line) |})).
  reflexivity.
Qed.

Lemma add_existing_road_grows b row : grows (graph b) (graph (add_existing_road b row)).
Proof.
  unfold add_existing_road. destruct (Qlt_le_dec _ _); [apply grows_refl|].
  apply add_edge_grows.
Qed.

Lemma add_potential_road_grows b row : grows (graph b) (graph (add_potential_road b row)).
Proof.
  unfold add_potential_road. destruct (Qlt_le_dec _ _); [apply grows_refl|].
  apply add_edge_grows.
Qed.

Lemma place_node_grows dc sp positions all_coords G node :
  grows G (place_node dc sp positions all_coords G node).
Proof.
  unfold place_node.
  destruct (bool_decide (node ∈ positions)); [apply grows_refl|].
  destruct (dict_get all_coords node); [apply set_pos_grows|].
  destruct (truthy _); [|apply set_pos_grows].
  destruct (default (0, 0) _) as [x y].
  eapply grows_trans; [apply set_pos_grows|apply add_edge_grows].
Qed.

Lemma connect_isolated_grows dc all_coords sp G node :
  grows G (connect_isolated dc sp all_coords G node).
Proof.
  unfold connect_isolated.
  destruct (default (0, 0) (node_pos G node)) as [x1 y1].
  destruct (nearest_by _ _ _) as [[nearest_node min_dist]|]; [|apply grows_refl].
  destruct (truthy _); [apply add_edge_grows|apply grows_refl].
Qed.

(** X18: the graph [create_graph] returns is well formed: the ends of
    every edge are nodes and no node is listed twice, every neighborhood
    and every facility of the tables is a node, and so is every bus stop
    and every metro station of the returned sets. *)
Theorem created_graph_is_tidy
    (distance_calc : Q -> Q -> Q -> Q -> Q)
    (shortest_path_weight : Graph -> string -> string -> option Q) (data : Data) :
  let created := create_graph distance_calc shortest_path_weight data in
  wf_graph (created_graph created) /\
  NoDup (node_ids (created_graph created)) /\
  (forall row, row ∈ neighborhoods data -> nb_ID row ∈ node_ids (created_graph created)) /\
  (forall row, row ∈ facilities data -> fc_ID row ∈ node_ids (created_graph created)) /\
  (forall stop, stop ∈ bus_stops created -> stop ∈ node_ids (created_graph created)) /\
  (forall station, station ∈ metro_stations created ->
     station ∈ node_ids (created_graph created)).
Proof.
  unfold create_graph, with_existing_roads.
  set (G0 := foldl (fun G row => add_node G (nb_ID row) (neighborhood_node row))
                   empty_graph (neighborhoods data)).
  set (G1 := foldl (fun G row => add_node G (fc_ID row) (facility_node row))
                   G0 (facilities data)).
  set (b2 := foldl add_existing_road {| graph := G1; warnings := [] |} (existing_roads data)).
  destruct (foldl_adds_nodes (fun G row => add_node G (nb_ID row) (neighborhood_node row))
              nb_ID (neighborhoods data) (fun G row => add_node_grows G _ _) empty_graph)
    as [g0 Hnb]. fold G0 in g0, Hnb.
  destruct (foldl_adds_nodes (fun G row => add_node G (fc_ID row) (facility_node row))
              fc_ID (facilities data) (fun G row => add_node_grows G _ _) G0)
    as [g1 Hfc]. fold G1 in g1, Hfc.
  pose proof (foldl_grows graph add_existing_road (existing_roads data)
                add_existing_road_grows {| graph := G1; warnings := [] |}) as g2.
  fold b2 in g2. cbn [graph] in g2.
  destruct (bus_routes_grow (existing_roads data) (bus_routes data) (graph b2, ∅))
    as [g3 h3].
  destruct (foldl (add_bus_route (existing_roads data)) (graph b2, ∅) (bus_routes data))
    as [G3 stops].
  destruct (metro_lines_grow (existing_roads data) (metro_lines data) (G3, ∅))
    as [g4 h4].
  destruct (foldl (add_metro_line (existing_roads data)) (G3, ∅) (metro_lines data))
    as [G4 stations].
  cbn [fst snd] in *.
  set (b5 := foldl add_potential_road {| graph := G4; warnings := warnings b2 |}
                   (potential_roads data)).
  pose proof (foldl_grows graph add_potential_road (potential_roads data)
                add_potential_road_grows {| graph := G4; warnings := warnings b2 |}) as g5.
  fold b5 in g5. cbn [graph] in g5.
  set (positions := (filter (fun nd => is_Some (pos nd.2)) (g_nodes (graph b5))).*1).
  set (G6 := foldl (place_node distance_calc shortest_path_weight positions
                               (all_coords_of data)) (graph b5) (node_ids (graph b5))).
  pose proof (foldl_grows id (place_node distance_calc shortest_path_weight positions
                                         (all_coords_of data)) (node_ids (graph b5))
                (place_node_grows _ _ _ _) (graph b5)) as g6.
  fold G6 in g6. unfold id in g6.
  set (G7 := foldl (connect_isolated distance_calc shortest_path_weight (all_coords_of data))
                   G6 (isolates G6)).
  pose proof (foldl_grows id (connect_isolated distance_calc shortest_path_weight
                                               (all_coords_of data)) (isolates G6)
                (connect_isolated_grows _ _ _) G6) as g7.
  fold G7 in g7. unfold id in g7.
  cbn zeta. cbn [created_graph bus_stops metro_stations].
  assert (t0 : tidy empty_graph).
  { split; [intros e He; inversion He|constructor]. }
  assert (g17 : grows G1 G7).
  { repeat (eapply grows_trans; [eassumption|]). apply grows_refl. }
  assert (g37 : grows G3 G7).
  { repeat (eapply grows_trans; [eassumption|]). apply grows_refl. }
  assert (g47 : grows G4 G7).
  { repeat (eapply grows_trans; [eassumption|]). apply grows_refl. }
  destruct (proj1 g17 (proj1 g1 (proj1 g0 t0))) as [Hwf Hnd].
  split; [exact Hwf|]. split; [exact Hnd|].
  split; [intros row Hrow; apply g17, g1, Hnb, Hrow|].
  split; [intros row Hrow; apply g17, Hfc, Hrow|].
  split.
  - intros stop Hs. apply g37. apply (h3 ltac:(intros x Hx; set_solver) stop Hs).
  - intros station Hs. apply g47. apply (h4 ltac:(intros x Hx; set_solver) station Hs).
Qed.

(** ** No negative length in the graph built by [create_graph] *)

Lemma add_edge_nonneg G u v data :
  nonneg_distances G -> 0 <= default 1000 (distance data) ->
  nonneg_distances (add_edge G u v data).
Proof.
  intros Hnn Hd e He. destruct (add_edge_edges G u v data) as [k E]. rewrite E in He.
  apply elem_of_app in He as [He|He%list_elem_of_singleton]; [apply Hnn, He|].
  subst e. exact Hd.
Qed.

Lemma same_edges_nonneg G G' :
  g_edges G' = g_edges G -> nonneg_distances G -> nonneg_distances G'.
Proof. intros E Hnn e He. rewrite E in He. apply Hnn, He. Qed.

Lemma foldl_nonneg {A S : Type} (proj : S -> Graph) (step : S -> A -> S) (l : list A) :
  (forall s x, x ∈ l -> nonneg_distances (proj s) -> nonneg_distances (proj (step s x))) ->
  forall s, nonneg_distances (proj s) -> nonneg_distances (proj (foldl step s l)).
Proof.
  induction l as [|x l IH]; intros Hstep s Hs; [exact Hs|].
  simpl. apply IH.
  - intros s' y Hy. apply Hstep, list_elem_of_further, Hy.
  - apply Hstep; [apply list_elem_of_here|exact Hs].
Qed.

Lemma sum_Q_nonneg (l : list Q) : (forall x, x ∈ l -> 0 <= x) -> 0 <= sum_Q l.
Proof.
  unfold sum_Q. intros Hl.
  assert (H : forall acc, 0 <= acc -> 0 <= foldl Qplus acc l).
  { induction l as [|x l IH]; intros acc Hacc; [exact Hacc|].
    simpl. apply IH.
    - intros y Hy. apply Hl, list_elem_of_further, Hy.
    - pose proof (Hl x (list_elem_of_here _ _)). lra. }
  apply H. lra.
Qed.

Lemma stop_distance_nonneg roads from_stop to_stop fallback :
  (forall row, row ∈ roads -> 0 <= Distance_km row) -> 0 <= fallback ->
  0 <= stop_distance roads from_stop to_stop fallback.
Proof.
  intros Hroads Hf. unfold stop_distance.
  destruct (List.find _ roads) as [row|] eqn:Hfind.
  - apply List.find_some in Hfind as [Hin _]. apply list_elem_of_In in Hin.
    pose proof (Hroads row Hin). lra.
  - destruct roads as [|r roads]; [exact Hf|].
    apply Qmult_le_0_compat; [|discriminate].
    apply Qdiv_nonneg.
    + apply sum_Q_nonneg. intros x (row & -> & Hrow)%list_elem_of_fmap. apply Hroads, Hrow.
    + change 0 with (inject_Z 0). rewrite <- Zlt_Qlt. simpl. lia.
Qed.

Lemma nearest_by_nonneg (dist : Q * Q -> Q) all_coords node nearest d :
  (forall p, 0 <= dist p) -> nearest_by dist all_coords node = Some (nearest, d) -> 0 <= d.
Proof.
  intros Hdist. unfold nearest_by.
  assert (H : forall best, (forall n x, best = Some (n, x) -> 0 <= x) ->
            forall n x,
              foldl (fun best '(other_node, p) =>
                       if decide (other_node = node) then best
                       else match best with
                            | None => Some (other_node, dist p)
                            | Some (_, min_dist) =>
                                if Qlt_le_dec (dist p) min_dist
                                then Some (other_node, dist p) else best
                            end) best all_coords = Some (n, x) -> 0 <= x).
  { induction all_coords as [|[other p] rest IH]; intros best Hbest n x; [apply Hbest|].
    simpl. apply IH. intros n' x' E.
    destruct (decide (other = node)); [eapply Hbest, E|].
    destruct best as [[b m]|].
    - destruct (Qlt_le_dec (dist p) m); [injection E as _ <-; apply Hdist|eapply Hbest, E].
    - injection E as _ <-. apply Hdist. }
  apply H. discriminate.
Qed.

(** X19: when no road of the tables has a negative length, coordinate
    distances are at least zero and path weights are at least zero, no
    edge of the graph [create_graph] returns has a negative length. *)
Theorem created_graph_lengths
    (distance_calc : Q -> Q -> Q -> Q -> Q)
    (shortest_path_weight : Graph -> string -> string -> option Q) (data : Data) :
  (forall x1 y1 x2 y2, 0 <= distance_calc x1 y1 x2 y2) ->
  (forall G u v w, shortest_path_weight G u v = Some w -> 0 <= w) ->
  (forall row, row ∈ existing_roads data -> 0 <= Distance_km row) ->
  (forall row, row ∈ potential_roads data -> 0 <= pr_Distance_km row) ->
  nonneg_distances
    (created_graph (create_graph distance_calc shortest_path_weight data)).
Proof.
  intros Hdc Hsp Hex Hpot. unfold create_graph, with_existing_roads.
  set (G1 := foldl (fun G row => add_node G (fc_ID row) (facility_node row)) _ _).
  assert (n1 : nonneg_distances G1).
  { subst G1. apply (foldl_nonneg id); [intros G row _; apply same_edges_nonneg, add_node_edges|].
    apply (foldl_nonneg id); [intros G row _; apply same_edges_nonneg, add_node_edges|].
    intros e He. inversion He. }
  set (b2 := foldl add_existing_road _ _).
  assert (n2 : nonneg_distances (graph b2)).
  { subst b2. apply (foldl_nonneg graph); [|exact n1].
    intros b row Hrow Hb. unfold add_existing_road.
    destruct (Qlt_le_dec _ _); [exact Hb|]. apply add_edge_nonneg; [exact Hb|].
    cbn. pose proof (Hex row Hrow). lra. }
  assert (Hhop : forall kind G from_stop to_stop data0,
            nonneg_distances G -> 0 <= default 1000 (distance data0) ->
            nonneg_distances
              (add_edge (stop_node (stop_node G from_stop kind) to_stop kind)
                        from_stop to_stop data0)).
  { intros kind G f t d0 HG Hd0. apply add_edge_nonneg; [|exact Hd0].
    apply (same_edges_nonneg G); [|exact HG]. rewrite !stop_node_edges. reflexivity. }
  assert (n3 : nonneg_distances
                 (foldl (add_bus_route (existing_roads data)) (graph b2, ∅)
                        (bus_routes data)).1).
  { apply (foldl_nonneg fst); [|exact n2]. intros s route _. unfold add_bus_route.
    apply (foldl_nonneg fst). intros [G stops] [f t] _ HG. apply Hhop; [exact HG|].
    cbn. apply stop_distance_nonneg; [exact Hex|discriminate]. }
  destruct (foldl (add_bus_route (existing_roads data)) (graph b2, ∅) (bus_routes data))
    as [G3 stops]. cbn [fst] in n3.
  assert (n4 : nonneg_distances
                 (foldl (add_metro_line (existing_roads data)) (G3, ∅)
                        (metro_lines data)).1).
  { apply (foldl_nonneg fst); [|exact n3]. intros s line _. unfold add_metro_line.
    apply (foldl_nonneg fst). intros [G stations] [f t] _ HG. apply Hhop; [exact HG|].
    cbn. apply stop_distance_nonneg; [exact Hex|discriminate]. }
  destruct (foldl (add_metro_line (existing_roads data)) (G3, ∅) (metro_lines data))
    as [G4 stations]. cbn [fst] in n4.
  set (b5 := foldl add_potential_road _ _).
  assert (n5 : nonneg_distances (graph b5)).
  { subst b5. apply (foldl_nonneg graph); [|exact n4].
    intros b row Hrow Hb. unfold add_potential_road.
    destruct (Qlt_le_dec _ _); [exact Hb|]. apply add_edge_nonneg; [exact Hb|].
    cbn. pose proof (Hpot row Hrow). lra. }
  cbn zeta. cbn [created_graph].
  apply (foldl_nonneg id).
  { intros G node _ HG. unfold id, connect_isolated.
    destruct (default (0, 0) (node_pos G node)) as [x1 y1].
    destruct (nearest_by _ _ _) as [[nearest_node min_dist]|] eqn:Hn; [|exact HG].
    destruct (truthy _); [|exact HG].
    apply add_edge_nonneg; [exact HG|]. cbn.
    destruct (shortest_path_weight G node nearest_node) as [w|] eqn:Hw; cbn.
    - eapply Hsp, Hw.
    - eapply nearest_by_nonneg; [|exact Hn]. intros p. apply Hdc. }
  apply (foldl_nonneg id); [|exact n5].
  intros G node _ HG. unfold id, place_node.
  destruct (bool_decide _); [exact HG|].
  destruct (dict_get _ node); [apply (same_edges_nonneg G); [reflexivity|exact HG]|].
  destruct (truthy _); [|apply (same_edges_nonneg G); [reflexivity|exact HG]].
  destruct (default (0, 0) _) as [x y].
  apply add_edge_nonneg; [apply (same_edges_nonneg G); [reflexivity|exact HG]|].
  cbn. destruct (shortest_path_weight _ _ _) as [w|] eqn:Hw; cbn; [eapply Hsp, Hw|discriminate].
Qed.

Lemma created_graph_lengths_witness :
  nonneg_distances
    (created_graph (create_graph (fun _ _ _ _ => 0) (fun _ _ _ => None) cap_example)).
Proof.
  apply created_graph_lengths.
  - intros. apply Qle_refl.
  - intros G u v w H. discriminate H.
  - intros row Hrow. repeat (apply elem_of_cons in Hrow as [->|Hrow]); try discriminate.
    inversion Hrow.
  - intros row Hrow. inversion Hrow.
Defined.

(** ** The route found by [dijkstra_with_traffic] *)

(** The nodes expanded before [n], when [X] lists the expanded nodes
    latest first. *)
Fixpoint after (X : list string) (n : string) : list string :=
  match X with
  | [] => []
  | x :: X' => if decide (x = n) then X' else after X' n
  end.

(** The number of nodes expanded before [n]; a node that is not expanded
    comes after all of them. *)
Definition age (X : list string) (n : string) : nat :=
  if decide (n ∈ X) then length (after X n) else length X.

Lemma after_length (X : list string) (n : string) :
  n ∈ X -> (length (after X n) < length X)%nat.
Proof.
  induction X as [|x X IH]; intros Hn; [inversion Hn|]. simpl.
  destruct (decide (x = n)) as [->|Hne]; [lia|].
  apply elem_of_cons in Hn as [->|Hn]; [congruence|]. specialize (IH Hn). lia.
Qed.

Lemma age_in (X : list string) (n : string) : n ∈ X -> (age X n < length X)%nat.
Proof. intros Hn. unfold age. rewrite decide_True by exact Hn. apply after_length, Hn. Qed.

Lemma age_head (X : list string) (x : string) : age (x :: X) x = length X.
Proof.
  unfold age. rewrite decide_True by apply list_elem_of_here.
  simpl. rewrite decide_True by reflexivity. reflexivity.
Qed.

Lemma age_cons_in (X : list string) (x n : string) :
  n ∈ X -> x ∉ X -> age (x :: X) n = age X n.
Proof.
  intros Hn Hx. unfold age.
  rewrite decide_True by (apply list_elem_of_further, Hn). rewrite decide_True by exact Hn.
  simpl. rewrite decide_False by (intros ->; contradiction). reflexivity.
Qed.

Lemma age_out (X : list string) (n : string) : n ∉ X -> age X n = length X.
Proof. intros Hn. unfold age. rewrite decide_False by exact Hn. reflexivity. Qed.

Lemma age_cons_lt (X : list string) (x p v : string) :
  x ∉ X -> p ∈ X -> (age X p < age X v)%nat -> (age (x :: X) p < age (x :: X) v)%nat.
Proof.
  intros Hx Hp Hlt. rewrite (age_cons_in X x p Hp Hx).
  destruct (decide (v = x)) as [->|Hvx].
  - rewrite age_head. apply age_in, Hp.
  - destruct (decide (v ∈ X)) as [Hv|Hv].
    + rewrite (age_cons_in X x v Hv Hx). exact Hlt.
    + rewrite (age_out (x :: X) v) by (intros [?|?]%elem_of_cons; [congruence|contradiction]).
      pose proof (age_in X p Hp). simpl. lia.
Qed.

(** Between two nodes a key names one edge. *)
Definition unique_keys (G : Graph) : Prop :=
  forall u v k d d',
    (k, d) ∈ edges_between G u v -> (k, d') ∈ edges_between G u v -> d = d'.

Lemma edges_between_sym G u v : edges_between G u v = edges_between G v u.
Proof.
  unfold edges_between. f_equal. apply list_filter_iff. intros e.
  rewrite joins_sym. reflexivity.
Qed.

(** The traffic table gives both directions of a road the same flow. *)
Definition symmetric_flows (traffic_data : TrafficData)
    (time_period emergency_time_period : option string) : Prop :=
  forall u v c,
    traffic_flow_of traffic_data time_period emergency_time_period u v c =
    traffic_flow_of traffic_data time_period emergency_time_period v u c.

Lemma get_edge_weight_sym G traffic_data u v key tp etp d m :
  u ∈ node_ids G -> v ∈ node_ids G -> symmetric_flows traffic_data tp etp ->
  get_edge_weight G traffic_data u v key tp etp d m =
  get_edge_weight G traffic_data v u key tp etp d m.
Proof.
  intros Hu Hv Hsym. unfold get_edge_weight, edge_data, has_node.
  rewrite !bool_decide_eq_true_2 by assumption.
  rewrite (edges_between_sym G u v).
  destruct (edges_between G v u) as [|kd kds]; [reflexivity|].
  destruct (List.find _ (kd :: kds)) as [[k' d']|]; [|reflexivity].
  simpl. rewrite (Hsym u v). reflexivity.
Qed.

Section DijkstraRoute.
Variable G : Graph.
Variable traffic_data : TrafficData.
Variables start end_ : string.
Variables time_period emergency_time_period : option string.
Variable transport_mode : Mode.
Hypothesis Hwf : wf_graph G.
Hypothesis Hnn : nonneg_distances G.
Hypothesis Hstart : start ∈ node_ids G.

Local Abbreviation weight_of :=
  (edge_weight G traffic_data time_period emergency_time_period transport_mode).
Local Abbreviation relax_edge :=
  (relax G traffic_data time_period emergency_time_period transport_mode).
Local Abbreviation SInv :=
  (Inv G traffic_data start time_period emergency_time_period transport_mode).

(** What the search keeps about [previous] and [edge_keys]: the start
    has no predecessor, every other node with a distance has one, and a
    predecessor is an expanded node, expanded before its successor, joined
    to it by the recorded edge, which the mode may use; the distance of the
    successor is that of the predecessor plus the weight of that edge. *)
Record Route (X : list string) (st : DState) : Prop := {
  r_nodup : NoDup X;
  r_nodes : forall x, x ∈ X -> x ∈ node_ids G;
  r_start_dist : distances st !! start = Some (Fin 0);
  r_start_prev : previous st !! start = Some None;
  r_nonneg : forall n q, distances st !! n = Some (Fin q) -> 0 <= q;
  r_prev : forall v p, previous st !! v = Some (Some p) ->
    p ∈ X /\ (age X p < age X v)%nat /\ v ∈ node_ids G /\
    allowed_step G transport_mode p v /\
    exists ek k d qp w,
      edge_keys st !! v = Some ek /\ ek !! p = Some k /\
      (k, d) ∈ edges_between G p v /\ weight_of p v k d = Ok (Fin w) /\
      distances st !! p = Some (Fin qp) /\ distances st !! v = Some (Fin (qp + w));
  r_fin : forall v q, distances st !! v = Some (Fin q) ->
    v = start \/ exists p, previous st !! v = Some (Some p)
}.

(** A node with a distance is expanded or waits in the queue with that
    distance. *)
Definition Queued (X : list string) (st : DState) : Prop :=
  forall v q, distances st !! v = Some (Fin q) -> v ∈ X \/ (Fin q, v) ∈ pq st.

Lemma Route_cons X st x :
  x ∉ X -> x ∈ node_ids G -> Route X st -> Route (x :: X) st.
Proof.
  intros Hx Hxn [Hd Hs H1 H2 H3 H4 H5]. constructor; try assumption.
  { apply NoDup_cons. auto. }
  { intros y [->|Hy]%elem_of_cons; auto. }
  intros v p Hp. destruct (H4 v p Hp) as (HpX & Hage & Hrest).
  split; [apply list_elem_of_further, HpX|]. split; [|exact Hrest].
  apply age_cons_lt; assumption.
Qed.

Lemma Queued_cons X st x : Queued X st -> Queued (x :: X) st.
Proof.
  intros HQ v q Hv. destruct (HQ v q Hv) as [H|H]; [left; apply list_elem_of_further, H|auto].
Qed.

(** Relaxing an edge out of the node [x] under expansion. *)
Lemma relax_route X L st x v k d q :
  SInv X L st -> x ∉ X -> x ∈ node_ids G -> reachable G transport_mode start x ->
  distances st !! x = Some (Fin q) -> L <= q ->
  (k, d) ∈ edges_between G x v ->
  Route (x :: X) st -> Queued (x :: X) st ->
  exists st',
    relax_edge x v (k, d) st = Ok st' /\
    SInv X L st' /\ distances st' !! x = Some (Fin q) /\
    Route (x :: X) st' /\ Queued (x :: X) st'.
Proof using Hwf Hnn.
  intros HI HxX Hx Hrx Hdx HLq Hkd HR HQ.
  destruct (relax_ok G traffic_data start time_period emergency_time_period transport_mode
              Hwf Hnn X L st x v k d q HI Hx Hrx Hdx HLq Hkd)
    as (st1 & Hr & HI1 & Hdx1 & _ & _).
  exists st1. split; [exact Hr|]. split; [exact HI1|]. split; [exact Hdx1|].
  assert (Hv : v ∈ node_ids G).
  { apply elem_of_edges_between in Hkd as (e & He & Hj & _). eapply joins_in_nodes; eauto. }
  destruct (edge_weight_cases G traffic_data time_period emergency_time_period
              transport_mode Hnn x v k d Hx Hkd) as [Hw|(w & Hw & Hw0 & Hstep)].
  { rewrite (relax_Inf _ _ _ _ _ st x v k d Hw) in Hr. injection Hr as <-. auto. }
  destruct (inv_dist _ _ _ _ _ _ _ _ _ HI v Hv) as [dv Hdv].
  destruct (inv_keys _ _ _ _ _ _ _ _ _ HI v Hv) as [ek Hek].
  rewrite (relax_Fin _ _ _ _ _ st x v k d w (Fin q) dv ek Hw Hdx Hdv Hek) in Hr.
  cbn [ext_add] in Hr.
  destruct (ext_ltb (Fin (q + w)) dv) eqn:Elt; injection Hr as <-; [|auto].
  pose proof (r_nonneg _ _ HR x q Hdx) as Hq0.
  assert (Hlow : forall q0, dv = Fin q0 -> q + w < q0).
  { intros q0 ->. apply ext_ltb_Fin in Elt. exact Elt. }
  assert (Hvs : v <> start).
  { intros ->. rewrite (r_start_dist _ _ HR) in Hdv. injection Hdv as <-.
    specialize (Hlow 0 eq_refl). lra. }
  assert (Hvx : v <> x).
  { intros ->. rewrite Hdx in Hdv. injection Hdv as <-. specialize (Hlow q eq_refl). lra. }
  assert (HvX : v ∉ X).
  { intros HvX. destruct (inv_X _ _ _ _ _ _ _ _ _ HI v HvX) as (_ & qy & Hqy & HqL & _).
    rewrite Hqy in Hdv. injection Hdv as <-. specialize (Hlow qy eq_refl). lra. }
  split.
  - destruct HR as [Hd Hs H1 H2 H3 H4 H5].
    constructor; cbn [distances previous edge_keys]; try assumption.
    + rewrite lookup_insert_ne by exact Hvs. exact H1.
    + rewrite lookup_insert_ne by exact Hvs. exact H2.
    + intros n q0. destruct (decide (v = n)) as [->|Hne].
      * rewrite lookup_insert_eq. intros E. injection E as <-. lra.
      * rewrite lookup_insert_ne by exact Hne. apply H3.
    + intros u p. destruct (decide (v = u)) as [->|Hne].
      * rewrite lookup_insert_eq. intros E. injection E as <-.
        split; [apply list_elem_of_here|].
        split.
        { rewrite age_head, (age_out (x :: X) u) by (intros [?|?]%elem_of_cons; [congruence|contradiction]).
          simpl. lia. }
        split; [exact Hv|]. split; [exact Hstep|].
        exists (<[x := k]> ek), k, d, q, w. rewrite !lookup_insert_eq.
        rewrite lookup_insert_ne by exact Hvx. auto 10.
      * rewrite !lookup_insert_ne by exact Hne. intros Hp.
        destruct (H4 u p Hp) as (HpX & Hage & Hun & Hst & ek0 & k0 & d0 & qp & w0 & Hrest).
        split; [exact HpX|]. split; [exact Hage|]. split; [exact Hun|].
        split; [exact Hst|]. exists ek0, k0, d0, qp, w0.
        assert (Hpv : v <> p).
        { intros ->. apply elem_of_cons in HpX as [->|HpX]; contradiction. }
        rewrite !lookup_insert_ne by assumption. exact Hrest.
    + intros n q0. destruct (decide (v = n)) as [->|Hne].
      * intros _. right. exists x. apply lookup_insert_eq.
      * rewrite !lookup_insert_ne by exact Hne. apply H5.
  - intros n q0. cbn [distances pq]. unfold heappush.
    destruct (decide (v = n)) as [->|Hne].
    + rewrite lookup_insert_eq. intros E. injection E as <-.
      right. apply list_elem_of_here.
    + rewrite lookup_insert_ne by exact Hne. intros E.
      destruct (HQ n q0 E) as [H|H]; [auto|]. right. apply list_elem_of_further, H.
Qed.

Lemma relax_edges_route X L x v q kds : forall st,
  SInv X L st -> x ∉ X -> x ∈ node_ids G -> reachable G transport_mode start x ->
  distances st !! x = Some (Fin q) -> L <= q ->
  (forall kd, kd ∈ kds -> kd ∈ edges_between G x v) ->
  Route (x :: X) st -> Queued (x :: X) st ->
  exists st',
    foldM (relax_edge x v) kds st = Ok st' /\
    SInv X L st' /\ distances st' !! x = Some (Fin q) /\
    Route (x :: X) st' /\ Queued (x :: X) st'.
Proof using Hwf Hnn.
  induction kds as [|[k d] kds IH]; intros st HI HxX Hx Hrx Hdx HLq Hsub HR HQ.
  - exists st. auto.
  - destruct (relax_route X L st x v k d q HI HxX Hx Hrx Hdx HLq)
      as (st1 & Hr & HI1 & Hdx1 & HR1 & HQ1); [apply Hsub, list_elem_of_here|exact HR|exact HQ|].
    destruct (IH st1 HI1 HxX Hx Hrx Hdx1 HLq) as (st' & Hf & H');
      [intros kd Hkd; apply Hsub, list_elem_of_further, Hkd|exact HR1|exact HQ1|].
    exists st'. rewrite foldM_cons, Hr, bind_Ok. auto.
Qed.

Lemma expand_items_route X L x q vs : forall st,
  SInv X L st -> x ∉ X -> x ∈ node_ids G -> reachable G transport_mode start x ->
  distances st !! x = Some (Fin q) -> L <= q ->
  Route (x :: X) st -> Queued (x :: X) st ->
  exists st',
    foldM (fun '(neighbor, edges) st => foldM (relax_edge x neighbor) edges st)
          ((fun v => (v, edges_between G x v)) <$> vs) st = Ok st' /\
    Route (x :: X) st' /\ Queued (x :: X) st'.
Proof using Hwf Hnn.
  induction vs as [|v vs IH]; intros st HI HxX Hx Hrx Hdx HLq HR HQ.
  - exists st. auto.
  - destruct (relax_edges_route X L x v q (edges_between G x v) st HI HxX Hx Hrx Hdx HLq)
      as (st1 & Hr & HI1 & Hdx1 & HR1 & HQ1); [auto|exact HR|exact HQ|].
    destruct (IH st1 HI1 HxX Hx Hrx Hdx1 HLq HR1 HQ1) as (st' & Hf & H').
    exists st'. rewrite fmap_cons, foldM_cons, Hr, bind_Ok. auto.
Qed.

(** Expanding a node for the first time. *)
Lemma expand_route X st x q :
  SInv X q st -> x ∉ X -> x ∈ node_ids G -> reachable G transport_mode start x ->
  distances st !! x = Some (Fin q) ->
  Route X st -> Queued (x :: X) st ->
  exists st',
    expand G traffic_data time_period emergency_time_period transport_mode x st = Ok st' /\
    SInv (x :: X) q st' /\ Route (x :: X) st' /\ Queued (x :: X) st'.
Proof using Hwf Hnn.
  intros HI HxX Hx Hrx Hdx HR HQ.
  destruct (expand_ok G traffic_data start time_period emergency_time_period transport_mode
              Hwf Hnn X st x q HI Hx Hrx Hdx) as (st1 & He & HI1).
  exists st1. split; [exact He|]. split; [exact HI1|].
  unfold expand, adj_items, has_node in He.
  rewrite bool_decide_eq_true_2 in He by exact Hx. simpl in He.
  destruct (expand_items_route X q x q (neighbors G x) st HI HxX Hx Hrx Hdx)
    as (st' & Hf & H'); [lra|apply Route_cons; assumption|exact HQ|].
  rewrite Hf in He. injection He as <-. exact H'.
Qed.

(** The state in which the search loop stops: the destination has been
    popped, with a key below which no node waits, or the queue is empty and
    every node with a distance is expanded. *)
Definition Stopped (st : DState) : Prop :=
  exists X L,
    SInv X L st /\ Route X st /\
    ((exists q K, distances st !! end_ = Some (Fin q) /\ q <= K /\
        forall v qv, distances st !! v = Some (Fin qv) -> v ∈ X \/ K <= qv) \/
     (forall v q, distances st !! v = Some (Fin q) -> v ∈ X)).

Lemma search_route : forall fuel X L st st',
  SInv X L st -> Route X st -> Queued X st ->
  search G traffic_data end_ time_period emergency_time_period transport_mode fuel st
    = Ok st' ->
  Stopped st'.
Proof using Hwf Hnn.
  induction fuel as [|fuel IH]; intros X L st st' HI HR HQ Hs; [discriminate|].
  rewrite search_step in Hs.
  destruct (heappop (pq st)) as [[[d n] pq']|] eqn:Hpop.
  - destruct (pop_inv G traffic_data start time_period emergency_time_period transport_mode
                X L st d n pq' HI Hpop)
      as (k & q' & -> & HLk & Hq' & Hle & Hn & Hr & HI0 & Hmin).
    destruct (heappop_spec _ _ _ Hpop) as (Hiff & _ & _).
    assert (HR0 : Route X (popped st pq')).
    { destruct HR as [Hd Hsb H1 H2 H3 H4 H5]. constructor; assumption. }
    destruct (decide (n = end_)) as [Heq|Hne].
    { injection Hs as <-. exists X, L. split; [exact HI0|]. split; [exact HR0|].
      left. exists q', k. subst n. split; [exact Hq'|]. split; [exact Hle|].
      intros v qv Hv. cbn [popped distances] in Hv.
      destruct (HQ v qv Hv) as [H|H]; [auto|]. right.
      apply Hiff in H as [H|H].
      - injection H as -> _. lra.
      - destruct (Hmin _ _ H) as (q0 & E & Hq0). injection E as ->. exact Hq0. }
    rewrite (subscript_Some _ _ _ Hq'), bind_Ok in Hs.
    destruct (ext_ltb (Fin q') (Fin k)) eqn:Elt.
    { apply (IH X L (popped st pq') st' HI0 HR0); [|exact Hs].
      intros v q Hv. cbn [popped distances] in Hv.
      destruct (HQ v q Hv) as [H|H]; [auto|]. right. cbn [popped pq].
      apply Hiff in H as [H|H]; [|exact H].
      injection H as Hqk ->. rewrite Hq' in Hv. injection Hv as <-.
      apply ext_ltb_Fin in Elt. subst k. lra. }
    apply ext_ltb_Fin_false in Elt.
    assert (HQ0 : n ∈ X -> Queued X (popped st pq')).
    { intros HnX v q Hv. cbn [popped distances] in Hv.
      destruct (HQ v q Hv) as [H|H]; [auto|]. cbn [popped pq].
      apply Hiff in H as [H|H]; [|auto].
      injection H as _ ->. auto. }
    destruct (decide (n ∈ X)) as [HnX|HnX].
    { destruct (inv_X _ _ _ _ _ _ _ _ _ HI0 n HnX) as (_ & qn & Hqn & _ & Hcl).
      rewrite (expand_closed G traffic_data time_period emergency_time_period
                 transport_mode Hnn (popped st pq') n qn Hn Hqn Hcl), bind_Ok in Hs.
      apply (IH X L (popped st pq') st' HI0 HR0 (HQ0 HnX) Hs). }
    assert (HIq : SInv X q' (popped st pq')).
    { apply (inv_raise G traffic_data start time_period emergency_time_period
               transport_mode X L); [exact HI0 | lra |].
      intros d' n' Hin. destruct (Hmin d' n' Hin) as (q & -> & Hq).
      exists q. split; [reflexivity | lra]. }
    assert (HQ1 : Queued (n :: X) (popped st pq')).
    { intros v q Hv. cbn [popped distances] in Hv.
      destruct (HQ v q Hv) as [H|H]; [left; apply list_elem_of_further, H|].
      cbn [popped pq]. apply Hiff in H as [H|H]; [|auto].
      injection H as _ ->. left. apply list_elem_of_here. }
    destruct (expand_route X (popped st pq') n q' HIq HnX Hn Hr Hq' HR0 HQ1)
      as (st1 & He & HI1 & HR' & HQ').
    rewrite He, bind_Ok in Hs.
    apply (IH (n :: X) q' st1 st' HI1 HR' HQ' Hs).
  - injection Hs as <-. exists X, L. split; [exact HI|]. split; [exact HR|].
    right. intros v q Hv. destruct (HQ v q Hv) as [H|H]; [exact H|].
    apply heappop_None in Hpop. rewrite Hpop in H. inversion H.
Qed.

Lemma initial_route : Route [] (initial_state G start).
Proof using Hstart.
  constructor; cbn [initial_state distances previous edge_keys].
  - apply NoDup_nil_2.
  - intros x Hx. inversion Hx.
  - apply lookup_insert_eq.
  - rewrite dict_of_nodes_lookup, bool_decide_eq_true_2 by exact Hstart. reflexivity.
  - intros n q. destruct (decide (start = n)) as [->|Hne].
    + rewrite lookup_insert_eq. intros E. injection E as <-. lra.
    + rewrite lookup_insert_ne by exact Hne. rewrite dict_of_nodes_lookup.
      destruct (bool_decide (n ∈ node_ids G)); discriminate.
  - intros v p. rewrite dict_of_nodes_lookup.
    destruct (bool_decide (v ∈ node_ids G)); discriminate.
  - intros v q. destruct (decide (start = v)) as [->|Hne]; [auto|].
    rewrite lookup_insert_ne by exact Hne. rewrite dict_of_nodes_lookup.
    destruct (bool_decide (v ∈ node_ids G)); discriminate.
Qed.

Lemma initial_queued : Queued [] (initial_state G start).
Proof.
  intros v q. cbn [initial_state distances pq].
  destruct (decide (start = v)) as [->|Hne].
  - rewrite lookup_insert_eq. intros E. injection E as <-. right. apply list_elem_of_here.
  - rewrite lookup_insert_ne by exact Hne. rewrite dict_of_nodes_lookup.
    destruct (bool_decide (v ∈ node_ids G)); discriminate.
Qed.

Lemma age_bound X st v : Route X st -> (age X v <= length (node_ids G))%nat.
Proof.
  intros HR. assert (Hlen : (length X <= length (node_ids G))%nat).
  { apply submseteq_length, NoDup_submseteq; [apply (r_nodup _ _ HR)|].
    apply (r_nodes _ _ HR). }
  destruct (decide (v ∈ X)) as [Hv|Hv].
  - pose proof (age_in X v Hv). lia.
  - rewrite age_out by exact Hv. exact Hlen.
Qed.

(** The walk from a node with a predecessor back to the start. *)
Lemma walk_back_route X L st :
  SInv X L st -> Route X st -> EmptyString ∉ node_ids G ->
  forall a v, (age X v <= a)%nat -> v ∈ node_ids G ->
    (v = start \/ exists p, previous st !! v = Some (Some p)) ->
    forall fuel path0 d t, (a + 2 <= fuel)%nat ->
      exists chain d' t',
        walk_back G traffic_data time_period emergency_time_period transport_mode
                  fuel st (Some v) path0 d t = Ok (path0 ++ chain, d', t') /\
        head chain = Some v /\ last chain = Some start /\
        (forall x y, (x, y) ∈ consecutive chain -> allowed_step G transport_mode y x) /\
        NoDup chain /\ (forall x, x ∈ chain -> (age X x <= age X v)%nat) /\
        (unique_keys G ->
         symmetric_flows traffic_data time_period emergency_time_period ->
         forall t0, t = Fin t0 ->
           exists qv t1,
             distances st !! v = Some (Fin qv) /\ t' = Fin t1 /\ t1 == t0 + qv).
Proof using Hstart.
  intros HI HR Hempty.
  assert (Htruthy : forall n, n ∈ node_ids G -> truthy (Some n) = true).
  { intros n Hn. apply truthy_Some. intros ->. contradiction. }
  induction a as [|a IH]; intros v Hage Hv Hcase fuel path0 d t Hfuel.
  - destruct (decide (v = start)) as [->|Hvs].
    + destruct fuel as [|[|fuel]]; try lia.
      rewrite walk_back_step, (Htruthy _ Hstart). cbn [default from_option id].
      rewrite (subscript_Some _ _ _ (r_start_prev _ _ HR)), bind_Ok. cbn [truthy].
      rewrite walk_back_step. cbn [truthy].
      exists [start], d, t. split; [reflexivity|]. split; [reflexivity|].
      split; [reflexivity|]. split; [intros x y H; inversion H|].
      split; [apply NoDup_singleton|].
      split; [intros x Hx; apply list_elem_of_singleton in Hx; subst x; lia|].
      intros _ _ t0 ->. exists 0, t0. split; [apply (r_start_dist _ _ HR)|].
      split; [reflexivity | lra].
    + destruct Hcase as [?|[p Hp]]; [contradiction|].
      destruct (r_prev _ _ HR v p Hp) as (_ & Hlt & _). lia.
  - destruct (decide (v = start)) as [->|Hvs].
    + destruct fuel as [|[|fuel]]; try lia.
      rewrite walk_back_step, (Htruthy _ Hstart). cbn [default from_option id].
      rewrite (subscript_Some _ _ _ (r_start_prev _ _ HR)), bind_Ok. cbn [truthy].
      rewrite walk_back_step. cbn [truthy].
      exists [start], d, t. split; [reflexivity|]. split; [reflexivity|].
      split; [reflexivity|]. split; [intros x y H; inversion H|].
      split; [apply NoDup_singleton|].
      split; [intros x Hx; apply list_elem_of_singleton in Hx; subst x; lia|].
      intros _ _ t0 ->. exists 0, t0. split; [apply (r_start_dist _ _ HR)|].
      split; [reflexivity | lra].
    + destruct Hcase as [?|[p Hp]]; [contradiction|].
      destruct (r_prev _ _ HR v p Hp)
        as (HpX & Hlt & _ & Hstep & ek & k & d0 & qp0 & w0 & Hek & Hk & Hkd & Hw0 & Hdp & Hdv).
      pose proof (r_nodes _ _ HR p HpX) as Hpn.
      destruct (inv_X _ _ _ _ _ _ _ _ _ HI p HpX) as (_ & qp & Hqp & _).
      pose proof (r_fin _ _ HR p qp Hqp) as Hcp.
      destruct fuel as [|fuel]; [lia|].
      rewrite (edges_between_sym G p v) in Hkd.
      destruct (edge_data_listed G v p k d0 Hv Hkd) as (d1 & Hd1 & Hkd1).
      assert (Hw : exists w, get_edge_weight G traffic_data v p k time_period
                               emergency_time_period (default 1000 (distance d1))
                               transport_mode = Ok w).
      { destruct (allowed transport_mode (road_type d1)) eqn:Ha.
        - eexists. apply (get_edge_weight_allowed _ _ _ _ _ _ _ _ _ _ Hd1 Ha).
        - eexists. apply (get_edge_weight_forbidden _ _ _ _ _ _ _ _ _ _ Hd1 Ha). }
      destruct Hw as [w Hw].
      destruct (IH p ltac:(lia) Hpn Hcp fuel (path0 ++ [v])
                  (d + default 1000 (distance d1)) (ext_add t w) ltac:(lia))
        as (chain & d' & t' & Hwalk & Hhead & Hlast & Hsteps & Hnd & Hages & Htime).
      rewrite walk_back_step, (Htruthy _ Hv). cbn [default from_option id].
      rewrite (subscript_Some _ _ _ Hp), bind_Ok, (Htruthy _ Hpn).
      cbn [default from_option id].
      rewrite (subscript_Some _ _ _ Hek), bind_Ok, (subscript_Some _ _ _ Hk), bind_Ok.
      rewrite Hd1, bind_Ok, Hw, bind_Ok, Hwalk.
      exists (v :: chain), d', t'. rewrite <- app_assoc. split; [reflexivity|].
      split; [reflexivity|].
      destruct chain as [|c chain]; [discriminate|]. injection Hhead as ->.
      split; [exact Hlast|]. split.
      { intros x y. change (consecutive (v :: p :: chain))
          with ((v, p) :: consecutive (p :: chain)).
        intros [E|H]%elem_of_cons; [|apply Hsteps, H].
        injection E as -> ->. exact Hstep. }
      split.
      { apply NoDup_cons. split; [|exact Hnd].
        intros Hin. specialize (Hages v Hin). lia. }
      split.
      { intros x [->|Hx]%elem_of_cons; [lia|]. specialize (Hages x Hx). lia. }
      intros Hu Hsym t0 ->.
      pose proof (Hu v p k d0 d1 Hkd Hkd1) as <-.
      rewrite (get_edge_weight_sym G traffic_data v p k time_period emergency_time_period
                 (default 1000 (distance d0)) transport_mode Hv Hpn Hsym) in Hw.
      unfold edge_weight in Hw0. rewrite Hw0 in Hw. injection Hw as <-.
      destruct (Htime Hu Hsym (t0 + w0) eq_refl) as (qp1 & t1 & Hqp1 & -> & Ht1).
      rewrite Hdp in Hqp1. injection Hqp1 as <-.
      exists (qp0 + w0), t1. split; [exact Hdv|]. split; [reflexivity | lra].
Qed.

(** The time of a walk from [u]: the sum of the weights the search gives
    its edges in the direction of travel. *)
Inductive walk_time (u : string) : string -> Q -> Prop :=
  | walk_stay : walk_time u u 0
  | walk_step y z W k d w :
      walk_time u y W -> (k, d) ∈ edges_between G y z ->
      weight_of y z k d = Ok (Fin w) -> walk_time u z (W + w).

Lemma weight_nonneg y z k d w :
  (k, d) ∈ edges_between G y z -> weight_of y z k d = Ok (Fin w) ->
  y ∈ node_ids G /\ 0 <= w.
Proof using Hwf Hnn.
  intros Hkd Hw.
  assert (Hy : y ∈ node_ids G).
  { apply elem_of_edges_between in Hkd as (e & He & Hj & _).
    rewrite joins_sym in Hj. eapply joins_in_nodes; eauto. }
  split; [exact Hy|].
  destruct (edge_weight_cases G traffic_data time_period emergency_time_period
              transport_mode Hnn y z k d Hy Hkd) as [Hinf|(w' & Hw' & Hpos & _)].
  - rewrite Hinf in Hw. discriminate.
  - rewrite Hw' in Hw. injection Hw as <-. exact Hpos.
Qed.

Lemma walk_time_nonneg u z W : walk_time u z W -> 0 <= W.
Proof using Hwf Hnn.
  induction 1 as [|y z W k d w _ IH Hkd Hw]; [lra|].
  destruct (weight_nonneg y z k d w Hkd Hw) as [_ Hw0]. lra.
Qed.

(** No walk is faster than the distances of the expanded nodes, up to the
    key [K] below which no node waits. *)
Lemma walk_bound X L st K :
  SInv X L st -> Route X st ->
  (forall v qv, distances st !! v = Some (Fin qv) -> v ∈ X \/ K <= qv) ->
  forall z W, walk_time start z W ->
    (exists qz, distances st !! z = Some (Fin qz) /\ qz <= W) \/ K <= W.
Proof using Hwf Hnn.
  intros HI HR Hall z W Hwalk.
  induction Hwalk as [|y z W k d w Hwalk IH Hkd Hw].
  - left. exists 0. split; [apply (r_start_dist _ _ HR) | lra].
  - destruct (weight_nonneg y z k d w Hkd Hw) as [_ Hw0].
    destruct IH as [(qy & Hqy & Hle)|HK]; [|right; lra].
    destruct (Hall y qy Hqy) as [HyX|HK]; [|right; lra].
    destruct (inv_X _ _ _ _ _ _ _ _ _ HI y HyX) as (_ & q & Hq & _ & Hcl).
    rewrite Hqy in Hq. injection Hq as <-.
    destruct (Hcl z k d w Hkd Hw) as (q' & Hq' & Hle').
    left. exists q'. split; [exact Hq' | lra].
Qed.

(** The distance of a node is the time of a walk to it. *)
Lemma label_walk X L st :
  SInv X L st -> Route X st ->
  forall a v q, (age X v <= a)%nat -> distances st !! v = Some (Fin q) ->
    walk_time start v q.
Proof.
  intros HI HR. induction a as [|a IH]; intros v q Hage Hq.
  - destruct (r_fin _ _ HR v q Hq) as [->|[p Hp]].
    + rewrite (r_start_dist _ _ HR) in Hq. injection Hq as <-. constructor.
    + destruct (r_prev _ _ HR v p Hp) as (_ & Hlt & _). lia.
  - destruct (r_fin _ _ HR v q Hq) as [->|[p Hp]].
    + rewrite (r_start_dist _ _ HR) in Hq. injection Hq as <-. constructor.
    + destruct (r_prev _ _ HR v p Hp)
        as (_ & Hlt & _ & _ & ek & k & d & qp & w & _ & _ & Hkd & Hw & Hdp & Hdv).
      rewrite Hdv in Hq. injection Hq as <-.
      apply (walk_step start p v qp k d w); [|exact Hkd|exact Hw].
      apply IH; [lia | exact Hdp].
Qed.

(** In the state in which the search stops, the distance of the
    destination is at most the time of any walk to it. *)
Lemma stopped_least st W :
  Stopped st -> walk_time start end_ W ->
  exists q, distances st !! end_ = Some (Fin q) /\ q <= W.
Proof using Hwf Hnn.
  intros (X & L & HI & HR & [(q & K & Hq & HqK & Hall)|Hall]) Hwalk.
  - destruct (walk_bound X L st K HI HR Hall end_ W Hwalk) as [H|HK]; [exact H|].
    exists q. split; [exact Hq | lra].
  - destruct (walk_bound X L st (W + 1) HI HR) with (z := end_) (W := W)
      as [H|HK]; [intros v qv Hv; left; apply (Hall v qv Hv) | exact Hwalk | exact H | lra].
Qed.

(** When the queue has run empty, every node that can be reached has a
    distance. *)
Lemma stopped_reaches X L st :
  unique_keys G -> SInv X L st -> Route X st ->
  (forall v q, distances st !! v = Some (Fin q) -> v ∈ X) ->
  forall z, reachable G transport_mode start z ->
    exists q, distances st !! z = Some (Fin q).
Proof.
  intros Hu HI HR Hall. apply rtc_ind_r.
  - exists 0. apply (r_start_dist _ _ HR).
  - intros y z _ (e & He & Hj & Ha) [qy Hqy]. pose proof (Hall y qy Hqy) as HyX.
    destruct (inv_X _ _ _ _ _ _ _ _ _ HI y HyX) as (Hyn & q & Hq & _ & Hcl).
    assert (Hkd : (e_key e, e_data e) ∈ edges_between G y z).
    { apply elem_of_edges_between. exists e. auto. }
    destruct (edge_data_listed G y z _ _ Hyn Hkd) as (d' & Hd' & Hkd').
    pose proof (Hu y z _ _ _ Hkd Hkd') as <-.
    destruct (Hcl z (e_key e) (e_data e) _ Hkd
                (get_edge_weight_allowed _ _ _ _ _ _ _ _ _ _ Hd' Ha)) as (q' & Hq' & _).
    eauto.
Qed.

(** A route: it leads from [u] to [v], visits no node twice, and each
    step is over an edge that the mode may use. *)
Definition route_from_to (m : Mode) (u v : string) (p : list string) : Prop :=
  head p = Some u /\ last p = Some v /\ NoDup p /\
  forall x y, (x, y) ∈ consecutive p -> allowed_step G m x y.

Lemma dijkstra_route :
  end_ ∈ node_ids G -> EmptyString ∉ node_ids G ->
  exists n, forall fuel, (n <= fuel)%nat ->
    exists r,
      dijkstra_with_traffic G traffic_data start end_ time_period emergency_time_period
        transport_mode fuel = Ok r /\
      (path r = [] \/ route_from_to transport_mode start end_ (path r)) /\
      (unique_keys G -> reachable G transport_mode start end_ -> path r <> []) /\
      (unique_keys G ->
       symmetric_flows traffic_data time_period emergency_time_period ->
       exists t,
         total_travel_time r = Fin t /\
         (forall W, walk_time start end_ W -> t <= W) /\
         (path r <> [] -> exists W, walk_time start end_ W /\ W == t)).
Proof using Hwf Hnn Hstart.
  intros Hend Hempty.
  destruct (search_terminates G traffic_data start end_ time_period emergency_time_period
              transport_mode Hwf Hnn
              (unexpanded G []) (length (pq (initial_state G start))) [] 0
              (initial_state G start)
              (initial_state_inv G traffic_data start time_period emergency_time_period
                 transport_mode Hstart))
    as (n0 & st' & Hsearch & _); [lia | lia |].
  pose proof (search_route n0 [] 0 (initial_state G start) st'
              (initial_state_inv G traffic_data start time_period emergency_time_period
                 transport_mode Hstart) initial_route initial_queued (Hsearch n0 (le_n _)))
    as Hstopped.
  pose proof Hstopped as (X & L & HI & HR & Hstop).
  exists (Nat.max n0 (length (node_ids G) + 2)). intros fuel Hfuel.
  unfold dijkstra_with_traffic. rewrite (Hsearch fuel) by lia. rewrite bind_Ok.
  destruct (inv_prev _ _ _ _ _ _ _ _ _ HI end_ Hend) as [o Ho].
  rewrite (subscript_Some _ _ _ Ho), bind_Ok.
  destruct (truthy o || bool_decide (end_ = start)) eqn:Hcond.
  - assert (Hcase : end_ = start \/ exists p, previous st' !! end_ = Some (Some p)).
    { apply orb_true_iff in Hcond as [Ht|Hb].
      - destruct o as [p|]; [|discriminate]. right. eauto.
      - left. apply bool_decide_eq_true_1 in Hb. exact Hb. }
    destruct (walk_back_route X L st' HI HR Hempty (length (node_ids G)) end_
                (age_bound X st' end_ HR) Hend Hcase fuel [] 0 (Fin 0) ltac:(lia))
      as (chain & d' & t' & Hwalk & Hhead & Hlast & Hsteps & Hnd & _ & Htime).
    rewrite Hwalk, bind_Ok. cbn [app]. eexists. split; [reflexivity|].
    cbn [path total_travel_time].
    split; [|split].
    + right. split; [rewrite head_reverse; exact Hlast|].
      split; [rewrite last_reverse; exact Hhead|].
      split; [rewrite reverse_Permutation; exact Hnd|].
      intros x y Hxy. apply (proj1 (consecutive_reverse chain x y)) in Hxy.
      apply Hsteps, Hxy.
    + intros _ _ E. apply (f_equal reverse) in E. rewrite reverse_involutive in E.
      subst chain. discriminate.
    + intros Hu Hsym. destruct (Htime Hu Hsym 0 eq_refl) as (qe & t1 & Hqe & -> & Ht1).
      exists t1. split; [reflexivity|]. split.
      * intros W HW. destruct (stopped_least st' W Hstopped HW) as (q & Hq & Hle).
        rewrite Hqe in Hq. injection Hq as <-. lra.
      * intros _. exists qe. split; [|lra].
        apply (label_walk X L st' HI HR (age X end_) end_ qe (le_n _) Hqe).
  - apply orb_false_iff in Hcond as [Ht Hb]. apply bool_decide_eq_false_1 in Hb.
    eexists. split; [reflexivity|]. cbn [path total_travel_time].
    split; [left; reflexivity|]. split; cycle 1.
    { intros _ _. exists 0. split; [reflexivity|]. split; [|intros H; contradiction].
      intros W HW. apply (walk_time_nonneg start end_ W HW). }
    intros Hu Hreach. exfalso.
    assert (Hfin : exists q, distances st' !! end_ = Some (Fin q)).
    { destruct Hstop as [(q & _ & H & _)|Hall]; [eauto|].
      apply (stopped_reaches X L st' Hu HI HR Hall end_ Hreach). }
    destruct Hfin as [q Hq].
    destruct (r_fin _ _ HR end_ q Hq) as [?|[p Hp]]; [contradiction|].
    rewrite Hp in Ho. injection Ho as <-.
    destruct (r_prev _ _ HR end_ p Hp) as (HpX & _).
    pose proof (r_nodes _ _ HR p HpX) as Hpn.
    rewrite truthy_Some in Ht; [discriminate|]. intros ->. contradiction.
Qed.

End DijkstraRoute.

(** X20: in a network whose edges have no negative length and whose
    node identifiers are non-empty, a query between two nodes of the graph
    ends (given enough fuel for its loops), raises nothing, and the path it
    returns is empty or a route: it begins at the start, ends at the
    destination, visits no node twice, and every two consecutive nodes are
    joined by an edge of a road type allowed for the mode. *)
Theorem dijkstra_path_is_a_route G traffic_data start end_ tp etp m :
  wf_graph G -> nonneg_distances G ->
  start ∈ node_ids G -> end_ ∈ node_ids G -> EmptyString ∉ node_ids G ->
  exists n, forall fuel, (n <= fuel)%nat ->
    exists r,
      dijkstra_with_traffic G traffic_data start end_ tp etp m fuel = Ok r /\
      (path r = [] \/ route_from_to G m start end_ (path r)).
Proof.
  intros Hwf Hnn Hs He Hempty.
  destruct (dijkstra_route G traffic_data start end_ tp etp m Hwf Hnn Hs He Hempty)
    as [n Hn].
  exists n. intros fuel Hfuel. destruct (Hn fuel Hfuel) as (r & Hr & Hroute & _ & _).
  exists r. auto.
Qed.

Lemma two_places_wf rt d c : wf_graph (two_places rt d c).
Proof.
  intros e He. apply list_elem_of_singleton in He. subst e. simpl.
  split; [apply list_elem_of_here | apply list_elem_of_further, list_elem_of_here].
Qed.

Lemma two_places_named rt d c : EmptyString ∉ node_ids (two_places rt d c).
Proof.
  intros H. simpl in H. apply elem_of_cons in H as [H|H]; [discriminate|].
  apply list_elem_of_singleton in H. discriminate.
Qed.

Lemma two_places_unique_keys rt d c : unique_keys (two_places rt d c).
Proof.
  intros u v k d1 d2 H1 H2.
  apply elem_of_edges_between in H1 as (e1 & He1 & _ & _ & <-).
  apply elem_of_edges_between in H2 as (e2 & He2 & _ & _ & <-).
  apply list_elem_of_singleton in He1, He2. subst. reflexivity.
Qed.

Lemma dijkstra_path_is_a_route_witness :
  exists n, forall fuel, (n <= fuel)%nat ->
    exists r,
      dijkstra_with_traffic (two_places existing 1000 1000) morning_rush "a" "b"
        (Some "morning"%string) None car fuel = Ok r /\
      (path r = [] \/
       route_from_to (two_places existing 1000 1000) car "a" "b" (path r)).
Proof.
  apply (dijkstra_path_is_a_route (two_places existing 1000 1000) morning_rush
           "a" "b" (Some "morning"%string) None car).
  - apply two_places_wf.
  - intros e He. apply list_elem_of_singleton in He. subst e. discriminate.
  - apply list_elem_of_here.
  - apply list_elem_of_further, list_elem_of_here.
  - apply two_places_named.
Defined.

(** X21: in such a network, where a key names one edge between two
    nodes, a destination that can be reached from the start over edges
    allowed for the mode is found: the query returns a route from the start
    to the destination, never the empty path. *)
Theorem dijkstra_finds_a_route G traffic_data start end_ tp etp m :
  wf_graph G -> nonneg_distances G -> unique_keys G ->
  start ∈ node_ids G -> end_ ∈ node_ids G -> EmptyString ∉ node_ids G ->
  reachable G m start end_ ->
  exists n, forall fuel, (n <= fuel)%nat ->
    exists r,
      dijkstra_with_traffic G traffic_data start end_ tp etp m fuel = Ok r /\
      route_from_to G m start end_ (path r).
Proof.
  intros Hwf Hnn Hu Hs He Hempty Hreach.
  destruct (dijkstra_route G traffic_data start end_ tp etp m Hwf Hnn Hs He Hempty)
    as [n Hn].
  exists n. intros fuel Hfuel. destruct (Hn fuel Hfuel) as (r & Hr & Hroute & Hfound & _).
  exists r. split; [exact Hr|].
  destruct Hroute as [Hnil|Hroute]; [|exact Hroute].
  exfalso. exact (Hfound Hu Hreach Hnil).
Qed.

Lemma dijkstra_finds_a_route_witness :
  exists n, forall fuel, (n <= fuel)%nat ->
    exists r,
      dijkstra_with_traffic (two_places existing 1000 1000) morning_rush "a" "b"
        (Some "morning"%string) None car fuel = Ok r /\
      route_from_to (two_places existing 1000 1000) car "a" "b" (path r).
Proof.
  apply (dijkstra_finds_a_route (two_places existing 1000 1000) morning_rush
           "a" "b" (Some "morning"%string) None car).
  - apply two_places_wf.
  - intros e He. apply list_elem_of_singleton in He. subst e. discriminate.
  - apply two_places_unique_keys.
  - apply list_elem_of_here.
  - apply list_elem_of_further, list_elem_of_here.
  - apply two_places_named.
  - apply rtc_once. eexists. split; [apply list_elem_of_here|].
    split; reflexivity.
Defined.

(** X22: in such a network, when the traffic table gives both
    directions of a road the same flow (as it does when no period is
    given), the travel time a query returns is the least one: no walk from
    the start to the destination, its edges weighted by [get_edge_weight]
    in the direction of travel, takes less time, and when a path is
    returned some walk takes exactly that time. *)
Theorem dijkstra_time_is_least G traffic_data start end_ tp etp m :
  wf_graph G -> nonneg_distances G -> unique_keys G ->
  start ∈ node_ids G -> end_ ∈ node_ids G -> EmptyString ∉ node_ids G ->
  symmetric_flows traffic_data tp etp ->
  exists n, forall fuel, (n <= fuel)%nat ->
    exists r t,
      dijkstra_with_traffic G traffic_data start end_ tp etp m fuel = Ok r /\
      total_travel_time r = Fin t /\
      (forall W, walk_time G traffic_data tp etp m start end_ W -> t <= W) /\
      (path r <> [] ->
       exists W, walk_time G traffic_data tp etp m start end_ W /\ W == t).
Proof.
  intros Hwf Hnn Hu Hs He Hempty Hsym.
  destruct (dijkstra_route G traffic_data start end_ tp etp m Hwf Hnn Hs He Hempty)
    as [n Hn].
  exists n. intros fuel Hfuel. destruct (Hn fuel Hfuel) as (r & Hr & _ & _ & Htime).
  destruct (Htime Hu Hsym) as (t & Ht & Hleast & Hwalk).
  exists r, t. auto.
Qed.

Lemma dijkstra_time_is_least_witness :
  exists n, forall fuel, (n <= fuel)%nat ->
    exists r t,
      dijkstra_with_traffic (two_places existing 1000 1000) morning_rush "a" "b"
        None None car fuel = Ok r /\
      total_travel_time r = Fin t /\
      (forall W, walk_time (two_places existing 1000 1000) morning_rush None None car
                   "a" "b" W -> t <= W) /\
      (path r <> [] ->
       exists W, walk_time (two_places existing 1000 1000) morning_rush None None car
                   "a" "b" W /\ W == t).
Proof.
  apply (dijkstra_time_is_least (two_places existing 1000 1000) morning_rush
           "a" "b" None None car).
  - apply two_places_wf.
  - intros e He. apply list_elem_of_singleton in He. subst e. discriminate.
  - apply two_places_unique_keys.
  - apply list_elem_of_here.
  - apply list_elem_of_further, list_elem_of_here.
  - apply two_places_named.
  - intros u v c. reflexivity.
Defined.

(** ** [a_star_emergency_routing] (a_star.py) *)

Module AStar.

(** The dictionaries and the queue of the search; a queue entry is the
    tuple [(f_score, g_score, node)]. *)
Record State := mkState {
  g_scores : gmap string ext;
  f_scores : gmap string ext;
  previous : gmap string (option string);
  edge_keys : gmap string (gmap string nat);
  queue : list (ext * ext * string)
}.

(** Tuple comparison [(f1, g1, n1) < (f2, g2, n2)] of queue entries. *)
Definition entry_ltb (a b : ext * ext * string) : bool :=
  ext_ltb a.1.1 b.1.1 ||
  (ext_eqb a.1.1 b.1.1 &&
   (ext_ltb a.1.2 b.1.2 || (ext_eqb a.1.2 b.1.2 && String.ltb a.2 b.2))).

(** [heapq.heappop]: the least entry and the remaining entries; the heap is
    kept as the list of its entries. *)
Fixpoint heappop (q : list (ext * ext * string))
    : option ((ext * ext * string) * list (ext * ext * string)) :=
  match q with
  | [] => None
  | x :: rest =>
      match heappop rest with
      | None => Some (x, [])
      | Some (m, rest') =>
          if entry_ltb m x then Some (m, x :: rest') else Some (x, rest)
      end
  end.

Definition heappush (q : list (ext * ext * string)) (x : ext * ext * string)
    : list (ext * ext * string) :=
  x :: q.

Section Search.
Variable G : Graph.
Variable traffic_data : TrafficData.
Variables start end_ : string.
Variable emergency_time_period : option string.

(** The straight-line travel time in minutes between two positions, at
    100 km/h: the body of [heuristic] under its [if], which takes a cosine
    and a square root and is left unspecified. *)
Variable straight_line_minutes : Q * Q -> Q * Q -> Q.

(** [heuristic(G, node, goal)]: [G.nodes[goal]] is only looked up when the
    node has a position. *)
Definition heuristic (node goal : string) : Res Q :=
  nd ← of_option (node_data G node) KeyError;
  match pos nd with
  | None => Ok 0
  | Some p1 =>
      gd ← of_option (node_data G goal) KeyError;
      match pos gd with
      | None => Ok 0
      | Some p2 => Ok (straight_line_minutes p1 p2)
      end
  end.

(** The body of the innermost [for key, data in edges.items()] loop. *)
Definition relax (current_node neighbor : string) (kd : nat * EdgeData)
    (st : State) : Res State :=
  let '(key, data) := kd in
  let base_distance := default 1000 (distance data) in
  weight ← get_edge_weight G traffic_data current_node neighbor key
             None emergency_time_period base_distance emergency;
  match weight with
  | Inf => Ok st
  | Fin _ =>
      gcur ← subscript (g_scores st) current_node;
      let tentative_g_score := ext_add gcur weight in
      gnb ← subscript (g_scores st) neighbor;
      if ext_ltb tentative_g_score gnb then
        h ← heuristic neighbor end_;
        let f := ext_add tentative_g_score (Fin h) in
        ek ← subscript (edge_keys st) neighbor;
        Ok {| g_scores := <[neighbor := tentative_g_score]> (g_scores st);
              f_scores := <[neighbor := f]> (f_scores st);
              previous := <[neighbor := Some current_node]> (previous st);
              edge_keys := <[neighbor := <[current_node := key]> ek]> (edge_keys st);
              queue := heappush (queue st) (f, tentative_g_score, neighbor) |}
      else Ok st
  end.

(** [for neighbor, edges in G[current_node].items(): for key, data in ...] *)
Definition expand (current_node : string) (st : State) : Res State :=
  items ← adj_items G current_node;
  foldM (fun '(neighbor, edges) st => foldM (relax current_node neighbor) edges st)
        items st.

(** The state after [heappop]. *)
Definition popped (st : State) (q' : list (ext * ext * string)) : State :=
  {| g_scores := g_scores st; f_scores := f_scores st; previous := previous st;
     edge_keys := edge_keys st; queue := q' |}.

(** The [while queue:] loop. *)
Fixpoint search (fuel : nat) (st : State) : Res State :=
  match fuel with
  | O => OutOfFuel
  | S fuel' =>
      match heappop (queue st) with
      | None => Ok st
      | Some ((_, current_g, current_node), q') =>
          if decide (current_node = end_) then Ok (popped st q')
          else st' ← expand current_node (popped st q'); search fuel' st'
      end
  end.

(** The [while current:] loop of the path reconstruction. *)
Fixpoint walk_back (fuel : nat) (st : State) (current : option string)
    (path : list string) (total_distance : Q) (total_travel_time : ext)
    : Res (list string * Q * ext) :=
  match fuel with
  | O => OutOfFuel
  | S fuel' =>
      if truthy current then
        let cur := default EmptyString current in
        let path := path ++ [cur] in
        next_node ← subscript (previous st) cur;
        if truthy next_node then
          let nxt := default EmptyString next_node in
          ek ← subscript (edge_keys st) cur;
          key ← subscript ek nxt;
          data ← edge_data G cur nxt key;
          let base_distance := default 1000 (distance data) in
          weight ← get_edge_weight G traffic_data cur nxt key
                     None emergency_time_period base_distance emergency;
          walk_back fuel' st next_node path
                    (total_distance + base_distance) (ext_add total_travel_time weight)
        else walk_back fuel' st next_node path total_distance total_travel_time
      else Ok (path, total_distance, total_travel_time)
  end.

(** The state before the loop: [f_scores[start]] is set last, by a call
    of [heuristic]. *)
Definition initial_state : Res State :=
  let queue := heappush [] (Fin 0, Fin 0, start) in
  let g_scores := dict_of_nodes (node_ids G) Inf in
  let f_scores := dict_of_nodes (node_ids G) Inf in
  let previous := dict_of_nodes (node_ids G) None in
  let edge_keys := dict_of_nodes (node_ids G) ∅ in
  let g_scores := <[start := Fin 0]> g_scores in
  h ← heuristic start end_;
  Ok {| g_scores := g_scores; f_scores := <[start := Fin h]> f_scores;
        previous := previous; edge_keys := edge_keys; queue := queue |}.

(** The function returns the path, its length in meters, its travel time
    in minutes and the edge keys; the measured execution time is not
    modelled. *)
Definition a_star_emergency_routing (fuel : nat) : Res DijkstraResult :=
  st0 ← initial_state;
  st ← search fuel st0;
  prev_end ← subscript (previous st) end_;
  if truthy prev_end || bool_decide (end_ = start) then
    '(p, d, t) ← walk_back fuel st (Some end_) [] 0 (Fin 0);
    Ok {| path := reverse p; total_distance := d; total_travel_time := t;
          used_edge_keys := edge_keys st |}
  else
    Ok {| path := []; total_distance := 0; total_travel_time := Fin 0;
          used_edge_keys := edge_keys st |}.

End Search.

Lemma astar_heappop_spec (q : list (ext * ext * string)) x rest :
  heappop q = Some (x, rest) ->
  (forall y, y ∈ q <-> y = x \/ y ∈ rest) /\ length q = S (length rest).
Proof.
  revert x rest. induction q as [|a q IH]; intros x rest H; [discriminate|].
  simpl in H. destruct (heappop q) as [[m rest']|] eqn:E.
  - destruct (IH m rest' eq_refl) as (Hiff & Hlen).
    destruct (entry_ltb m a); inversion H; subst; clear H.
    + split; [|simpl; rewrite Hlen; reflexivity].
      intros y. rewrite !elem_of_cons, Hiff. tauto.
    + split; [|reflexivity]. intros y. rewrite elem_of_cons. tauto.
  - inversion H; subst; clear H.
    destruct q; [|simpl in E; destruct (heappop q) as [[? ?]|];
                   [destruct (entry_ltb _ _)|]; discriminate].
    split; [|reflexivity]. intros y. rewrite elem_of_cons. tauto.
Qed.

Lemma astar_heappop_None (q : list (ext * ext * string)) : heappop q = None -> q = [].
Proof.
  destruct q as [|a q]; [reflexivity|]. simpl.
  destruct (heappop q) as [[? ?]|]; [destruct (entry_ltb _ _)|]; discriminate.
Qed.

Lemma node_data_is_Some (G : Graph) (n : string) :
  n ∈ node_ids G -> is_Some (node_data G n).
Proof.
  intros Hn. unfold node_data.
  destruct (List.find (fun p => String.eqb p.1 n) (g_nodes G)) as [p|] eqn:F; [eauto|].
  exfalso. apply list_elem_of_fmap in Hn as ([n' nd] & -> & Hin).
  apply list_elem_of_In in Hin. pose proof (List.find_none _ _ F _ Hin) as H.
  simpl in H. rewrite String.eqb_refl in H. discriminate.
Qed.

(** With fewer elements passing the test, one of them strictly, a filter
    gets shorter. *)
Lemma filter_length_lt {A : Type} (f f' : A -> bool) (l : list A) (c : A) :
  (forall a, a ∈ l -> f' a = true -> f a = true) ->
  c ∈ l -> f c = true -> f' c = false ->
  (length (filter (fun a => f' a = true) l) < length (filter (fun a => f a = true) l))%nat.
Proof.
  intros Hsub Hc Hfc Hfc'.
  assert (Hle : forall l', (forall a, a ∈ l' -> f' a = true -> f a = true) ->
            (length (filter (fun a => f' a = true) l')
             <= length (filter (fun a => f a = true) l'))%nat).
  { induction l' as [|a l' IH]; intros Hs; [reflexivity|].
    rewrite !filter_cons.
    assert (Hrec := IH (fun a0 H0 => Hs a0 (list_elem_of_further _ _ _ H0))).
    destruct (decide (f' a = true)) as [H1|H1], (decide (f a = true)) as [H2|H2];
      simpl; try lia.
    exfalso. apply H2, Hs; [apply list_elem_of_here | exact H1]. }
  induction l as [|a l IH]; [inversion Hc|].
  rewrite !filter_cons.
  assert (Hrec := Hle l (fun a0 H0 => Hsub a0 (list_elem_of_further _ _ _ H0))).
  apply elem_of_cons in Hc as [<-|Hc].
  - rewrite decide_False by (rewrite Hfc'; discriminate).
    rewrite decide_True by exact Hfc. simpl. lia.
  - specialize (IH (fun a0 H0 => Hsub a0 (list_elem_of_further _ _ _ H0)) Hc).
    destruct (decide (f' a = true)) as [H1|H1], (decide (f a = true)) as [H2|H2];
      simpl; try lia.
    exfalso. apply H2, Hsub; [apply list_elem_of_here | exact H1].
Qed.

Section Invariant.
Variable G : Graph.
Variable traffic_data : TrafficData.
Variables start end_ : string.
Variable emergency_time_period : option string.
Variable straight_line_minutes : Q * Q -> Q * Q -> Q.
Hypothesis Hwf : wf_graph G.
Hypothesis Hnn : nonneg_distances G.
Hypothesis Hstart : start ∈ node_ids G.
Hypothesis Hend : end_ ∈ node_ids G.

Local Abbreviation weight_of :=
  (edge_weight G traffic_data None emergency_time_period emergency).
Local Abbreviation relax_edge :=
  (relax G traffic_data end_ emergency_time_period straight_line_minutes).
Local Abbreviation heuristic_of := (heuristic G straight_line_minutes).

Lemma astar_heuristic_Ok (node goal : string) :
  node ∈ node_ids G -> goal ∈ node_ids G -> exists h, heuristic_of node goal = Ok h.
Proof.
  intros Hn Hg. unfold heuristic.
  destruct (node_data_is_Some G node Hn) as [nd ->].
  destruct (node_data_is_Some G goal Hg) as [gd ->]. simpl.
  destruct (pos nd); [|eauto]. destruct (pos gd); eauto.
Qed.

(** A path without repeated nodes from the start, latest node first, each
    node with the sum of the weights up to it. *)
Inductive lpath : list (string * Q) -> Prop :=
  | lpath_start : lpath [(start, 0)]
  | lpath_step PL u q v k d w :
      lpath ((u, q) :: PL) ->
      (k, d) ∈ edges_between G u v -> weight_of u v k d = Ok (Fin w) ->
      v ∉ ((u, q) :: PL).*1 ->
      lpath ((v, q + w) :: (u, q) :: PL).

(** The weighted ends of all walks of at most [n] edges from the start. *)
Definition extend (c : string * Q) : list (string * Q) :=
  v ← node_ids G;
  omap (fun kd : nat * EdgeData =>
          match weight_of c.1 v kd.1 kd.2 with
          | Ok (Fin w) => Some (v, c.2 + w)
          | _ => None
          end)
       (edges_between G c.1 v).

Fixpoint cand (n : nat) : list (string * Q) :=
  match n with
  | O => [(start, 0)]
  | S n' => cand n' ++ (cand n' ≫= extend)
  end.

Lemma cand_mono (n m : nat) : (n <= m)%nat -> cand n ⊆ cand m.
Proof.
  induction 1 as [|m _ IH]; [reflexivity|].
  intros c Hc. simpl. apply elem_of_app. left. apply IH, Hc.
Qed.

Lemma astar_weight_nonneg u v k d w :
  (k, d) ∈ edges_between G u v -> weight_of u v k d = Ok (Fin w) ->
  u ∈ node_ids G /\ v ∈ node_ids G /\ 0 <= w /\ allowed_step G emergency u v.
Proof using Hwf Hnn.
  intros Hkd Hw.
  assert (Hu : u ∈ node_ids G).
  { apply elem_of_edges_between in Hkd as (e & He & Hj & _).
    rewrite joins_sym in Hj. eapply joins_in_nodes; eauto. }
  assert (Hv : v ∈ node_ids G).
  { apply elem_of_edges_between in Hkd as (e & He & Hj & _).
    eapply joins_in_nodes; eauto. }
  split; [exact Hu|]. split; [exact Hv|].
  destruct (edge_weight_cases G traffic_data None emergency_time_period
              emergency Hnn u v k d Hu Hkd) as [Hinf|(w' & Hw' & Hpos & Hstep)].
  - rewrite Hinf in Hw. discriminate.
  - rewrite Hw' in Hw. injection Hw as <-. auto.
Qed.

Lemma lpath_cand PL : lpath PL ->
  forall v q PL', PL = (v, q) :: PL' -> (v, q) ∈ cand (length PL').
Proof using Hwf Hnn.
  induction 1 as [|PL u q v k d w Hp IH Hkd Hw Hnew]; intros v0 q0 PL' E.
  - injection E as <- <- <-. apply list_elem_of_here.
  - injection E as <- <- <-. simpl. apply elem_of_app. right.
    apply list_elem_of_bind. exists (u, q). split; [|apply (IH u q PL eq_refl)].
    unfold extend. apply list_elem_of_bind. exists v. simpl.
    split; [|apply (astar_weight_nonneg u v k d w Hkd Hw)].
    apply list_elem_of_omap. exists (k, d). split; [exact Hkd|]. simpl.
    rewrite Hw. reflexivity.
Qed.

Lemma lpath_nodes PL : lpath PL -> NoDup PL.*1 /\ forall u, u ∈ PL.*1 -> u ∈ node_ids G.
Proof using Hwf Hnn Hstart.
  induction 1 as [|PL u q v k d w Hp [IHn IHs] Hkd Hw Hnew].
  - split; [apply NoDup_singleton|]. intros u Hu. apply list_elem_of_singleton in Hu.
    subst u. exact Hstart.
  - split; [rewrite fmap_cons; apply NoDup_cons; auto|].
    intros u0 Hu0. rewrite fmap_cons in Hu0. apply elem_of_cons in Hu0 as [->|Hu0]; [|auto].
    apply (astar_weight_nonneg u v k d w Hkd Hw).
Qed.

Lemma lpath_in_cand v q PL :
  lpath ((v, q) :: PL) -> (v, q) ∈ cand (length (node_ids G)).
Proof using Hwf Hnn Hstart.
  intros Hp. destruct (lpath_nodes _ Hp) as [Hnd Hsub].
  apply (cand_mono (length PL)); [|apply (lpath_cand _ Hp v q PL eq_refl)].
  assert (Hlen : (length ((v, q) :: PL).*1 <= length (node_ids G))%nat).
  { apply submseteq_length, NoDup_submseteq; assumption. }
  rewrite length_fmap in Hlen. simpl in Hlen. lia.
Qed.

Lemma lpath_mono PL : lpath PL ->
  forall v q PL', PL = (v, q) :: PL' ->
    0 <= q /\ forall u qu, (u, qu) ∈ PL -> qu <= q.
Proof using Hwf Hnn.
  induction 1 as [|PL u q v k d w Hp IH Hkd Hw Hnew]; intros v0 q0 PL' E.
  - injection E as <- <- <-. split; [lra|].
    intros u qu Hu. apply list_elem_of_singleton in Hu. injection Hu as -> ->. lra.
  - injection E as <- <- <-. destruct (IH u q PL eq_refl) as [Hq Hle].
    destruct (astar_weight_nonneg u v k d w Hkd Hw) as (_ & _ & Hw0 & _).
    split; [lra|]. intros u0 qu [E|Hu]%elem_of_cons.
    + injection E as -> ->. lra.
    + specialize (Hle u0 qu Hu). lra.
Qed.

(** Every node of the path has a score of at most its sum. *)
Definition labels_of (st : State) (PL : list (string * Q)) : Prop :=
  forall u qu, (u, qu) ∈ PL ->
    exists q', g_scores st !! u = Some (Fin q') /\ q' <= qu.

(** The candidates below the score of their node. *)
Definition below (st : State) (c : string * Q) : bool :=
  ext_ltb (Fin c.2) (default Inf (g_scores st !! c.1)).

Definition pending (st : State) : nat :=
  length (filter (fun c => below st c = true) (cand (length (node_ids G)))).

(** The measure of the loop: a push lowers a score, a pop shortens the
    queue. *)
Definition measure (st : State) : nat :=
  (2 * pending st + length (queue st))%nat.

(** The predecessors from a node back to the start. *)
Inductive chain (st : State) : string -> list string -> Prop :=
  | chain_start : chain st start [start]
  | chain_step v p l :
      previous st !! v = Some (Some p) -> chain st p l -> chain st v (v :: l).

Record AInv (st : State) : Prop := {
  a_dom_g : forall n, n ∈ node_ids G -> is_Some (g_scores st !! n);
  a_dom_prev : forall n, n ∈ node_ids G -> is_Some (previous st !! n);
  a_dom_keys : forall n, n ∈ node_ids G -> is_Some (edge_keys st !! n);
  a_start_g : g_scores st !! start = Some (Fin 0);
  a_start_prev : previous st !! start = Some None;
  a_queue : forall e, e ∈ queue st ->
    e.2 ∈ node_ids G /\ exists q, g_scores st !! e.2 = Some (Fin q);
  a_prev : forall v p, previous st !! v = Some (Some p) ->
    v ∈ node_ids G /\ p ∈ node_ids G /\ allowed_step G emergency p v /\
    (exists ek k d, edge_keys st !! v = Some ek /\ ek !! p = Some k /\
                    (k, d) ∈ edges_between G p v) /\
    exists qp qv, g_scores st !! p = Some (Fin qp) /\
                  g_scores st !! v = Some (Fin qv) /\ qp <= qv;
  a_fin : forall v q, g_scores st !! v = Some (Fin q) ->
    0 <= q /\ (v = start \/ exists p, previous st !! v = Some (Some p));
  a_chain : forall v q, g_scores st !! v = Some (Fin q) -> exists l, chain st v l;
  a_path : forall v q, g_scores st !! v = Some (Fin q) ->
    exists PL, lpath ((v, q) :: PL) /\ labels_of st ((v, q) :: PL)
}.

(** The state after an improvement of [v] over the edge [k] from [x]. *)
Definition improve (st : State) (x v : string) (k : nat) (t h : Q)
    (ek : gmap string nat) : State :=
  {| g_scores := <[v := Fin t]> (g_scores st);
     f_scores := <[v := Fin (t + h)]> (f_scores st);
     previous := <[v := Some x]> (previous st);
     edge_keys := <[v := <[x := k]> ek]> (edge_keys st);
     queue := heappush (queue st) (Fin (t + h), Fin t, v) |}.

Lemma chain_scores st v l :
  AInv st -> chain st v l ->
  forall q, g_scores st !! v = Some (Fin q) ->
    forall u, u ∈ l -> exists qu, g_scores st !! u = Some (Fin qu) /\ qu <= q.
Proof.
  intros HI. induction 1 as [|v p l Hp Hc IH]; intros q Hq u Hu.
  - apply list_elem_of_singleton in Hu. subst u. exists q. split; [exact Hq | lra].
  - apply elem_of_cons in Hu as [->|Hu]; [exists q; split; [exact Hq | lra]|].
    destruct (a_prev _ HI v p Hp) as (_ & _ & _ & _ & qp & qv & Hqp & Hqv & Hle).
    rewrite Hq in Hqv. injection Hqv as <-.
    destruct (IH qp Hqp u Hu) as (qu & Hqu & Hle'). exists qu. split; [exact Hqu | lra].
Qed.

Lemma chain_unchanged st st' j x l :
  (forall u, u <> j -> previous st' !! u = previous st !! u) ->
  chain st x l -> j ∉ l -> chain st' x l.
Proof.
  intros Hsame. induction 1 as [|v p l Hp Hc IH]; intros Hj; [constructor|].
  apply not_elem_of_cons in Hj as [Hjv Hjl].
  apply (chain_step st' v p l); [|apply IH, Hjl]. rewrite Hsame by congruence. exact Hp.
Qed.

Lemma chain_update st st' j lj x l :
  (forall u, u <> j -> previous st' !! u = previous st !! u) ->
  chain st' j lj -> chain st x l -> exists l', chain st' x l'.
Proof.
  intros Hsame Hj. induction 1 as [|v p l Hp Hc [l' IH]].
  - exists [start]. constructor.
  - destruct (decide (v = j)) as [->|Hne]; [eauto|].
    exists (v :: l'). apply (chain_step st' v p l'); [|exact IH].
    rewrite Hsame by exact Hne. exact Hp.
Qed.

Lemma improve_inv st x v k d q w h ek dv :
  AInv st -> g_scores st !! x = Some (Fin q) ->
  (k, d) ∈ edges_between G x v -> weight_of x v k d = Ok (Fin w) ->
  g_scores st !! v = Some dv -> ext_ltb (Fin (q + w)) dv = true ->
  edge_keys st !! v = Some ek ->
  AInv (improve st x v k (q + w) h ek) /\
  (measure (improve st x v k (q + w) h ek) < measure st)%nat /\
  v <> x /\
  forall u qu, g_scores st !! u = Some (Fin qu) ->
    exists q', g_scores (improve st x v k (q + w) h ek) !! u = Some (Fin q') /\ q' <= qu.
Proof using Hwf Hnn Hstart.
  intros HI Hx Hkd Hw Hdv Hlt Hek.
  destruct (astar_weight_nonneg x v k d w Hkd Hw) as (Hxn & Hvn & Hw0 & Hstep).
  destruct (a_fin _ HI x q Hx) as [Hq0 _].
  assert (Hlow : forall q0, dv = Fin q0 -> q + w < q0).
  { intros q0 ->. apply ext_ltb_Fin in Hlt. exact Hlt. }
  assert (Hvs : v <> start).
  { intros ->. rewrite (a_start_g _ HI) in Hdv. injection Hdv as <-.
    specialize (Hlow 0 eq_refl). lra. }
  assert (Hvx : v <> x).
  { intros ->. rewrite Hx in Hdv. injection Hdv as <-. specialize (Hlow q eq_refl). lra. }
  destruct (a_path _ HI x q Hx) as (PLx & Hpx & Hlx).
  assert (HvPL : v ∉ ((x, q) :: PLx).*1).
  { intros Hin. apply list_elem_of_fmap in Hin as ([u qu] & Hu & Hin). simpl in Hu. subst u.
    destruct (Hlx v qu Hin) as (q' & Hq' & Hle).
    destruct (lpath_mono _ Hpx x q PLx eq_refl) as [_ Hm]. specialize (Hm v qu Hin).
    rewrite Hq' in Hdv. injection Hdv as <-. specialize (Hlow q' eq_refl). lra. }
  assert (Hnewpath : lpath ((v, q + w) :: (x, q) :: PLx)).
  { apply (lpath_step PLx x q v k d w Hpx Hkd Hw HvPL). }
  assert (Hmono : forall u qu, g_scores st !! u = Some (Fin qu) ->
            exists q', g_scores (improve st x v k (q + w) h ek) !! u = Some (Fin q') /\
                       q' <= qu).
  { intros u qu Hu. cbn [improve g_scores]. destruct (decide (v = u)) as [->|Hne].
    - rewrite lookup_insert_eq. exists (q + w). split; [reflexivity|].
      rewrite Hu in Hdv. injection Hdv as <-. specialize (Hlow qu eq_refl). lra.
    - rewrite lookup_insert_ne by exact Hne. exists qu. split; [exact Hu | lra]. }
  assert (Hlab : forall PL, labels_of st PL ->
            labels_of (improve st x v k (q + w) h ek) PL).
  { intros PL HL u qu Hu. destruct (HL u qu Hu) as (q' & Hq' & Hle).
    destruct (Hmono u q' Hq') as (q'' & Hq'' & Hle'). exists q''. split; [exact Hq'' | lra]. }
  assert (Hsame : forall u, u <> v ->
            previous (improve st x v k (q + w) h ek) !! u = previous st !! u).
  { intros u Hu. cbn [improve previous]. apply lookup_insert_ne. congruence. }
  destruct (a_chain _ HI x q Hx) as [lx Hcx].
  assert (Hvlx : v ∉ lx).
  { intros Hin. destruct (chain_scores st x lx HI Hcx q Hx v Hin) as (qv & Hqv & Hle).
    rewrite Hqv in Hdv. injection Hdv as <-. specialize (Hlow qv eq_refl). lra. }
  assert (Hcv : chain (improve st x v k (q + w) h ek) v (v :: lx)).
  { apply (chain_step _ v x lx); [apply lookup_insert_eq|].
    apply (chain_unchanged st _ v x lx Hsame Hcx Hvlx). }
  split; [|split; [|split; [exact Hvx | exact Hmono]]].
  - destruct HI as [Hg Hp Hk Hsg Hsp Hqu Hpr Hfin Hch Hpa].
    constructor; cbn [improve g_scores previous edge_keys queue].
    + intros n Hn. destruct (decide (v = n)) as [->|Hne];
        [rewrite lookup_insert_eq; eauto | rewrite lookup_insert_ne by exact Hne; auto].
    + intros n Hn. destruct (decide (v = n)) as [->|Hne];
        [rewrite lookup_insert_eq; eauto | rewrite lookup_insert_ne by exact Hne; auto].
    + intros n Hn. destruct (decide (v = n)) as [->|Hne];
        [rewrite lookup_insert_eq; eauto | rewrite lookup_insert_ne by exact Hne; auto].
    + rewrite lookup_insert_ne by exact Hvs. exact Hsg.
    + rewrite lookup_insert_ne by exact Hvs. exact Hsp.
    + intros e He. unfold heappush in He. apply elem_of_cons in He as [->|He].
      * simpl. split; [exact Hvn|]. rewrite lookup_insert_eq. eauto.
      * destruct (Hqu e He) as (Hen & qe & Hqe). split; [exact Hen|].
        destruct (Hmono e.2 qe Hqe) as (q' & Hq' & _). eauto.
    + intros u p. destruct (decide (v = u)) as [->|Hne].
      * rewrite lookup_insert_eq. intros E. injection E as <-.
        split; [exact Hvn|]. split; [exact Hxn|]. split; [exact Hstep|].
        split; [exists (<[x := k]> ek), k, d; rewrite !lookup_insert_eq; auto|].
        exists q, (q + w). rewrite lookup_insert_ne by exact Hvx.
        rewrite lookup_insert_eq.
        split; [exact Hx|]. split; [reflexivity | lra].
      * rewrite !lookup_insert_ne by exact Hne. intros Hp0.
        destruct (Hpr u p Hp0)
          as (Hun & Hpn & Hst & Hkeys & qp & qu & Hqp & Hqu0 & Hle).
        split; [exact Hun|]. split; [exact Hpn|]. split; [exact Hst|].
        split; [exact Hkeys|].
        destruct (Hmono p qp Hqp) as (qp' & Hqp' & Hle').
        exists qp', qu. split; [exact Hqp'|].
        rewrite lookup_insert_ne by exact Hne. split; [exact Hqu0 | lra].
    + intros u qu. destruct (decide (v = u)) as [->|Hne].
      * rewrite !lookup_insert_eq. intros E. injection E as <-.
        split; [lra|]. right. eauto.
      * rewrite !lookup_insert_ne by exact Hne. apply Hfin.
    + intros u qu. destruct (decide (v = u)) as [->|Hne]; [eauto|].
      rewrite lookup_insert_ne by exact Hne. intros Hu.
      destruct (Hch u qu Hu) as [l Hl].
      apply (chain_update st _ v (v :: lx) u l Hsame Hcv Hl).
    + intros u qu. destruct (decide (v = u)) as [->|Hne].
      * rewrite lookup_insert_eq. intros E. injection E as <-.
        exists ((x, q) :: PLx). split; [exact Hnewpath|].
        intros u0 qu0 [E|Hin]%elem_of_cons.
        { injection E as -> ->. exists (q + w).
          cbn [improve g_scores]. rewrite lookup_insert_eq. split; [reflexivity | lra]. }
        apply (Hlab _ Hlx u0 qu0 Hin).
      * rewrite lookup_insert_ne by exact Hne. intros Hu.
        destruct (Hpa u qu Hu) as (PL & Hp1 & Hl1). exists PL. split; [exact Hp1|].
        apply Hlab, Hl1.
  - unfold measure. cbn [improve queue]. unfold heappush. simpl length.
    assert (Hp : (pending (improve st x v k (q + w) h ek) < pending st)%nat).
    { unfold pending.
      apply (filter_length_lt (below st) (below (improve st x v k (q + w) h ek))
               _ (v, q + w)).
      - intros c _ Hc. unfold below in *. cbn [improve g_scores] in Hc.
        destruct (decide (v = c.1)) as [E|Hne].
        + rewrite <- E in *. rewrite lookup_insert_eq in Hc. simpl in Hc.
          rewrite Hdv. simpl. destruct dv as [q0|]; [|reflexivity].
          apply ext_ltb_Fin. apply ext_ltb_Fin in Hc. specialize (Hlow q0 eq_refl). lra.
        + rewrite lookup_insert_ne in Hc by exact Hne. exact Hc.
      - apply (lpath_in_cand v (q + w) _ Hnewpath).
      - unfold below. simpl. rewrite Hdv. exact Hlt.
      - unfold below. cbn [improve g_scores fst snd]. rewrite lookup_insert_eq. simpl.
        apply ext_ltb_Fin_false. lra. }
    lia.
Qed.

(** Every edge out of [x] has been relaxed at the score of [x]. *)
Definition relaxed (st : State) (x : string) : Prop :=
  exists q, g_scores st !! x = Some (Fin q) /\
    forall v k d w, (k, d) ∈ edges_between G x v -> weight_of x v k d = Ok (Fin w) ->
      exists q', g_scores st !! v = Some (Fin q') /\ q' <= q + w.

(** Every node with a score waits in the queue or has its edges relaxed,
    the nodes of [E] apart. *)
Definition Settled (E : list string) (st : State) : Prop :=
  forall v q, g_scores st !! v = Some (Fin q) ->
    v ∈ E \/ (exists e, e ∈ queue st /\ e.2 = v) \/ relaxed st v.

(** Scores only decrease. *)
Definition lowers (st st' : State) : Prop :=
  forall u qu, g_scores st !! u = Some (Fin qu) ->
    exists q', g_scores st' !! u = Some (Fin q') /\ q' <= qu.

Lemma lowers_refl st : lowers st st.
Proof. intros u qu Hu. exists qu. split; [exact Hu | lra]. Qed.

Lemma lowers_trans st1 st2 st3 : lowers st1 st2 -> lowers st2 st3 -> lowers st1 st3.
Proof.
  intros H1 H2 u qu Hu. destruct (H1 u qu Hu) as (q' & Hq' & Hle).
  destruct (H2 u q' Hq') as (q'' & Hq'' & Hle'). exists q''. split; [exact Hq'' | lra].
Qed.

Lemma astar_relax_ok st x v k d q E :
  AInv st -> g_scores st !! x = Some (Fin q) ->
  (k, d) ∈ edges_between G x v -> Settled E st ->
  exists st',
    relax_edge x v (k, d) st = Ok st' /\
    AInv st' /\ g_scores st' !! x = Some (Fin q) /\
    (measure st' <= measure st)%nat /\ Settled E st' /\ lowers st st' /\
    (forall w, weight_of x v k d = Ok (Fin w) ->
       exists q', g_scores st' !! v = Some (Fin q') /\ q' <= q + w).
Proof using Hwf Hnn Hstart Hend.
  intros HI Hx Hkd HS.
  assert (Hxn : x ∈ node_ids G).
  { apply elem_of_edges_between in Hkd as (e & He & Hj & _).
    rewrite joins_sym in Hj. eapply joins_in_nodes; eauto. }
  assert (Hvn : v ∈ node_ids G).
  { apply elem_of_edges_between in Hkd as (e & He & Hj & _).
    eapply joins_in_nodes; eauto. }
  unfold relax. fold (weight_of x v k d).
  destruct (edge_weight_cases G traffic_data None emergency_time_period
              emergency Hnn x v k d Hxn Hkd) as [Hinf|(w & Hw & Hw0 & Hstep)].
  { rewrite Hinf, bind_Ok. exists st. split; [reflexivity|]. split; [exact HI|].
    split; [exact Hx|]. split; [lia|]. split; [exact HS|]. split; [apply lowers_refl|].
    intros w Hw. discriminate. }
  rewrite Hw, bind_Ok, (subscript_Some _ _ _ Hx), bind_Ok.
  destruct (a_dom_g _ HI v Hvn) as [dv Hdv].
  rewrite (subscript_Some _ _ _ Hdv), bind_Ok. cbn [ext_add].
  destruct (ext_ltb (Fin (q + w)) dv) eqn:Hlt.
  - destruct (astar_heuristic_Ok v end_ Hvn Hend) as [h Hh].
    destruct (a_dom_keys _ HI v Hvn) as [ek Hek].
    rewrite Hh, bind_Ok, (subscript_Some _ _ _ Hek), bind_Ok. cbn [ext_add].
    destruct (improve_inv st x v k d q w h ek dv HI Hx Hkd Hw Hdv Hlt Hek)
      as (HI' & Hm & Hvx & Hmono).
    exists (improve st x v k (q + w) h ek). split; [reflexivity|].
    split; [exact HI'|].
    split; [cbn [improve g_scores]; rewrite lookup_insert_ne by exact Hvx; exact Hx|].
    split; [lia|]. split; [|split; [exact Hmono|]].
    + intros u qu Hu. destruct (decide (u = v)) as [->|Hne].
      { right. left. eexists. split; [apply list_elem_of_here | reflexivity]. }
      cbn [improve g_scores] in Hu. rewrite lookup_insert_ne in Hu by congruence.
      destruct (HS u qu Hu) as [HE|[(e & He & Heu)|(q0 & Hq0 & Hcl)]]; [auto| |].
      * right. left. exists e. split; [apply list_elem_of_further, He | exact Heu].
      * right. right. exists q0. cbn [improve g_scores].
        rewrite lookup_insert_ne by congruence. split; [exact Hq0|].
        intros z k0 d0 w0 Hkd0 Hw1. destruct (Hcl z k0 d0 w0 Hkd0 Hw1) as (q' & Hq' & Hle).
        destruct (Hmono z q' Hq') as (q'' & Hq'' & Hle'). exists q''.
        split; [exact Hq'' | lra].
    + intros w' Hw'. injection Hw' as <-. exists (q + w).
      cbn [improve g_scores]. rewrite lookup_insert_eq. split; [reflexivity | lra].
  - exists st. split; [reflexivity|]. split; [exact HI|].
    split; [exact Hx|]. split; [lia|]. split; [exact HS|]. split; [apply lowers_refl|].
    intros w' Hw'. injection Hw' as <-. destruct dv as [q'|]; [|discriminate].
    apply ext_ltb_Fin_false in Hlt. eauto.
Qed.

Lemma astar_relax_edges_ok x v q E kds : forall st,
  AInv st -> g_scores st !! x = Some (Fin q) ->
  (forall kd, kd ∈ kds -> kd ∈ edges_between G x v) -> Settled E st ->
  exists st',
    foldM (relax_edge x v) kds st = Ok st' /\
    AInv st' /\ g_scores st' !! x = Some (Fin q) /\
    (measure st' <= measure st)%nat /\ Settled E st' /\ lowers st st' /\
    (forall k d w, (k, d) ∈ kds -> weight_of x v k d = Ok (Fin w) ->
       exists q', g_scores st' !! v = Some (Fin q') /\ q' <= q + w).
Proof using Hwf Hnn Hstart Hend.
  induction kds as [|[k d] kds IH]; intros st HI Hx Hsub HS.
  - exists st. split; [reflexivity|]. split; [exact HI|]. split; [exact Hx|].
    split; [lia|]. split; [exact HS|]. split; [apply lowers_refl|].
    intros k d w Hin. inversion Hin.
  - destruct (astar_relax_ok st x v k d q E HI Hx)
      as (st1 & Hr & HI1 & Hx1 & Hm1 & HS1 & Hl1 & Hv1);
      [apply Hsub, list_elem_of_here | exact HS |].
    destruct (IH st1 HI1 Hx1) as (st' & Hf & HI' & Hx' & Hm' & HS' & Hl' & Hv');
      [intros kd Hkd; apply Hsub, list_elem_of_further, Hkd | exact HS1 |].
    exists st'. rewrite foldM_cons, Hr, bind_Ok.
    split; [exact Hf|]. split; [exact HI'|]. split; [exact Hx'|].
    split; [lia|]. split; [exact HS'|]. split; [eapply lowers_trans; eauto|].
    intros k0 d0 w Hin Hw. apply elem_of_cons in Hin as [Heq|Hin].
    + injection Heq as -> ->. destruct (Hv1 w Hw) as (q1 & Hq1 & Hle1).
      destruct (Hl' v q1 Hq1) as (q2 & Hq2 & Hle2). exists q2. split; [exact Hq2 | lra].
    + apply (Hv' k0 d0 w Hin Hw).
Qed.

Lemma astar_expand_items_ok x q E vs : forall st,
  AInv st -> g_scores st !! x = Some (Fin q) -> Settled E st ->
  exists st',
    foldM (fun '(neighbor, edges) st => foldM (relax_edge x neighbor) edges st)
          ((fun v => (v, edges_between G x v)) <$> vs) st = Ok st' /\
    AInv st' /\ g_scores st' !! x = Some (Fin q) /\
    (measure st' <= measure st)%nat /\ Settled E st' /\ lowers st st' /\
    (forall v k d w, v ∈ vs -> (k, d) ∈ edges_between G x v ->
       weight_of x v k d = Ok (Fin w) ->
       exists q', g_scores st' !! v = Some (Fin q') /\ q' <= q + w).
Proof using Hwf Hnn Hstart Hend.
  induction vs as [|v vs IH]; intros st HI Hx HS.
  - exists st. split; [reflexivity|]. split; [exact HI|]. split; [exact Hx|].
    split; [lia|]. split; [exact HS|]. split; [apply lowers_refl|].
    intros v k d w Hin. inversion Hin.
  - destruct (astar_relax_edges_ok x v q E (edges_between G x v) st HI Hx)
      as (st1 & Hr & HI1 & Hx1 & Hm1 & HS1 & Hl1 & Hv1); [auto | exact HS |].
    destruct (IH st1 HI1 Hx1 HS1) as (st' & Hf & HI' & Hx' & Hm' & HS' & Hl' & Hv').
    exists st'. rewrite fmap_cons, foldM_cons, Hr, bind_Ok.
    split; [exact Hf|]. split; [exact HI'|]. split; [exact Hx'|].
    split; [lia|]. split; [exact HS'|]. split; [eapply lowers_trans; eauto|].
    intros v0 k d w Hin Hkd Hw. apply elem_of_cons in Hin as [->|Hin].
    + destruct (Hv1 k d w Hkd Hw) as (q1 & Hq1 & Hle1).
      destruct (Hl' v q1 Hq1) as (q2 & Hq2 & Hle2). exists q2. split; [exact Hq2 | lra].
    + apply (Hv' v0 k d w Hin Hkd Hw).
Qed.

(** Expanding a node keeps the invariant, does not raise the measure and
    leaves the edges of the node relaxed. *)
Lemma astar_expand_ok st x q :
  AInv st -> x ∈ node_ids G -> g_scores st !! x = Some (Fin q) -> Settled [x] st ->
  exists st',
    expand G traffic_data end_ emergency_time_period straight_line_minutes x st = Ok st' /\
    AInv st' /\ (measure st' <= measure st)%nat /\ Settled [] st'.
Proof using Hwf Hnn Hstart Hend.
  intros HI Hxn Hx HS. unfold expand, adj_items, has_node.
  rewrite bool_decide_eq_true_2 by exact Hxn. simpl.
  destruct (astar_expand_items_ok x q [x] (neighbors G x) st HI Hx HS)
    as (st' & Hf & HI' & Hx' & Hm' & HS' & Hl' & Hv').
  exists st'. split; [exact Hf|]. split; [exact HI'|]. split; [exact Hm'|].
  intros v qv Hv. destruct (HS' v qv Hv) as [Hin|[H|H]]; [|auto|auto].
  apply list_elem_of_singleton in Hin. subst v. right. right.
  exists q. split; [exact Hx'|]. intros z k d w Hkd Hw.
  apply (Hv' z k d w); [|exact Hkd|exact Hw]. eapply edges_between_neighbor, Hkd.
Qed.

Lemma astar_search_step fuel st :
  search G traffic_data end_ emergency_time_period straight_line_minutes (S fuel) st =
  match heappop (queue st) with
  | None => Ok st
  | Some ((_, current_g, current_node), q') =>
      if decide (current_node = end_) then Ok (popped st q')
      else
        st' ← expand G traffic_data end_ emergency_time_period straight_line_minutes
                     current_node (popped st q');
        search G traffic_data end_ emergency_time_period straight_line_minutes fuel st'
  end.
Proof. reflexivity. Qed.

(** The state in which the loop stops: the invariant holds, and the
    destination has a score or every node with a score has its edges
    relaxed. *)
Definition Stopped (st : State) : Prop :=
  AInv st /\
  ((exists q, g_scores st !! end_ = Some (Fin q)) \/
   (forall v q, g_scores st !! v = Some (Fin q) -> relaxed st v)).

(** The loop ends within [measure st + 1] turns. *)
Lemma astar_search_terminates : forall m st,
  AInv st -> Settled [] st -> (measure st <= m)%nat ->
  exists st',
    (forall fuel, (m < fuel)%nat ->
       search G traffic_data end_ emergency_time_period straight_line_minutes fuel st
       = Ok st') /\
    Stopped st'.
Proof using Hwf Hnn Hstart Hend.
  induction m as [|m IH]; intros st HI HS Hm.
  - assert (Hq : queue st = []).
    { unfold measure in Hm. destruct (queue st); [reflexivity | simpl in Hm; lia]. }
    exists st. split.
    + intros [|fuel] Hf; [lia|]. rewrite astar_search_step, Hq. reflexivity.
    + split; [exact HI|]. right. intros v q Hv.
      destruct (HS v q Hv) as [H|[(e & He & _)|H]]; [inversion H| |exact H].
      rewrite Hq in He. inversion He.
  - destruct (heappop (queue st)) as [[[[f g0] n] q']|] eqn:Hpop.
    + destruct (astar_heappop_spec _ _ _ Hpop) as [Hiff Hlen].
      destruct (a_queue _ HI (f, g0, n)) as [Hn [q Hq]]; [apply Hiff; auto|].
      simpl in Hn, Hq.
      assert (HI0 : AInv (popped st q')).
      { destruct HI as [Hg Hp Hk Hsg Hsp Hqu Hpr Hfin Hch Hpa].
        assert (Hch' : forall v l, chain st v l -> chain (popped st q') v l).
        { intros v l. induction 1 as [|v p l Hp0 Hc IHc]; [constructor|].
          apply (chain_step _ v p l); assumption. }
        constructor; cbn [popped g_scores previous edge_keys queue]; try assumption.
        - intros e He. apply Hqu, Hiff. auto.
        - intros v qv Hv. destruct (Hch v qv Hv) as [l Hl]. eauto. }
      assert (Hm0 : (measure (popped st q') <= m)%nat).
      { unfold measure in *. cbn [popped queue]. unfold pending in *.
        cbn [popped g_scores] in *. unfold below in *. cbn [popped g_scores]. lia. }
      destruct (decide (n = end_)) as [Heq|Hne].
      { exists (popped st q'). split.
        - intros [|fuel] Hf; [lia|]. rewrite astar_search_step, Hpop.
          rewrite decide_True by exact Heq. reflexivity.
        - split; [exact HI0|]. left. subst n. eauto. }
      assert (HS0 : Settled [n] (popped st q')).
      { intros v qv Hv. cbn [popped g_scores] in Hv.
        destruct (HS v qv Hv) as [H|[(e & He & Hev)|H]]; [inversion H| |].
        - apply Hiff in He as [->|He].
          + left. simpl in Hev. subst v. apply list_elem_of_here.
          + right. left. exists e. auto.
        - right. right. exact H. }
      destruct (astar_expand_ok (popped st q') n q HI0 Hn Hq HS0)
        as (st1 & He & HI1 & Hm1 & HS1).
      destruct (IH st1 HI1 HS1) as (st' & Hs & Hstop); [lia|].
      exists st'. split; [|exact Hstop].
      intros [|fuel] Hf; [lia|]. rewrite astar_search_step, Hpop.
      rewrite decide_False by exact Hne. rewrite He, bind_Ok. apply Hs. lia.
    + apply astar_heappop_None in Hpop. exists st. split.
      * intros [|fuel] Hf; [lia|]. rewrite astar_search_step, Hpop. reflexivity.
      * split; [exact HI|]. right. intros v q Hv.
        destruct (HS v q Hv) as [H|[(e & He & _)|H]]; [inversion H| |exact H].
        rewrite Hpop in He. inversion He.
Qed.

Lemma chain_functional st v l l' :
  AInv st -> chain st v l -> chain st v l' -> l = l'.
Proof.
  intros HI H. revert l'. induction H as [|v p l Hp Hc IH]; intros l' H'.
  - inversion H' as [|v' p' l0 Hp' Hc']; subst; [reflexivity|].
    rewrite (a_start_prev _ HI) in Hp'. discriminate.
  - inversion H' as [|v' p' l0 Hp' Hc']; subst.
    + rewrite (a_start_prev _ HI) in Hp. discriminate.
    + rewrite Hp in Hp'. injection Hp' as <-. f_equal. apply IH, Hc'.
Qed.

Lemma chain_suffix st v l u :
  chain st v l -> u ∈ l -> exists l1 lu, l = l1 ++ lu /\ chain st u lu.
Proof.
  induction 1 as [|v p l Hp Hc IH]; intros Hu.
  - apply list_elem_of_singleton in Hu. subst u. exists [], [start].
    split; [reflexivity | constructor].
  - apply elem_of_cons in Hu as [->|Hu].
    + exists [], (v :: l). split; [reflexivity|]. apply (chain_step st v p l Hp Hc).
    + destruct (IH Hu) as (l1 & lu & -> & Hlu). exists (v :: l1), lu.
      split; [reflexivity | exact Hlu].
Qed.

Lemma chain_head st v l : chain st v l -> exists l', l = v :: l'.
Proof. destruct 1; eauto. Qed.

Lemma chain_NoDup st v l : AInv st -> chain st v l -> NoDup l.
Proof.
  intros HI. induction 1 as [|v p l Hp Hc IH]; [apply NoDup_singleton|].
  apply NoDup_cons. split; [|exact IH]. intros Hv.
  destruct (chain_suffix st p l v Hc Hv) as (l1 & lv & E & Hlv).
  pose proof (chain_functional st v _ _ HI Hlv (chain_step st v p l Hp Hc)) as E'.
  apply (f_equal length) in E. rewrite length_app, E' in E. simpl in E. lia.
Qed.

Lemma chain_route st v l :
  AInv st -> chain st v l ->
  (forall u, u ∈ l -> u ∈ node_ids G) /\ last l = Some start /\
  forall x y, (x, y) ∈ consecutive l -> allowed_step G emergency y x.
Proof using Hstart.
  intros HI. induction 1 as [|v p l Hp Hc (IHn & IHl & IHs)].
  - split; [|split; [reflexivity|]].
    + intros u Hu. apply list_elem_of_singleton in Hu. subst u. exact Hstart.
    + intros x y H. inversion H.
  - destruct (a_prev _ HI v p Hp) as (Hvn & Hpn & Hstep & _).
    destruct (chain_head st p l Hc) as [l' ->].
    split; [|split].
    + intros u [->|Hu]%elem_of_cons; auto.
    + exact IHl.
    + intros x y. change (consecutive (v :: p :: l')) with ((v, p) :: consecutive (p :: l')).
      intros [E|H]%elem_of_cons; [|apply IHs, H]. injection E as -> ->. exact Hstep.
Qed.

Lemma chain_length st v l : AInv st -> chain st v l -> (length l <= length (node_ids G))%nat.
Proof using Hstart.
  intros HI Hc. apply submseteq_length, NoDup_submseteq.
  - apply (chain_NoDup st v l HI Hc).
  - apply (chain_route st v l HI Hc).
Qed.

Lemma astar_walk_back_step fuel st current path0 d t :
  walk_back G traffic_data emergency_time_period (S fuel) st current path0 d t =
  if truthy current then
    let cur := default EmptyString current in
    next_node ← subscript (previous st) cur;
    if truthy next_node then
      let nxt := default EmptyString next_node in
      ek ← subscript (edge_keys st) cur;
      key ← subscript ek nxt;
      data ← edge_data G cur nxt key;
      weight ← get_edge_weight G traffic_data cur nxt key None emergency_time_period
                 (default 1000 (distance data)) emergency;
      walk_back G traffic_data emergency_time_period fuel st next_node (path0 ++ [cur])
                (d + default 1000 (distance data)) (ext_add t weight)
    else walk_back G traffic_data emergency_time_period fuel st next_node
                   (path0 ++ [cur]) d t
  else Ok (path0, d, t).
Proof. reflexivity. Qed.

(** The walk back from a node follows its chain of predecessors. *)
Lemma astar_walk_back_chain st :
  AInv st -> EmptyString ∉ node_ids G ->
  forall v l, chain st v l ->
    forall fuel path0 d t, (length l < fuel)%nat ->
      exists d' t',
        walk_back G traffic_data emergency_time_period fuel st (Some v) path0 d t
        = Ok (path0 ++ l, d', t').
Proof using Hstart.
  intros HI Hempty.
  assert (Htruthy : forall n, n ∈ node_ids G -> truthy (Some n) = true).
  { intros n Hn. apply truthy_Some. intros ->. contradiction. }
  induction 1 as [|v p l Hp Hc IH]; intros fuel path0 d t Hfuel.
  - destruct fuel as [|[|fuel]]; simpl in Hfuel; try lia.
    rewrite astar_walk_back_step, (Htruthy _ Hstart). cbn [default from_option id].
    rewrite (subscript_Some _ _ _ (a_start_prev _ HI)), bind_Ok. cbn [truthy].
    rewrite astar_walk_back_step. cbn [truthy]. eauto.
  - destruct (a_prev _ HI v p Hp) as (Hvn & Hpn & _ & (ek & k & d0 & Hek & Hk & Hkd) & _).
    destruct fuel as [|fuel]; [lia|]. simpl in Hfuel.
    rewrite (edges_between_sym G p v) in Hkd.
    destruct (edge_data_listed G v p k d0 Hvn Hkd) as (d1 & Hd1 & _).
    assert (Hw : exists w, get_edge_weight G traffic_data v p k None
                             emergency_time_period (default 1000 (distance d1))
                             emergency = Ok w).
    { destruct (allowed emergency (road_type d1)) eqn:Ha.
      - eexists. apply (get_edge_weight_allowed _ _ _ _ _ _ _ _ _ _ Hd1 Ha).
      - eexists. apply (get_edge_weight_forbidden _ _ _ _ _ _ _ _ _ _ Hd1 Ha). }
    destruct Hw as [w Hw].
    destruct (IH fuel (path0 ++ [v]) (d + default 1000 (distance d1)) (ext_add t w)
                ltac:(lia)) as (d' & t' & Hwalk).
    rewrite astar_walk_back_step, (Htruthy _ Hvn). cbn [default from_option id].
    rewrite (subscript_Some _ _ _ Hp), bind_Ok, (Htruthy _ Hpn).
    cbn [default from_option id].
    rewrite (subscript_Some _ _ _ Hek), bind_Ok, (subscript_Some _ _ _ Hk), bind_Ok.
    rewrite Hd1, bind_Ok, Hw, bind_Ok, Hwalk.
    exists d', t'. rewrite <- app_assoc. reflexivity.
Qed.

(** The state before the loop. *)
Definition first_state (h : Q) : State :=
  {| g_scores := <[start := Fin 0]> (dict_of_nodes (node_ids G) Inf);
     f_scores := <[start := Fin h]> (dict_of_nodes (node_ids G) Inf);
     previous := dict_of_nodes (node_ids G) None;
     edge_keys := dict_of_nodes (node_ids G) ∅;
     queue := [(Fin 0, Fin 0, start)] |}.

Lemma first_state_score h v q :
  g_scores (first_state h) !! v = Some (Fin q) -> v = start /\ q = 0.
Proof.
  cbn [first_state g_scores]. destruct (decide (start = v)) as [->|Hne].
  - rewrite lookup_insert_eq. intros E. injection E as <-. auto.
  - rewrite lookup_insert_ne by exact Hne. rewrite dict_of_nodes_lookup.
    destruct (bool_decide (v ∈ node_ids G)); discriminate.
Qed.

Lemma astar_initial_state :
  exists h,
    initial_state G start end_ straight_line_minutes = Ok (first_state h) /\
    AInv (first_state h) /\ Settled [] (first_state h).
Proof using Hstart Hend.
  destruct (astar_heuristic_Ok start end_ Hstart Hend) as [h Hh].
  exists h. split; [unfold initial_state; rewrite Hh; reflexivity|].
  split.
  - constructor.
    + intros n Hn. cbn [first_state g_scores]. destruct (decide (start = n)) as [->|Hne].
      * rewrite lookup_insert_eq. eauto.
      * rewrite lookup_insert_ne by exact Hne. rewrite dict_of_nodes_lookup.
        rewrite bool_decide_eq_true_2 by exact Hn. eauto.
    + intros n Hn. cbn [first_state previous]. rewrite dict_of_nodes_lookup.
      rewrite bool_decide_eq_true_2 by exact Hn. eauto.
    + intros n Hn. cbn [first_state edge_keys]. rewrite dict_of_nodes_lookup.
      rewrite bool_decide_eq_true_2 by exact Hn. eauto.
    + apply lookup_insert_eq.
    + cbn [first_state previous].
      rewrite dict_of_nodes_lookup, bool_decide_eq_true_2 by exact Hstart. reflexivity.
    + intros e He. apply list_elem_of_singleton in He. subst e. simpl.
      split; [exact Hstart|]. exists 0. apply lookup_insert_eq.
    + intros v p. cbn [first_state previous]. rewrite dict_of_nodes_lookup.
      destruct (bool_decide (v ∈ node_ids G)); discriminate.
    + intros v q Hv. destruct (first_state_score h v q Hv) as [-> ->].
      split; [lra | auto].
    + intros v q Hv. destruct (first_state_score h v q Hv) as [-> ->].
      exists [start]. constructor.
    + intros v q Hv. destruct (first_state_score h v q Hv) as [-> ->].
      exists []. split; [constructor|].
      intros u qu Hu. apply list_elem_of_singleton in Hu. injection Hu as -> ->.
      exists 0. split; [apply lookup_insert_eq | lra].
  - intros v q Hv. destruct (first_state_score h v q Hv) as [-> ->].
    right. left. eexists. split; [apply list_elem_of_here | reflexivity].
Qed.

(** With every scored node relaxed, every node that can be reached has a
    score. *)
Lemma astar_relaxed_reaches st :
  unique_keys G -> AInv st ->
  (forall v q, g_scores st !! v = Some (Fin q) -> relaxed st v) ->
  forall z, reachable G emergency start z ->
    exists q, g_scores st !! z = Some (Fin q).
Proof.
  intros Hu HI Hall. apply rtc_ind_r.
  - exists 0. apply (a_start_g _ HI).
  - intros y z _ (e & He & Hj & Ha) [qy Hqy].
    destruct (Hall y qy Hqy) as (q & Hq & Hcl).
    assert (Hyn : y ∈ node_ids G).
    { rewrite joins_sym in Hj. eapply joins_in_nodes; eauto. }
    assert (Hkd : (e_key e, e_data e) ∈ edges_between G y z).
    { apply elem_of_edges_between. exists e. auto. }
    destruct (edge_data_listed G y z _ _ Hyn Hkd) as (d' & Hd' & Hkd').
    pose proof (Hu y z _ _ _ Hkd Hkd') as <-.
    destruct (Hcl z (e_key e) (e_data e) _ Hkd
                (get_edge_weight_allowed _ _ _ _ _ _ _ _ _ _ Hd' Ha)) as (q' & Hq' & _).
    eauto.
Qed.

Lemma astar_route :
  EmptyString ∉ node_ids G ->
  exists n, forall fuel, (n <= fuel)%nat ->
    exists r,
      a_star_emergency_routing G traffic_data start end_ emergency_time_period
        straight_line_minutes fuel = Ok r /\
      (path r = [] \/ route_from_to G emergency start end_ (path r)) /\
      (unique_keys G -> reachable G emergency start end_ -> path r <> []).
Proof using Hwf Hnn Hstart Hend.
  intros Hempty.
  destruct astar_initial_state as (h & Hinit & HI0 & HS0).
  destruct (astar_search_terminates (measure (first_state h)) (first_state h) HI0 HS0
              (le_n _)) as (st' & Hsearch & HI & Hstop).
  exists (Nat.max (measure (first_state h) + 1) (length (node_ids G) + 1)).
  intros fuel Hfuel. unfold a_star_emergency_routing.
  rewrite Hinit, bind_Ok, (Hsearch fuel) by lia. rewrite bind_Ok.
  destruct (a_dom_prev _ HI end_ Hend) as [o Ho].
  rewrite (subscript_Some _ _ _ Ho), bind_Ok.
  destruct (truthy o || bool_decide (end_ = start)) eqn:Hcond.
  - assert (Hchain : exists l, chain st' end_ l).
    { apply orb_true_iff in Hcond as [Ht|Hb].
      - destruct o as [p|]; [|discriminate].
        destruct (a_prev _ HI end_ p Ho) as (_ & _ & _ & _ & qp & qv & _ & Hqv & _).
        apply (a_chain _ HI end_ qv Hqv).
      - apply bool_decide_eq_true_1 in Hb. rewrite Hb. exists [start]. constructor. }
    destruct Hchain as [l Hl].
    pose proof (chain_length st' end_ l HI Hl) as Hlen.
    destruct (astar_walk_back_chain st' HI Hempty end_ l Hl fuel [] 0 (Fin 0) ltac:(lia))
      as (d' & t' & Hwalk).
    rewrite Hwalk, bind_Ok. cbn [app]. eexists. split; [reflexivity|]. cbn [path].
    destruct (chain_route st' end_ l HI Hl) as (_ & Hlast & Hsteps).
    destruct (chain_head st' end_ l Hl) as [l' El].
    split.
    + right. split; [rewrite head_reverse; exact Hlast|].
      split; [rewrite last_reverse, El; reflexivity|].
      split; [rewrite reverse_Permutation; apply (chain_NoDup st' end_ l HI Hl)|].
      intros x y Hxy. apply (proj1 (consecutive_reverse l x y)) in Hxy.
      apply Hsteps, Hxy.
    + intros _ _ E. apply (f_equal reverse) in E. rewrite reverse_involutive in E.
      rewrite El in E. discriminate.
  - apply orb_false_iff in Hcond as [Ht Hb]. apply bool_decide_eq_false_1 in Hb.
    eexists. split; [reflexivity|]. cbn [path]. split; [left; reflexivity|].
    intros Hu Hreach. exfalso.
    assert (Hfin : exists q, g_scores st' !! end_ = Some (Fin q)).
    { destruct Hstop as [H|Hall]; [exact H|].
      apply (astar_relaxed_reaches st' Hu HI Hall end_ Hreach). }
    destruct Hfin as [q Hq].
    destruct (a_fin _ HI end_ q Hq) as [_ [?|[p Hp]]]; [contradiction|].
    rewrite Hp in Ho. injection Ho as <-.
    destruct (a_prev _ HI end_ p Hp) as (_ & Hpn & _).
    rewrite truthy_Some in Ht; [discriminate|]. intros ->. contradiction.
Qed.

End Invariant.
End AStar.

(** X23: in a network whose edges have no negative length and whose
    node identifiers are non-empty, an A* query between two nodes of the
    graph ends (given enough fuel for its loops, although a node may be
    expanded many times), raises nothing, and the path it returns is empty
    or a route for emergency vehicles: it begins at the start, ends at the
    destination, visits no node twice, and every two consecutive nodes are
    joined by an edge of a road type allowed for the emergency mode. This
    holds whatever the straight-line estimate of [heuristic] is. *)
Theorem a_star_path_is_a_route G traffic_data start end_ etp straight_line_minutes :
  wf_graph G -> nonneg_distances G ->
  start ∈ node_ids G -> end_ ∈ node_ids G -> EmptyString ∉ node_ids G ->
  exists n, forall fuel, (n <= fuel)%nat ->
    exists r,
      AStar.a_star_emergency_routing G traffic_data start end_ etp
        straight_line_minutes fuel = Ok r /\
      (path r = [] \/ route_from_to G emergency start end_ (path r)).
Proof.
  intros Hwf Hnn Hs He Hempty.
  destruct (AStar.astar_route G traffic_data start end_ etp straight_line_minutes
              Hwf Hnn Hs He Hempty) as [n Hn].
  exists n. intros fuel Hfuel. destruct (Hn fuel Hfuel) as (r & Hr & Hroute & _).
  exists r. auto.
Qed.

Lemma a_star_path_is_a_route_witness :
  exists n, forall fuel, (n <= fuel)%nat ->
    exists r,
      AStar.a_star_emergency_routing (two_places existing 1000 1000) morning_rush
        "a" "b" (Some "morning"%string) (fun _ _ => 0) fuel = Ok r /\
      (path r = [] \/
       route_from_to (two_places existing 1000 1000) emergency "a" "b" (path r)).
Proof.
  apply (a_star_path_is_a_route (two_places existing 1000 1000) morning_rush
           "a" "b" (Some "morning"%string) (fun _ _ => 0)).
  - apply two_places_wf.
  - intros e He. apply list_elem_of_singleton in He. subst e. discriminate.
  - apply list_elem_of_here.
  - apply list_elem_of_further, list_elem_of_here.
  - apply two_places_named.
Defined.

(** X24: in such a network, where a key names one edge between two
    nodes, a destination that emergency vehicles can reach from the start
    is found by the A* query: it returns a route from the start to the
    destination, never the empty path. *)
Theorem a_star_finds_a_route G traffic_data start end_ etp straight_line_minutes :
  wf_graph G -> nonneg_distances G -> unique_keys G ->
  start ∈ node_ids G -> end_ ∈ node_ids G -> EmptyString ∉ node_ids G ->
  reachable G emergency start end_ ->
  exists n, forall fuel, (n <= fuel)%nat ->
    exists r,
      AStar.a_star_emergency_routing G traffic_data start end_ etp
        straight_line_minutes fuel = Ok r /\
      route_from_to G emergency start end_ (path r).
Proof.
  intros Hwf Hnn Hu Hs He Hempty Hreach.
  destruct (AStar.astar_route G traffic_data start end_ etp straight_line_minutes
              Hwf Hnn Hs He Hempty) as [n Hn].
  exists n. intros fuel Hfuel. destruct (Hn fuel Hfuel) as (r & Hr & Hroute & Hfound).
  exists r. split; [exact Hr|].
  destruct Hroute as [Hnil|Hroute]; [|exact Hroute].
  exfalso. exact (Hfound Hu Hreach Hnil).
Qed.

Lemma a_star_finds_a_route_witness :
  exists n, forall fuel, (n <= fuel)%nat ->
    exists r,
      AStar.a_star_emergency_routing (two_places existing 1000 1000) morning_rush
        "a" "b" (Some "morning"%string) (fun _ _ => 0) fuel = Ok r /\
      route_from_to (two_places existing 1000 1000) emergency "a" "b" (path r).
Proof.
  apply (a_star_finds_a_route (two_places existing 1000 1000) morning_rush
           "a" "b" (Some "morning"%string) (fun _ _ => 0)).
  - apply two_places_wf.
  - intros e He. apply list_elem_of_singleton in He. subst e. discriminate.
  - apply two_places_unique_keys.
  - apply list_elem_of_here.
  - apply list_elem_of_further, list_elem_of_here.
  - apply two_places_named.
  - apply rtc_once. eexists. split; [apply list_elem_of_here|].
    split; reflexivity.
Defined.

(** ** [optimize_transit_connections] (transit_integration.py) *)

(** A row of the public demand table, its identifiers after
    [str(...).strip()]. *)
Record DemandRow := mkDemandRow {
  dm_FromID : string;
  dm_ToID : string;
  dm_Daily_Passengers : Q
}.

(** The dictionary appended for a candidate connection; the key
    ['distance'] is the field [separation]. *)
Record Connection := mkConnection {
  bus_stop : string;
  metro_station : string;
  separation : Q;
  demand : Q;
  score : Q
}.

(** [demand_matrix[(from_id, to_id)] = daily_passengers] on an
    insertion-ordered dictionary. *)
Fixpoint demand_set (d : list (string * string * Q)) (k : string * string) (v : Q)
    : list (string * string * Q) :=
  match d with
  | [] => [(k, v)]
  | (k', v') :: rest =>
      if decide (k' = k) then (k', v) :: rest else (k', v') :: demand_set rest k v
  end.

Definition demand_matrix_of (public_demand_df : list DemandRow)
    : list (string * string * Q) :=
  foldl (fun d row => demand_set d (dm_FromID row, dm_ToID row) (dm_Daily_Passengers row))
        [] public_demand_df.

(** The loop over [demand_matrix.items()]: a tenth of the passengers of
    every pair with the bus stop or the metro station at one end. *)
Definition connection_demand (demand_matrix : list (string * string * Q))
    (bus_stop metro_station : string) : Q :=
  foldl (fun demand '((from_id, to_id), passengers) =>
           if bool_decide (from_id = bus_stop \/ from_id = metro_station \/
                           to_id = bus_stop \/ to_id = metro_station)
           then demand + passengers * (1 # 10) else demand)
        0 demand_matrix.

(** [G.has_edge(u, v)] for two nodes of the graph. *)
Definition has_edge (G : Graph) (u v : string) : bool :=
  match edges_between G u v with [] => false | _ => true end.

(** [key=lambda x: x['score'], reverse=True]: [a] stays before [b] when
    its score is greater. *)
Definition score_gt (a b : Connection) : bool := Qltb (score b) (score a).

Section Transit.
Variable G : Graph.

(** [distance_calc] of graph_utils.py takes a cosine and a square root and
    is left unspecified. *)
Variable distance_calc : Q -> Q -> Q -> Q -> Q.

(** The body of the loop over the metro stations, for a bus stop at
    [bus_pos]; [None] stands for [continue]. *)
Definition connection_for (demand_matrix : list (string * string * Q))
    (bus_stop : string) (bus_pos : Q * Q) (metro_station : string)
    : Res (option Connection) :=
  if negb (has_node G metro_station) || bool_decide (bus_stop = metro_station)
  then Ok None
  else
    nd ← of_option (node_data G metro_station) KeyError;
    match pos nd with
    | None => Ok None
    | Some metro_pos =>
        if has_edge G bus_stop metro_station then Ok None
        else
          let distance :=
            distance_calc bus_pos.1 bus_pos.2 metro_pos.1 metro_pos.2 in
          if Qltb 1000 distance then Ok None
          else
            let demand := connection_demand demand_matrix bus_stop metro_station in
            if Qeq_bool (distance + 100) 0 then Raise ZeroDivisionError
            else
              Ok (Some {| bus_stop := bus_stop; metro_station := metro_station;
                          separation := distance; demand := demand;
                          score := demand / (distance + 100) |})
    end.

(** The body of the loop over the bus stops. *)
Definition connections_of_stop (demand_matrix : list (string * string * Q))
    (metro_stations : list string) (bus_stop : string)
    (potential_connections : list Connection) : Res (list Connection) :=
  if negb (has_node G bus_stop) then Ok potential_connections
  else
    nd ← of_option (node_data G bus_stop) KeyError;
    match pos nd with
    | None => Ok potential_connections
    | Some bus_pos =>
        foldM (fun metro_station potential_connections =>
                 c ← connection_for demand_matrix bus_stop bus_pos metro_station;
                 Ok (match c with
                     | Some c => potential_connections ++ [c]
                     | None => potential_connections
                     end))
              metro_stations potential_connections
    end.

Definition potential_connections_of (bus_stops metro_stations : list string)
    (public_demand_df : list DemandRow) : Res (list Connection) :=
  foldM (connections_of_stop (demand_matrix_of public_demand_df) metro_stations)
        bus_stops [].

(** The function returns the recommended connections; the two sets are
    given as the lists of their elements in iteration order, the
    population dictionary built from [neighborhoods_df] is not used, and
    the measured execution time is not modelled. *)
Definition optimize_transit_connections (bus_stops metro_stations : list string)
    (neighborhoods_df : list NeighborhoodRow) (public_demand_df : list DemandRow)
    : Res (list Connection) :=
  potential_connections ← potential_connections_of bus_stops metro_stations
                            public_demand_df;
  let potential_connections := sort_by_key score_gt potential_connections in
  Ok (take 10 potential_connections).


(** What the loops append for the bus stop [b] and the metro station
    [m]. *)
Definition produced (demand_matrix : list (string * string * Q))
    (b m : string) (c : Connection) : Prop :=
  exists nd bus_pos,
    has_node G b = true /\ node_data G b = Some nd /\ pos nd = Some bus_pos /\
    connection_for demand_matrix b bus_pos m = Ok (Some c).

Hypothesis distance_nonneg : forall x1 y1 x2 y2, 0 <= distance_calc x1 y1 x2 y2.

Lemma connection_for_returns demand_matrix b bus_pos m :
  exists o, connection_for demand_matrix b bus_pos m = Ok o.
Proof using distance_nonneg.
  unfold connection_for.
  destruct (negb (has_node G m) || bool_decide (b = m)) eqn:E; [eauto|].
  apply orb_false_iff in E as [Hm _]. apply negb_false_iff in Hm.
  apply bool_decide_eq_true_1 in Hm.
  destruct (AStar.node_data_is_Some G m Hm) as [nd ->]. simpl.
  destruct (pos nd) as [metro_pos|]; [|eauto].
  destruct (has_edge G b m); [eauto|].
  destruct (Qltb 1000 _); [eauto|].
  destruct (Qeq_bool _ 0) eqn:Ez; [|eauto].
  apply Qeq_bool_eq in Ez.
  pose proof (distance_nonneg bus_pos.1 bus_pos.2 metro_pos.1 metro_pos.2). lra.
Qed.

Lemma metro_loop demand_matrix b bus_pos ms : forall acc,
  exists acc',
    foldM (fun metro_station potential_connections =>
             c ← connection_for demand_matrix b bus_pos metro_station;
             Ok (match c with
                 | Some c => potential_connections ++ [c]
                 | None => potential_connections
                 end)) ms acc = Ok acc' /\
    forall c, c ∈ acc' <->
      c ∈ acc \/ exists m, m ∈ ms /\ connection_for demand_matrix b bus_pos m = Ok (Some c).
Proof using distance_nonneg.
  induction ms as [|m ms IH]; intros acc.
  - exists acc. split; [reflexivity|]. intros c. split; [auto|].
    intros [H|(m & Hm & _)]; [exact H | inversion Hm].
  - destruct (connection_for_returns demand_matrix b bus_pos m) as [o Ho].
    rewrite foldM_cons, Ho, !bind_Ok.
    destruct (IH (match o with Some c => acc ++ [c] | None => acc end))
      as (acc' & Hf & Hiff).
    exists acc'. split; [exact Hf|]. intros c. rewrite Hiff. split.
    + intros [H|(m' & Hm' & Hc)].
      * destruct o as [c0|]; [|auto]. apply elem_of_app in H as [H|H]; [auto|].
        apply list_elem_of_singleton in H. subst c0. right. exists m.
        split; [apply list_elem_of_here | exact Ho].
      * right. exists m'. split; [apply list_elem_of_further, Hm' | exact Hc].
    + intros [H|(m' & Hm' & Hc)].
      * left. destruct o; [apply elem_of_app; auto | exact H].
      * apply elem_of_cons in Hm' as [->|Hm'].
        { left. rewrite Hc in Ho. injection Ho as <-. apply elem_of_app. right.
          apply list_elem_of_here. }
        right. eauto.
Qed.

Lemma bus_loop demand_matrix ms bs : forall acc,
  exists acc',
    foldM (connections_of_stop demand_matrix ms) bs acc = Ok acc' /\
    forall c, c ∈ acc' <->
      c ∈ acc \/ exists b m, b ∈ bs /\ m ∈ ms /\ produced demand_matrix b m c.
Proof using distance_nonneg.
  induction bs as [|b bs IH]; intros acc.
  - exists acc. split; [reflexivity|]. intros c. split; [auto|].
    intros [H|(b & m & Hb & _)]; [exact H | inversion Hb].
  - assert (Hstop : exists acc1,
              connections_of_stop demand_matrix ms b acc = Ok acc1 /\
              forall c, c ∈ acc1 <->
                c ∈ acc \/ exists m, m ∈ ms /\ produced demand_matrix b m c).
    { unfold connections_of_stop, produced.
      destruct (has_node G b) eqn:Hb; simpl.
      - apply bool_decide_eq_true_1 in Hb.
        destruct (AStar.node_data_is_Some G b Hb) as [nd Hnd]. rewrite Hnd. simpl.
        destruct (pos nd) as [bus_pos|] eqn:Hpos.
        + destruct (metro_loop demand_matrix b bus_pos ms acc) as (acc1 & Hf & Hiff).
          exists acc1. split; [exact Hf|]. intros c. rewrite Hiff. split.
          * intros [H|(m & Hm & Hc)]; [auto|]. right. exists m. split; [exact Hm|].
            exists nd, bus_pos. auto.
          * intros [H|(m & Hm & nd' & bp & _ & E1 & E2 & Hc)]; [auto|].
            injection E1 as <-. rewrite Hpos in E2. injection E2 as <-.
            right. eauto.
        + exists acc. split; [reflexivity|]. intros c. split; [auto|].
          intros [H|(m & _ & nd' & bp & _ & E1 & E2 & _)]; [exact H|].
          injection E1 as <-. rewrite Hpos in E2. discriminate.
      - exists acc. split; [reflexivity|]. intros c. split; [auto|].
        intros [H|(m & _ & nd' & bp & E & _)]; [exact H | discriminate]. }
    destruct Hstop as (acc1 & Hs & Hiff1).
    destruct (IH acc1) as (acc' & Hf & Hiff).
    exists acc'. rewrite foldM_cons, Hs, bind_Ok. split; [exact Hf|].
    intros c. rewrite Hiff, Hiff1. split.
    + intros [[H|(m & Hm & Hp)]|(b' & m & Hb' & Hm & Hp)]; [auto| |].
      * right. exists b, m. split; [apply list_elem_of_here | auto].
      * right. exists b', m. split; [apply list_elem_of_further, Hb' | auto].
    + intros [H|(b' & m & Hb' & Hm & Hp)]; [auto|].
      apply elem_of_cons in Hb' as [->|Hb']; [left; right; eauto | right; eauto].
Qed.

(** Scores never increase along the list. *)
Fixpoint descending (l : list Connection) : Prop :=
  match l with
  | [] => True
  | a :: l' => (forall b, b ∈ l' -> score b <= score a) /\ descending l'
  end.

Lemma insert_by_score_sorted (x : Connection) (l : list Connection) :
  descending l -> descending (insert_by_key score_gt x l).
Proof.
  induction l as [|y l IH]; intros Hd; simpl; [split; [intros b Hb; inversion Hb | exact I]|].
  destruct Hd as [Hall Hd].
  unfold score_gt at 1, Qltb. destruct (Qlt_le_dec (score x) (score y)) as [Hlt|Hle].
  - split; [|apply IH, Hd]. intros z Hz.
    apply insert_by_key_elem in Hz as [->|Hz]; [lra | apply Hall, Hz].
  - split; [|split; assumption].
    intros z [->|Hz]%elem_of_cons; [exact Hle|]. specialize (Hall z Hz). lra.
Qed.

Lemma sort_by_score_sorted (l : list Connection) : descending (sort_by_key score_gt l).
Proof.
  induction l as [|x l IH]; [exact I|]. apply insert_by_score_sorted, IH.
Qed.

Lemma descending_app (l1 l2 : list Connection) :
  descending (l1 ++ l2) ->
  descending l1 /\ forall a b, a ∈ l1 -> b ∈ l2 -> score b <= score a.
Proof.
  induction l1 as [|x l1 IH]; simpl.
  - intros _. split; [exact I|]. intros a b Ha. inversion Ha.
  - intros [Hall Hd]. destruct (IH Hd) as [Hd1 Hcross]. split.
    + split; [|exact Hd1]. intros b Hb. apply Hall, elem_of_app. auto.
    + intros a b [->|Ha]%elem_of_cons Hb; [apply Hall, elem_of_app; auto | auto].
Qed.

Lemma descending_lookup (l : list Connection) :
  descending l ->
  forall i j a b, (i < j)%nat -> l !! i = Some a -> l !! j = Some b -> score b <= score a.
Proof.
  induction l as [|y l IH]; intros Hd i j a b Hij Ha Hb.
  - rewrite lookup_nil in Ha. discriminate.
  - destruct Hd as [Hall Hd]. destruct j as [|j]; [lia|]. simpl in Hb. destruct i as [|i].
    + simpl in Ha. injection Ha as <-. apply Hall. eapply list_elem_of_lookup_2, Hb.
    + simpl in Ha. apply (IH Hd i j a b); [lia | exact Ha | exact Hb].
Qed.

(** The result: the candidates in descending order of score, cut after
    the tenth. *)
Lemma optimize_transit_connections_spec bus_stops metro_stations neighborhoods_df
    public_demand_df :
  exists all,
    optimize_transit_connections bus_stops metro_stations neighborhoods_df
      public_demand_df = Ok (take 10 all) /\
    descending all /\
    forall c, c ∈ all <->
      exists b m, b ∈ bus_stops /\ m ∈ metro_stations /\
        produced (demand_matrix_of public_demand_df) b m c.
Proof using distance_nonneg.
  unfold optimize_transit_connections, potential_connections_of.
  destruct (bus_loop (demand_matrix_of public_demand_df) metro_stations bus_stops [])
    as (l & Hl & Hiff).
  rewrite Hl, bind_Ok. exists (sort_by_key score_gt l).
  split; [reflexivity|]. split; [apply sort_by_score_sorted|].
  intros c. rewrite sort_by_key_elem, Hiff. split; [|auto].
  intros [H|H]; [inversion H | exact H].
Qed.

Lemma node_data_in (n : string) (nd : NodeData) :
  node_data G n = Some nd -> n ∈ node_ids G.
Proof.
  unfold node_data. intros H.
  destruct (List.find (fun p => String.eqb p.1 n) (g_nodes G)) as [[n' nd']|] eqn:F;
    [|discriminate].
  apply List.find_some in F as [Hin Heq]. simpl in Heq. apply String.eqb_eq in Heq.
  subst n'. apply list_elem_of_fmap. exists (n, nd'). split; [reflexivity|].
  apply list_elem_of_In, Hin.
Qed.

(** What a candidate connection is: a bus stop and a different metro
    station, both nodes with a position, not joined by an edge, at most
    1000 m apart, scored by demand over distance plus 100. *)
Definition candidate_connection (demand_matrix : list (string * string * Q))
    (b m : string) (c : Connection) : Prop :=
  bus_stop c = b /\ metro_station c = m /\ b <> m /\
  edges_between G b m = [] /\
  exists bus_pos metro_pos,
    node_data G b ≫= pos = Some bus_pos /\ node_data G m ≫= pos = Some metro_pos /\
    separation c = distance_calc bus_pos.1 bus_pos.2 metro_pos.1 metro_pos.2 /\
    separation c <= 1000 /\
    demand c = connection_demand demand_matrix b m /\
    score c = demand c / (separation c + 100).

Lemma produced_candidate demand_matrix b m c :
  produced demand_matrix b m c -> candidate_connection demand_matrix b m c.
Proof.
  intros (nd & bus_pos & Hb & Hnd & Hpos & Hc). unfold connection_for in Hc.
  destruct (negb (has_node G m) || bool_decide (b = m)) eqn:E; [discriminate|].
  apply orb_false_iff in E as [Hm Hbm]. apply bool_decide_eq_false_1 in Hbm.
  destruct (node_data G m) as [nm|] eqn:Hnm; [|discriminate]. simpl in Hc.
  destruct (pos nm) as [metro_pos|] eqn:Hpm; [|discriminate].
  destruct (has_edge G b m) eqn:He; [discriminate|].
  destruct (Qltb 1000 _) eqn:Hd; [discriminate|].
  destruct (Qeq_bool _ 0); [discriminate|]. injection Hc as <-. simpl.
  split; [reflexivity|]. split; [reflexivity|]. split; [exact Hbm|].
  split; [unfold has_edge in He; destruct (edges_between G b m); [reflexivity|discriminate]|].
  exists bus_pos, metro_pos. rewrite Hnd, Hnm. simpl.
  split; [exact Hpos|]. split; [exact Hpm|]. split; [reflexivity|].
  split; [|auto]. unfold Qltb in Hd. destruct (Qlt_le_dec 1000 _); [discriminate|assumption].
Qed.

Lemma candidate_produced demand_matrix b m bus_pos metro_pos :
  b <> m -> edges_between G b m = [] ->
  node_data G b ≫= pos = Some bus_pos -> node_data G m ≫= pos = Some metro_pos ->
  distance_calc bus_pos.1 bus_pos.2 metro_pos.1 metro_pos.2 <= 1000 ->
  exists c,
    produced demand_matrix b m c /\
    score c = connection_demand demand_matrix b m /
              (distance_calc bus_pos.1 bus_pos.2 metro_pos.1 metro_pos.2 + 100).
Proof using distance_nonneg.
  intros Hbm He Hpb Hpm Hd.
  destruct (node_data G b) as [nb|] eqn:Hnb; [|discriminate]. simpl in Hpb.
  destruct (node_data G m) as [nm|] eqn:Hnm; [|discriminate]. simpl in Hpm.
  pose proof (node_data_in b nb Hnb) as Hbn. pose proof (node_data_in m nm Hnm) as Hmn.
  eexists. split.
  - exists nb, bus_pos. split; [apply bool_decide_eq_true_2, Hbn|].
    split; [exact Hnb|]. split; [exact Hpb|]. unfold connection_for, has_node.
    rewrite (bool_decide_eq_true_2 _ Hmn), (bool_decide_eq_false_2 _ Hbm). simpl.
    rewrite Hnm. simpl. rewrite Hpm. unfold has_edge. rewrite He.
    unfold Qltb. destruct (Qlt_le_dec 1000 _) as [Hlt|_]; [lra|].
    destruct (Qeq_bool _ 0) eqn:Ez; [|reflexivity].
    apply Qeq_bool_eq in Ez.
    pose proof (distance_nonneg bus_pos.1 bus_pos.2 metro_pos.1 metro_pos.2). lra.
  - reflexivity.
Qed.

End Transit.

(** X25: with distances of at least zero, [optimize_transit_connections]
    raises nothing and recommends at most ten connections, in descending
    order of score; each joins a bus stop of the given set to a different
    metro station of the given set, both nodes with a position, not yet
    joined by an edge and at most 1000 m apart, and its score is its demand
    divided by its distance plus 100. *)
Theorem recommended_connections_are_candidates G distance_calc
    bus_stops metro_stations neighborhoods_df public_demand_df :
  (forall x1 y1 x2 y2, 0 <= distance_calc x1 y1 x2 y2) ->
  exists recommended,
    optimize_transit_connections G distance_calc bus_stops metro_stations
      neighborhoods_df public_demand_df = Ok recommended /\
    (length recommended <= 10)%nat /\
    (forall i j a b, (i < j)%nat ->
       recommended !! i = Some a -> recommended !! j = Some b -> score b <= score a) /\
    forall c, c ∈ recommended ->
      bus_stop c ∈ bus_stops /\ metro_station c ∈ metro_stations /\
      candidate_connection G distance_calc (demand_matrix_of public_demand_df)
        (bus_stop c) (metro_station c) c.
Proof.
  intros Hnn.
  destruct (optimize_transit_connections_spec G distance_calc Hnn bus_stops
              metro_stations neighborhoods_df public_demand_df)
    as (all & Hopt & Hsorted & Hiff).
  exists (take 10 all). split; [exact Hopt|].
  split; [rewrite length_take; lia|]. split.
  - apply descending_lookup.
    rewrite <- (take_drop 10 all) in Hsorted. apply (descending_app _ _ Hsorted).
  - intros c Hc. assert (Hin : c ∈ all).
    { rewrite <- (take_drop 10 all). apply elem_of_app. auto. }
    apply Hiff in Hin as (b & m & Hb & Hm & Hp).
    pose proof (produced_candidate G distance_calc _ b m c Hp) as Hcand.
    destruct Hcand as (Eb & Em & Hrest). subst b m.
    split; [exact Hb|]. split; [exact Hm|]. split; [reflexivity|].
    split; [reflexivity | exact Hrest].
Qed.

Lemma recommended_connections_are_candidates_witness :
  exists recommended,
    optimize_transit_connections (two_places bus 1000 1000) (fun _ _ _ _ => 0)
      ["a"%string] ["b"%string] [] [] = Ok recommended /\
    (length recommended <= 10)%nat /\
    (forall i j a b, (i < j)%nat ->
       recommended !! i = Some a -> recommended !! j = Some b -> score b <= score a) /\
    forall c, c ∈ recommended ->
      bus_stop c ∈ ["a"%string] /\ metro_station c ∈ ["b"%string] /\
      candidate_connection (two_places bus 1000 1000) (fun _ _ _ _ => 0)
        (demand_matrix_of []) (bus_stop c) (metro_station c) c.
Proof.
  apply (recommended_connections_are_candidates (two_places bus 1000 1000)
           (fun _ _ _ _ => 0) ["a"%string] ["b"%string] [] []).
  intros x1 y1 x2 y2. apply Qle_refl.
Defined.

(** Two stations with a position and no edge between them, and the demand
    of one pair of places. *)
Definition two_stations : Graph :=
  {| g_nodes := [("s1"%string, mkNodeData (Some "Stop"%string) None
                                 (Some "bus_stop"%string) (Some (0, 0)));
                 ("s2"%string, mkNodeData (Some "Station"%string) None
                                 (Some "metro_station"%string) (Some (0, 0)))];
     g_edges := [] |}.

Definition one_demand : list DemandRow :=
  [ {| dm_FromID := "s1"; dm_ToID := "n1"; dm_Daily_Passengers := 1000 |} ].

(** X26: no connection better than the recommended ones is left out:
    with distances of at least zero, every bus stop and different metro
    station of the given sets that have positions, are not joined by an
    edge and are at most 1000 m apart is either recommended, or ten
    connections are recommended and each of them has a score at least as
    high. *)
Theorem no_better_connection_left_out G distance_calc
    bus_stops metro_stations neighborhoods_df public_demand_df b m bus_pos metro_pos :
  (forall x1 y1 x2 y2, 0 <= distance_calc x1 y1 x2 y2) ->
  b ∈ bus_stops -> m ∈ metro_stations -> b <> m ->
  edges_between G b m = [] ->
  node_data G b ≫= pos = Some bus_pos -> node_data G m ≫= pos = Some metro_pos ->
  distance_calc bus_pos.1 bus_pos.2 metro_pos.1 metro_pos.2 <= 1000 ->
  exists recommended,
    optimize_transit_connections G distance_calc bus_stops metro_stations
      neighborhoods_df public_demand_df = Ok recommended /\
    ((exists c, c ∈ recommended /\ bus_stop c = b /\ metro_station c = m) \/
     (length recommended = 10%nat /\
      forall r, r ∈ recommended ->
        connection_demand (demand_matrix_of public_demand_df) b m /
        (distance_calc bus_pos.1 bus_pos.2 metro_pos.1 metro_pos.2 + 100) <= score r)).
Proof.
  intros Hnn Hb Hm Hbm He Hpb Hpm Hd.
  destruct (optimize_transit_connections_spec G distance_calc Hnn bus_stops
              metro_stations neighborhoods_df public_demand_df)
    as (all & Hopt & Hsorted & Hiff).
  exists (take 10 all). split; [exact Hopt|].
  destruct (candidate_produced G distance_calc Hnn (demand_matrix_of public_demand_df)
              b m bus_pos metro_pos Hbm He Hpb Hpm Hd) as (c & Hp & Hscore).
  assert (Hin : c ∈ all) by (apply Hiff; eauto).
  destruct (produced_candidate G distance_calc _ b m c Hp) as (Eb & Em & _).
  rewrite <- (take_drop 10 all) in Hin. apply elem_of_app in Hin as [Hin|Hin].
  - left. eauto.
  - right. split.
    + rewrite length_take. apply list_elem_of_lookup in Hin as [i Hi].
      apply lookup_lt_Some in Hi. rewrite length_drop in Hi. lia.
    + intros r Hr. rewrite <- Hscore.
      rewrite <- (take_drop 10 all) in Hsorted.
      apply (proj2 (descending_app _ _ Hsorted) r c Hr Hin).
Qed.

Lemma no_better_connection_left_out_witness :
  exists recommended,
    optimize_transit_connections two_stations (fun _ _ _ _ => 0)
      ["s1"%string] ["s2"%string] [] one_demand = Ok recommended /\
    ((exists c, c ∈ recommended /\ bus_stop c = "s1"%string /\
                metro_station c = "s2"%string) \/
     (length recommended = 10%nat /\
      forall r, r ∈ recommended ->
        connection_demand (demand_matrix_of one_demand) "s1" "s2" / (0 + 100)
        <= score r)).
Proof.
  apply (no_better_connection_left_out two_stations (fun _ _ _ _ => 0)
           ["s1"%string] ["s2"%string] [] one_demand "s1" "s2" (0, 0) (0, 0)).
  - intros x1 y1 x2 y2. apply Qle_refl.
  - apply list_elem_of_here.
  - apply list_elem_of_here.
  - discriminate.
  - reflexivity.
  - reflexivity.
  - reflexivity.
  - discriminate.
Defined.
